(** * Track-My-Poo: sewer-network path tracing

    A shallow embedding of the graph-traversal core of the web client
    (the successive [App.jsx] variants of the repository) and the
    properties of it that the specification states.

    JavaScript numbers are IEEE doubles.  Every comparison, [Math.max] and
    [Math.min] on them is exact, so a number is modelled by its value
    ([jsnum]: a rational, an infinity or NaN).  Arithmetic that rounds, the
    transcendental functions, [parseFloat], number printing and the letter
    case of strings ([toUpperCase], [toLowerCase], which follow the Unicode
    case tables) are builtins of the runtime, not code of the repository:
    they are the fields of the [Runtime] class, and every theorem holds for
    every interpretation of them.  A string is the sequence of the bytes of
    its UTF-8 encoding; the white space of [trim] and of [\s] is the white
    space of ECMAScript, in and outside ASCII. *)

From Stdlib Require Import ZArith QArith Qabs Qround List Bool Ascii String Lia.
From Stdlib Require Import Sorting.Permutation Lqa.
From stdpp Require Import base option list gmap sets strings pretty sorting.

Set Default Proof Using "Type".
Set Warnings "-clear-no-such-hyp".

(** ** JavaScript values *)

Inductive jsnum : Type :=
| Fin (q : Q)
| PInf
| NInf
| NaN.

Inductive jsval : Type :=
| JUndef
| JNull
| JBool (b : bool)
| JNum (n : jsnum)
| JStr (s : string).

(** [a < b] on numbers; any comparison with NaN is false. *)
Definition jslt (a b : jsnum) : bool :=
  match a, b with
  | NaN, _ | _, NaN => false
  | Fin x, Fin y => if Qlt_le_dec x y then true else false
  | NInf, NInf => false
  | NInf, _ => true
  | _, PInf => match a with PInf => false | _ => true end
  | _, _ => false
  end.

(** [a <= b] on numbers. *)
Definition jsle (a b : jsnum) : bool :=
  match a, b with
  | NaN, _ | _, NaN => false
  | Fin x, Fin y => Qle_bool x y
  | NInf, _ => true
  | _, PInf => true
  | _, _ => false
  end.

Definition jsgt (a b : jsnum) : bool := jslt b a.
Definition jsge (a b : jsnum) : bool := jsle b a.

(** [a === b] on numbers. *)
Definition jseq (a b : jsnum) : bool :=
  match a, b with
  | Fin x, Fin y => Qeq_bool x y
  | PInf, PInf | NInf, NInf => true
  | _, _ => false
  end.

(** [Math.max] and [Math.min] of two numbers. *)
Definition js_max (a b : jsnum) : jsnum :=
  match a, b with
  | NaN, _ | _, NaN => NaN
  | _, _ => if jslt a b then b else a
  end.

Definition js_min (a b : jsnum) : jsnum :=
  match a, b with
  | NaN, _ | _, NaN => NaN
  | _, _ => if jslt b a then b else a
  end.

(** Truthiness of a number: 0 and NaN are falsy. *)
Definition num_truthy (n : jsnum) : bool :=
  match n with
  | Fin q => negb (Qeq_bool q 0%Q)
  | PInf | NInf => true
  | NaN => false
  end.

Definition truthy (v : jsval) : bool :=
  match v with
  | JUndef | JNull => false
  | JBool b => b
  | JNum n => num_truthy n
  | JStr s => negb (String.eqb s "")
  end.

(** [a || b] and [a ?? b]. *)
Definition js_or (a b : jsval) : jsval := if truthy a then a else b.

Definition js_nullish (a b : jsval) : jsval :=
  match a with
  | JUndef | JNull => b
  | _ => a
  end.

(** ** The runtime's builtins *)

Class Runtime : Type := {
  parseFloat : string -> jsnum;
  numToString : jsnum -> string;
  fadd : jsnum -> jsnum -> jsnum;
  fsub : jsnum -> jsnum -> jsnum;
  fmul : jsnum -> jsnum -> jsnum;
  fdiv : jsnum -> jsnum -> jsnum;
  fmod : jsnum -> jsnum -> jsnum;
  fabs : jsnum -> jsnum;
  fsqrt : jsnum -> jsnum;
  fcos : jsnum -> jsnum;
  fsin : jsnum -> jsnum;
  ftan : jsnum -> jsnum;
  flog : jsnum -> jsnum;
  fatan2 : jsnum -> jsnum -> jsnum;
  fround : jsnum -> jsnum;
  ffloor : jsnum -> jsnum;
  fPI : jsnum;
  toUpperCase : string -> string;
  toLowerCase : string -> string
}.

(** An interpretation of the builtins over the rationals, for evaluating the
    definitions on examples: exact field operations, a square root that is
    exact on squares, first-order stand-ins for the transcendental
    functions, and the letter case of ASCII and Latin-1 (with the sharp s,
    whose upper case is SS, and the Kelvin sign, whose lower case is k);
    other letters are left as they are. *)
Definition q_lift2 (f : Q -> Q -> Q) (a b : jsnum) : jsnum :=
  match a, b with
  | Fin x, Fin y => Fin (Qred (f x y))
  | _, _ => NaN
  end.

Definition q_lift1 (f : Q -> Q) (a : jsnum) : jsnum :=
  match a with
  | Fin x => Fin (Qred (f x))
  | _ => NaN
  end.

Definition q_floor (x : Q) : Q := inject_Z (Qfloor x).
Definition q_round (x : Q) : Q := inject_Z (Qfloor (x + (1 # 2))%Q).
Definition q_mod (x y : Q) : Q :=
  if Qeq_bool y 0 then 0%Q else (x - y * inject_Z (Qfloor (x / y)))%Q.

(** The square root rounded down to the denominator of its argument: exact
    on the squares. *)
Definition q_sqrt (x : Q) : Q :=
  Qmake (Z.sqrt (Qnum x * Zpos (Qden x))) (Qden x).

Definition q_print (n : jsnum) : string :=
  match n with
  | Fin q =>
      match Qred q with
      | Qmake (Zpos p) d => pretty (Zpos p) +:+ "/" +:+ pretty (Zpos d)
      | Qmake Z0 _ => "0"
      | Qmake (Zneg p) d => "-" +:+ pretty (Zpos p) +:+ "/" +:+ pretty (Zpos d)
      end
  | PInf => "Infinity"
  | NInf => "-Infinity"
  | NaN => "NaN"
  end.

Definition upper_char (c : ascii) : ascii :=
  let n := nat_of_ascii c in
  if ((97 <=? n)%nat && (n <=? 122)%nat) then ascii_of_nat (n - 32) else c.

Definition lower_char (c : ascii) : ascii :=
  let n := nat_of_ascii c in
  if ((65 <=? n)%nat && (n <=? 90)%nat) then ascii_of_nat (n + 32) else c.

(** The second byte of a two-byte character whose first byte is 195
    (U+00C0..U+00FF): the small letters are U+00E0..U+00FE without the
    division sign U+00F7, 32 above their capitals. *)
Definition latin1_small (n : nat) : bool :=
  (160 <=? n)%nat && (n <=? 190)%nat && negb (n =? 183)%nat.

Definition latin1_capital (n : nat) : bool :=
  (128 <=? n)%nat && (n <=? 158)%nat && negb (n =? 151)%nat.

Fixpoint q_upper (l : list ascii) : list ascii :=
  match l with
  | [] => []
  | c0 :: l' =>
      match l' with
      | c1 :: l'' =>
          if (nat_of_ascii c0 =? 195)%nat && (nat_of_ascii c1 =? 159)%nat
          then "S"%char :: "S"%char :: q_upper l''
          else if (nat_of_ascii c0 =? 195)%nat && latin1_small (nat_of_ascii c1)
          then c0 :: ascii_of_nat (nat_of_ascii c1 - 32) :: q_upper l''
          else upper_char c0 :: q_upper l'
      | [] => [upper_char c0]
      end
  end.

Fixpoint q_lower (l : list ascii) : list ascii :=
  match l with
  | [] => []
  | c0 :: l' =>
      match l' with
      | c1 :: l'' =>
          if (nat_of_ascii c0 =? 195)%nat && latin1_capital (nat_of_ascii c1)
          then c0 :: ascii_of_nat (nat_of_ascii c1 + 32) :: q_lower l''
          else
            match l'' with
            | c2 :: l3 =>
                if (nat_of_ascii c0 =? 226)%nat && (nat_of_ascii c1 =? 132)%nat
                   && (nat_of_ascii c2 =? 170)%nat
                then "k"%char :: q_lower l3
                else lower_char c0 :: q_lower l'
            | [] => lower_char c0 :: q_lower l'
            end
      | [] => [lower_char c0]
      end
  end.

Definition planar : Runtime := {|
  parseFloat := fun _ => NaN;
  numToString := q_print;
  fadd := q_lift2 Qplus;
  fsub := q_lift2 Qminus;
  fmul := q_lift2 Qmult;
  fdiv := fun a b =>
    match b with
    | Fin y => if Qeq_bool y 0%Q then NaN else q_lift2 Qdiv a b
    | _ => NaN
    end;
  fmod := q_lift2 q_mod;
  fabs := q_lift1 Qabs;
  fsqrt := q_lift1 q_sqrt;
  fcos := q_lift1 (fun _ => 1%Q);
  fsin := q_lift1 (fun x => x);
  ftan := q_lift1 (fun x => x);
  flog := q_lift1 (fun x => (x - 1)%Q);
  fatan2 := q_lift2 (fun y x => (y - x)%Q);
  fround := q_lift1 q_round;
  ffloor := q_lift1 q_floor;
  fPI := Fin (355 # 113);
  toUpperCase := fun s => string_of_list_ascii (q_upper (list_ascii_of_string s));
  toLowerCase := fun s => string_of_list_ascii (q_lower (list_ascii_of_string s))
|}.

(** ** Data model: points, features and their property bag *)

(** A [{lat, lng}] object. *)
Record LL : Type := mkLL { lat : jsnum; lng : jsnum }.

(** A GeoJSON position [[lng, lat]]. *)
Definition position : Type := (jsnum * jsnum)%type.

Inductive geometry_t : Type :=
| LineString (coordinates : list position)
| MultiLineString (coordinates : list (list position))
| OtherGeometry.

(** The property bag of a feature: the attributes of the data set and the
    fields the loader derives (their names start with an underscore).
    [OBJECTID] holds [toNum(props.OBJECTID)], the integer identifier or null;
    [_nextObjectIds] is [None] when the field is not an array. *)
Record props : Type := mkProps {
  OBJECTID : option Z;
  SEWER_NAME : jsval;
  SEWERNAME : jsval;
  UPSTREAM_IL : jsval;
  DOWNSTREAM_IL : jsval;
  PIPE_LENGTH : jsval;
  PIPE_WIDTH : jsval;
  PIPE_HEIGHT : jsval;
  DIR : jsval;
  Dir : jsval;
  dir : jsval;
  DIRECTION : jsval;
  Direction : jsval;
  direction : jsval;
  _dir : jsval;
  _dir_source : jsval;
  _nextObjectIds : option (list Z);
  _v_half_mps : jsval;
  _segment_candidate_objectid : option Z;
  _sewer_name_norm : jsval;
  _flowEndLL : option LL;
  _downNodeKey : option string;
  _next_via_gap_bridge : bool
}.

(** The empty object [{}]. *)
Definition no_props : props := {|
  OBJECTID := None; SEWER_NAME := JUndef; SEWERNAME := JUndef;
  UPSTREAM_IL := JUndef; DOWNSTREAM_IL := JUndef; PIPE_LENGTH := JUndef;
  PIPE_WIDTH := JUndef; PIPE_HEIGHT := JUndef;
  DIR := JUndef; Dir := JUndef; dir := JUndef;
  DIRECTION := JUndef; Direction := JUndef; direction := JUndef;
  _dir := JUndef; _dir_source := JUndef; _nextObjectIds := None;
  _v_half_mps := JUndef; _segment_candidate_objectid := None;
  _sewer_name_norm := JUndef; _flowEndLL := None; _downNodeKey := None;
  _next_via_gap_bridge := false
|}.

Record feature : Type := mkFeature {
  geometry : option geometry_t;
  properties : option props
}.

(** [ft?.properties || {}] *)
Definition props_of (ft : option feature) : props :=
  match ft with
  | Some f => default no_props (properties f)
  | None => no_props
  end.

(** [Array.isArray(p._nextObjectIds) ? p._nextObjectIds : []] *)
Definition next_ids (p : props) : list Z := default [] (_nextObjectIds p).

(** The [byObjectId] map of the loader. *)
Abbreviation graph := (gmap Z feature).

(** A segment id or [null]. *)
Abbreviation oid := (option Z).

(** A call returns a value or throws (a [TypeError] on reading a field of
    [undefined]). *)
Inductive outcome (A : Type) : Type :=
| Returns (a : A)
| Throws.
Arguments Returns {A} a.
Arguments Throws {A}.

(** [arr.slice().sort(cmp)]: a stable sort; [after x y] says [cmp(x, y) > 0]. *)
Fixpoint sort_insert {A : Type} (after : A -> A -> bool) (x : A) (l : list A)
  : list A :=
  match l with
  | [] => [x]
  | y :: l' => if after x y then y :: sort_insert after x l' else x :: l
  end.

Fixpoint sort_by {A : Type} (after : A -> A -> bool) (l : list A) : list A :=
  match l with
  | [] => []
  | x :: l' => sort_insert after x (sort_by after l')
  end.

(** ** Strings *)

(** The white space of [trim] and of [\s] is the WhiteSpace and
    LineTerminator code points of ECMAScript: U+0009..U+000D and U+0020 (one
    byte each), U+00A0 (two bytes), and U+1680, U+2000..U+200A, U+2028,
    U+2029, U+202F, U+205F, U+3000 and U+FEFF (three bytes each). *)
Definition is_space (c : ascii) : bool :=
  let n := nat_of_ascii c in
  (n =? 32)%nat || ((9 <=? n)%nat && (n <=? 13)%nat).

Definition is_space2 (c0 c1 : ascii) : bool :=
  (nat_of_ascii c0 =? 194)%nat && (nat_of_ascii c1 =? 160)%nat.

Definition is_space3 (c0 c1 c2 : ascii) : bool :=
  let n0 := nat_of_ascii c0 in
  let n1 := nat_of_ascii c1 in
  let n2 := nat_of_ascii c2 in
  ((n0 =? 225)%nat && (n1 =? 154)%nat && (n2 =? 128)%nat)
  || ((n0 =? 226)%nat && (n1 =? 128)%nat
      && (((128 <=? n2)%nat && (n2 <=? 138)%nat)
          || (n2 =? 168)%nat || (n2 =? 169)%nat || (n2 =? 175)%nat))
  || ((n0 =? 226)%nat && (n1 =? 129)%nat && (n2 =? 159)%nat)
  || ((n0 =? 227)%nat && (n1 =? 128)%nat && (n2 =? 128)%nat)
  || ((n0 =? 239)%nat && (n1 =? 187)%nat && (n2 =? 191)%nat).

(** The number of bytes of the white-space character that [l] begins with,
    0 when it begins with none. *)
Definition space_width (l : list ascii) : nat :=
  match l with
  | [] => 0
  | c0 :: l1 =>
      if is_space c0 then 1
      else
        match l1 with
        | [] => 0
        | c1 :: l2 =>
            if is_space2 c0 c1 then 2
            else
              match l2 with
              | [] => 0
              | c2 :: _ => if is_space3 c0 c1 c2 then 3 else 0
              end
        end
  end.

(** The same for the white-space character that a string ends with, the
    bytes of the string given from its last to its first. *)
Definition space_width_end (r : list ascii) : nat :=
  if (space_width (rev (take 1 r)) =? 1)%nat then 1
  else if (space_width (rev (take 2 r)) =? 2)%nat then 2
  else if (space_width (rev (take 3 r)) =? 3)%nat then 3
  else 0.

(** [\w] *)
Definition is_word (c : ascii) : bool :=
  let n := nat_of_ascii c in
  ((48 <=? n)%nat && (n <=? 57)%nat) || ((65 <=? n)%nat && (n <=? 90)%nat)
  || ((97 <=? n)%nat && (n <=? 122)%nat) || (n =? 95)%nat.

(** The bytes that follow the white space [l] begins with; [skip] counts the
    bytes still to pass of a white-space character already recognised. *)
Fixpoint drop_spaces (width : list ascii -> nat) (skip : nat) (l : list ascii)
    : list ascii :=
  match l with
  | [] => []
  | _ :: l' =>
      match skip, width l with
      | S k, _ => drop_spaces width k l'
      | O, S k => drop_spaces width k l'
      | O, O => l
      end
  end.

(** [s.trim()] *)
Definition trim (s : string) : string :=
  string_of_list_ascii
    (rev (drop_spaces space_width_end 0
            (rev (drop_spaces space_width 0 (list_ascii_of_string s))))).

(** [s.replace(/\s+/g, " ")]: every maximal run of white space becomes one
    space. *)
Fixpoint collapse_spaces (in_run : bool) (skip : nat) (l : list ascii)
    : list ascii :=
  match l with
  | [] => []
  | c :: l' =>
      match skip, space_width l with
      | S k, _ => collapse_spaces true k l'
      | O, S k =>
          if in_run then collapse_spaces true k l'
          else " "%char :: collapse_spaces true k l'
      | O, O => c :: collapse_spaces false 0 l'
      end
  end.

(** [s.replace(/[^\w\s]/g, "")]: what is neither a word character nor white
    space is removed; [keep] counts the bytes still to keep of a white-space
    character already recognised. *)
Fixpoint strip_punct (keep : nat) (l : list ascii) : list ascii :=
  match l with
  | [] => []
  | c :: l' =>
      match keep, space_width l with
      | S k, _ => c :: strip_punct k l'
      | O, S k => c :: strip_punct k l'
      | O, O => if is_word c then c :: strip_punct 0 l' else strip_punct 0 l'
      end
  end.

Section Helpers.
Context {RT : Runtime}.

Local Infix "+." := fadd (at level 50, left associativity).
Local Infix "-." := fsub (at level 50, left associativity).
Local Infix "*." := fmul (at level 40, left associativity).
Local Infix "/." := fdiv (at level 40, left associativity).

(** [String(v)] *)
Definition js_string (v : jsval) : string :=
  match v with
  | JUndef => "undefined"
  | JNull => "null"
  | JBool true => "true"
  | JBool false => "false"
  | JNum n => numToString n
  | JStr s => s
  end.

Definition clamp (n a b : jsnum) : jsnum := js_max a (js_min b n).

(** [toNum]: the finite number a value denotes, or null. *)
Definition toNum (v : jsval) : option Q :=
  let n := match v with
           | JNum n => n
           | JStr s => parseFloat s
           | _ => NaN
           end in
  match n with
  | Fin q => Some q
  | _ => None
  end.

(** [toNum(v) || d] *)
Definition num_or (o : option Q) (d : jsnum) : jsnum :=
  match o with
  | Some q => if Qeq_bool q 0%Q then d else Fin q
  | None => d
  end.

Definition normaliseSewerName (v : jsval) : string :=
  trim (string_of_list_ascii
          (strip_punct 0
             (collapse_spaces false 0
                (list_ascii_of_string
                   (toUpperCase (js_string (js_or v (JStr ""))))))))%string.

Definition deg2rad (x : jsnum) : jsnum := x *. fPI /. Fin 180.

Definition metersBetween (a b : LL) : jsnum :=
  let lat1 := deg2rad (lat a) in
  let lat2 := deg2rad (lat b) in
  let dLat := lat2 -. lat1 in
  let dLng := (lng b -. lng a) *. fPI /. Fin 180 in
  let x := dLng *. fcos ((lat1 +. lat2) /. Fin 2) in
  let y := dLat in
  let R := Fin 6371000 in
  fsqrt (x *. x +. y *. y) *. R.

Definition bearingDeg (a b : LL) : jsnum :=
  let lat1 := deg2rad (lat a) in
  let lat2 := deg2rad (lat b) in
  let dLng := (lng b -. lng a) *. fPI /. Fin 180 in
  let y := fsin dLng *. fcos lat2 in
  let x := fcos lat1 *. fsin lat2 -. fsin lat1 *. fcos lat2 *. fcos dLng in
  let brng := fatan2 y x *. Fin 180 /. fPI in
  fmod (brng +. Fin 360) (Fin 360).

Definition angleDiffDeg (a b : jsnum) : jsnum :=
  let d := fmod (fabs (a -. b)) (Fin 360) in
  if jsgt d (Fin 180) then Fin 360 -. d else d.

Definition gridKey (pt : LL) (cellMeters : jsnum) : string :=
  let mPerDegLat := Fin 111320 in
  let mPerDegLng := Fin 111320 *. fcos (deg2rad (lat pt)) in
  let x := fround (lng pt *. mPerDegLng /. cellMeters) in
  let y := fround (lat pt *. mPerDegLat /. cellMeters) in
  (numToString x +:+ "," +:+ numToString y)%string.

Definition R_MERC : jsnum := Fin 6378137.

Definition mercatorMetersFromLngLat (lng lat : jsnum) : jsnum * jsnum :=
  let x := R_MERC *. lng *. fPI /. Fin 180 in
  let latClamped :=
    clamp lat (Fin (-(8505112878 # 100000000))) (Fin (8505112878 # 100000000)) in
  let y := R_MERC *. flog (ftan (fPI /. Fin 4 +. latClamped *. fPI /. Fin 360)) in
  (x, y).

Definition toLL (c : position) : LL := {| lat := snd c; lng := fst c |}.

End Helpers.

(** ** The DIR-only variant: greedy forward walk

    [chooseNextPipeDirOnly] and [buildPipePlanFromObjectId(.., maxHops)] of the
    variant whose connectivity comes from merged endpoint clusters. *)

Module DirOnly.
Section DirOnly.
Context {RT : Runtime}.

(** The longest part of a multi-part line (the first of the longest, and
    only parts of two points or more). *)
Definition longest_part (parts : list (list position)) : list position * Z :=
  foldl (fun '(best, bestLen) part =>
           if (length part <? 2)%nat then (best, bestLen)
           else if (bestLen <? Z.of_nat (length part))%Z
                then (part, Z.of_nat (length part))
                else (best, bestLen))
        ([], (-1)%Z) parts.

Definition flattenFeatureCoords (ft : option feature) : list LL :=
  match ft with
  | None => []
  | Some f =>
      match geometry f with
      | None => []
      | Some (LineString cs) => map toLL cs
      | Some (MultiLineString parts) =>
          let '(best, bestLen) := longest_part parts in
          if (0 <? bestLen)%Z then map toLL best else []
      | Some OtherGeometry => []
      end
  end.

Definition orderedCoordsForPipe (ft : option feature) : list LL :=
  let p := props_of ft in
  let coords := flattenFeatureCoords ft in
  if (length coords <? 2)%nat then []
  else
    let d := js_string (js_or (_dir p) (JStr "u_to_d")) in
    if String.eqb d "d_to_u" then rev coords else coords.

(** The bearing loop of [chooseNextPipeDirOnly]: [(bestId, bestDelta)]. *)
Definition bearing_step (byObjectId : graph) (currBrng : jsnum)
    (best : oid * jsnum) (id : Z) : oid * jsnum :=
  match orderedCoordsForPipe (byObjectId !! id) with
  | p0 :: p1 :: _ =>
      let candBrng := bearingDeg p0 p1 in
      let delta := angleDiffDeg currBrng candBrng in
      if jslt delta (snd best) then (Some id, delta) else best
  | _ => best
  end.

Definition chooseNextPipeDirOnly (nextIds : option (list Z)) (byObjectId : graph)
    (currOrderedCoords : list LL) (prevId : oid) (visited : gset Z)
  : outcome oid :=
  let ids0 := default [] nextIds in
  let ids1 := filter (fun id => Some id <> prevId /\ id ∉ visited) ids0 in
  let ids := if (0 <? length ids1)%nat then ids1
             else filter (fun id => Some id <> prevId) ids0 in
  match ids with
  | [] => Returns None
  | [id] => Returns (Some id)
  | _ =>
      let n := length currOrderedCoords in
      match currOrderedCoords !! (n - 2)%nat, currOrderedCoords !! (n - 1)%nat with
      | Some a, Some b =>
          let currBrng := bearingDeg a b in
          match fst (foldl (bearing_step byObjectId currBrng) (None, PInf) ids) with
          | Some bestId => Returns (Some bestId)
          | None => Returns (head (sort_by (fun x y => (0 <? x - y)%Z) ids))
          end
      | _, _ => Throws
      end
  end.

(** The state of the walk between two hops. *)
Record tracer : Type := mkTracer {
  plan : list LL;
  visited : gset Z;
  visitedCells : gset string;
  currentId : oid;
  prevId : oid;
  first : bool
}.

Inductive control : Type :=
| Next (s : tracer)
| Break (s : tracer)
| Raise.

(** Index of the vertex nearest to the snap point (the first of the
    nearest). *)
Definition nearest_step (startPoint : LL) (acc : nat * jsnum * nat) (pt : LL)
  : nat * jsnum * nat :=
  let '(nearestIdx, bestDist, i) := acc in
  let d := metersBetween startPoint pt in
  if jslt d bestDist then (i, d, S i) else (nearestIdx, bestDist, S i).

Definition nearestIdx (startPoint : LL) (ord : list LL) : nat :=
  fst (fst (foldl (nearest_step startPoint) (0%nat, PInf, 0%nat) ord)).

(** One vertex through the grid-cell filter. *)
Definition emit_cell (acc : list LL * gset string) (pt : LL)
  : list LL * gset string :=
  let k := gridKey pt (Fin 5) in
  if decide (k ∈ snd acc) then acc else (fst acc ++ [pt], {[k]} ∪ snd acc).

(** The same on a later segment: vertices closer than 0.2 m to [last], the
    plan's last point when the segment is entered, are skipped first. *)
Definition emit_join (lastPt : option LL) (acc : list LL * gset string) (pt : LL)
  : list LL * gset string :=
  match lastPt with
  | Some l =>
      if jslt (metersBetween l pt) (Fin (2 # 10)) then acc else emit_cell acc pt
  | None => emit_cell acc pt
  end.

(** One iteration of the [for (hop ...)] loop. *)
Definition hop (byObjectId : graph) (startPoint : option LL) (s : tracer)
  : control :=
  match currentId s with
  | None => Break s
  | Some cur =>
      if decide (cur ∈ visited s) then Break s
      else
        match byObjectId !! cur with
        | None => Break s
        | Some ft =>
            let visited' := {[cur]} ∪ visited s in
            let ord := orderedCoordsForPipe (Some ft) in
            if (length ord <? 2)%nat
            then Break (mkTracer (plan s) visited' (visitedCells s)
                          (currentId s) (prevId s) (first s))
            else
              let '(plan', cells', first') :=
                match first s, startPoint with
                | true, Some sp =>
                    let plan0 := plan s ++ [mkLL (lat sp) (lng sp)] in
                    let '(pl, cs) :=
                      foldl emit_cell (plan0, visitedCells s)
                        (drop (nearestIdx sp ord) ord) in
                    (pl, cs, false)
                | _, _ =>
                    let '(pl, cs) :=
                      foldl (emit_join (last (plan s))) (plan s, visitedCells s) ord in
                    (pl, cs, first s)
                end in
              let p := default no_props (properties ft) in
              let nextIds := next_ids p in
              match chooseNextPipeDirOnly (Some nextIds) byObjectId ord (prevId s)
                      visited' with
              | Throws => Raise
              | Returns nextId =>
                  Next (mkTracer plan' visited' cells' nextId (Some cur) first')
              end
        end
  end.

(** The loop, [maxHops] iterations at most; the second component counts the
    iterations entered. *)
Fixpoint hops (byObjectId : graph) (startPoint : option LL) (maxHops : nat)
    (s : tracer) : outcome (tracer * nat) :=
  match maxHops with
  | O => Returns (s, 0%nat)
  | S n =>
      match hop byObjectId startPoint s with
      | Break s' => Returns (s', 1%nat)
      | Raise => Throws
      | Next s' =>
          match hops byObjectId startPoint n s' with
          | Returns (t, k) => Returns (t, S k)
          | Throws => Throws
          end
      end
  end.

Definition start_state (startObjectId : oid) : tracer :=
  mkTracer [] ∅ ∅ startObjectId None true.

Definition trace (startObjectId : oid) (startPoint : option LL)
    (byObjectId : graph) (maxHops : nat) : outcome (tracer * nat) :=
  hops byObjectId startPoint maxHops (start_state startObjectId).

Definition buildPipePlanFromObjectId (startObjectId : oid)
    (startPoint : option LL) (byObjectId : graph) (maxHops : nat)
  : outcome (list LL) :=
  match trace startObjectId startPoint byObjectId maxHops with
  | Returns (t, _) => Returns (plan t)
  | Throws => Throws
  end.

End DirOnly.
End DirOnly.

(** ** Successor resolution by name, invert level and lookahead

    [chooseNextPipeLowestDownIL], [chooseNextPipeWithLookahead],
    [chooseBestByLookahead] and [lookaheadScore], as the geometry-order
    variants have them. *)

Module Lookahead.
Section Lookahead.
Context {RT : Runtime}.

(** [normaliseSewerName(p.SEWER_NAME || p.SEWERNAME)] *)
Definition name_of (p : props) : string :=
  normaliseSewerName (js_or (SEWER_NAME p) (SEWERNAME p)).

(** The filter callback of the same-name preference: [nm && nm === currentName]. *)
Definition same_name (byObjectId : graph) (currentName : string) (id : Z) : Prop :=
  let nm := name_of (props_of (byObjectId !! id)) in
  nm <> ""%string /\ nm = currentName.

#[global] Instance same_name_dec byObjectId currentName id :
  Decision (same_name byObjectId currentName id).
Proof. unfold same_name. apply _. Defined.

(** Step 1, the lowest downstream invert level: [(bestId, bestDown)], with
    [None] for the initial [Infinity]. *)
Definition lowest_step (byObjectId : graph) (best : oid * option Q) (id : Z)
  : oid * option Q :=
  match toNum (DOWNSTREAM_IL (props_of (byObjectId !! id))) with
  | Some d =>
      match snd best with
      | None => (Some id, Some d)
      | Some bestDown =>
          if Qlt_le_dec d bestDown then (Some id, Some d) else best
      end
  | None => best
  end.

(** Step 3, the longest pipe: [(bestLenId, bestLen)], with [None] for the
    initial [-Infinity]. *)
Definition longest_step (byObjectId : graph) (best : oid * option Q) (id : Z)
  : oid * option Q :=
  match toNum (PIPE_LENGTH (props_of (byObjectId !! id))) with
  | Some len =>
      match snd best with
      | None => (Some id, Some len)
      | Some bestLen =>
          if Qlt_le_dec bestLen len then (Some id, Some len) else best
      end
  | None => best
  end.

(** The candidates after the same-name preference. *)
Definition name_candidates (nextIds : list Z) (byObjectId : graph)
    (currentProps : props) : list Z :=
  let currentName := name_of currentProps in
  if decide (currentName = ""%string) then nextIds
  else
    let sameName := filter (same_name byObjectId currentName) nextIds in
    if (0 <? length sameName)%nat then sameName else nextIds.

(** [segCand && candidateIds.includes(segCand)] *)
Definition seg_candidate_usable (segCand : oid) (candidateIds : list Z) : bool :=
  match segCand with
  | Some c => bool_decide (c <> 0%Z /\ c ∈ candidateIds)
  | None => false
  end.

Definition chooseNextPipeLowestDownIL (nextIds : option (list Z))
    (byObjectId : graph) (currentProps : props) : oid :=
  match nextIds with
  | None | Some [] => None
  | Some nextIds =>
      let candidateIds := name_candidates nextIds byObjectId currentProps in
      match fst (foldl (lowest_step byObjectId) (None, None) candidateIds) with
      | Some bestId => Some bestId
      | None =>
          let segCand := _segment_candidate_objectid currentProps in
          if seg_candidate_usable segCand candidateIds then segCand
          else
            match fst (foldl (longest_step byObjectId) (None, None) candidateIds) with
            | Some bestLenId => Some bestLenId
            | None => head candidateIds
            end
      end
  end.

Definition set_of (o : oid) : gset Z :=
  match o with
  | Some z => {[z]}
  | None => ∅
  end.

(** The [while (id != null && hops < depth)] loop of [lookaheadScore];
    [fuel] is [depth - hops].  The result is [(total, hops)].  The variable
    [lastDown] of the source is written in the loop and never read. *)
Fixpoint lookahead_loop (byObjectId : graph) (visited : gset Z) (fuel : nat)
    (id prev : oid) (loc : gset Z) (total : Z) (hops : nat) : Z * nat :=
  match fuel, id with
  | S fuel', Some i =>
      if decide (i ∈ visited) then ((total + 50)%Z, hops)
      else if decide (i ∈ loc) then ((total + 200)%Z, hops)
      else
        match byObjectId !! i with
        | None => ((total + 100)%Z, hops)
        | Some ft =>
            let p := default no_props (properties ft) in
            let total' :=
              match toNum (DOWNSTREAM_IL p) with
              | None => (total + 2)%Z
              | Some _ => total
              end in
            let nextIds := next_ids p in
            let stepIds := filter (fun x => Some x <> prev) nextIds in
            let stepId :=
              if (0 <? length stepIds)%nat
              then chooseNextPipeLowestDownIL (Some stepIds) byObjectId p
              else None in
            lookahead_loop byObjectId visited fuel' stepId (Some i)
              ({[i]} ∪ loc) total' (S hops)
        end
  | _, _ => (total, hops)
  end.

Definition lookaheadScore (startId : Z) (byObjectId : graph) (currProps : props)
    (currId prevId : oid) (visited : gset Z) (depth : nat) : Z :=
  let '(total, hops) :=
    lookahead_loop byObjectId visited depth (Some startId) currId
      (set_of currId ∪ set_of prevId) 0%Z 0%nat in
  (total + (Z.of_nat depth - Z.of_nat hops) * 20)%Z.

(** The scoring loop of [chooseBestByLookahead]: [(bestId, bestScore)], with
    [None] for the initial [Infinity]. *)
Definition score_step (byObjectId : graph) (currProps : props)
    (currId prevId : oid) (visited : gset Z) (best : oid * option Z) (id : Z)
  : oid * option Z :=
  let score := lookaheadScore id byObjectId currProps currId prevId visited 10 in
  match snd best with
  | None => (Some id, Some score)
  | Some bestScore =>
      if (score <? bestScore)%Z then (Some id, Some score) else best
  end.

Definition chooseBestByLookahead (ids : list Z) (byObjectId : graph)
    (currProps : props) (currId prevId : oid) (visited : gset Z) : oid :=
  match ids with
  | [id] => Some id
  | _ =>
      match fst (foldl (score_step byObjectId currProps currId prevId visited)
                   (None, None) ids) with
      | Some bestId => Some bestId
      | None => chooseNextPipeLowestDownIL (Some ids) byObjectId currProps
      end
  end.

Definition chooseNextPipeWithLookahead (candidateIds : option (list Z))
    (byObjectId : graph) (currProps : props) (currId prevId : oid)
    (visited : gset Z) : oid :=
  let ids0 := default [] candidateIds in
  match ids0 with
  | [] => None
  | _ =>
      let idsNoPrev := filter (fun id => Some id <> prevId) ids0 in
      let idsBase := if (0 <? length idsNoPrev)%nat then idsNoPrev else ids0 in
      let idsUnvisited := filter (fun id => id ∉ visited) idsBase in
      let ids := if (0 <? length idsUnvisited)%nat then idsUnvisited else idsBase in
      match ids with
      | [id] => Some id
      | _ => chooseBestByLookahead ids byObjectId currProps currId prevId visited
      end
  end.

End Lookahead.
End Lookahead.

(** ** The geometry-order variants: depth-first search with backtracking

    Both variants run the same loop over a stack of frames, towards the
    target segments; they differ in how a frame's candidates are ordered
    and in how the path is turned into coordinates. *)

Module Dfs.

Definition TARGET_PIPE_IDS : gset Z := {[ 311851%Z; 311905%Z ]}.

(** A stack frame [{ id, prevId, idx, ordered }]; [ordered] is [None] until
    the frame's candidates have been computed. *)
Record frame : Type := mkFrame {
  f_id : Z;
  f_prevId : oid;
  f_idx : nat;
  f_ordered : option (list Z)
}.

(** The state of the search.  [frames] and [path] have their top (the last
    element of the arrays) first; [inPath] is the set kept beside [path]. *)
Record dfs : Type := mkDfs {
  frames : list frame;
  path : list Z;
  inPath : gset Z;
  found : bool
}.

Inductive control : Type :=
| Continue (s : dfs)
| Found (s : dfs)
| Stop (s : dfs).

(** [frames.pop(); inPath.delete(path.pop())] *)
Definition backtrack (s : dfs) : dfs :=
  mkDfs (tail (frames s)) (tail (path s))
        (match head (path s) with
         | Some x => inPath s ∖ {[x]}
         | None => inPath s
         end)
        (found s).

Section Loop.
Context (byObjectId : graph).
Context (choices : Z -> feature -> oid -> list Z).
Context (maxSteps : nat).

(** The loop test and, when it holds, one run of the body. *)
Definition step (s : dfs) : control :=
  match frames s with
  | [] => Stop s
  | top :: below =>
      if (maxSteps <=? length (path s))%nat then Stop s
      else
        match byObjectId !! f_id top with
        | None => Continue (backtrack s)
        | Some ft =>
            if decide (f_id top ∈ TARGET_PIPE_IDS)
            then Found (mkDfs (frames s) (path s) (inPath s) true)
            else
              let top1 :=
                match f_ordered top with
                | Some _ => top
                | None =>
                    mkFrame (f_id top) (f_prevId top) 0
                      (Some (choices (f_id top) ft (f_prevId top)))
                end in
              let ordered := default [] (f_ordered top1) in
              match ordered !! f_idx top1 with
              | None => Continue (backtrack s)
              | Some nextId =>
                  let top2 :=
                    mkFrame (f_id top1) (f_prevId top1) (S (f_idx top1))
                      (f_ordered top1) in
                  if decide (nextId ∈ inPath s)
                  then Continue (mkDfs (top2 :: below) (path s) (inPath s) (found s))
                  else
                    Continue
                      (mkDfs (mkFrame nextId (Some (f_id top)) 0 None :: top2 :: below)
                         (nextId :: path s) ({[nextId]} ∪ inPath s) (found s))
              end
        end
  end.

(** The [while] loop.  [None]: the fuel ran out before the loop ended.
    The second component counts the runs of the body. *)
Fixpoint loop (fuel : nat) (s : dfs) : option (dfs * nat) :=
  match fuel with
  | O => None
  | S fuel' =>
      match step s with
      | Stop s' => Some (s', 0%nat)
      | Found s' => Some (s', 1%nat)
      | Continue s' =>
          match loop fuel' s' with
          | Some (t, k) => Some (t, S k)
          | None => None
          end
      end
  end.

Definition seed (startObjectId : Z) : dfs :=
  mkDfs [mkFrame startObjectId None 0 None] [startObjectId] {[startObjectId]} false.

End Loop.

(** An entry of the array [pickCandidateOrder] sorts. *)
Record scored : Type := mkScored {
  s_id : Z;
  s_sameName : bool;
  s_area : jsnum
}.

Section Order.
Context {RT : Runtime}.

(** [cmp(a, b) > 0] for the comparator of [pickCandidateOrder]: same name
    first, then the larger area, then the lower id.  The sign of a difference
    of two doubles is the sign of their comparison. *)
Definition order_after (a b : scored) : bool :=
  if negb (Bool.eqb (s_sameName b) (s_sameName a))
  then s_sameName b && negb (s_sameName a)
  else if negb (jseq (s_area b) (s_area a))
       then jslt (s_area a) (s_area b)
       else (s_id b <? s_id a)%Z.

(** [pushPoint]: a point enters the plan unless its grid cell is taken. *)
Definition pushPoint (acc : list LL * gset string) (pt : LL)
  : list LL * gset string :=
  let k := gridKey pt (Fin 5) in
  if decide (k ∈ snd acc) then acc else (fst acc ++ [pt], {[k]} ∪ snd acc).

Definition nearest_step (startPoint : LL) (acc : nat * jsnum * nat) (pt : LL)
  : nat * jsnum * nat :=
  let '(nearestIdx, bestDist, i) := acc in
  let d := metersBetween startPoint pt in
  if jslt d bestDist then (i, d, S i) else (nearestIdx, bestDist, S i).

Definition nearestIdx (startPoint : LL) (ord : list LL) : nat :=
  fst (fst (foldl (nearest_step startPoint) (0%nat, PInf, 0%nat) ord)).

End Order.
End Dfs.

(** *** The coordinate-graph variant (strict endpoint keys)

    This variant calls [flattenFeatureCoords] and does not define it; the
    function is a parameter here. *)

Module CoordGraph.
Section CoordGraph.
Context {RT : Runtime}.
Context (flattenFeatureCoords : option feature -> list LL).

Definition orderedCoordsForPipe (ft : option feature) : list LL :=
  flattenFeatureCoords ft.

(** [String(p.SEWER_NAME || p.SEWERNAME || "").trim()] *)
Definition raw_name (p : props) : string :=
  trim (js_string (js_or (js_or (SEWER_NAME p) (SEWERNAME p)) (JStr ""))).

Definition score (byObjectId : graph) (curName : string) (id : Z) : Dfs.scored :=
  let p := props_of (byObjectId !! id) in
  let name := raw_name p in
  let sameName :=
    negb (String.eqb curName "") && negb (String.eqb name "")
    && String.eqb name curName in
  let w := Fin (default 0%Q (toNum (PIPE_WIDTH p))) in
  let h := Fin (default 0%Q (toNum (PIPE_HEIGHT p))) in
  let area := fmul (js_max (Fin 0) w) (js_max (Fin 0) h) in
  Dfs.mkScored id sameName area.

Definition pickCandidateOrder (candidates : list Z) (byObjectId : graph)
    (currentFt : option feature) : list Z :=
  let curName := raw_name (props_of currentFt) in
  map Dfs.s_id (sort_by Dfs.order_after (map (score byObjectId curName) candidates)).

Definition getCandidates (ft : option feature) (prevId : oid) : list Z :=
  filter (fun id => Some id <> prevId) (next_ids (props_of ft)).

Definition choices (byObjectId : graph) (id : Z) (ft : feature) (prevId : oid)
  : list Z :=
  pickCandidateOrder (getCandidates (Some ft) prevId) byObjectId (Some ft).

(** A vertex closer than 0.2 m to the plan's last point is skipped, the
    others go through [pushPoint]. *)
Definition push_far (acc : list LL * gset string) (pt : LL)
  : list LL * gset string :=
  match last (fst acc) with
  | Some l =>
      if jslt (metersBetween l pt) (Fin (2 # 10)) then acc
      else Dfs.pushPoint acc pt
  | None => Dfs.pushPoint acc pt
  end.

(** The body of the [for (pi ...)] loop over the path. *)
Definition emit_pipe (byObjectId : graph) (startPoint : option LL)
    (acc : list LL * gset string) (pi : nat) (id : Z) : list LL * gset string :=
  match byObjectId !! id with
  | None => acc
  | Some ft =>
      let coords := orderedCoordsForPipe (Some ft) in
      if (length coords <? 2)%nat then acc
      else
        match pi, startPoint with
        | O, Some sp =>
            let acc1 := Dfs.pushPoint acc (mkLL (lat sp) (lng sp)) in
            foldl push_far acc1 (drop (Dfs.nearestIdx sp coords) coords)
        | _, _ => foldl push_far acc coords
        end
  end.

Fixpoint emit_path (byObjectId : graph) (startPoint : option LL)
    (acc : list LL * gset string) (pi : nat) (pipeIds : list Z)
  : list LL * gset string :=
  match pipeIds with
  | [] => acc
  | id :: rest =>
      emit_path byObjectId startPoint
        (emit_pipe byObjectId startPoint acc pi id) (S pi) rest
  end.

(** The coordinates of a path, its first segment first. *)
Definition plan_of_path (byObjectId : graph) (startPoint : option LL)
    (pipeIds : list Z) : list LL :=
  fst (emit_path byObjectId startPoint ([], ∅) 0 pipeIds).

(** The search: the final state and the number of loop iterations, or
    [None] when [fuel] iterations did not end the loop. *)
Definition search (fuel : nat) (startObjectId : Z) (byObjectId : graph)
    (maxSteps : nat) : option (Dfs.dfs * nat) :=
  Dfs.loop byObjectId (choices byObjectId) maxSteps fuel (Dfs.seed startObjectId).

Definition buildPipePlanFromObjectId (fuel : nat) (startObjectId : oid)
    (startPoint : option LL) (byObjectId : graph) (maxSteps : nat)
  : option (list LL) :=
  match startObjectId with
  | None => Some []
  | Some start =>
      match byObjectId !! start with
      | None => Some []
      | Some _ =>
          match search fuel start byObjectId maxSteps with
          | Some (s, _) =>
              Some (plan_of_path byObjectId startPoint (rev (Dfs.path s)))
          | None => None
          end
      end
  end.

End CoordGraph.
End CoordGraph.

(** *** The geometry-order variant (rounded endpoint keys) *)

Module GeomOrder.
Section GeomOrder.
Context {RT : Runtime}.

(** The parts of a multi-part line one after the other, without the points
    closer than 0.01 m to the one before. *)
Definition flatten_step (out : list LL) (c : position) : list LL :=
  let ll := toLL c in
  match last out with
  | Some l =>
      if jslt (metersBetween l ll) (Fin (1 # 100)) then out else out ++ [ll]
  | None => out ++ [ll]
  end.

Definition flatten_part (out : list LL) (part : list position) : list LL :=
  if (length part <? 2)%nat then out else foldl flatten_step out part.

Definition flattenFeatureCoords (ft : option feature) : list LL :=
  match ft with
  | None => []
  | Some f =>
      match geometry f with
      | None => []
      | Some (LineString cs) => map toLL cs
      | Some (MultiLineString parts) => foldl flatten_part [] parts
      | Some OtherGeometry => []
      end
  end.

Definition orderedCoordsForPipe (ft : option feature) : list LL :=
  let p := props_of ft in
  let d := js_string (js_or (_dir p) (JStr "u_to_d")) in
  let coords := flattenFeatureCoords ft in
  if String.eqb d "d_to_u" then rev coords else coords.

Definition pipeAreaScore (p : props) : jsnum :=
  let w := Fin (default 0%Q (toNum (PIPE_WIDTH p))) in
  match toNum (PIPE_HEIGHT p) with
  | None => fmul w w
  | Some h =>
      if Qeq_bool h 0%Q then fmul w w
      else fmul (js_max (Fin 0) w) (js_max (Fin 0) (Fin h))
  end.

Definition score (byObjectId : graph) (curName : string) (id : Z) : Dfs.scored :=
  let p := props_of (byObjectId !! id) in
  let name := Lookahead.name_of p in
  let sameName :=
    negb (String.eqb curName "") && negb (String.eqb name "")
    && String.eqb name curName in
  Dfs.mkScored id sameName (pipeAreaScore p).

Definition pickCandidateOrder (candidates : list Z) (byObjectId : graph)
    (currentFt : option feature) : list Z :=
  let curName := Lookahead.name_of (props_of currentFt) in
  map Dfs.s_id (sort_by Dfs.order_after (map (score byObjectId curName) candidates)).

Definition getChoices (byObjectId : graph) (id : Z) (prevId : oid) : list Z :=
  match byObjectId !! id with
  | None => []
  | Some ft =>
      let next := next_ids (default no_props (properties ft)) in
      let filtered :=
        match prevId with
        | Some _ => filter (fun x => Some x <> prevId) next
        | None => next
        end in
      pickCandidateOrder filtered byObjectId (Some ft)
  end.

Definition choices (byObjectId : graph) (id : Z) (ft : feature) (prevId : oid)
  : list Z :=
  getChoices byObjectId id prevId.

(** The body of the [for (i ...)] loop over the path. *)
Definition emit_pipe (byObjectId : graph) (startPoint : option LL)
    (acc : list LL * gset string) (i : nat) (id : Z) : list LL * gset string :=
  match byObjectId !! id with
  | None => acc
  | Some ft =>
      let ord := orderedCoordsForPipe (Some ft) in
      if (length ord <? 2)%nat then acc
      else
        match i, startPoint with
        | O, Some sp =>
            let acc1 := Dfs.pushPoint acc (mkLL (lat sp) (lng sp)) in
            foldl Dfs.pushPoint acc1 (drop (Dfs.nearestIdx sp ord) ord)
        | _, _ => foldl Dfs.pushPoint acc ord
        end
  end.

Fixpoint emit_path (byObjectId : graph) (startPoint : option LL)
    (acc : list LL * gset string) (i : nat) (pipeIds : list Z)
  : list LL * gset string :=
  match pipeIds with
  | [] => acc
  | id :: rest =>
      emit_path byObjectId startPoint
        (emit_pipe byObjectId startPoint acc i id) (S i) rest
  end.

Definition plan_of_path (byObjectId : graph) (startPoint : option LL)
    (pipeIds : list Z) : list LL :=
  fst (emit_path byObjectId startPoint ([], ∅) 0 pipeIds).

Definition search (fuel : nat) (startObjectId : Z) (byObjectId : graph)
    (maxSteps : nat) : option (Dfs.dfs * nat) :=
  Dfs.loop byObjectId (choices byObjectId) maxSteps fuel (Dfs.seed startObjectId).

Definition buildPipePlanFromObjectId (fuel : nat) (startObjectId : oid)
    (startPoint : option LL) (byObjectId : graph) (maxSteps : nat)
  : option (list LL) :=
  match startObjectId with
  | None => Some []
  | Some start =>
      match search fuel start byObjectId maxSteps with
      | Some (s, _) => Some (plan_of_path byObjectId startPoint (rev (Dfs.path s)))
      | None => None
      end
  end.

End GeomOrder.
End GeomOrder.

(** ** The loader's direction decision (DIR-only variant) *)

Module Loader.
Section Loader.
Context {RT : Runtime}.

Definition u_to_d_spellings : list string :=
  ["u_to_d"; "u-to-d"; "u to d"; "u2d"; "uto_d"]%string.

Definition d_to_u_spellings : list string :=
  ["d_to_u"; "d-to-u"; "d to u"; "d2u"; "dto_u"]%string.

(** [props?.DIR ?? props?.Dir ?? ... ?? null] *)
Definition raw_dir (p : props) : jsval :=
  js_nullish
    (js_nullish
       (js_nullish
          (js_nullish
             (js_nullish (js_nullish (DIR p) (Dir p)) (dir p))
             (DIRECTION p))
          (Direction p))
       (direction p))
    JNull.

Definition parseDirFromProps (p : props) : option string :=
  match raw_dir p with
  | JNull | JUndef => None
  | raw =>
      let v := toLowerCase (trim (js_string raw)) in
      if decide (v ∈ u_to_d_spellings) then Some "u_to_d"%string
      else if decide (v ∈ d_to_u_spellings) then Some "d_to_u"%string
      else None
  end.

(** The pair [(dir, dirSource)] the first pass computes for a feature. *)
Definition direction_decision (p : props) : string * string :=
  let dirFromData := parseDirFromProps p in
  let upIL := toNum (UPSTREAM_IL p) in
  let downIL := toNum (DOWNSTREAM_IL p) in
  match dirFromData with
  | Some d => (d, "DIR"%string)
  | None =>
      match upIL, downIL with
      | Some u, Some d =>
          (if Qle_bool d u then "u_to_d"%string else "d_to_u"%string, "IL"%string)
      | _, _ => ("u_to_d"%string, "default"%string)
      end
  end.

(** [props._dir = dir; props._dir_source = dirSource] *)
Definition set_dir (p : props) (d src : string) : props :=
  mkProps (OBJECTID p) (SEWER_NAME p) (SEWERNAME p) (UPSTREAM_IL p)
    (DOWNSTREAM_IL p) (PIPE_LENGTH p) (PIPE_WIDTH p) (PIPE_HEIGHT p)
    (DIR p) (Dir p) (dir p) (DIRECTION p) (Direction p) (direction p)
    (JStr d) (JStr src) (_nextObjectIds p) (_v_half_mps p)
    (_segment_candidate_objectid p) (_sewer_name_norm p) (_flowEndLL p)
    (_downNodeKey p) (_next_via_gap_bridge p).

Definition annotate_direction (ft : feature) : feature :=
  let p := default no_props (properties ft) in
  let '(d, src) := direction_decision p in
  mkFeature (geometry ft) (Some (set_dir p d src)).

End Loader.
End Loader.

(** ** Motion: entering pipe mode and the animation tick (DIR-only variant) *)

Module Motion.

Inductive mode_t : Type := Street | Pipe | Arrived | Error.

Record street_t : Type := mkStreet {
  route : option (list LL);
  st_idx : nat;
  st_speedMps : jsnum;
  visible : bool
}.

Record contact_t : Type := mkContact {
  c_point : option LL;
  pipeObjectId : oid
}.

Record pipe_t : Type := mkPipe {
  objectId : oid;
  idx : nat;
  speedMps : jsnum;
  segmentVelocityMps : jsnum
}.

(** A moving point of the [points] state. *)
Record point : Type := mkPoint {
  mode : mode_t;
  p_lat : jsnum;
  p_lng : jsnum;
  street : option street_t;
  contact : option contact_t;
  pipe : option pipe_t;
  pipePlan : option (list LL)
}.

Definition PIPE_SPEED_MIN_MPS : jsnum := Fin (2 # 10).
Definition PIPE_SPEED_MAX_MPS : jsnum := Fin 3.
Definition STREET_SPEED_MPS : jsnum := Fin (11 # 10).
Definition TICK_MS : jsnum := Fin 80.
Definition default_maxHops : nat := 2000.

Section Motion.
Context {RT : Runtime}.

(** [enterPipeMode], on the point it is called for. *)
Definition enterPipeMode (byObjectId : option graph) (pt : point) : outcome point :=
  let contactPoint := match contact pt with Some c => c_point c | None => None end in
  let objectId := match contact pt with Some c => pipeObjectId c | None => None end in
  match byObjectId, objectId, contactPoint with
  | Some g, Some id, Some cp =>
      let p := props_of (g !! id) in
      let vRaw := num_or (toNum (_v_half_mps p)) (Fin 0) in
      let v := clamp vRaw PIPE_SPEED_MIN_MPS PIPE_SPEED_MAX_MPS in
      match DirOnly.buildPipePlanFromObjectId (Some id) (Some cp) g default_maxHops with
      | Returns plan =>
          Returns
            (mkPoint Pipe (p_lat pt) (p_lng pt)
               (match street pt with
                | Some st => Some (mkStreet (route st) (st_idx st) (st_speedMps st) false)
                | None => None
                end)
               (contact pt)
               (Some (mkPipe (Some id) 1 v v))
               (Some plan))
      | Throws => Throws
      end
  | _, _, _ =>
      Returns (mkPoint Error (p_lat pt) (p_lng pt) (street pt) (contact pt)
                 (pipe pt) (pipePlan pt))
  end.

(** [x || d] on a number. *)
Definition or_else (x d : jsnum) : jsnum := if num_truthy x then x else d.

(** The speed the pipe branch of the tick moves a point with. *)
Definition tick_speed (byObjectId : option graph) (pt : point) : jsnum :=
  let speed := or_else (match pipe pt with Some ps => speedMps ps | None => NaN end)
                 (Fin (6 # 10)) in
  let objectId := match pipe pt with Some ps => objectId ps | None => None end in
  match byObjectId, objectId with
  | Some g, Some id =>
      let p := props_of (g !! id) in
      let vRaw := num_or (toNum (_v_half_mps p)) speed in
      clamp vRaw PIPE_SPEED_MIN_MPS PIPE_SPEED_MAX_MPS
  | _, _ => speed
  end.

(** [{ ...pt.pipe, idx, speedMps }] *)
Definition with_speed (ps : option pipe_t) (i : option nat) (speed : jsnum) : pipe_t :=
  match ps with
  | Some q => mkPipe (objectId q) (default (idx q) i) speed (segmentVelocityMps q)
  | None => mkPipe None (default 0%nat i) speed NaN
  end.

(** One step towards [target]: the new position and whether the target was
    reached. *)
Definition advance (pt : point) (target : LL) (stepMeters : jsnum)
  : jsnum * jsnum * bool :=
  let here := mkLL (p_lat pt) (p_lng pt) in
  let dist := metersBetween here target in
  if jsle dist stepMeters then (lat target, lng target, true)
  else
    let f := fdiv stepMeters dist in
    (fadd (p_lat pt) (fmul (fsub (lat target) (p_lat pt)) f),
     fadd (p_lng pt) (fmul (fsub (lng target) (p_lng pt)) f), false).

(** The [prev.map] callback of the animation tick.  The second component
    tells whether [enterPipeMode] was scheduled for the point. *)
Definition tick (byObjectId : option graph) (speed10x : bool) (pt : point)
  : point * bool :=
  let speedMult := if speed10x then Fin 10 else Fin 1 in
  match mode pt with
  | Error | Arrived => (pt, false)
  | Street =>
      match street pt with
      | Some st =>
          match route st with
          | Some r =>
              let i := if (st_idx st =? 0)%nat then 1%nat else st_idx st in
              match r !! i with
              | None => (pt, false)
              | Some target =>
                  let stepMeters :=
                    fdiv (fmul (fmul (st_speedMps st) speedMult) TICK_MS) (Fin 1000) in
                  let '(la, ln, reached) := advance pt target stepMeters in
                  if reached
                  then
                    (mkPoint (mode pt) la ln
                       (Some (mkStreet (route st) (S i) (st_speedMps st) (visible st)))
                       (contact pt) (pipe pt) (pipePlan pt),
                     (length r <=? S i)%nat)
                  else
                    (mkPoint (mode pt) la ln (street pt) (contact pt) (pipe pt)
                       (pipePlan pt), false)
              end
          | None => (pt, false)
          end
      | None => (pt, false)
      end
  | Pipe =>
      match pipePlan pt with
      | Some plan =>
          let i := match pipe pt with
                   | Some ps => if (idx ps =? 0)%nat then 1%nat else idx ps
                   | None => 1%nat
                   end in
          match plan !! i with
          | None =>
              (mkPoint Arrived (p_lat pt) (p_lng pt) (street pt) (contact pt)
                 (pipe pt) (pipePlan pt), false)
          | Some target =>
              let speed := tick_speed byObjectId pt in
              let stepMeters :=
                fdiv (fmul (fmul speed speedMult) TICK_MS) (Fin 1000) in
              let '(la, ln, reached) := advance pt target stepMeters in
              if reached
              then
                (mkPoint (if (length plan <=? S i)%nat then Arrived else Pipe) la ln
                   (street pt) (contact pt)
                   (Some (with_speed (pipe pt) (Some (S i)) speed)) (pipePlan pt),
                 false)
              else
                (mkPoint (mode pt) la ln (street pt) (contact pt)
                   (Some (with_speed (pipe pt) None speed)) (pipePlan pt), false)
          end
      | None => (pt, false)
      end
  end.

(** [addPoint]: a new point, on the street, with no pipe state. *)
Definition new_point (la ln : jsnum) : point :=
  mkPoint Street la ln None None None None.

(** [buildStreetRouteForPoint]'s update once the routing service answered:
    the street route and the contact, and no pipe state. *)
Definition routed (pt : point) (r : list LL) (c : contact_t) (plan : option (list LL))
  : point :=
  mkPoint Street (p_lat pt) (p_lng pt)
    (Some (mkStreet (Some r) 1 STREET_SPEED_MPS true)) (Some c) None plan.

(** Its update when no pipe was found or the service failed. *)
Definition failed (pt : point) : point :=
  mkPoint Error (p_lat pt) (p_lng pt) (street pt) (contact pt) (pipe pt) (pipePlan pt).

(** The states a point goes through. *)
Inductive reachable : point -> Prop :=
| reach_new la ln : reachable (new_point la ln)
| reach_routed pt r c plan : reachable pt -> reachable (routed pt r c plan)
| reach_failed pt : reachable pt -> reachable (failed pt)
| reach_enter g pt pt' :
    reachable pt -> enterPipeMode g pt = Returns pt' -> reachable pt'
| reach_tick g fast pt :
    reachable pt -> reachable (fst (tick g fast pt)).

(** A number within the safety band [[0.2, 3.0]]. *)
Definition in_band (v : jsnum) : Prop :=
  jsle PIPE_SPEED_MIN_MPS v = true /\ jsle v PIPE_SPEED_MAX_MPS = true.

End Motion.
End Motion.

(** ** Connectivity with gap bridging (second pass of the loader) *)

Module GapBridge.

Definition NODE_GAP_BRIDGE_MAX_M : jsnum := Fin 45.

(** A node of [nodeIndex]. *)
Record node : Type := mkNode {
  n_key : string;
  n_lng : jsnum;
  n_lat : jsnum;
  inObjectIds : list Z;
  outObjectIds : list Z
}.

(** An entry of [flowStartsByCell]: a segment's flow-start and its Mercator
    coordinates. *)
Record flow_start : Type := mkFlowStart {
  fs_objectId : Z;
  fs_lng : jsnum;
  fs_lat : jsnum;
  fs_mx : jsnum;
  fs_my : jsnum
}.

(** A bridging candidate [{ id, dM }]. *)
Record bridge_cand : Type := mkCand {
  b_id : Z;
  b_dM : jsnum
}.

(** [a === b] on values. *)
Definition js_strict_eq (a b : jsval) : bool :=
  match a, b with
  | JUndef, JUndef | JNull, JNull => true
  | JBool x, JBool y => Bool.eqb x y
  | JNum x, JNum y => jseq x y
  | JStr x, JStr y => String.eqb x y
  | _, _ => false
  end.

(** [Array.from(new Set(l))]: the first occurrence of every element. *)
Fixpoint uniq (seen : list Z) (l : list Z) : list Z :=
  match l with
  | [] => []
  | x :: l' =>
      if decide (x ∈ seen) then uniq seen l' else x :: uniq (x :: seen) l'
  end.

Section GapBridge.
Context {RT : Runtime}.

Definition cell_key (cx cy : jsnum) : string :=
  (numToString cx +:+ "_" +:+ numToString cy)%string.

Definition nearbyFlowCellKeys (mx my cellSizeM : jsnum) : list string :=
  let cx := ffloor (fdiv mx cellSizeM) in
  let cy := ffloor (fdiv my cellSizeM) in
  flat_map (fun dx => map (fun dy => cell_key (fadd cx dx) (fadd cy dy))
                        [Fin (-1); Fin 0; Fin 1])
           [Fin (-1); Fin 0; Fin 1].

(** The distance [dM] from the flow-end [endM] to a flow-start, in Mercator
    metres. *)
Definition gap_metres (endM : jsnum * jsnum) (cand : flow_start) : jsnum :=
  let dMx := fsub (fs_mx cand) (fst endM) in
  let dMy := fsub (fs_my cand) (snd endM) in
  fsqrt (fadd (fmul dMx dMx) (fmul dMy dMy)).

(** The distance test on one flow-start of a cell. *)
Definition consider (objectId : Z) (endM : jsnum * jsnum)
    (candidateIds : list bridge_cand) (cand : flow_start) : list bridge_cand :=
  if (fs_objectId cand =? objectId)%Z then candidateIds
  else
    let dM := gap_metres endM cand in
    if jsle dM NODE_GAP_BRIDGE_MAX_M
    then candidateIds ++ [mkCand (fs_objectId cand) dM]
    else candidateIds.

Definition scan_cell (flowStartsByCell : gmap string (list flow_start))
    (objectId : Z) (endM : jsnum * jsnum) (candidateIds : list bridge_cand)
    (key : string) : list bridge_cand :=
  match flowStartsByCell !! key with
  | None => candidateIds
  | Some arr => foldl (consider objectId endM) candidateIds arr
  end.

(** The flow-starts within the bridge radius of [endPt], cell by cell. *)
Definition bridge_candidates (flowStartsByCell : gmap string (list flow_start))
    (objectId : Z) (endPt : LL) : list bridge_cand :=
  let endM := mercatorMetersFromLngLat (lng endPt) (lat endPt) in
  foldl (scan_cell flowStartsByCell objectId endM) []
    (nearbyFlowCellKeys (fst endM) (snd endM) NODE_GAP_BRIDGE_MAX_M).

(** [p._sewer_name_norm || ""] *)
Definition norm_name (p : props) : jsval := js_or (_sewer_name_norm p) (JStr "").

(** The filter callback of the same-name preference among the candidates. *)
Definition shares_name (byObjectId : graph) (currentName : jsval) (c : bridge_cand)
  : bool :=
  js_strict_eq (norm_name (props_of (byObjectId !! b_id c))) currentName.

(** The candidates after the same-name preference. *)
Definition preferred (byObjectId : graph) (p : props) (candidateIds : list bridge_cand)
  : list bridge_cand :=
  let currentName := norm_name p in
  if truthy currentName
  then
    let sameName := filter (fun c => shares_name byObjectId currentName c) candidateIds in
    if (0 <? length sameName)%nat then sameName else candidateIds
  else candidateIds.

(** [cmp(a, b) > 0] for the comparator [a.dM - b.dM]. *)
Definition farther (a b : bridge_cand) : bool := jslt (b_dM b) (b_dM a).

(** The three nearest of the preferred candidates. *)
Definition selected (byObjectId : graph) (p : props) (candidateIds : list bridge_cand)
  : list bridge_cand :=
  take 3 (sort_by farther (preferred byObjectId p candidateIds)).

(** The connections by strict node match. *)
Definition primary_next (nodeIndex : gmap string node) (objectId : Z)
    (downKey : string) : list Z :=
  match nodeIndex !! downKey with
  | Some downNode => filter (fun id => id <> objectId) (outObjectIds downNode)
  | None => []
  end.

(** The body of the second pass for one feature: [None] when the feature is
    skipped, else the value of [_nextObjectIds] and whether the gap bridge
    produced it ([_next_via_gap_bridge] is then set). *)
Definition connect (nodeIndex : gmap string node) (byObjectId : graph)
    (flowStartsByCell : gmap string (list flow_start)) (ft : option feature)
  : option (list Z * bool) :=
  let p := props_of ft in
  match OBJECTID p, _downNodeKey p with
  | Some objectId, Some downKey =>
      if String.eqb downKey "" then None
      else
        let next := primary_next nodeIndex objectId downKey in
        match next, _flowEndLL p with
        | [], Some endPt =>
            let candidateIds := bridge_candidates flowStartsByCell objectId endPt in
            match candidateIds with
            | [] => Some (next, false)
            | _ =>
                Some (uniq [] (map b_id (selected byObjectId p candidateIds)), true)
            end
        | _, _ => Some (next, false)
        end
  | _, _ => None
  end.

End GapBridge.
End GapBridge.

(** ** Graphs that differ in attributes the traversal may ignore *)

Module Views.

(** [p] with other values of [SEWER_NAME] and [SEWERNAME]. *)
Definition with_names (n1 n2 : jsval) (p : props) : props :=
  mkProps (OBJECTID p) n1 n2 (UPSTREAM_IL p)
    (DOWNSTREAM_IL p) (PIPE_LENGTH p) (PIPE_WIDTH p) (PIPE_HEIGHT p)
    (DIR p) (Dir p) (dir p) (DIRECTION p) (Direction p) (direction p)
    (_dir p) (_dir_source p) (_nextObjectIds p) (_v_half_mps p)
    (_segment_candidate_objectid p) (_sewer_name_norm p) (_flowEndLL p)
    (_downNodeKey p) (_next_via_gap_bridge p).

(** The graph with every segment renamed, segment [id] to [names id]. *)
Definition renamed (names : Z -> jsval * jsval) (g : graph) : graph :=
  map_imap
    (fun id ft =>
       Some (mkFeature (geometry ft)
               (Some (with_names (fst (names id)) (snd (names id))
                        (default no_props (properties ft))))))
    g.



(** What the DIR-only walk reads of a segment: whether it is in the map,
    its geometry, [_dir] and [_nextObjectIds]. *)
Definition route_view (ft : option feature)
  : option (option geometry_t * jsval * list Z) :=
  match ft with
  | Some f => Some (geometry f, _dir (props_of ft), next_ids (props_of ft))
  | None => None
  end.

(** What the geometry-order search reads of a segment: the names and the
    cross-section besides. *)
Definition search_view (ft : option feature)
  : option (option geometry_t * jsval * list Z) * (jsval * jsval * jsval * jsval) :=
  (route_view ft,
   (SEWER_NAME (props_of ft), SEWERNAME (props_of ft),
    PIPE_WIDTH (props_of ft), PIPE_HEIGHT (props_of ft))).

End Views.

(** ** Small networks used in the examples *)

Module Fixtures.

Definition at_ (la ln : Z) : LL := mkLL (Fin (inject_Z la)) (Fin (inject_Z ln)).

Definition pos (ln la : Z) : position := (Fin (inject_Z ln), Fin (inject_Z la)).

(** A pipe with a name, a downstream invert level, a direction source and
    its successor list. *)
Definition pipe_props (name downIL dirSource : jsval) (next : list Z) : props :=
  mkProps None name JUndef JUndef downIL JUndef JUndef JUndef
    JUndef JUndef JUndef JUndef JUndef JUndef
    JUndef dirSource (Some next) JUndef None JUndef None None false.

Definition pipe (cs : list position) (name downIL : jsval) (next : list Z) : feature :=
  mkFeature (Some (LineString cs)) (Some (pipe_props name downIL JUndef next)).

(** A fork: segment 10 (MAIN) ends where the twin segments 1 (OTHER) and
    2 (MAIN) start; both have the same geometry. *)
Definition fork : graph :=
  <[10%Z := pipe [pos 0 0; pos 1 1] (JStr "Main") JUndef [1%Z; 2%Z]]>
    (<[1%Z := pipe [pos 1 1; pos 2 2] (JStr "Other") (JNum (Fin 5)) []]>
       (<[2%Z := pipe [pos 1 1; pos 2 2] (JStr "MAIN ") (JNum (Fin 3)) []]> ∅)).


(** Three segments in a ring: 1 -> 2 -> 3 -> 1. *)
Definition ring : graph :=
  <[1%Z := pipe [pos 0 0; pos 1 1] JUndef JUndef [2%Z]]>
    (<[2%Z := pipe [pos 1 1; pos 2 2] JUndef JUndef [3%Z]]>
       (<[3%Z := pipe [pos 2 2; pos 0 0] JUndef JUndef [1%Z]]> ∅)).

(** Two segments that lead into each other. *)
Definition pair : graph :=
  <[1%Z := pipe [pos 0 0; pos 1 1] JUndef JUndef [2%Z]]>
    (<[2%Z := pipe [pos 1 1; pos 0 0] JUndef JUndef [1%Z]]> ∅).


(** A point routed to segment 1 of the ring, at the moment it enters the
    pipe. *)
Definition arriving : Motion.point :=
  Motion.routed (Motion.new_point (Fin 0) (Fin 0)) [at_ 5 5; at_ 0 0]
    (Motion.mkContact (Some (at_ 0 0)) (Some 1%Z)) None.

Definition entered : Motion.point :=
  match Motion.enterPipeMode (RT := planar) (Some ring) arriving with
  | Returns pt => pt
  | Throws => arriving
  end.

(** A gap: segment 1 (MAIN) ends 1 to 5 m before the flow-starts of the
    segments 2 to 6, and 50 m before that of segment 7; no node joins them. *)
Definition bridged_props (id : Z) (norm : string) (downKey : option string)
    (flowEnd : option LL) : props :=
  mkProps (Some id) JUndef JUndef JUndef JUndef JUndef JUndef JUndef
    JUndef JUndef JUndef JUndef JUndef JUndef
    (JStr "u_to_d") (JStr "DIR") None JUndef None (JStr norm) flowEnd downKey false.

Definition gap_end : LL := at_ 0 0.

Definition gap_endM : jsnum * jsnum :=
  mercatorMetersFromLngLat (RT := planar) (lng gap_end) (lat gap_end).

Definition gap_feature (id : Z) (norm : string) : feature :=
  mkFeature None (Some (bridged_props id norm (Some "n1"%string) (Some gap_end))).

Definition gap_graph : graph :=
  <[1%Z := gap_feature 1 "MAIN"]>
    (<[2%Z := gap_feature 2 "MAIN"]>
       (<[3%Z := gap_feature 3 "OTHER"]>
          (<[4%Z := gap_feature 4 "MAIN"]>
             (<[5%Z := gap_feature 5 "MAIN"]>
                (<[6%Z := gap_feature 6 "MAIN"]>
                   (<[7%Z := gap_feature 7 "MAIN"]> ∅)))))).

Definition gap_nodes : gmap string GapBridge.node :=
  {[ "n1"%string := GapBridge.mkNode "n1" (Fin 0) (Fin 0) [1%Z] [] ]}.

(** The flow-start of segment [id], [dx] metres east of the gap's end. *)
Definition start_east (id dx : Z) : GapBridge.flow_start :=
  GapBridge.mkFlowStart id (Fin 0) (Fin 0)
    (fadd (Runtime := planar) (fst gap_endM) (Fin (inject_Z dx))) (snd gap_endM).

Definition gap_cell (dx : Z) : string :=
  GapBridge.cell_key (RT := planar)
    (fadd (Runtime := planar)
       (ffloor (Runtime := planar)
          (fdiv (Runtime := planar) (fst gap_endM) GapBridge.NODE_GAP_BRIDGE_MAX_M))
       (Fin (inject_Z dx)))
    (ffloor (Runtime := planar)
       (fdiv (Runtime := planar) (snd gap_endM) GapBridge.NODE_GAP_BRIDGE_MAX_M)).

Definition gap_cells : gmap string (list GapBridge.flow_start) :=
  <[gap_cell 0 := [start_east 1 0; start_east 2 3; start_east 3 1; start_east 4 5;
                   start_east 5 2; start_east 6 4]]>
    (<[gap_cell 1 := [start_east 7 50]]> ∅).

(** A segment with two dead-end successors. *)
Definition tee : graph :=
  <[1%Z := pipe [pos 0 0; pos 1 1] JUndef JUndef [2%Z; 3%Z]]>
    (<[2%Z := pipe [pos 1 1; pos 2 2] JUndef JUndef []]>
       (<[3%Z := pipe [pos 1 1; pos 2 0] JUndef JUndef []]> ∅)).

End Fixtures.

(** ** Snapping a point to the network (DIR-only variant)

    [projectToXYMeters], [unprojectFromXYMeters], [closestPointOnSegment] and
    [findNearestPipeContact]. *)

Module Snap.

Record xy : Type := mkXY { xy_x : jsnum; xy_y : jsnum }.

(** The result [{ point, dist, t }] of [closestPointOnSegment]. *)
Record closest : Type := mkClosest {
  cl_point : LL;
  cl_dist : jsnum;
  cl_t : jsnum
}.

(** The contact [findNearestPipeContact] returns. *)
Record contact : Type := mkContact {
  ct_dist : jsnum;
  ct_point : LL;
  ct_feature : feature;
  ct_partIndex : nat;
  ct_segIndex : nat;
  ct_segA : LL;
  ct_segB : LL
}.

(** A pair of consecutive coordinates of a line of a feature: what one run
    of the body of [considerLineString] looks at. *)
Record segment : Type := mkSegment {
  sg_feature : feature;
  sg_part : nat;
  sg_index : nat;
  sg_a : LL;
  sg_b : LL
}.

(** The lines of a geometry: [considerLineString] is called for each, with
    its index. *)
Definition parts_of (g : option geometry_t) : list (list position) :=
  match g with
  | Some (LineString cs) => [cs]
  | Some (MultiLineString lines) => lines
  | _ => []
  end.

Section Snap.
Context {RT : Runtime}.

Local Infix "+." := fadd (at level 50, left associativity).
Local Infix "-." := fsub (at level 50, left associativity).
Local Infix "*." := fmul (at level 40, left associativity).
Local Infix "/." := fdiv (at level 40, left associativity).

Definition projectToXYMeters (origin p : LL) : xy :=
  let lat0 := lat origin *. fPI /. Fin 180 in
  let dLat := (lat p -. lat origin) *. fPI /. Fin 180 in
  let dLng := (lng p -. lng origin) *. fPI /. Fin 180 in
  let R := Fin 6371000 in
  mkXY (dLng *. fcos lat0 *. R) (dLat *. R).

Definition unprojectFromXYMeters (origin : LL) (q : xy) : LL :=
  let lat0 := lat origin *. fPI /. Fin 180 in
  let R := Fin 6371000 in
  let dLat := xy_y q /. R in
  let dLng := xy_x q /. (fcos lat0 *. R) in
  mkLL (lat origin +. dLat *. Fin 180 /. fPI) (lng origin +. dLng *. Fin 180 /. fPI).

Definition closestPointOnSegment (a b p : LL) : closest :=
  let origin := a in
  let A := projectToXYMeters origin a in
  let B := projectToXYMeters origin b in
  let P := projectToXYMeters origin p in
  let ABx := xy_x B -. xy_x A in
  let ABy := xy_y B -. xy_y A in
  let APx := xy_x P -. xy_x A in
  let APy := xy_y P -. xy_y A in
  let ab2 := ABx *. ABx +. ABy *. ABy in
  let t := if jsgt ab2 (Fin 0)
           then clamp ((APx *. ABx +. APy *. ABy) /. ab2) (Fin 0) (Fin 1)
           else Fin 0 in
  let Q := mkXY (xy_x A +. ABx *. t) (xy_y A +. ABy *. t) in
  let qLL := unprojectFromXYMeters origin Q in
  let dx := xy_x P -. xy_x Q in
  let dy := xy_y P -. xy_y Q in
  let dist := fsqrt (dx *. dx +. dy *. dy) in
  mkClosest qLL dist t.

(** The pairs [(coords[i], coords[i + 1])] of a line, [i] from 0. *)
Definition line_segments (ft : feature) (li : nat) (coords : list position)
  : list segment :=
  imap (fun i ab => mkSegment ft li i (toLL (fst ab)) (toLL (snd ab)))
       (zip coords (tail coords)).

(** The segments the loops of [findNearestPipeContact] visit for one
    feature, in their order. *)
Definition segments_of (ft : option feature) : list segment :=
  match ft with
  | Some f => mjoin (imap (line_segments f) (parts_of (geometry f)))
  | None => []
  end.

(** The body of the loop of [considerLineString]. *)
Definition consider (start : LL) (best : option contact) (s : segment)
  : option contact :=
  let res := closestPointOnSegment (sg_a s) (sg_b s) start in
  let better := match best with
                | None => true
                | Some b => jslt (cl_dist res) (ct_dist b)
                end in
  if better
  then Some (mkContact (cl_dist res) (cl_point res) (sg_feature s) (sg_part s)
               (sg_index s) (sg_a s) (sg_b s))
  else best.

Definition findNearestPipeContact (features : list (option feature)) (start : LL)
  : option contact :=
  foldl (consider start) None (features ≫= segments_of).

End Snap.
End Snap.

(** ** The endpoints of a feature and of its flow (DIR-only variant)

    [nodeKeyFromLngLat], [featureEndpointsLngLat], and the flow endpoints the
    first pass of the loader derives from them. *)

Module Endpoints.

(** The result [{ start, end }] of [featureEndpointsLngLat]. *)
Record endpoints : Type := mkEndpoints {
  ep_start : option position;
  ep_end : option position
}.

Definition no_endpoints : endpoints := mkEndpoints None None.

(** The pairs [(l[i], l[j])], [i < j], in the order of the two loops. *)
Fixpoint pairs {A : Type} (l : list A) : list (A * A) :=
  match l with
  | [] => []
  | x :: l' => map (pair x) l' ++ pairs l'
  end.

(** [endpoints.push(part[0], part[part.length - 1])] for a part of two
    points or more. *)
Definition part_ends (part : list position) : list position :=
  if (length part <? 2)%nat then []
  else match head part, last part with
       | Some a, Some b => [a; b]
       | _, _ => []
       end.

Section Endpoints.
Context {RT : Runtime}.

Local Infix "+." := fadd (at level 50, left associativity).
Local Infix "-." := fsub (at level 50, left associativity).
Local Infix "*." := fmul (at level 40, left associativity).
Local Infix "/." := fdiv (at level 40, left associativity).

Definition nodeKeyFromLngLat (lng lat tolM : jsnum) : string :=
  let m := mercatorMetersFromLngLat lng lat in
  let kx := fround (fst m /. tolM) in
  let ky := fround (snd m /. tolM) in
  (numToString kx +:+ "_" +:+ numToString ky)%string.

Definition END_TOL_M : jsnum := Fin (1 # 4).

Definition keyOf (c : position) : string :=
  nodeKeyFromLngLat (fst c) (snd c) END_TOL_M.

Definition dist2 (a b : position) : jsnum :=
  let A := mercatorMetersFromLngLat (fst a) (snd a) in
  let B := mercatorMetersFromLngLat (fst b) (snd b) in
  let dx := fst A -. fst B in
  let dy := snd A -. snd B in
  dx *. dx +. dy *. dy.

(** The map [counts]: how many endpoints have each key. *)
Definition count_keys (ends : list position) : gmap string nat :=
  foldl (fun counts c =>
           let k := keyOf c in <[k := S (default 0%nat (counts !! k))]> counts)
        ∅ ends.

(** The endpoints whose key occurs once. *)
Definition degree1 (ends : list position) : list position :=
  let counts := count_keys ends in
  filter (fun c => default 0%nat (counts !! keyOf c) = 1%nat) ends.

(** The two loops over the degree-1 endpoints: [(bestA, bestB, bestD)]. *)
Definition farther_pair (best : position * position * jsnum)
    (ab : position * position) : position * position * jsnum :=
  let d := dist2 (fst ab) (snd ab) in
  if jsgt d (snd best) then (fst ab, snd ab, d) else best.

Definition farthest (deg1 : list position) : option (position * position) :=
  match deg1 with
  | a0 :: b0 :: _ =>
      Some (fst (foldl farther_pair (a0, b0, dist2 a0 b0) (pairs deg1)))
  | _ => None
  end.

(** The fallback loop: the part whose ends are farthest apart,
    [(bestPart, bestLen2)]. *)
Definition longer_part (best : option (list position) * jsnum) (part : list position)
  : option (list position) * jsnum :=
  if (length part <? 2)%nat then best
  else match head part, last part with
       | Some a, Some b =>
           let d := dist2 a b in
           if jsgt d (snd best) then (Some part, d) else best
       | _, _ => best
       end.

Definition featureEndpointsLngLat (ft : option feature) : endpoints :=
  match ft ≫= geometry with
  | None => no_endpoints
  | Some (LineString coords) =>
      if (2 <=? length coords)%nat then mkEndpoints (head coords) (last coords)
      else no_endpoints
  | Some OtherGeometry => no_endpoints
  | Some (MultiLineString lines) =>
      if (length lines =? 0)%nat then no_endpoints
      else
        let ends := lines ≫= part_ends in
        if (length ends <? 2)%nat then no_endpoints
        else
          let deg1 := degree1 ends in
          if (2 <=? length deg1)%nat
          then match farthest deg1 with
               | Some (a, b) => mkEndpoints (Some a) (Some b)
               | None => no_endpoints
               end
          else
            match fst (foldl longer_part (None, Fin (-1)) lines) with
            | Some bestPart => mkEndpoints (head bestPart) (last bestPart)
            | None => no_endpoints
            end
  end.

(** The flow-start and flow-end [(upLL, downLL)] of a feature, as the first
    pass records them for a feature with an id and endpoints; [p] is the
    property bag of the feature. *)
Definition flow_endpoints (p : props) (ft : option feature) : option (LL * LL) :=
  let '(d, dirSource) := Loader.direction_decision p in
  let ep := featureEndpointsLngLat ft in
  match OBJECTID p, ep_start ep, ep_end ep with
  | Some _, Some start, Some end_ =>
      let startLL := mkLL (snd start) (fst start) in
      let endLL := mkLL (snd end_) (fst end_) in
      let upLL := if String.eqb dirSource "DIR" then startLL
                  else if String.eqb d "u_to_d" then startLL else endLL in
      let downLL := if String.eqb dirSource "DIR" then endLL
                    else if String.eqb d "u_to_d" then endLL else startLL in
      Some (upLL, downLL)
  | _, _, _ => None
  end.

End Endpoints.
End Endpoints.

(** ** The half-full velocity of a pipe

    [manningNFromMaterial] and [computeHalfFullVelocityMps].  The attributes
    [MATERIAL] and [GRADE] are arguments; [Math.pow] is a builtin beside those
    of the runtime. *)

Module Hydraulics.

(** [s.includes(sub)] *)
Fixpoint includes (s sub : string) : bool :=
  if String.prefix sub s then true
  else match s with
       | EmptyString => false
       | String _ s' => includes s' sub
       end.

(** The result [{ n, S, v }]. *)
Record half_full : Type := mkHalfFull {
  hv_n : jsnum;
  hv_S : jsnum;
  hv_v : jsnum
}.

(** [Number.isFinite(x)] *)
Definition is_finite (x : jsnum) : bool :=
  match x with
  | Fin _ => true
  | _ => false
  end.

Section Hydraulics.
Context {RT : Runtime}.
Context (fpow : jsnum -> jsnum -> jsnum).

Local Infix "+." := fadd (at level 50, left associativity).
Local Infix "-." := fsub (at level 50, left associativity).
Local Infix "*." := fmul (at level 40, left associativity).
Local Infix "/." := fdiv (at level 40, left associativity).

Definition manningNFromMaterial (materialRaw : jsval) : jsnum :=
  let m := toUpperCase (js_string (js_or materialRaw (JStr ""))) in
  if includes m "PVC" || includes m "UPVC" || includes m "HDPE" || includes m "ABS"
  then Fin (9 # 1000)
  else if includes m "VC" || includes m "VIT" || includes m "CLAY"
  then Fin (11 # 1000)
  else if includes m "CON" || includes m "RC" || includes m "CONC"
  then Fin (13 # 1000)
  else if includes m "CI" || includes m "DICL" || includes m "IRON"
  then Fin (12 # 1000)
  else if includes m "GRP"
  then Fin (1 # 100)
  else if includes m "BRICK" || includes m "BWK" || includes m "BLK"
  then Fin (15 # 1000)
  else Fin (13 # 1000).

(** The slope [S]: [None] is [null]. *)
Definition slope (GRADE : jsval) (p : props) : option jsnum :=
  match toNum GRADE with
  | Some grade => Some (fabs (Fin grade))
  | None =>
      match toNum (UPSTREAM_IL p), toNum (DOWNSTREAM_IL p), toNum (PIPE_LENGTH p) with
      | Some upIL, Some downIL, Some len =>
          if Qlt_le_dec 0 len
          then Some (fabs ((Fin upIL -. Fin downIL) /. Fin len))
          else None
      | _, _, _ => None
      end
  end.

(** The hydraulic radius [R]: [None] is [null]. *)
Definition hydraulic_radius (p : props) : option jsnum :=
  let wMm := toNum (PIPE_WIDTH p) in
  let hMm := toNum (PIPE_HEIGHT p) in
  let isCircular :=
    match wMm, hMm with
    | Some _, None => true
    | Some _, Some h => Qeq_bool h 0
    | None, _ => false
    end in
  if isCircular
  then
    let D := num_or wMm (Fin 0) /. Fin 1000 in
    if jsgt D (Fin 0) then Some (D /. Fin 4) else None
  else
    let w := num_or wMm (Fin 0) /. Fin 1000 in
    let h := num_or hMm (Fin 0) /. Fin 1000 in
    if jsgt w (Fin 0) && jsgt h (Fin 0)
    then
      let A := w *. h in
      let P := Fin 2 *. (w +. h) in
      if jsgt P (Fin 0) then Some (A /. P) else None
    else None.

Definition computeHalfFullVelocityMps (MATERIAL GRADE : jsval) (p : props)
  : half_full :=
  let n := manningNFromMaterial MATERIAL in
  match slope GRADE p with
  | None => mkHalfFull n (Fin 0) (Fin 0)
  | Some S_ =>
      if negb (is_finite S_) || jsle S_ (Fin 0)
      then mkHalfFull n (if num_truthy S_ then S_ else Fin 0) (Fin 0)
      else
        match hydraulic_radius p with
        | None => mkHalfFull n S_ (Fin 0)
        | Some R =>
            if negb (is_finite R) || jsle R (Fin 0)
            then mkHalfFull n S_ (Fin 0)
            else
              let v := Fin 1 /. n *. fpow R (Fin 2 /. Fin 3) *. fsqrt S_ in
              mkHalfFull n S_ (if is_finite v then v else Fin 0)
        end
  end.

End Hydraulics.
End Hydraulics.

(** ** Union-find over the endpoints (DIR-only variant)

    The class [UF] that clusters the endpoints of the pipes.  Its arrays are
    lists; a read outside them ends a call with [None]: the loader calls
    [find] and [union] with indices of the arrays, and the arrays hold
    indices of the arrays. *)

Module UF.

(** The object: the parents [p] and the ranks [r]. *)
Record uf : Type := mkUF { uf_p : list nat; uf_r : list nat }.

(** [new UF(n)] *)
Definition create (n : nat) : uf := mkUF (seq 0 n) (replicate n 0%nat).

(** The loop of [find(x)], which halves the path it climbs:
    [while (p[x] !== x) { p[x] = p[p[x]]; x = p[x]; }].  [None] also when
    the loop has not ended after [fuel] iterations. *)
Fixpoint find_loop (fuel : nat) (p : list nat) (x : nat) : option (list nat * nat) :=
  match fuel with
  | O => None
  | S fuel' =>
      match p !! x with
      | None => None
      | Some px =>
          if (px =? x)%nat then Some (p, x)
          else
            match p !! px with
            | None => None
            | Some ppx => find_loop fuel' (<[x := ppx]> p) ppx
            end
      end
  end.

(** [find(x)]: the object after the call and the result.  The ranks grow
    along a path, so that the loop runs no more often than the greatest rank
    says. *)
Definition find (u : uf) (x : nat) : option (uf * nat) :=
  match find_loop (S (max_list (uf_r u))) (uf_p u) x with
  | Some (p', root) => Some (mkUF p' (uf_r u), root)
  | None => None
  end.

(** [union(a, b)]: the object after the call. *)
Definition union (u : uf) (a b : nat) : option uf :=
  match find u a with
  | None => None
  | Some (u1, ra) =>
      match find u1 b with
      | None => None
      | Some (u2, rb) =>
          if (ra =? rb)%nat then Some u2
          else
            match uf_r u2 !! ra, uf_r u2 !! rb with
            | Some rka, Some rkb =>
                let '(ra, rka, rb, rkb) :=
                  if (rka <? rkb)%nat then (rb, rkb, ra, rka) else (ra, rka, rb, rkb) in
                let p' := <[rb := ra]> (uf_p u2) in
                let r' := if (rka =? rkb)%nat then <[ra := S rka]> (uf_r u2)
                          else uf_r u2 in
                Some (mkUF p' r')
            | _, _ => None
            end
      end
  end.

End UF.

(** ** The loader of the geometry-order variant: connectivity by endpoint key

    The two passes over the features of the file that register the
    segments in [byObjectId] and derive [_nextObjectIds].  [x.toFixed(6)] is a
    builtin beside those of the runtime.  The derived fields [_manning_n] and
    [_slope_S], which nothing reads, and the bounding box are left out; the
    keys [_startKey] and [_endKey] stand beside the property bag. *)

Module KeyLoader.

(** A feature of the file, with the two attributes the property bag does not
    hold. *)
Record raw : Type := mkRaw {
  raw_feature : feature;
  raw_MATERIAL : jsval;
  raw_GRADE : jsval
}.

(** A feature between the passes, with [(_startKey, _endKey)] when it has
    them. *)
Record keyed : Type := mkKeyed {
  k_feature : feature;
  k_keys : option (string * string)
}.

(** [geomStart] and [geomEnd]: the endpoints in file order. *)
Definition geom_ends (g : geometry_t) : option (position * position) :=
  match g with
  | LineString coords =>
      if (2 <=? length coords)%nat
      then match head coords, last coords with
           | Some a, Some b => Some (a, b)
           | _, _ => None
           end
      else None
  | MultiLineString lines =>
      if (0 <? length lines)%nat
      then
        let first := default [] (head lines) in
        let last_ := default [] (last lines) in
        if (1 <=? length first)%nat && (1 <=? length last_)%nat
        then match head first, last last_ with
             | Some a, Some b => Some (a, b)
             | _, _ => None
             end
        else None
      else None
  | OtherGeometry => None
  end.

(** [props._v_half_mps = v; props._sewer_name_norm = norm] *)
Definition set_derived (p : props) (v : jsnum) (norm : string) : props :=
  mkProps (OBJECTID p) (SEWER_NAME p) (SEWERNAME p) (UPSTREAM_IL p)
    (DOWNSTREAM_IL p) (PIPE_LENGTH p) (PIPE_WIDTH p) (PIPE_HEIGHT p)
    (DIR p) (Dir p) (dir p) (DIRECTION p) (Direction p) (direction p)
    (_dir p) (_dir_source p) (_nextObjectIds p) (JNum v)
    (_segment_candidate_objectid p) (JStr norm) (_flowEndLL p)
    (_downNodeKey p) (_next_via_gap_bridge p).

(** [props._nextObjectIds = next] *)
Definition set_next (p : props) (next : list Z) : props :=
  mkProps (OBJECTID p) (SEWER_NAME p) (SEWERNAME p) (UPSTREAM_IL p)
    (DOWNSTREAM_IL p) (PIPE_LENGTH p) (PIPE_WIDTH p) (PIPE_HEIGHT p)
    (DIR p) (Dir p) (dir p) (DIRECTION p) (Direction p) (direction p)
    (_dir p) (_dir_source p) (Some next) (_v_half_mps p)
    (_segment_candidate_objectid p) (_sewer_name_norm p) (_flowEndLL p)
    (_downNodeKey p) (_next_via_gap_bridge p).

(** The second pass on one feature; [startIndex] maps a start key to the
    ids registered under it. *)
Definition pass2_step (startIndex : gmap string (list Z)) (k : keyed) : keyed :=
  let p := props_of (Some (k_feature k)) in
  match OBJECTID p, k_keys k with
  | Some objectId, Some (_, endKey) =>
      if String.eqb endKey "" then k
      else
        let next := filter (fun id => id <> objectId)
                      (default [] (startIndex !! endKey)) in
        mkKeyed (mkFeature (geometry (k_feature k)) (Some (set_next p next)))
          (k_keys k)
  | _, _ => k
  end.

(** The map [byObjectId]: a feature was entered under its id in the first
    pass when it got its keys, a later one replacing an earlier one of the same
    id; the map holds the features as the second pass leaves them. *)
Definition register (m : graph) (k : keyed) : graph :=
  match OBJECTID (props_of (Some (k_feature k))), k_keys k with
  | Some objectId, Some _ => <[objectId := k_feature k]> m
  | _, _ => m
  end.

Section KeyLoader.
Context {RT : Runtime}.
Context (fpow : jsnum -> jsnum -> jsnum).
Context (toFixed6 : jsnum -> string).

Definition coordKey (lng lat : jsnum) : string :=
  (toFixed6 lng +:+ "," +:+ toFixed6 lat)%string.

(** The first pass on one feature: the feature as the pass leaves it. *)
Definition pass1_feature (r : raw) : keyed :=
  let ft := raw_feature r in
  match geometry ft with
  | None => mkKeyed ft None
  | Some g =>
      let p := default no_props (properties ft) in
      let hv := Hydraulics.computeHalfFullVelocityMps fpow (raw_MATERIAL r)
                  (raw_GRADE r) p in
      let sewerNameNorm := normaliseSewerName (js_or (SEWER_NAME p) (SEWERNAME p)) in
      let p1 := set_derived p (Hydraulics.hv_v hv) sewerNameNorm in
      match OBJECTID p, geom_ends g with
      | Some _, Some (geomStart, geomEnd) =>
          let startKey := coordKey (fst geomStart) (snd geomStart) in
          let endKey := coordKey (fst geomEnd) (snd geomEnd) in
          mkKeyed (mkFeature (Some g) (Some p1)) (Some (startKey, endKey))
      | _, _ => mkKeyed (mkFeature (Some g) (Some p1)) None
      end
  end.

(** The first pass: [startIndex] and the features, in file order. *)
Definition pass1_step (acc : gmap string (list Z) * list keyed) (r : raw)
  : gmap string (list Z) * list keyed :=
  let k := pass1_feature r in
  let startIndex :=
    match OBJECTID (props_of (Some (k_feature k))), k_keys k with
    | Some objectId, Some (startKey, _) =>
        <[startKey := default [] (fst acc !! startKey) ++ [objectId]]> (fst acc)
    | _, _ => fst acc
    end in
  (startIndex, snd acc ++ [k]).

Definition pass1 (features : list raw) : gmap string (list Z) * list keyed :=
  foldl pass1_step (∅, []) features.

(** The map [byObjectId] when the loader is done. *)
Definition load (features : list raw) : graph :=
  let '(startIndex, fts) := pass1 features in
  foldl register ∅ (pass2_step startIndex <$> fts).

End KeyLoader.
End KeyLoader.

(** ** The bounding box of the network

    [scanCoords] and the box [bbox] the first pass of every loader
    computes. *)

Module BBox.

Record box : Type := mkBox {
  minLat : jsnum;
  minLng : jsnum;
  maxLat : jsnum;
  maxLng : jsnum
}.

(** The four variables before the first pass. *)
Definition start : box := mkBox PInf PInf NInf NInf.

(** [scanCoords(coords)] on a position [[lng, lat]] of two numbers. *)
Definition scanCoords (b : box) (c : position) : box :=
  let lng := fst c in
  let lat := snd c in
  mkBox (if jslt lat (minLat b) then lat else minLat b)
        (if jslt lng (minLng b) then lng else minLng b)
        (if jsgt lat (maxLat b) then lat else maxLat b)
        (if jsgt lng (maxLng b) then lng else maxLng b).

(** The scan of one feature. *)
Definition scan_feature (b : box) (ft : option feature) : box :=
  match ft ≫= geometry with
  | Some (LineString coords) => foldl scanCoords b coords
  | Some (MultiLineString lines) => foldl (foldl scanCoords) b lines
  | _ => b
  end.

Definition is_finite (x : jsnum) : bool :=
  match x with
  | Fin _ => true
  | _ => false
  end.

(** The box, or null when one of the four numbers is not finite. *)
Definition bbox (features : list (option feature)) : option box :=
  let b := foldl scan_feature start features in
  if is_finite (minLat b) && is_finite (minLng b) && is_finite (maxLat b)
     && is_finite (maxLng b)
  then Some b else None.

End BBox.

(** ** The loader of the DIR-only variant: connectivity by merged endpoints

    The first pass records the flow endpoints of the pipes; the endpoints
    within [MERGE_RADIUS_M] of each other are merged with the union-find
    object, found through a grid of cells; every cluster becomes a node, and
    the second pass reads [_nextObjectIds] off the node of the flow-end.

    The features of the file are objects that the passes change in place and
    that [endpointRecords] and [byObjectId] refer to: here they are the
    entries of a list, and a reference is an index of it.  A call that reads
    a field of [undefined] ends with [None].  The index of a cluster is
    printed in decimal.  [parseInt] is a builtin beside those of the runtime.
    The derived fields [_manning_n], [_slope_S] and [_upNodeKey], which
    nothing reads, are left out.

    The [coordinates] of a line geometry of the file are an array or missing,
    and so is each part of a multi-part line.  The functions that read the
    coordinates take what is not an array for an empty one
    ([g.coordinates || []], [Array.isArray]); the scan of the first pass
    iterates over it and throws. *)

Module Cluster.

Definition MERGE_RADIUS_M : jsnum := Fin 20.

(** The geometry of a feature of the file. *)
Inductive file_geometry : Type :=
| FileLineString (coordinates : option (list position))
| FileMultiLineString (coordinates : option (list (option (list position))))
| FileOtherGeometry.

(** A feature of the file, with the two attributes the property bag does not
    hold. *)
Record file_feature : Type := mkFile {
  ff_geometry : option file_geometry;
  ff_properties : option props;
  ff_MATERIAL : jsval;
  ff_GRADE : jsval
}.

(** The geometry as [featureEndpointsLngLat] and [flattenFeatureCoords] read
    it. *)
Definition read_geometry (g : file_geometry) : geometry_t :=
  match g with
  | FileLineString coordinates => LineString (default [] coordinates)
  | FileMultiLineString coordinates =>
      MultiLineString (default [] <$> default [] coordinates)
  | FileOtherGeometry => OtherGeometry
  end.

Definition read_feature (f : file_feature) : KeyLoader.raw :=
  KeyLoader.mkRaw (mkFeature (read_geometry <$> ff_geometry f) (ff_properties f))
    (ff_MATERIAL f) (ff_GRADE f).

(** [for (const c of line) scanCoords(c)]; [None] when [line] is not an
    array. *)
Definition scan_line (b : option BBox.box) (line : option (list position))
  : option BBox.box :=
  b ← b; cs ← line; Some (foldl BBox.scanCoords b cs).

(** The scan of a geometry for the bounding box, at the head of the first
    pass; [None] when it throws. *)
Definition scan (b : BBox.box) (g : file_geometry) : option BBox.box :=
  match g with
  | FileLineString coordinates => scan_line (Some b) coordinates
  | FileMultiLineString (Some lines) => foldl scan_line (Some b) lines
  | FileMultiLineString None => None
  | FileOtherGeometry => Some b
  end.

(** An entry [{ ft, objectId, upLL, downLL }] of [endpointRecords]. *)
Record endpoint_record : Type := mkRecord {
  er_ft : nat;
  er_objectId : Z;
  er_upLL : LL;
  er_downLL : LL
}.

(** An entry [{ lng, lat, m, recIndex, which }] of [endpoints]. *)
Record endpoint : Type := mkEndpoint {
  e_lng : jsnum;
  e_lat : jsnum;
  e_m : jsnum * jsnum;
  e_recIndex : nat;
  e_which : string
}.

(** An entry [{ sumLng, sumLat, n }] of [cluster]. *)
Record centroid : Type := mkCentroid {
  sumLng : jsnum;
  sumLat : jsnum;
  c_n : jsnum
}.

(** The map [grid], in the order its keys were inserted. *)
Definition grid_t : Type := list (string * list nat).

(** [grid.get(k)] *)
Fixpoint grid_get (grid : grid_t) (k : string) : option (list nat) :=
  match grid with
  | [] => None
  | (k', idxs) :: rest => if String.eqb k' k then Some idxs else grid_get rest k
  end.

(** [if (!grid.has(k)) grid.set(k, []); grid.get(k).push(idx)] *)
Fixpoint grid_push (grid : grid_t) (k : string) (idx : nat) : grid_t :=
  match grid with
  | [] => [(k, [idx])]
  | (k', idxs) :: rest =>
      if String.eqb k' k then (k', idxs ++ [idx]) :: rest
      else (k', idxs) :: grid_push rest k idx
  end.

(** [s.split(c)] for a separator of one character. *)
Fixpoint split_on (c : ascii) (s : string) : list string :=
  match s with
  | EmptyString => [EmptyString]
  | String a s' =>
      if Ascii.eqb a c then EmptyString :: split_on c s'
      else match split_on c s' with
           | h :: t => String a h :: t
           | [] => [String a EmptyString]
           end
  end.

(** [`C${root}`] *)
Definition clusterKey (root : nat) : string := ("C" +:+ pretty root)%string.

(** [props._v_half_mps = v] *)
Definition set_v (p : props) (v : jsnum) : props :=
  mkProps (OBJECTID p) (SEWER_NAME p) (SEWERNAME p) (UPSTREAM_IL p)
    (DOWNSTREAM_IL p) (PIPE_LENGTH p) (PIPE_WIDTH p) (PIPE_HEIGHT p)
    (DIR p) (Dir p) (dir p) (DIRECTION p) (Direction p) (direction p)
    (_dir p) (_dir_source p) (_nextObjectIds p) (JNum v)
    (_segment_candidate_objectid p) (_sewer_name_norm p) (_flowEndLL p)
    (_downNodeKey p) (_next_via_gap_bridge p).

(** [props._downNodeKey = dnK] *)
Definition set_down (p : props) (dnK : string) : props :=
  mkProps (OBJECTID p) (SEWER_NAME p) (SEWERNAME p) (UPSTREAM_IL p)
    (DOWNSTREAM_IL p) (PIPE_LENGTH p) (PIPE_WIDTH p) (PIPE_HEIGHT p)
    (DIR p) (Dir p) (dir p) (DIRECTION p) (Direction p) (direction p)
    (_dir p) (_dir_source p) (_nextObjectIds p) (_v_half_mps p)
    (_segment_candidate_objectid p) (_sewer_name_norm p) (_flowEndLL p)
    (Some dnK) (_next_via_gap_bridge p).

(** [ensureNode(key, lng, lat)] *)
Definition ensureNode (nodeIndex : gmap string GapBridge.node) (key : string)
    (lng lat : jsnum) : gmap string GapBridge.node :=
  match nodeIndex !! key with
  | Some _ => nodeIndex
  | None => <[key := GapBridge.mkNode key lng lat [] []]> nodeIndex
  end.

(** [node.outObjectIds.push(id)] and [node.inObjectIds.push(id)] on the node
    of a key. *)
Definition push_out (key : string) (id : Z) (nodeIndex : gmap string GapBridge.node)
  : gmap string GapBridge.node :=
  alter (fun nd => GapBridge.mkNode (GapBridge.n_key nd) (GapBridge.n_lng nd)
                     (GapBridge.n_lat nd) (GapBridge.inObjectIds nd)
                     (GapBridge.outObjectIds nd ++ [id])) key nodeIndex.

Definition push_in (key : string) (id : Z) (nodeIndex : gmap string GapBridge.node)
  : gmap string GapBridge.node :=
  alter (fun nd => GapBridge.mkNode (GapBridge.n_key nd) (GapBridge.n_lng nd)
                     (GapBridge.n_lat nd) (GapBridge.inObjectIds nd ++ [id])
                     (GapBridge.outObjectIds nd)) key nodeIndex.

(** The second pass on one feature. *)
Definition pass2_feature (nodeIndex : gmap string GapBridge.node) (ft : feature)
  : feature :=
  let p := props_of (Some ft) in
  match OBJECTID p, _downNodeKey p with
  | Some objectId, Some downKey =>
      if String.eqb downKey "" then ft
      else
        let next :=
          match nodeIndex !! downKey with
          | Some downNode =>
              filter (fun id => id <> objectId) (GapBridge.outObjectIds downNode)
          | None => []
          end in
        mkFeature (geometry ft) (Some (KeyLoader.set_next p next))
  | _, _ => ft
  end.

(** The state of the first pass: the features seen, as the pass leaves them,
    [endpointRecords] and [byObjectId]. *)
Record pass1_state : Type := mkPass1 {
  p1_features : list feature;
  p1_records : list endpoint_record;
  p1_byObjectId : gmap Z nat
}.

(** The state of the loop that assigns the nodes: the union-find object,
    the features and [nodeIndex]. *)
Record assign_state : Type := mkAssign {
  a_uf : UF.uf;
  a_features : list feature;
  a_nodeIndex : gmap string GapBridge.node
}.

Section Cluster.
Context {RT : Runtime}.
Context (fpow : jsnum -> jsnum -> jsnum).
Context (parseInt : string -> jsnum).

Local Infix "+." := fadd (at level 50, left associativity).
Local Infix "-." := fsub (at level 50, left associativity).
Local Infix "*." := fmul (at level 40, left associativity).
Local Infix "/." := fdiv (at level 40, left associativity).

Definition cellKeyForMeters (m : jsnum * jsnum) (cellSize : jsnum) : string :=
  let cx := ffloor (fst m /. cellSize) in
  let cy := ffloor (snd m /. cellSize) in
  (numToString cx +:+ "_" +:+ numToString cy)%string.

(** The first pass on one feature, after the scan: the feature as the pass
    leaves it, and what it records for it. *)
Definition pass1_feature (r : KeyLoader.raw) : feature * option (Z * LL * LL) :=
  let ft := KeyLoader.raw_feature r in
  match geometry ft with
  | None => (ft, None)
  | Some g =>
      let p := default no_props (properties ft) in
      let hv := Hydraulics.computeHalfFullVelocityMps fpow (KeyLoader.raw_MATERIAL r)
                  (KeyLoader.raw_GRADE r) p in
      let p1 := set_v p (Hydraulics.hv_v hv) in
      let '(d, dirSource) := Loader.direction_decision p in
      let p2 := Loader.set_dir p1 d dirSource in
      (mkFeature (Some g) (Some p2),
       match OBJECTID p, Endpoints.flow_endpoints p (Some ft) with
       | Some objectId, Some (upLL, downLL) => Some (objectId, upLL, downLL)
       | _, _ => None
       end)
  end.

Definition pass1_record (st : pass1_state) (r : KeyLoader.raw) : pass1_state :=
  let '(ft, rec) := pass1_feature r in
  let i := length (p1_features st) in
  match rec with
  | Some (objectId, upLL, downLL) =>
      mkPass1 (p1_features st ++ [ft])
        (p1_records st ++ [mkRecord i objectId upLL downLL])
        (<[objectId := i]> (p1_byObjectId st))
  | None => mkPass1 (p1_features st ++ [ft]) (p1_records st) (p1_byObjectId st)
  end.

(** One iteration of the first pass, on the bounding box and the state;
    [None] when the scan throws, which ends the loader. *)
Definition pass1_step (acc : option (BBox.box * pass1_state)) (f : file_feature)
  : option (BBox.box * pass1_state) :=
  '(b, st) ← acc;
  b' ← match ff_geometry f with
       | None => Some b
       | Some g => scan b g
       end;
  Some (b', pass1_record st (read_feature f)).

Definition pass1 (features : list file_feature) : option (BBox.box * pass1_state) :=
  foldl pass1_step (Some (BBox.start, mkPass1 [] [] ∅)) features.

(** The two endpoints of record [i]. *)
Definition record_endpoints (i : nat) (r : endpoint_record) : list endpoint :=
  let upM := mercatorMetersFromLngLat (lng (er_upLL r)) (lat (er_upLL r)) in
  let dnM := mercatorMetersFromLngLat (lng (er_downLL r)) (lat (er_downLL r)) in
  [mkEndpoint (lng (er_upLL r)) (lat (er_upLL r)) upM i "up";
   mkEndpoint (lng (er_downLL r)) (lat (er_downLL r)) dnM i "down"].

Definition endpoints_of (records : list endpoint_record) : list endpoint :=
  mjoin (imap record_endpoints records).

(** [addToGrid(idx)] for every index of [endpoints]. *)
Definition addToGrid (grid : grid_t) (ie : nat * endpoint) : grid_t :=
  grid_push grid (cellKeyForMeters (e_m (snd ie)) MERGE_RADIUS_M) (fst ie).

Definition build_grid (endpoints : list endpoint) : grid_t :=
  foldl addToGrid [] (imap pair endpoints).

(** The distance between two points in Mercator metres. *)
Definition dist_m (a b : jsnum * jsnum) : jsnum :=
  let dx := fst a -. fst b in
  let dy := snd a -. snd b in
  fsqrt (dx *. dx +. dy *. dy).

(** [distM(i, j)] *)
Definition distM (endpoints : list endpoint) (i j : nat) : option jsnum :=
  a ← endpoints !! i;
  b ← endpoints !! j;
  Some (dist_m (e_m a) (e_m b)).

(** The pairs [(i, j)] the loops visit for one cell of the grid, in their
    order. *)
Definition cell_pairs (grid : grid_t) (cell : string * list nat) : list (nat * nat) :=
  let parts := split_on "_" (fst cell) in
  let cx := parseInt (default "undefined"%string (parts !! 0%nat)) in
  let cy := parseInt (default "undefined"%string (parts !! 1%nat)) in
  ox ← [-1; 0; 1]%Z;
  oy ← [-1; 0; 1]%Z;
  let nk := (numToString (cx +. Fin (inject_Z ox)) +:+ "_"
             +:+ numToString (cy +. Fin (inject_Z oy)))%string in
  match grid_get grid nk with
  | None => []
  | Some other => i ← snd cell; j ← other; [(i, j)]
  end.

(** The body of the innermost loop. *)
Definition merge_step (endpoints : list endpoint) (u : option UF.uf) (ij : nat * nat)
  : option UF.uf :=
  u ← u;
  if (snd ij <=? fst ij)%nat then Some u
  else
    d ← distM endpoints (fst ij) (snd ij);
    if jsle d MERGE_RADIUS_M then UF.union u (fst ij) (snd ij) else Some u.

Definition merge_all (endpoints : list endpoint) (grid : grid_t) : option UF.uf :=
  foldl (merge_step endpoints) (Some (UF.create (length endpoints)))
    (grid ≫= cell_pairs grid).

(** The loop that sums the coordinates of every cluster. *)
Definition centroid_step (st : option (UF.uf * gmap nat centroid)) (ie : nat * endpoint)
  : option (UF.uf * gmap nat centroid) :=
  st ← st;
  ur ← UF.find (fst st) (fst ie);
  let c := default (mkCentroid (Fin 0) (Fin 0) (Fin 0)) (snd st !! snd ur) in
  let c' := mkCentroid (sumLng c +. e_lng (snd ie)) (sumLat c +. e_lat (snd ie))
              (c_n c +. Fin 1) in
  Some (fst ur, <[snd ur := c']> (snd st)).

Definition centroids (endpoints : list endpoint) (u : UF.uf)
  : option (UF.uf * gmap nat centroid) :=
  foldl centroid_step (Some (u, ∅)) (imap pair endpoints).

(** The loop that assigns its two nodes to every record. *)
Definition assign_step (cluster : gmap nat centroid) (st : option assign_state)
    (ir : nat * endpoint_record) : option assign_state :=
  st ← st;
  let recIndex := fst ir in
  let r := snd ir in
  ft ← a_features st !! er_ft r;
  let p := default no_props (properties ft) in
  up ← UF.find (a_uf st) (recIndex * 2);
  dn ← UF.find (fst up) (recIndex * 2 + 1);
  let upRoot := snd up in
  let dnRoot := snd dn in
  let upK := clusterKey upRoot in
  let dnK := clusterKey dnRoot in
  let p' := set_down p dnK in
  let upLng := match cluster !! upRoot with
               | Some c => sumLng c /. c_n c | None => lng (er_upLL r) end in
  let upLat := match cluster !! upRoot with
               | Some c => sumLat c /. c_n c | None => lat (er_upLL r) end in
  let dnLng := match cluster !! dnRoot with
               | Some c => sumLng c /. c_n c | None => lng (er_downLL r) end in
  let dnLat := match cluster !! dnRoot with
               | Some c => sumLat c /. c_n c | None => lat (er_downLL r) end in
  let nodeIndex := ensureNode (ensureNode (a_nodeIndex st) upK upLng upLat)
                     dnK dnLng dnLat in
  let nodeIndex := push_in dnK (er_objectId r) (push_out upK (er_objectId r) nodeIndex) in
  Some (mkAssign (fst dn)
          (<[er_ft r := mkFeature (geometry ft) (Some p')]> (a_features st))
          nodeIndex).

Definition assign (records : list endpoint_record) (cluster : gmap nat centroid)
    (u : UF.uf) (features : list feature) : option assign_state :=
  foldl (assign_step cluster) (Some (mkAssign u features ∅)) (imap pair records).

(** What follows the first pass: the clusters of the endpoints, the nodes
    and the second pass, and the map [byObjectId] they leave. *)
Definition connect (st : pass1_state) : option graph :=
  let endpoints := endpoints_of (p1_records st) in
  let grid := build_grid endpoints in
  u ← merge_all endpoints grid;
  uc ← centroids endpoints u;
  a ← assign (p1_records st) (snd uc) (fst uc) (p1_features st);
  let fts := pass2_feature (a_nodeIndex a) <$> a_features a in
  Some (omap (fun i => fts !! i) (p1_byObjectId st)).

(** The map [byObjectId] when the loader is done; [None] when it threw. *)
Definition load (features : list file_feature) : option graph :=
  '(_, st) ← pass1 features; connect st.

End Cluster.
End Cluster.

(** ** Further examples *)

Module Samples.

(** A pipe whose data gives the direction [d_to_u]. *)
Definition upstream_props : props :=
  mkProps (Some 1%Z) JUndef JUndef JUndef JUndef JUndef JUndef JUndef
    (JStr "d_to_u") JUndef JUndef JUndef JUndef JUndef
    JUndef JUndef None JUndef None JUndef None None false.

Definition upstream_line : list position := [Fixtures.pos 0 0; Fixtures.pos 1 1].

(** Two pipes of the file, the second starting where the first ends. *)
Definition keyed_pipe (id : Z) (cs : list position) : KeyLoader.raw :=
  KeyLoader.mkRaw
    (mkFeature (Some (LineString cs))
       (Some (mkProps (Some id) JUndef JUndef JUndef JUndef JUndef JUndef JUndef
                JUndef JUndef JUndef JUndef JUndef JUndef
                JUndef JUndef None JUndef None JUndef None None false)))
    JUndef JUndef.

Definition two_pipes : list KeyLoader.raw :=
  [keyed_pipe 1 [Fixtures.pos 0 0; Fixtures.pos 1 1];
   keyed_pipe 2 [Fixtures.pos 1 1; Fixtures.pos 2 2]].

End Samples.

(** * Properties *)

(** ** Sorting and folds *)

Lemma sort_insert_perm {A : Type} (after : A -> A -> bool) (x : A) (l : list A) :
  sort_insert after x l ≡ₚ x :: l.
Proof.
  induction l as [|y l IH]; simpl; [done|].
  destruct (after x y); [|done].
  rewrite IH. apply perm_swap.
Qed.

Lemma sort_by_perm {A : Type} (after : A -> A -> bool) (l : list A) :
  sort_by after l ≡ₚ l.
Proof.
  induction l as [|x l IH]; simpl; [done|].
  rewrite sort_insert_perm. by rewrite IH.
Qed.

Lemma sort_by_elem {A : Type} (after : A -> A -> bool) (l : list A) (x : A) :
  x ∈ sort_by after l <-> x ∈ l.
Proof. by rewrite sort_by_perm. Qed.

Lemma sort_by_length {A : Type} (after : A -> A -> bool) (l : list A) :
  length (sort_by after l) = length l.
Proof. by rewrite sort_by_perm. Qed.

Lemma head_sort_by_elem {A : Type} (after : A -> A -> bool) (l : list A) (x : A) :
  head (sort_by after l) = Some x -> x ∈ l.
Proof.
  intros H. apply (sort_by_elem after). apply head_Some_elem_of. exact H.
Qed.

(** A left fold that only ever replaces its first component by an element
    of the list ends on its start value or on an element of the list. *)
Lemma foldl_pick {A B : Type} (f : option A * B -> A -> option A * B)
    (l : list A) (acc : option A * B) :
  (forall acc x, f acc x = acc \/ fst (f acc x) = Some x) ->
  fst (foldl f acc l) = fst acc \/ exists x, fst (foldl f acc l) = Some x /\ x ∈ l.
Proof.
  intros Hf. revert acc. induction l as [|x l IH]; intros acc; simpl; [by left|].
  destruct (IH (f acc x)) as [E|(y & E & Hy)].
  - rewrite E. destruct (Hf acc x) as [->|E']; [by left|].
    right. exists x. split; [done|]. apply elem_of_cons. by left.
  - right. exists y. split; [done|]. apply elem_of_cons. by right.
Qed.

(** [l1.length > 0 ? l1 : l2] *)
Lemma nonempty_or_else {A : Type} (l1 l2 : list A) :
  l2 <> [] -> (if (0 <? length l1)%nat then l1 else l2) <> [].
Proof. by destruct l1. Qed.

Lemma elem_of_or_else {A : Type} (l1 l2 : list A) (x : A) :
  x ∈ (if (0 <? length l1)%nat then l1 else l2) ->
  x ∈ l1 \/ (l1 = [] /\ x ∈ l2).
Proof. destruct l1; simpl; [by right | by left]. Qed.

(** ** The DIR-only successor choice *)

Section DirOnlyChoice.
Context {RT : Runtime}.

Lemma bearing_step_pick (g : graph) (b : jsnum) (acc : oid * jsnum) (x : Z) :
  DirOnly.bearing_step g b acc x = acc
  \/ fst (DirOnly.bearing_step g b acc x) = Some x.
Proof.
  unfold DirOnly.bearing_step.
  destruct (DirOnly.orderedCoordsForPipe (g !! x)) as [|p0 [|p1 rest]]; [by left..|].
  destruct (jslt _ _); [by right | by left].
Qed.

(** The list [ids] of [chooseNextPipeDirOnly]. *)
Definition dir_only_ids (nextIds : option (list Z)) (prev : oid) (visited : gset Z)
  : list Z :=
  let ids0 := default [] nextIds in
  let ids1 := filter (fun id => Some id <> prev /\ id ∉ visited) ids0 in
  if (0 <? length ids1)%nat then ids1
  else filter (fun id => Some id <> prev) ids0.

Lemma dir_only_ids_spec nextIds prev visited id :
  id ∈ dir_only_ids nextIds prev visited ->
  id ∈ default [] nextIds /\ Some id <> prev.
Proof.
  unfold dir_only_ids. destruct (0 <? _)%nat; rewrite list_elem_of_filter; tauto.
Qed.

Lemma chooseNextPipeDirOnly_from_ids nextIds (g : graph) curr prev visited id :
  DirOnly.chooseNextPipeDirOnly nextIds g curr prev visited = Returns (Some id) ->
  id ∈ dir_only_ids nextIds prev visited.
Proof.
  unfold DirOnly.chooseNextPipeDirOnly. fold (dir_only_ids nextIds prev visited).
  destruct (dir_only_ids nextIds prev visited) as [|a [|b ids]] eqn:E.
  - discriminate.
  - intros [= ->]. apply elem_of_cons. by left.
  - destruct (curr !! _) as [pa|]; [|discriminate].
    destruct (curr !! _) as [pb|]; [|discriminate].
    destruct (foldl_pick (DirOnly.bearing_step g (bearingDeg pa pb)) (a :: b :: ids)
                (None, PInf) (bearing_step_pick g _)) as [E'|(x & E' & Hx)].
    + rewrite E'. cbn [fst]. intros H.
      apply (head_sort_by_elem (fun x y => (0 <? x - y)%Z)). congruence.
    + rewrite E'. by intros [= <-].
Qed.

Lemma chooseNextPipeDirOnly_only_previous nextIds (g : graph) curr prev visited :
  (forall id, id ∈ default [] nextIds -> Some id = prev) ->
  DirOnly.chooseNextPipeDirOnly nextIds g curr prev visited = Returns None.
Proof.
  intros Hall.
  unfold DirOnly.chooseNextPipeDirOnly. fold (dir_only_ids nextIds prev visited).
  destruct (dir_only_ids nextIds prev visited) as [|a ids] eqn:E; [done|].
  assert (a ∈ dir_only_ids nextIds prev visited) as Ha
    by (rewrite E; apply elem_of_cons; by left).
  apply dir_only_ids_spec in Ha as [Hin Hne].
  by apply Hall in Hin.
Qed.

Lemma chooseNextPipeDirOnly_returns nextIds (g : graph) curr prev visited :
  curr <> [] -> DirOnly.chooseNextPipeDirOnly nextIds g curr prev visited <> Throws.
Proof.
  intros Hcurr.
  unfold DirOnly.chooseNextPipeDirOnly. fold (dir_only_ids nextIds prev visited).
  destruct (dir_only_ids nextIds prev visited) as [|a [|b ids]]; [done..|].
  destruct curr as [|c0 curr]; [done|].
  assert (is_Some ((c0 :: curr) !! (length (c0 :: curr) - 2)%nat)) as [pa ->]
    by (apply lookup_lt_is_Some; simpl; lia).
  assert (is_Some ((c0 :: curr) !! (length (c0 :: curr) - 1)%nat)) as [pb ->]
    by (apply lookup_lt_is_Some; simpl; lia).
  by destruct (fst _).
Qed.

(** C10: [chooseNextPipeDirOnly] returns null or a member of the candidate
    list it was given, never an id outside it, and it returns null whenever the
    list holds no id other than the previous segment's.  (A call throws only
    when two or more candidates remain and the current segment has no
    coordinates.) *)
Theorem chooseNextPipeDirOnly_member_or_null
    (nextIds : option (list Z)) (g : graph) (curr : list LL) (prev : oid)
    (visited : gset Z) :
  (forall r, DirOnly.chooseNextPipeDirOnly nextIds g curr prev visited = Returns r ->
     r = None \/ exists id, r = Some id /\ id ∈ default [] nextIds)
  /\ ((forall id, id ∈ default [] nextIds -> Some id = prev) ->
      DirOnly.chooseNextPipeDirOnly nextIds g curr prev visited = Returns None)
  /\ (curr <> [] ->
      DirOnly.chooseNextPipeDirOnly nextIds g curr prev visited <> Throws).
Proof.
  split; [|split].
  - intros [id|] H; [right|by left].
    exists id. split; [done|].
    apply chooseNextPipeDirOnly_from_ids in H.
    by apply dir_only_ids_spec in H as [? _].
  - apply chooseNextPipeDirOnly_only_previous.
  - apply chooseNextPipeDirOnly_returns.
Qed.

End DirOnlyChoice.

(** ** Successor resolution by name, invert level and lookahead *)

Section LookaheadFacts.
Context {RT : Runtime}.

Lemma lowest_step_pick (g : graph) (acc : oid * option Q) (x : Z) :
  Lookahead.lowest_step g acc x = acc
  \/ fst (Lookahead.lowest_step g acc x) = Some x.
Proof.
  unfold Lookahead.lowest_step.
  destruct (toNum _); [|by left].
  destruct (snd acc); [|by right].
  destruct (Qlt_le_dec _ _); [by right | by left].
Qed.

Lemma longest_step_pick (g : graph) (acc : oid * option Q) (x : Z) :
  Lookahead.longest_step g acc x = acc
  \/ fst (Lookahead.longest_step g acc x) = Some x.
Proof.
  unfold Lookahead.longest_step.
  destruct (toNum _); [|by left].
  destruct (snd acc); [|by right].
  destruct (Qlt_le_dec _ _); [by right | by left].
Qed.

Lemma name_candidates_elem (nextIds : list Z) (g : graph) (p : props) (x : Z) :
  x ∈ Lookahead.name_candidates nextIds g p -> x ∈ nextIds.
Proof.
  unfold Lookahead.name_candidates.
  destruct (decide _); [done|].
  destruct (0 <? _)%nat; [|done].
  rewrite list_elem_of_filter. tauto.
Qed.

Lemma name_candidates_nonempty (nextIds : list Z) (g : graph) (p : props) :
  nextIds <> [] -> Lookahead.name_candidates nextIds g p <> [].
Proof.
  unfold Lookahead.name_candidates. intros Hne.
  destruct (decide _); [done|].
  destruct (filter _ nextIds) as [|a l]; simpl; done.
Qed.

(** Whatever [chooseNextPipeLowestDownIL] returns is one of the candidates
    left by the same-name preference. *)
Lemma chooseNextPipeLowestDownIL_elem (nextIds : list Z) (g : graph) (p : props) (x : Z) :
  Lookahead.chooseNextPipeLowestDownIL (Some nextIds) g p = Some x ->
  x ∈ Lookahead.name_candidates nextIds g p.
Proof.
  unfold Lookahead.chooseNextPipeLowestDownIL.
  destruct nextIds as [|a l]; [discriminate|].
  set (cands := Lookahead.name_candidates (a :: l) g p).
  destruct (foldl_pick (Lookahead.lowest_step g) cands (None, None)
              (lowest_step_pick g)) as [E|(y & E & Hy)]; rewrite E; cbn [fst].
  2: { by intros [= <-]. }
  destruct (Lookahead.seg_candidate_usable _ cands) eqn:Hseg.
  { unfold Lookahead.seg_candidate_usable in Hseg.
    destruct (_segment_candidate_objectid p) as [c|]; [|done].
    apply bool_decide_eq_true in Hseg as [_ Hc]. by intros [= <-]. }
  destruct (foldl_pick (Lookahead.longest_step g) cands (None, None)
              (longest_step_pick g)) as [E'|(y & E' & Hy)]; rewrite E'; cbn [fst].
  - apply head_Some_elem_of.
  - by intros [= <-].
Qed.

Lemma chooseNextPipeLowestDownIL_some (nextIds : list Z) (g : graph) (p : props) :
  nextIds <> [] ->
  is_Some (Lookahead.chooseNextPipeLowestDownIL (Some nextIds) g p).
Proof.
  intros Hne. unfold Lookahead.chooseNextPipeLowestDownIL.
  destruct nextIds as [|a l]; [done|].
  pose proof (name_candidates_nonempty (a :: l) g p Hne) as Hc.
  destruct (fst (foldl (Lookahead.lowest_step g) _ _)); [by eexists|].
  destruct (Lookahead.seg_candidate_usable _ _) eqn:Hseg.
  { unfold Lookahead.seg_candidate_usable in Hseg.
    destruct (_segment_candidate_objectid p); [by eexists | done]. }
  destruct (fst (foldl (Lookahead.longest_step g) _ _)); [by eexists|].
  destruct (Lookahead.name_candidates (a :: l) g p); [done | by eexists].
Qed.

Lemma score_step_pick (g : graph) (p : props) (cur prev : oid) (visited : gset Z)
    (acc : oid * option Z) (x : Z) :
  Lookahead.score_step g p cur prev visited acc x = acc
  \/ fst (Lookahead.score_step g p cur prev visited acc x) = Some x.
Proof.
  unfold Lookahead.score_step.
  destruct (snd acc); [|by right].
  destruct (_ <? _)%Z; [by right | by left].
Qed.

Lemma chooseBestByLookahead_elem (ids : list Z) (g : graph) (p : props)
    (cur prev : oid) (visited : gset Z) (x : Z) :
  Lookahead.chooseBestByLookahead ids g p cur prev visited = Some x -> x ∈ ids.
Proof.
  unfold Lookahead.chooseBestByLookahead.
  assert (match fst (foldl (Lookahead.score_step g p cur prev visited) (None, None) ids) with
          | Some bestId => Some bestId
          | None => Lookahead.chooseNextPipeLowestDownIL (Some ids) g p
          end = Some x -> x ∈ ids) as Hgen.
  { destruct (foldl_pick (Lookahead.score_step g p cur prev visited) ids (None, None)
                (score_step_pick g p cur prev visited)) as [E|(y & E & Hy)];
      rewrite E; cbn [fst].
    - intros H. apply chooseNextPipeLowestDownIL_elem in H.
      by apply name_candidates_elem in H.
    - by intros [= <-]. }
  destruct ids as [|a [|b l]]; [exact Hgen | | exact Hgen].
  intros [= <-]. apply elem_of_cons. by left.
Qed.

Lemma chooseBestByLookahead_some (ids : list Z) (g : graph) (p : props)
    (cur prev : oid) (visited : gset Z) :
  ids <> [] -> is_Some (Lookahead.chooseBestByLookahead ids g p cur prev visited).
Proof.
  intros Hne. unfold Lookahead.chooseBestByLookahead.
  destruct ids as [|a [|b l]]; [done | by eexists |].
  destruct (fst _); [by eexists|].
  by apply chooseNextPipeLowestDownIL_some.
Qed.

(** The list [ids] of [chooseNextPipeWithLookahead]. *)
Definition lookahead_ids (ids0 : list Z) (prev : oid) (visited : gset Z) : list Z :=
  let idsNoPrev := filter (fun id => Some id <> prev) ids0 in
  let idsBase := if (0 <? length idsNoPrev)%nat then idsNoPrev else ids0 in
  let idsUnvisited := filter (fun id => id ∉ visited) idsBase in
  if (0 <? length idsUnvisited)%nat then idsUnvisited else idsBase.

Lemma lookahead_ids_nonempty ids0 prev visited :
  ids0 <> [] -> lookahead_ids ids0 prev visited <> [].
Proof.
  intros Hne. unfold lookahead_ids. by do 2 apply nonempty_or_else.
Qed.

Lemma lookahead_ids_spec ids0 prev visited id :
  id ∈ lookahead_ids ids0 prev visited ->
  id ∈ ids0 /\ ((exists c, c ∈ ids0 /\ Some c <> prev) -> Some id <> prev).
Proof.
  unfold lookahead_ids. intros Hid.
  apply elem_of_or_else in Hid as [Hid|[_ Hid]];
    [apply list_elem_of_filter in Hid as [_ Hid]|];
    (apply elem_of_or_else in Hid as [Hid|[Hnil Hid]];
     [apply list_elem_of_filter in Hid; tauto|]);
    (split; [done|]; intros (c & Hc & Hne);
     assert (c ∈ filter (fun id => Some id <> prev) ids0) as Hc'
       by (by apply list_elem_of_filter);
     rewrite Hnil in Hc'; by apply elem_of_nil in Hc').
Qed.

Lemma chooseNextPipeWithLookahead_ids (ids0 : list Z) (g : graph) (p : props)
    (cur prev : oid) (visited : gset Z) :
  ids0 <> [] ->
  exists id, Lookahead.chooseNextPipeWithLookahead (Some ids0) g p cur prev visited = Some id
             /\ id ∈ lookahead_ids ids0 prev visited.
Proof.
  intros Hne. unfold Lookahead.chooseNextPipeWithLookahead.
  change (default [] (Some ids0)) with ids0. destruct ids0 as [|a0 l0]; [done|].
  fold (lookahead_ids (a0 :: l0) prev visited).
  pose proof (lookahead_ids_nonempty (a0 :: l0) prev visited Hne) as Hids.
  destruct (lookahead_ids (a0 :: l0) prev visited) as [|a [|b l]] eqn:E; [done| |].
  - exists a. split; [done|]. apply elem_of_cons. by left.
  - destruct (chooseBestByLookahead_some (a :: b :: l) g p cur prev visited) as [x Hx];
      [done|].
    exists x. split; [done|]. by apply chooseBestByLookahead_elem in Hx.
Qed.

(** C5 (amended): [chooseNextPipeWithLookahead] never chooses the
    immediately-previous segment while another candidate exists, and chooses
    it when it is the only candidate; [chooseNextPipeDirOnly] never chooses
    it, and returns null when it is the only candidate. *)
Theorem previous_segment_exclusion
    (ids0 : list Z) (g : graph) (p : props) (curr : list LL) (cur prev : oid)
    (visited : gset Z) :
  (ids0 <> [] ->
   exists id,
     Lookahead.chooseNextPipeWithLookahead (Some ids0) g p cur prev visited = Some id
     /\ id ∈ ids0
     /\ ((exists c, c ∈ ids0 /\ Some c <> prev) -> Some id <> prev)
     /\ ((forall c, c ∈ ids0 -> Some c = prev) -> Some id = prev))
  /\ (forall id,
        DirOnly.chooseNextPipeDirOnly (Some ids0) g curr prev visited = Returns (Some id) ->
        id ∈ ids0 /\ Some id <> prev)
  /\ ((forall c, c ∈ ids0 -> Some c = prev) ->
      DirOnly.chooseNextPipeDirOnly (Some ids0) g curr prev visited = Returns None).
Proof.
  split; [|split].
  - intros Hne.
    destruct (chooseNextPipeWithLookahead_ids ids0 g p cur prev visited Hne)
      as (id & Hid & Hin).
    apply lookahead_ids_spec in Hin as [Hin Hprev].
    exists id. repeat split; [done..|]. intros Hall. by apply Hall.
  - intros id H. apply chooseNextPipeDirOnly_from_ids in H.
    by apply dir_only_ids_spec in H.
  - apply (chooseNextPipeDirOnly_only_previous (Some ids0)).
Qed.

End LookaheadFacts.

(** ** Name continuity and invert levels *)

Lemma foldl_ext_elem {A B : Type} (f f' : B -> A -> B) (l : list A) (acc : B) :
  (forall b x, x ∈ l -> f b x = f' b x) -> foldl f acc l = foldl f' acc l.
Proof.
  revert acc. induction l as [|x l IH]; intros acc Hf; simpl; [done|].
  rewrite Hf by (apply elem_of_cons; by left).
  apply IH. intros b y Hy. apply Hf. apply elem_of_cons. by right.
Qed.

Lemma jslt_irrefl (x : jsnum) : jslt x x = false.
Proof.
  destruct x as [q| | |]; simpl; try done.
  destruct (Qlt_le_dec q q) as [H|H]; [|done].
  by apply Qlt_irrefl in H.
Qed.

Section NameContinuity.
Context {RT : Runtime}.

(** [chooseNextPipeDirOnly] reads the graph through the ordered coordinates
    of the candidates only. *)
Lemma chooseNextPipeDirOnly_ext nextIds (g g' : graph) curr prev visited :
  (forall id, DirOnly.orderedCoordsForPipe (g !! id)
              = DirOnly.orderedCoordsForPipe (g' !! id)) ->
  DirOnly.chooseNextPipeDirOnly nextIds g curr prev visited
  = DirOnly.chooseNextPipeDirOnly nextIds g' curr prev visited.
Proof.
  intros Hv. unfold DirOnly.chooseNextPipeDirOnly.
  destruct (if (0 <? _)%nat then _ else _) as [|a [|b ids]]; [done..|].
  destruct (curr !! _) as [pa|]; [|done]. destruct (curr !! _) as [pb|]; [|done].
  rewrite (foldl_ext_elem (DirOnly.bearing_step g (bearingDeg pa pb))
             (DirOnly.bearing_step g' (bearingDeg pa pb))); [done|].
  intros acc x _. unfold DirOnly.bearing_step. by rewrite Hv.
Qed.

(** Two candidates with the same geometry: the first of the list wins, and
    it is also the one of lower id. *)
Lemma chooseNextPipeDirOnly_twins (g : graph) (a b : Z) (c0 : LL) (curr : list LL) :
  (a < b)%Z ->
  DirOnly.orderedCoordsForPipe (g !! a) = DirOnly.orderedCoordsForPipe (g !! b) ->
  DirOnly.chooseNextPipeDirOnly (Some [a; b]) g (c0 :: curr) None ∅
  = Returns (Some a).
Proof.
  intros Hab Hsame. unfold DirOnly.chooseNextPipeDirOnly.
  fold (dir_only_ids (Some [a; b]) None ∅).
  assert (dir_only_ids (Some [a; b]) None ∅ = [a; b]) as ->.
  { unfold dir_only_ids. change (default [] (Some [a; b])) with [a; b].
    rewrite !filter_cons. rewrite !decide_True by (split; [done | set_solver]).
    done. }
  assert (is_Some ((c0 :: curr) !! (length (c0 :: curr) - 2)%nat)) as [pa ->]
    by (apply lookup_lt_is_Some; simpl; lia).
  assert (is_Some ((c0 :: curr) !! (length (c0 :: curr) - 1)%nat)) as [pb ->]
    by (apply lookup_lt_is_Some; simpl; lia).
  cbn [foldl]. unfold DirOnly.bearing_step at 2. rewrite Hsame.
  unfold DirOnly.bearing_step.
  destruct (DirOnly.orderedCoordsForPipe (g !! b)) as [|p0 [|p1 rest]].
  - cbn. rewrite (proj2 (Z.ltb_ge 0 (a - b))) by lia. done.
  - cbn. rewrite (proj2 (Z.ltb_ge 0 (a - b))) by lia. done.
  - cbn [snd fst].
    destruct (jslt (angleDiffDeg (bearingDeg pa pb) (bearingDeg p0 p1)) PInf) eqn:E.
    + cbn [snd fst]. by rewrite jslt_irrefl.
    + cbn [snd fst]. rewrite E. cbn.
      rewrite (proj2 (Z.ltb_ge 0 (a - b))) by lia. done.
Qed.

(** At a fork where one candidate alone shares the current segment's name,
    [chooseNextPipeLowestDownIL] chooses it. *)
Lemma chooseNextPipeLowestDownIL_same_name (nextIds : list Z) (g : graph) (p : props)
    (c : Z) :
  Lookahead.name_of p <> ""%string ->
  c ∈ nextIds ->
  Lookahead.same_name g (Lookahead.name_of p) c ->
  (forall id, id ∈ nextIds -> Lookahead.same_name g (Lookahead.name_of p) id -> id = c) ->
  Lookahead.chooseNextPipeLowestDownIL (Some nextIds) g p = Some c.
Proof.
  intros Hname Hc Hsame Honly.
  destruct (chooseNextPipeLowestDownIL_some nextIds g p) as [x Hx].
  { intros ->. by apply elem_of_nil in Hc. }
  rewrite Hx. f_equal.
  apply chooseNextPipeLowestDownIL_elem in Hx.
  unfold Lookahead.name_candidates in Hx.
  rewrite decide_False in Hx by done.
  assert (c ∈ filter (Lookahead.same_name g (Lookahead.name_of p)) nextIds) as Hcf
    by (by apply list_elem_of_filter).
  destruct (filter (Lookahead.same_name g (Lookahead.name_of p)) nextIds)
    as [|y l] eqn:E; [by apply elem_of_nil in Hcf|].
  cbn in Hx. rewrite <- E in Hx.
  apply list_elem_of_filter in Hx as [Hx1 Hx2]. by apply Honly.
Qed.

End NameContinuity.

Section NameContinuityClaims.
Context {RT : Runtime}.

Lemma orderedCoordsForPipe_renamed (names : Z -> jsval * jsval) (g : graph) (id : Z) :
  DirOnly.orderedCoordsForPipe (Views.renamed names g !! id)
  = DirOnly.orderedCoordsForPipe (g !! id).
Proof.
  unfold Views.renamed. rewrite map_lookup_imap.
  destruct (g !! id) as [ft|]; [|done]. done.
Qed.

(** C4 (amended): at a fork where the current segment has a non-empty
    normalized name and exactly one candidate shares it,
    [chooseNextPipeLowestDownIL] chooses that candidate;
    [chooseNextPipeDirOnly] does not read names: it chooses the same
    successor whatever the segments are called. *)
Theorem name_continuity_preference
    (nextIds : list Z) (g : graph) (p : props) (c : Z)
    (names : Z -> jsval * jsval) (candidates : option (list Z)) (curr : list LL)
    (prev : oid) (visited : gset Z) :
  (Lookahead.name_of p <> ""%string ->
   c ∈ nextIds ->
   Lookahead.same_name g (Lookahead.name_of p) c ->
   (forall id, id ∈ nextIds -> Lookahead.same_name g (Lookahead.name_of p) id -> id = c) ->
   Lookahead.chooseNextPipeLowestDownIL (Some nextIds) g p = Some c)
  /\ DirOnly.chooseNextPipeDirOnly candidates (Views.renamed names g) curr prev visited
     = DirOnly.chooseNextPipeDirOnly candidates g curr prev visited.
Proof.
  split.
  - apply chooseNextPipeLowestDownIL_same_name.
  - apply chooseNextPipeDirOnly_ext. intros id. apply orderedCoordsForPipe_renamed.
Qed.

(** At the fork of the examples the DIR-only choice is segment 1, whatever
    the runtime computes for the bearings. *)
Lemma fork_choice_dir_only :
  DirOnly.chooseNextPipeDirOnly (Some [1; 2]%Z) Fixtures.fork
    [Fixtures.at_ 0 0; Fixtures.at_ 1 1] None ∅ = Returns (Some 1%Z).
Proof.
  apply chooseNextPipeDirOnly_twins; [lia|].
  vm_compute. reflexivity.
Qed.

End NameContinuityClaims.

(** C4, witness: at the fork of the examples segment 2 alone shares the name
    MAIN of segment 10, and the invert-level resolver chooses it. *)
Lemma name_continuity_preference_witness :
  Lookahead.chooseNextPipeLowestDownIL (RT := planar) (Some [1; 2]%Z) Fixtures.fork
    (props_of (Fixtures.fork !! 10%Z)) = Some 2%Z.
Proof.
  refine (proj1 (name_continuity_preference (RT := planar) [1; 2]%Z Fixtures.fork
            (props_of (Fixtures.fork !! 10%Z)) 2%Z (fun _ => (JUndef, JUndef)) None []
            None ∅) _ _ _ _).
  - vm_compute. discriminate.
  - apply elem_of_cons. right. apply elem_of_cons. by left.
  - vm_compute. split; [discriminate | reflexivity].
  - intros id Hid Hs.
    apply elem_of_cons in Hid as [->|Hid].
    + exfalso. revert Hs. vm_compute. intros [_ H]. discriminate H.
    + apply elem_of_cons in Hid as [->|Hid]; [done|]. by apply elem_of_nil in Hid.
Defined.

(** C4, counterexample: segment 10 is called MAIN, its candidate 2 too and
    its candidate 1 is not, and [chooseNextPipeDirOnly] chooses 1. *)
Lemma dir_only_leaves_the_named_trunk :
  Lookahead.name_of (RT := planar) (props_of (Fixtures.fork !! 10%Z)) = "MAIN"%string
  /\ Lookahead.name_of (RT := planar) (props_of (Fixtures.fork !! 2%Z)) = "MAIN"%string
  /\ Lookahead.name_of (RT := planar) (props_of (Fixtures.fork !! 1%Z)) = "OTHER"%string
  /\ DirOnly.chooseNextPipeDirOnly (RT := planar) (Some [1; 2]%Z) Fixtures.fork
       [Fixtures.at_ 0 0; Fixtures.at_ 1 1] None ∅ = Returns (Some 1%Z).
Proof.
  split; [vm_compute; reflexivity|].
  split; [vm_compute; reflexivity|].
  split; [vm_compute; reflexivity|].
  apply fork_choice_dir_only.
Qed.


(** C5, witness: the previous segment 1 is the only candidate of segment 2,
    and the lookahead resolver returns it. *)
Lemma previous_segment_exclusion_witness :
  Lookahead.chooseNextPipeWithLookahead (RT := planar) (Some [1%Z]) Fixtures.pair
    (props_of (Fixtures.pair !! 2%Z)) (Some 2%Z) (Some 1%Z) {[1%Z; 2%Z]} = Some 1%Z.
Proof.
  destruct (proj1 (previous_segment_exclusion (RT := planar) [1%Z] Fixtures.pair
                     (props_of (Fixtures.pair !! 2%Z)) [] (Some 2%Z) (Some 1%Z)
                     {[1%Z; 2%Z]})) as (id & E & _ & _ & Hall); [done|].
  rewrite E. apply Hall. intros c Hc.
  apply elem_of_cons in Hc as [->|Hc]; [done|]. by apply elem_of_nil in Hc.
Defined.

(** C5, counterexample: in the same situation [chooseNextPipeDirOnly]
    returns null, and the segment is a dead end. *)
Lemma dir_only_sole_previous_is_dead_end :
  DirOnly.chooseNextPipeDirOnly (RT := planar) (Some [1%Z]) Fixtures.pair
    [Fixtures.at_ 1 1; Fixtures.at_ 0 0] (Some 1%Z) {[1%Z; 2%Z]} = Returns None.
Proof.
  vm_compute. reflexivity.
Qed.

(** C10, witness: a list that holds the previous segment only. *)
Lemma chooseNextPipeDirOnly_member_or_null_witness :
  DirOnly.chooseNextPipeDirOnly (RT := planar) (Some [1; 1]%Z) Fixtures.pair
    [Fixtures.at_ 1 1; Fixtures.at_ 0 0] (Some 1%Z) ∅ = Returns None.
Proof.
  refine (proj1 (proj2 (chooseNextPipeDirOnly_member_or_null (RT := planar)
                          (Some [1; 1]%Z) Fixtures.pair
                          [Fixtures.at_ 1 1; Fixtures.at_ 0 0] (Some 1%Z) ∅)) _).
  intros id Hid. cbn in Hid.
  apply elem_of_cons in Hid as [->|Hid]; [done|].
  apply elem_of_cons in Hid as [->|Hid]; [done|]. by apply elem_of_nil in Hid.
Defined.

(** ** The direction decision *)

Section DirectionFacts.
Context {RT : Runtime}.

Lemma parseDirFromProps_values (p : props) (s : string) :
  Loader.parseDirFromProps p = Some s -> s = "u_to_d"%string \/ s = "d_to_u"%string.
Proof.
  unfold Loader.parseDirFromProps.
  destruct (Loader.raw_dir p); try discriminate;
    repeat (case_decide; [intros [= <-]; tauto|]); discriminate.
Qed.

(** A direction attribute that is a string is parsed after trimming and
    lower-casing. *)
Lemma parseDirFromProps_string (p : props) (s : string) :
  Loader.raw_dir p = JStr s ->
  (toLowerCase (trim s) ∈ Loader.u_to_d_spellings ->
   Loader.parseDirFromProps p = Some "u_to_d"%string)
  /\ (toLowerCase (trim s) ∈ Loader.d_to_u_spellings ->
      Loader.parseDirFromProps p = Some "d_to_u"%string).
Proof.
  intros Hraw. unfold Loader.parseDirFromProps. rewrite Hraw. cbn [js_string].
  split; intros Hv.
  - by rewrite decide_True.
  - rewrite decide_False; [by rewrite decide_True|].
    intros Hu. revert Hv Hu. generalize (toLowerCase (trim s)). intros v Hv Hu.
    unfold Loader.d_to_u_spellings in Hv. unfold Loader.u_to_d_spellings in Hu.
    repeat (apply elem_of_cons in Hv as [->|Hv];
            [by repeat (apply elem_of_cons in Hu as [Hu|Hu];
                        [discriminate Hu|]); apply elem_of_nil in Hu|]).
    by apply elem_of_nil in Hv.
Qed.

Lemma orderedCoordsForPipe_annotated (ft : feature) :
  let coords := DirOnly.flattenFeatureCoords (Some ft) in
  DirOnly.orderedCoordsForPipe (Some (Loader.annotate_direction ft))
  = if (length coords <? 2)%nat then []
    else if String.eqb
              (fst (Loader.direction_decision (default no_props (properties ft))))
              "d_to_u"
         then rev coords else coords.
Proof.
  unfold Loader.annotate_direction.
  destruct (Loader.direction_decision _) as [d src] eqn:E.
  assert (d = "u_to_d"%string \/ d = "d_to_u"%string) as Hd.
  { revert E. unfold Loader.direction_decision.
    destruct (Loader.parseDirFromProps _) as [s|] eqn:Hp.
    - intros [= <- _]. by apply parseDirFromProps_values in Hp.
    - destruct (toNum _); [destruct (toNum _)|]; [destruct (Qle_bool _ _)|..];
        intros [= <- _]; tauto. }
  unfold DirOnly.orderedCoordsForPipe, DirOnly.flattenFeatureCoords. cbn.
  destruct Hd as [-> | ->]; reflexivity.
Qed.

(** C8: the direction of a feature is the parsed direction attribute when
    there is one (source DIR); else, when both invert levels are numeric,
    u_to_d for an upstream level at or above the downstream one and d_to_u
    below it (source IL); else u_to_d (source default).  The attribute is
    accepted in every spelling of the two lists, in any case and with white
    space around it, and the ordered coordinates of the annotated feature are
    the geometry in forward order for u_to_d and reversed for d_to_u. *)
Theorem direction_decision_priority (p : props) (ft : feature) :
  (forall s, Loader.parseDirFromProps p = Some s ->
     Loader.direction_decision p = (s, "DIR"%string))
  /\ (Loader.parseDirFromProps p = None ->
      forall u d, toNum (UPSTREAM_IL p) = Some u -> toNum (DOWNSTREAM_IL p) = Some d ->
        ((d <= u)%Q -> Loader.direction_decision p = ("u_to_d"%string, "IL"%string))
        /\ ((u < d)%Q -> Loader.direction_decision p = ("d_to_u"%string, "IL"%string)))
  /\ (Loader.parseDirFromProps p = None ->
      toNum (UPSTREAM_IL p) = None \/ toNum (DOWNSTREAM_IL p) = None ->
      Loader.direction_decision p = ("u_to_d"%string, "default"%string))
  /\ (forall s, Loader.raw_dir p = JStr s ->
        (toLowerCase (trim s) ∈ Loader.u_to_d_spellings ->
         Loader.parseDirFromProps p = Some "u_to_d"%string)
        /\ (toLowerCase (trim s) ∈ Loader.d_to_u_spellings ->
            Loader.parseDirFromProps p = Some "d_to_u"%string))
  /\ (let coords := DirOnly.flattenFeatureCoords (Some ft) in
      DirOnly.orderedCoordsForPipe (Some (Loader.annotate_direction ft))
      = if (length coords <? 2)%nat then []
        else if String.eqb
                  (fst (Loader.direction_decision (default no_props (properties ft))))
                  "d_to_u"
             then rev coords else coords).
Proof.
  split; [|split; [|split; [|split]]].
  - intros s Hs. unfold Loader.direction_decision. by rewrite Hs.
  - intros Hnone u d Hu Hd. unfold Loader.direction_decision.
    rewrite Hnone, Hu, Hd. split; intros Hcmp.
    + by rewrite (proj2 (Qle_bool_iff d u) Hcmp).
    + destruct (Qle_bool d u) eqn:E; [|done].
      apply Qle_bool_iff in E. exfalso. by apply (Qlt_not_le u d).
  - intros Hnone Hil. unfold Loader.direction_decision. rewrite Hnone.
    destruct Hil as [-> | ->]; [done|]. by destruct (toNum _).
  - apply parseDirFromProps_string.
  - apply orderedCoordsForPipe_annotated.
Qed.

End DirectionFacts.

(** C8, witness: a feature whose attribute reads U-To-D between blanks, and
    one without the attribute whose levels rise along the geometry. *)
Lemma direction_decision_priority_witness :
  Loader.direction_decision (RT := planar)
    (mkProps None JUndef JUndef (JNum (Fin 2)) (JNum (Fin 7)) JUndef JUndef JUndef
       JUndef JUndef JUndef JUndef (JStr "  U-To-D ") JUndef
       JUndef JUndef None JUndef None JUndef None None false)
  = ("u_to_d"%string, "DIR"%string)
  /\ Loader.direction_decision (RT := planar)
       (mkProps None JUndef JUndef (JNum (Fin 2)) (JNum (Fin 7)) JUndef JUndef JUndef
          JUndef JUndef JUndef JUndef JUndef JUndef
          JUndef JUndef None JUndef None JUndef None None false)
     = ("d_to_u"%string, "IL"%string).
Proof.
  split.
  - refine (proj1 (direction_decision_priority (RT := planar) _
                     (mkFeature None None)) "u_to_d"%string _).
    vm_compute. reflexivity.
  - refine (proj2 (proj1 (proj2 (direction_decision_priority (RT := planar) _
                                   (mkFeature None None))) _ 2%Q 7%Q _ _) _).
    + vm_compute. reflexivity.
    + vm_compute. reflexivity.
    + vm_compute. reflexivity.
    + vm_compute. reflexivity.
Defined.

(** The attribute is read through [trim], which takes off the white space
    outside ASCII too: u_to_d followed by a no-break space (U+00A0, the bytes
    194 and 160) is the direction of the feature, whatever its levels. *)
Example direction_attribute_with_no_break_space :
  Loader.direction_decision (RT := planar)
    (mkProps None JUndef JUndef (JNum (Fin 2)) (JNum (Fin 7)) JUndef JUndef JUndef
       (JStr ("u_to_d" +:+ String "194" (String "160" ""))) JUndef JUndef JUndef
       JUndef JUndef
       JUndef JUndef None JUndef None JUndef None None false)
  = ("u_to_d"%string, "DIR"%string).
Proof. vm_compute. reflexivity. Qed.

(** ** The speed of a point in a pipe *)

Lemma clamp_in_band (v : jsnum) :
  v <> NaN ->
  Motion.in_band (clamp v Motion.PIPE_SPEED_MIN_MPS Motion.PIPE_SPEED_MAX_MPS).
Proof.
  intros Hv. unfold Motion.in_band, clamp, Motion.PIPE_SPEED_MIN_MPS,
    Motion.PIPE_SPEED_MAX_MPS.
  destruct v as [q| | |]; [|by vm_compute..|done].
  unfold js_min, js_max, jslt.
  destruct (Qlt_le_dec q 3) as [H3|H3].
  - destruct (Qlt_le_dec (2 # 10) q) as [H2|H2]; cbn.
    + split; apply Qle_bool_iff; by apply Qlt_le_weak.
    + by vm_compute.
  - by vm_compute.
Qed.

Section MotionFacts.
Context {RT : Runtime}.

Lemma num_or_not_nan (o : option Q) (d : jsnum) : d <> NaN -> num_or o d <> NaN.
Proof.
  intros Hd. unfold num_or. destruct o as [q|]; [|done].
  by destruct (Qeq_bool q 0).
Qed.

Lemma or_else_not_nan (x d : jsnum) : d <> NaN -> Motion.or_else x d <> NaN.
Proof.
  intros Hd. unfold Motion.or_else. destruct x; cbn; try done.
  by destruct (negb _).
Qed.

Lemma in_band_truthy (v : jsnum) : Motion.in_band v -> num_truthy v = true.
Proof.
  unfold Motion.in_band, Motion.PIPE_SPEED_MIN_MPS. intros [Hlo _].
  destruct v as [q| | |]; cbn in *; try done.
  apply Qle_bool_iff in Hlo. apply negb_true_iff.
  destruct (Qeq_bool q 0) eqn:E; [|done].
  apply Qeq_bool_iff in E. rewrite E in Hlo. exfalso. revert Hlo. by vm_compute.
Qed.

(** The stored speed of a point that has pipe state is within the band. *)
Definition speed_invariant (pt : Motion.point) : Prop :=
  match Motion.pipe pt with
  | Some ps => Motion.in_band (Motion.speedMps ps)
  | None => True
  end.

Lemma tick_speed_in_band (g : option graph) (pt : Motion.point) :
  speed_invariant pt -> Motion.in_band (Motion.tick_speed g pt).
Proof.
  intros Hinv. unfold Motion.tick_speed.
  set (speed := Motion.or_else _ _).
  assert (speed <> NaN) as Hs by (by apply or_else_not_nan).
  assert (Motion.in_band speed) as Hband.
  { unfold speed, speed_invariant in *.
    destruct (Motion.pipe pt) as [ps|].
    - unfold Motion.or_else. by rewrite in_band_truthy.
    - by vm_compute. }
  destruct g as [g|]; [|done].
  destruct (match Motion.pipe pt with Some ps => Motion.objectId ps | None => None end);
    [|done].
  apply clamp_in_band. by apply num_or_not_nan.
Qed.

Lemma enterPipeMode_invariant (g : option graph) (pt pt' : Motion.point) :
  speed_invariant pt -> Motion.enterPipeMode g pt = Returns pt' -> speed_invariant pt'.
Proof.
  intros Hinv. unfold Motion.enterPipeMode.
  destruct g as [g|]; [|by intros [= <-]].
  destruct (match Motion.contact pt with Some c => Motion.pipeObjectId c | None => None end)
    as [id|]; [|by intros [= <-]].
  destruct (match Motion.contact pt with Some c => Motion.c_point c | None => None end)
    as [cp|]; [|by intros [= <-]].
  destruct (DirOnly.buildPipePlanFromObjectId _ _ _ _); [|discriminate].
  intros [= <-]. unfold speed_invariant. cbn.
  apply clamp_in_band. by apply num_or_not_nan.
Qed.

Lemma tick_invariant (g : option graph) (fast : bool) (pt : Motion.point) :
  speed_invariant pt -> speed_invariant (fst (Motion.tick g fast pt)).
Proof.
  intros Hinv. pose proof (tick_speed_in_band g pt Hinv) as Hspeed.
  unfold Motion.tick.
  destruct (Motion.mode pt); [| |done..].
  - destruct (Motion.street pt) as [st|]; [|done].
    destruct (Motion.route st) as [r|]; [|done].
    destruct (r !! _); [|done].
    destruct (Motion.advance _ _ _) as [[la ln] [|]]; exact Hinv.
  - destruct (Motion.pipePlan pt) as [plan|]; [|done].
    destruct (plan !! _); [|exact Hinv].
    destruct (Motion.advance _ _ _) as [[la ln] [|]];
      unfold speed_invariant, Motion.with_speed; cbn;
      by destruct (Motion.pipe pt).
Qed.

Lemma reachable_invariant (pt : Motion.point) :
  Motion.reachable pt -> speed_invariant pt.
Proof.
  induction 1 as [la ln|pt r c plan _ _|pt _ IH|g pt pt' _ IH E|g fast pt _ IH].
  - exact I.
  - exact I.
  - exact IH.
  - by apply (enterPipeMode_invariant g pt).
  - by apply tick_invariant.
Qed.

(** C7: whatever the velocity attribute of the segment holds, the speed of
    a point in pipe mode is within [[0.2, 3.0]] m/s: the speed
    [enterPipeMode] stores, the speed every later state of the point holds,
    and the speed each animation tick computes and moves the point with
    (before the playback factor of the 10x switch). *)
Theorem pipe_speed_within_band (pt : Motion.point) :
  Motion.reachable pt ->
  (forall ps, Motion.pipe pt = Some ps -> Motion.in_band (Motion.speedMps ps))
  /\ (forall g, Motion.in_band (Motion.tick_speed g pt))
  /\ (forall g pt' ps,
        Motion.enterPipeMode g pt = Returns pt' ->
        Motion.pipe pt' = Some ps ->
        Motion.mode pt' = Motion.Pipe ->
        Motion.in_band (Motion.speedMps ps)
        /\ Motion.speedMps ps
           = clamp (num_or (toNum (_v_half_mps
                                     (props_of (default ∅ g !! default 0%Z (Motion.objectId ps)))))
                      (Fin 0))
               Motion.PIPE_SPEED_MIN_MPS Motion.PIPE_SPEED_MAX_MPS).
Proof.
  intros Hreach. pose proof (reachable_invariant pt Hreach) as Hinv.
  split; [|split].
  - intros ps Hps. unfold speed_invariant in Hinv. by rewrite Hps in Hinv.
  - intros g. by apply tick_speed_in_band.
  - intros g pt' ps Henter Hps Hmode.
    pose proof (enterPipeMode_invariant g pt pt' Hinv Henter) as Hinv'.
    unfold speed_invariant in Hinv'. rewrite Hps in Hinv'. split; [done|].
    revert Henter. unfold Motion.enterPipeMode.
    destruct g as [g|]; [|intros [= <-]; discriminate].
    destruct (match Motion.contact pt with Some c => Motion.pipeObjectId c | None => None end)
      as [id|]; [|intros [= <-]; discriminate].
    destruct (match Motion.contact pt with Some c => Motion.c_point c | None => None end)
      as [cp|]; [|intros [= <-]; discriminate].
    destruct (DirOnly.buildPipePlanFromObjectId _ _ _ _); [|discriminate].
    intros [= <-]. cbn in Hps. by injection Hps as <-.
Qed.

End MotionFacts.

(** C7, witness: the point that enters segment 1 of the ring, whose
    velocity attribute is missing, moves at 0.2 m/s. *)
Lemma pipe_speed_within_band_witness :
  Motion.reachable (RT := planar) Fixtures.entered
  /\ Motion.tick_speed (RT := planar) (Some Fixtures.ring) Fixtures.entered
     = Motion.PIPE_SPEED_MIN_MPS
  /\ Motion.in_band (Motion.tick_speed (RT := planar) (Some Fixtures.ring) Fixtures.entered).
Proof.
  assert (Motion.reachable (RT := planar) Fixtures.entered) as Hreach.
  { apply (Motion.reach_enter (Some Fixtures.ring) Fixtures.arriving).
    - apply Motion.reach_routed, Motion.reach_new.
    - vm_compute. reflexivity. }
  split; [exact Hreach|]. split; [vm_compute; reflexivity|].
  exact (proj1 (proj2 (pipe_speed_within_band (RT := planar) Fixtures.entered Hreach))
           (Some Fixtures.ring)).
Defined.

(** ** Grid-cell deduplication of a plan *)

Section Cells.
Context {RT : Runtime}.

(** The key of a point's 5 m cell. *)
Definition cell (pt : LL) : string := gridKey pt (Fin 5).

(** The points [vs] lie in distinct cells, all of them recorded in [cs]. *)
Definition cells_ok (vs : list LL) (cs : gset string) : Prop :=
  NoDup (cell <$> vs) /\ forall v, v ∈ vs -> cell v ∈ cs.

Lemma cells_ok_nil : cells_ok [] ∅.
Proof. split; [constructor | intros v Hv; by apply elem_of_nil in Hv]. Qed.

Lemma pushPoint_ok (pre vs : list LL) (cs : gset string) (pt : LL) :
  cells_ok vs cs ->
  exists vs', fst (Dfs.pushPoint (pre ++ vs, cs) pt) = pre ++ vs'
              /\ cells_ok vs' (snd (Dfs.pushPoint (pre ++ vs, cs) pt)).
Proof.
  intros [Hnd Hin]. unfold Dfs.pushPoint. fold (cell pt). cbn [fst snd].
  destruct (decide (cell pt ∈ cs)) as [Hc|Hc]; cbn [fst snd].
  - exists vs. by split.
  - exists (vs ++ [pt]). split; [by rewrite app_assoc|]. split.
    + rewrite fmap_app. apply NoDup_app. split; [done|]. split.
      * intros k Hk Hk'. cbn in Hk'. apply list_elem_of_singleton in Hk' as ->.
        apply list_elem_of_fmap in Hk as (v & Hv & Hvin).
        apply Hc. rewrite Hv. by apply Hin.
      * cbn. apply NoDup_singleton.
    + intros v Hv. apply elem_of_app in Hv as [Hv|Hv].
      * apply elem_of_union. right. by apply Hin.
      * apply list_elem_of_singleton in Hv as ->. apply elem_of_union. left.
        by apply elem_of_singleton.
Qed.

Lemma emit_cell_pushPoint : DirOnly.emit_cell = Dfs.pushPoint.
Proof. reflexivity. Qed.

(** A fold whose every step is the identity or [pushPoint] keeps the cells
    distinct. *)
Lemma foldl_push_ok (f : list LL * gset string -> LL -> list LL * gset string)
    (pts pre vs : list LL) (cs : gset string) :
  (forall acc pt, f acc pt = acc \/ f acc pt = Dfs.pushPoint acc pt) ->
  cells_ok vs cs ->
  exists vs', fst (foldl f (pre ++ vs, cs) pts) = pre ++ vs'
              /\ cells_ok vs' (snd (foldl f (pre ++ vs, cs) pts)).
Proof.
  intros Hf. revert vs cs. induction pts as [|pt pts IH]; intros vs cs Hok.
  - exists vs. by split.
  - cbn [foldl]. destruct (Hf (pre ++ vs, cs) pt) as [-> | ->].
    + by apply IH.
    + destruct (pushPoint_ok pre vs cs pt Hok) as (vs1 & E1 & Hok1).
      destruct (Dfs.pushPoint (pre ++ vs, cs) pt) as [pl1 cs1].
      cbn [fst snd] in *. subst pl1. by apply IH.
Qed.

Lemma emit_join_cases (lastPt : option LL) (acc : list LL * gset string) (pt : LL) :
  DirOnly.emit_join lastPt acc pt = acc
  \/ DirOnly.emit_join lastPt acc pt = Dfs.pushPoint acc pt.
Proof.
  unfold DirOnly.emit_join. rewrite emit_cell_pushPoint.
  destruct lastPt as [l|]; [|by right]. destruct (jslt _ _); [by left | by right].
Qed.

Lemma push_far_cases (flatten : option feature -> list LL)
    (acc : list LL * gset string) (pt : LL) :
  CoordGraph.push_far acc pt = acc
  \/ CoordGraph.push_far acc pt = Dfs.pushPoint acc pt.
Proof.
  unfold CoordGraph.push_far.
  destruct (last (fst acc)) as [l|]; [|by right].
  destruct (jslt _ _); [by left | by right].
Qed.

(** *** The DIR-only walk *)

(** The plan is the vertices emitted so far, behind the snap point once it
    has been inserted; nothing has been emitted while the snap point is
    awaited. *)
Definition plan_invariant (startPoint : option LL) (s : DirOnly.tracer) : Prop :=
  exists pre vs,
    DirOnly.plan s = pre ++ vs
    /\ cells_ok vs (DirOnly.visitedCells s)
    /\ match startPoint with
       | Some sp =>
           if DirOnly.first s then pre = [] /\ vs = [] /\ DirOnly.visitedCells s = ∅
           else pre = [mkLL (lat sp) (lng sp)]
       | None => pre = []
       end.

Lemma plan_invariant_start (startPoint : option LL) (start : oid) :
  plan_invariant startPoint (DirOnly.start_state start).
Proof.
  exists [], []. split; [done|]. split; [apply cells_ok_nil|].
  by destruct startPoint.
Qed.

Ltac plan_invariant_done :=
  split; [done|]; split; [done|]; cbn;
  repeat match goal with H : DirOnly.first _ = _ |- _ => rewrite H end; done.

Lemma hop_plan_invariant (g : graph) (startPoint : option LL) (s : DirOnly.tracer) :
  plan_invariant startPoint s ->
  match DirOnly.hop g startPoint s with
  | DirOnly.Next s' | DirOnly.Break s' => plan_invariant startPoint s'
  | DirOnly.Raise => True
  end.
Proof.
  intros Hinv. unfold DirOnly.hop.
  destruct (DirOnly.currentId s) as [cur|]; [|done].
  destruct (decide _); [done|].
  destruct (g !! cur) as [ft|]; [|done].
  destruct (length _ <? 2)%nat; [exact Hinv|].
  destruct Hinv as (pre & vs & Hplan & Hok & Hfirst).
  destruct (DirOnly.first s) eqn:Ef, startPoint as [sp|].
  - destruct Hfirst as (-> & -> & Hcs). rewrite Hplan, Hcs. cbn [app].
    destruct (foldl_push_ok DirOnly.emit_cell
                (drop (DirOnly.nearestIdx sp (DirOnly.orderedCoordsForPipe (Some ft)))
                   (DirOnly.orderedCoordsForPipe (Some ft)))
                [mkLL (lat sp) (lng sp)] [] ∅) as (vs' & E & Hok').
    { intros acc pt. right. by rewrite emit_cell_pushPoint. }
    { apply cells_ok_nil. }
    cbn [app] in E, Hok'.
    destruct (foldl DirOnly.emit_cell _ _) as [pl cs]. cbn [fst snd] in *.
    destruct (DirOnly.chooseNextPipeDirOnly _ _ _ _ _); [|done].
    exists [mkLL (lat sp) (lng sp)], vs'. plan_invariant_done.
  - subst pre. rewrite Hplan. cbn [app].
    destruct (foldl_push_ok (DirOnly.emit_join (last vs))
                (DirOnly.orderedCoordsForPipe (Some ft)) [] vs (DirOnly.visitedCells s))
      as (vs' & E & Hok').
    { apply emit_join_cases. }
    { exact Hok. }
    cbn [app] in E, Hok'.
    destruct (foldl (DirOnly.emit_join _) _ _) as [pl cs]. cbn [fst snd] in *.
    destruct (DirOnly.chooseNextPipeDirOnly _ _ _ _ _); [|done].
    exists [], vs'. plan_invariant_done.
  - subst pre. rewrite Hplan.
    destruct (foldl_push_ok
                (DirOnly.emit_join (last ([mkLL (lat sp) (lng sp)] ++ vs)))
                (DirOnly.orderedCoordsForPipe (Some ft)) [mkLL (lat sp) (lng sp)] vs
                (DirOnly.visitedCells s)) as (vs' & E & Hok').
    { apply emit_join_cases. }
    { exact Hok. }
    destruct (foldl (DirOnly.emit_join _) _ _) as [pl cs]. cbn [fst snd] in *.
    destruct (DirOnly.chooseNextPipeDirOnly _ _ _ _ _); [|done].
    exists [mkLL (lat sp) (lng sp)], vs'. plan_invariant_done.
  - subst pre. rewrite Hplan. cbn [app].
    destruct (foldl_push_ok (DirOnly.emit_join (last vs))
                (DirOnly.orderedCoordsForPipe (Some ft)) [] vs (DirOnly.visitedCells s))
      as (vs' & E & Hok').
    { apply emit_join_cases. }
    { exact Hok. }
    cbn [app] in E, Hok'.
    destruct (foldl (DirOnly.emit_join _) _ _) as [pl cs]. cbn [fst snd] in *.
    destruct (DirOnly.chooseNextPipeDirOnly _ _ _ _ _); [|done].
    exists [], vs'. plan_invariant_done.
Qed.

Lemma hops_plan_invariant (g : graph) (startPoint : option LL) (maxHops : nat)
    (s t : DirOnly.tracer) (k : nat) :
  plan_invariant startPoint s ->
  DirOnly.hops g startPoint maxHops s = Returns (t, k) ->
  plan_invariant startPoint t.
Proof.
  revert s k. induction maxHops as [|n IH]; intros s k Hinv; cbn [DirOnly.hops].
  - by intros [= <- _].
  - pose proof (hop_plan_invariant g startPoint s Hinv) as Hstep.
    destruct (DirOnly.hop g startPoint s) as [s'|s'|]; [| |discriminate].
    + destruct (DirOnly.hops g startPoint n s') as [[t' k']|] eqn:E; [|discriminate].
      intros [= <- _]. by apply (IH s' k').
    + by intros [= <- _].
Qed.

(** The vertices of a plan: the plan without the snap point in front. *)
Definition vertices (startPoint : option LL) (pl : list LL) : list LL :=
  match startPoint with
  | Some _ => tail pl
  | None => pl
  end.

Lemma dir_only_plan_cells (start : oid) (startPoint : option LL) (g : graph)
    (maxHops : nat) (pl : list LL) :
  DirOnly.buildPipePlanFromObjectId start startPoint g maxHops = Returns pl ->
  NoDup (cell <$> vertices startPoint pl)
  /\ (forall sp, startPoint = Some sp -> pl <> [] ->
        head pl = Some (mkLL (lat sp) (lng sp))).
Proof.
  unfold DirOnly.buildPipePlanFromObjectId, DirOnly.trace.
  destruct (DirOnly.hops _ _ _ _) as [[t k]|] eqn:E; [|discriminate].
  intros [= <-].
  destruct (hops_plan_invariant g startPoint maxHops _ t k
              (plan_invariant_start startPoint start) E)
    as (pre & vs & Hplan & [Hnd _] & Hfirst).
  rewrite Hplan. destruct startPoint as [sp|]; cbn [vertices].
  - destruct (DirOnly.first t).
    + destruct Hfirst as (-> & -> & _). split; [constructor|]. by intros sp' _ H.
    + subst pre. split; [done|]. by intros sp' [= <-] _.
  - subst pre. split; [done|]. by intros sp' H.
Qed.

(** *** The geometry-order searches *)

Lemma emit_path_ok (step : list LL * gset string -> nat -> Z -> list LL * gset string)
    (emit : list LL * gset string -> nat -> list Z -> list LL * gset string)
    (ids : list Z) (i : nat) (vs : list LL) (cs : gset string) :
  (forall acc i, emit acc i [] = acc) ->
  (forall acc i id rest, emit acc i (id :: rest) = emit (step acc i id) (S i) rest) ->
  (forall vs cs i id, cells_ok vs cs ->
     exists vs', fst (step (vs, cs) i id) = vs' /\ cells_ok vs' (snd (step (vs, cs) i id))) ->
  cells_ok vs cs ->
  NoDup (cell <$> fst (emit (vs, cs) i ids)).
Proof.
  intros Hnil Hcons Hstep. revert i vs cs.
  induction ids as [|id ids IH]; intros i vs cs Hok.
  - rewrite Hnil. apply Hok.
  - rewrite Hcons. destruct (Hstep vs cs i id Hok) as (vs' & E & Hok').
    destruct (step (vs, cs) i id) as [pl1 cs1]. cbn [fst snd] in *. subst pl1.
    by apply IH.
Qed.

Lemma coord_graph_emit_pipe_ok (flatten : option feature -> list LL) (g : graph)
    (startPoint : option LL) (vs : list LL) (cs : gset string) (i : nat) (id : Z) :
  cells_ok vs cs ->
  exists vs',
    fst (CoordGraph.emit_pipe flatten g startPoint (vs, cs) i id) = vs'
    /\ cells_ok vs' (snd (CoordGraph.emit_pipe flatten g startPoint (vs, cs) i id)).
Proof.
  intros Hok. unfold CoordGraph.emit_pipe.
  destruct (g !! id) as [ft|]; [|by exists vs].
  destruct (length _ <? 2)%nat; [by exists vs|].
  assert (forall pts vs cs, cells_ok vs cs ->
            exists vs', fst (foldl CoordGraph.push_far (vs, cs) pts) = vs'
                        /\ cells_ok vs' (snd (foldl CoordGraph.push_far (vs, cs) pts)))
    as Hfold.
  { intros pts vs0 cs0 Hok0.
    destruct (foldl_push_ok CoordGraph.push_far pts [] vs0 cs0
                (push_far_cases flatten) Hok0) as (vs' & E & Hok').
    by exists vs'. }
  destruct i as [|i], startPoint as [sp|]; try by apply Hfold.
  destruct (pushPoint_ok [] vs cs (mkLL (lat sp) (lng sp)) Hok) as (vs1 & E1 & Hok1).
  cbn [app] in E1, Hok1.
  destruct (Dfs.pushPoint (vs, cs) _) as [pl1 cs1]. cbn [fst snd] in *. subst pl1.
  by apply Hfold.
Qed.

Lemma geom_order_emit_pipe_ok (g : graph) (startPoint : option LL) (vs : list LL)
    (cs : gset string) (i : nat) (id : Z) :
  cells_ok vs cs ->
  exists vs',
    fst (GeomOrder.emit_pipe g startPoint (vs, cs) i id) = vs'
    /\ cells_ok vs' (snd (GeomOrder.emit_pipe g startPoint (vs, cs) i id)).
Proof.
  intros Hok. unfold GeomOrder.emit_pipe.
  destruct (g !! id) as [ft|]; [|by exists vs].
  destruct (length _ <? 2)%nat; [by exists vs|].
  assert (forall pts vs cs, cells_ok vs cs ->
            exists vs', fst (foldl Dfs.pushPoint (vs, cs) pts) = vs'
                        /\ cells_ok vs' (snd (foldl Dfs.pushPoint (vs, cs) pts)))
    as Hfold.
  { intros pts vs0 cs0 Hok0.
    destruct (foldl_push_ok Dfs.pushPoint pts [] vs0 cs0) as (vs' & E & Hok');
      [by right | done | by exists vs']. }
  destruct i as [|i], startPoint as [sp|]; try by apply Hfold.
  destruct (pushPoint_ok [] vs cs (mkLL (lat sp) (lng sp)) Hok) as (vs1 & E1 & Hok1).
  cbn [app] in E1, Hok1.
  destruct (Dfs.pushPoint (vs, cs) _) as [pl1 cs1]. cbn [fst snd] in *. subst pl1.
  by apply Hfold.
Qed.

Lemma coord_graph_plan_cells (flatten : option feature -> list LL) (g : graph)
    (startPoint : option LL) (ids : list Z) :
  NoDup (cell <$> CoordGraph.plan_of_path flatten g startPoint ids).
Proof.
  unfold CoordGraph.plan_of_path.
  apply (emit_path_ok (CoordGraph.emit_pipe flatten g startPoint)
           (CoordGraph.emit_path flatten g startPoint)); try done.
  - intros. by apply coord_graph_emit_pipe_ok.
  - apply cells_ok_nil.
Qed.

Lemma geom_order_plan_cells (g : graph) (startPoint : option LL) (ids : list Z) :
  NoDup (cell <$> GeomOrder.plan_of_path g startPoint ids).
Proof.
  unfold GeomOrder.plan_of_path.
  apply (emit_path_ok (GeomOrder.emit_pipe g startPoint)
           (GeomOrder.emit_path g startPoint)); try done.
  - intros. by apply geom_order_emit_pipe_ok.
  - apply cells_ok_nil.
Qed.

(** C9 (amended): every plan of the geometry-order searches is deduplicated
    by grid cell, the snap point included: no two of its points have the same
    cell key.  In a plan of the DIR-only walk the vertices are in pairwise
    distinct cells; the snap point is put in front of them without its cell
    being recorded. *)
Theorem plan_cells_distinct
    (flatten : option feature -> list LL) (fuel : nat) (start : oid)
    (startPoint : option LL) (g : graph) (cap : nat) :
  (forall pl,
     CoordGraph.buildPipePlanFromObjectId flatten fuel start startPoint g cap = Some pl ->
     NoDup (cell <$> pl))
  /\ (forall pl,
        GeomOrder.buildPipePlanFromObjectId fuel start startPoint g cap = Some pl ->
        NoDup (cell <$> pl))
  /\ (forall pl,
        DirOnly.buildPipePlanFromObjectId start startPoint g cap = Returns pl ->
        NoDup (cell <$> vertices startPoint pl)
        /\ (forall sp, startPoint = Some sp -> pl <> [] ->
              head pl = Some (mkLL (lat sp) (lng sp)))).
Proof.
  split; [|split].
  - intros pl. unfold CoordGraph.buildPipePlanFromObjectId.
    destruct start as [st|]; [|intros [= <-]; constructor].
    destruct (g !! st); [|intros [= <-]; constructor].
    destruct (CoordGraph.search _ _ _ _) as [[s k]|]; [|discriminate].
    intros [= <-]. apply coord_graph_plan_cells.
  - intros pl. unfold GeomOrder.buildPipePlanFromObjectId.
    destruct start as [st|]; [|intros [= <-]; constructor].
    destruct (GeomOrder.search _ _ _ _) as [[s k]|]; [|discriminate].
    intros [= <-]. apply geom_order_plan_cells.
  - apply dir_only_plan_cells.
Qed.

End Cells.

(** C9, witness: the plans of the ring from segment 1, snap point on its
    first vertex. *)
Lemma plan_cells_distinct_witness :
  NoDup (cell (RT := planar) <$> [Fixtures.at_ 0 0; Fixtures.at_ 1 1; Fixtures.at_ 2 2])
  /\ NoDup (cell (RT := planar)
             <$> vertices (Some (Fixtures.at_ 0 0))
                   [Fixtures.at_ 0 0; Fixtures.at_ 0 0; Fixtures.at_ 1 1; Fixtures.at_ 2 2]).
Proof.
  split.
  - refine (proj1 (plan_cells_distinct (RT := planar)
                     DirOnly.flattenFeatureCoords 100 (Some 1%Z)
                     (Some (Fixtures.at_ 0 0)) Fixtures.ring 3)
              [Fixtures.at_ 0 0; Fixtures.at_ 1 1; Fixtures.at_ 2 2] _).
    vm_compute. reflexivity.
  - refine (proj1 (proj2 (proj2 (plan_cells_distinct (RT := planar)
                                   DirOnly.flattenFeatureCoords 100
                                   (Some 1%Z) (Some (Fixtures.at_ 0 0)) Fixtures.ring 2000))
                     [Fixtures.at_ 0 0; Fixtures.at_ 0 0; Fixtures.at_ 1 1;
                      Fixtures.at_ 2 2] _)).
    vm_compute. reflexivity.
Defined.

(** C9, counterexample: the DIR-only plan of the ring from segment 1 with the
    snap point on the first vertex holds that position twice, so its first
    two points have the same cell key. *)
Lemma dir_only_snap_point_shares_cell :
  DirOnly.buildPipePlanFromObjectId (RT := planar) (Some 1%Z) (Some (Fixtures.at_ 0 0))
    Fixtures.ring 2000
  = Returns [Fixtures.at_ 0 0; Fixtures.at_ 0 0; Fixtures.at_ 1 1; Fixtures.at_ 2 2]
  /\ cell (RT := planar) (Fixtures.at_ 0 0) = "0,0"%string.
Proof.
  split; vm_compute; reflexivity.
Qed.

(** ** Determinism of the traversal *)

Lemma loop_more_fuel (g : graph) (choices : Z -> feature -> oid -> list Z)
    (cap fuel fuel' : nat) (s : Dfs.dfs) (r : Dfs.dfs * nat) :
  (fuel <= fuel')%nat ->
  Dfs.loop g choices cap fuel s = Some r ->
  Dfs.loop g choices cap fuel' s = Some r.
Proof.
  revert fuel' s r. induction fuel as [|n IH]; intros fuel' s r Hle; [discriminate|].
  destruct fuel' as [|n']; [lia|]. cbn [Dfs.loop].
  destruct (Dfs.step g choices cap s) as [s'|s'|s']; try done.
  destruct (Dfs.loop g choices cap n s') as [[t k]|] eqn:E; [|discriminate].
  intros [= <-]. by rewrite (IH n' s' (t, k)) by (lia || done).
Qed.

Section Determinism.
Context {RT : Runtime}.

Lemma route_view_coords (a b : option feature) :
  Views.route_view a = Views.route_view b ->
  DirOnly.orderedCoordsForPipe a = DirOnly.orderedCoordsForPipe b.
Proof.
  unfold Views.route_view, DirOnly.orderedCoordsForPipe, DirOnly.flattenFeatureCoords.
  destruct a as [fa|], b as [fb|]; try discriminate; [|done].
  cbn [props_of]. intros [= Hg Hd _]. by rewrite Hg, Hd.
Qed.

Lemma route_view_next (a b : option feature) :
  Views.route_view a = Views.route_view b ->
  next_ids (props_of a) = next_ids (props_of b).
Proof.
  unfold Views.route_view.
  destruct a as [fa|], b as [fb|]; try discriminate; [|done].
  intros H. exact (f_equal (fun v => match v with Some (_, _, n) => n | None => [] end) H).
Qed.

Lemma route_view_present (g g' : graph) (id : Z) :
  Views.route_view (g !! id) = Views.route_view (g' !! id) ->
  (g !! id = None <-> g' !! id = None).
Proof.
  unfold Views.route_view. by destruct (g !! id), (g' !! id).
Qed.

Lemma route_view_hop (g g' : graph) (startPoint : option LL) (s : DirOnly.tracer) :
  (forall id, Views.route_view (g !! id) = Views.route_view (g' !! id)) ->
  DirOnly.hop g startPoint s = DirOnly.hop g' startPoint s.
Proof.
  intros Hv. unfold DirOnly.hop.
  destruct (DirOnly.currentId s) as [cur|]; [|done].
  destruct (decide _); [done|].
  pose proof (Hv cur) as Hcur. pose proof (route_view_coords _ _ Hcur) as Hord.
  destruct (g !! cur) as [ft|], (g' !! cur) as [ft'|]; try discriminate; [|done].
  rewrite Hord.
  change (default no_props (properties ft)) with (props_of (Some ft)).
  change (default no_props (properties ft')) with (props_of (Some ft')).
  rewrite (route_view_next _ _ Hcur).
  rewrite (chooseNextPipeDirOnly_ext _ g g').
  - done.
  - intros id. by apply route_view_coords.
Qed.

Lemma route_view_hops (g g' : graph) (startPoint : option LL) (maxHops : nat)
    (s : DirOnly.tracer) :
  (forall id, Views.route_view (g !! id) = Views.route_view (g' !! id)) ->
  DirOnly.hops g startPoint maxHops s = DirOnly.hops g' startPoint maxHops s.
Proof.
  intros Hv. revert s. induction maxHops as [|n IH]; intros s; cbn [DirOnly.hops]; [done|].
  rewrite (route_view_hop g g' startPoint s Hv).
  destruct (DirOnly.hop g' startPoint s); [|done..]. by rewrite IH.
Qed.

Lemma search_view_route (a b : option feature) :
  Views.search_view a = Views.search_view b -> Views.route_view a = Views.route_view b.
Proof. unfold Views.search_view. by intros [= ->]. Qed.

Lemma search_view_coords (a b : option feature) :
  Views.search_view a = Views.search_view b ->
  GeomOrder.orderedCoordsForPipe a = GeomOrder.orderedCoordsForPipe b.
Proof.
  intros Hv. apply search_view_route in Hv. revert Hv.
  unfold Views.route_view, GeomOrder.orderedCoordsForPipe, GeomOrder.flattenFeatureCoords.
  destruct a as [fa|], b as [fb|]; try discriminate; [|done].
  cbn [props_of]. intros [= Hg Hd _]. by rewrite Hg, Hd.
Qed.

Lemma search_view_fields (a b : option feature) :
  Views.search_view a = Views.search_view b ->
  SEWER_NAME (props_of a) = SEWER_NAME (props_of b)
  /\ SEWERNAME (props_of a) = SEWERNAME (props_of b)
  /\ PIPE_WIDTH (props_of a) = PIPE_WIDTH (props_of b)
  /\ PIPE_HEIGHT (props_of a) = PIPE_HEIGHT (props_of b).
Proof.
  unfold Views.search_view. intros H.
  pose proof (f_equal (fun v => fst (fst (fst (snd v)))) H) as H1.
  pose proof (f_equal (fun v => snd (fst (fst (snd v)))) H) as H2.
  pose proof (f_equal (fun v => snd (fst (snd v))) H) as H3.
  pose proof (f_equal (fun v => snd (snd v)) H) as H4.
  done.
Qed.

Lemma search_view_score (g g' : graph) (curName : string) (id : Z) :
  Views.search_view (g !! id) = Views.search_view (g' !! id) ->
  GeomOrder.score g curName id = GeomOrder.score g' curName id.
Proof.
  intros Hv. apply search_view_fields in Hv as (H1 & H2 & H3 & H4).
  unfold GeomOrder.score, GeomOrder.pipeAreaScore, Lookahead.name_of.
  by rewrite H1, H2, H3, H4.
Qed.

Lemma search_view_choices (g g' : graph) (id : Z) (prev : oid) :
  (forall id, Views.search_view (g !! id) = Views.search_view (g' !! id)) ->
  GeomOrder.getChoices g id prev = GeomOrder.getChoices g' id prev.
Proof.
  intros Hv. unfold GeomOrder.getChoices.
  pose proof (search_view_route _ _ (Hv id)) as Hroute.
  pose proof (route_view_next _ _ Hroute) as Hnext.
  pose proof (search_view_fields _ _ (Hv id)) as (H1 & H2 & _ & _).
  pose proof (route_view_present g g' id Hroute) as Hpres.
  destruct (g !! id) as [ft|], (g' !! id) as [ft'|];
    [|by destruct Hpres as [_ Hp]; specialize (Hp eq_refl)
     |by destruct Hpres as [Hp _]; specialize (Hp eq_refl)|done].
  change (default no_props (properties ft)) with (props_of (Some ft)).
  change (default no_props (properties ft')) with (props_of (Some ft')).
  rewrite Hnext. unfold GeomOrder.pickCandidateOrder, Lookahead.name_of.
  rewrite H1, H2.
  do 2 f_equal. apply map_ext. intros c. by apply search_view_score.
Qed.

Lemma search_view_step (g g' : graph) (cap : nat) (s : Dfs.dfs) :
  (forall id, Views.search_view (g !! id) = Views.search_view (g' !! id)) ->
  Dfs.step g (GeomOrder.choices g) cap s = Dfs.step g' (GeomOrder.choices g') cap s.
Proof.
  intros Hv. unfold Dfs.step.
  destruct (Dfs.frames s) as [|top below]; [done|].
  destruct (cap <=? _)%nat; [done|].
  pose proof (Hv (Dfs.f_id top)) as Htop.
  unfold GeomOrder.choices. rewrite (search_view_choices g g' _ _ Hv).
  destruct (g !! Dfs.f_id top), (g' !! Dfs.f_id top);
    try (unfold Views.search_view, Views.route_view in Htop; discriminate); done.
Qed.

Lemma search_view_loop (g g' : graph) (cap fuel : nat) (s : Dfs.dfs) :
  (forall id, Views.search_view (g !! id) = Views.search_view (g' !! id)) ->
  Dfs.loop g (GeomOrder.choices g) cap fuel s
  = Dfs.loop g' (GeomOrder.choices g') cap fuel s.
Proof.
  intros Hv. revert s. induction fuel as [|n IH]; intros s; cbn [Dfs.loop]; [done|].
  rewrite (search_view_step g g' cap s Hv).
  destruct (Dfs.step g' _ cap s); [|done..]. by rewrite IH.
Qed.

Lemma search_view_emit (g g' : graph) (startPoint : option LL) (ids : list Z)
    (acc : list LL * gset string) (i : nat) :
  (forall id, Views.search_view (g !! id) = Views.search_view (g' !! id)) ->
  GeomOrder.emit_path g startPoint acc i ids = GeomOrder.emit_path g' startPoint acc i ids.
Proof.
  intros Hv. revert acc i. induction ids as [|id ids IH]; intros acc i; [done|].
  cbn [GeomOrder.emit_path]. rewrite IH. f_equal.
  unfold GeomOrder.emit_pipe.
  pose proof (Hv id) as Hid. pose proof (search_view_coords _ _ Hid) as Hord.
  destruct (g !! id), (g' !! id);
    try (unfold Views.search_view, Views.route_view in Hid; discriminate); [|done].
  by rewrite Hord.
Qed.

(** C2: the plan is a function of the graph and the entry alone.  Two calls
    of the DIR-only [buildPipePlanFromObjectId] with the same entry return the
    same plan as soon as the two graphs agree on what the walk reads (which
    segments exist, their geometry, [_dir] and [_nextObjectIds]), and two
    calls of the geometry-order search as soon as they agree on these, the
    names and the cross-sections; the search's plan does not depend on how
    long the loop is allowed to run beyond its end. *)
Theorem traversal_deterministic
    (g g' : graph) (start : oid) (startPoint : option LL) (cap fuel fuel' : nat) :
  ((forall id, Views.route_view (g !! id) = Views.route_view (g' !! id)) ->
   DirOnly.buildPipePlanFromObjectId start startPoint g cap
   = DirOnly.buildPipePlanFromObjectId start startPoint g' cap)
  /\ ((forall id, Views.search_view (g !! id) = Views.search_view (g' !! id)) ->
      GeomOrder.buildPipePlanFromObjectId fuel start startPoint g cap
      = GeomOrder.buildPipePlanFromObjectId fuel start startPoint g' cap)
  /\ (forall pl,
        (fuel <= fuel')%nat ->
        GeomOrder.buildPipePlanFromObjectId fuel start startPoint g cap = Some pl ->
        GeomOrder.buildPipePlanFromObjectId fuel' start startPoint g cap = Some pl).
Proof.
  split; [|split].
  - intros Hv. unfold DirOnly.buildPipePlanFromObjectId, DirOnly.trace.
    by rewrite (route_view_hops g g' startPoint cap _ Hv).
  - intros Hv. unfold GeomOrder.buildPipePlanFromObjectId, GeomOrder.search.
    destruct start as [st|]; [|done].
    rewrite (search_view_loop g g' cap fuel _ Hv).
    destruct (Dfs.loop g' _ cap fuel _) as [[s k]|]; [|done].
    unfold GeomOrder.plan_of_path. by rewrite (search_view_emit g g' _ _ _ _ Hv).
  - intros pl Hle. unfold GeomOrder.buildPipePlanFromObjectId, GeomOrder.search.
    destruct start as [st|]; [|done].
    destruct (Dfs.loop g _ cap fuel _) as [[s k]|] eqn:E; [|discriminate].
    by rewrite (loop_more_fuel g _ cap fuel fuel' _ (s, k) Hle E).
Qed.

Lemma route_view_renamed (names : Z -> jsval * jsval) (g : graph) (id : Z) :
  Views.route_view (Views.renamed names g !! id) = Views.route_view (g !! id).
Proof.
  unfold Views.renamed. rewrite map_lookup_imap.
  destruct (g !! id) as [ft|]; [|done]. done.
Qed.





End Determinism.

(** C2, witness: the ring and the ring with every segment renamed have the
    same DIR-only plan. *)
Lemma traversal_deterministic_witness :
  DirOnly.buildPipePlanFromObjectId (RT := planar) (Some 1%Z) (Some (Fixtures.at_ 0 0))
    (Views.renamed (fun _ => (JStr "Trunk", JNull)) Fixtures.ring) 2000
  = DirOnly.buildPipePlanFromObjectId (RT := planar) (Some 1%Z) (Some (Fixtures.at_ 0 0))
      Fixtures.ring 2000.
Proof.
  refine (proj1 (traversal_deterministic (RT := planar)
                   (Views.renamed (fun _ => (JStr "Trunk", JNull)) Fixtures.ring)
                   Fixtures.ring (Some 1%Z) (Some (Fixtures.at_ 0 0)) 2000 0 0) _).
  intros id. apply route_view_renamed.
Defined.

(** ** Gap bridging *)

Lemma foldl_invariant {A B : Type} (P : B -> Prop) (f : B -> A -> B) (l : list A)
    (acc : B) :
  P acc -> (forall acc x, x ∈ l -> P acc -> P (f acc x)) -> P (foldl f acc l).
Proof.
  revert acc. induction l as [|x l IH]; intros acc Hacc Hf; [done|].
  cbn [foldl]. apply IH.
  - apply Hf; [apply elem_of_cons; by left | done].
  - intros acc' y Hy. apply Hf. apply elem_of_cons. by right.
Qed.

Lemma jslt_jsle (a b : jsnum) : jslt a b = true -> jsle a b = true.
Proof.
  destruct a as [x| | |], b as [y| | |]; cbn; try done.
  destruct (Qlt_le_dec x y) as [H|H]; [|done].
  intros _. apply Qle_bool_iff. by apply Qlt_le_weak.
Qed.

Lemma jslt_false_jsle (a b : jsnum) :
  a <> NaN -> b <> NaN -> jslt b a = false -> jsle a b = true.
Proof.
  destruct a as [x| | |], b as [y| | |]; cbn; try done.
  destruct (Qlt_le_dec y x) as [H|H]; [done|].
  intros _ _ _. by apply Qle_bool_iff.
Qed.

Lemma jsle_trans (a b c : jsnum) :
  jsle a b = true -> jsle b c = true -> jsle a c = true.
Proof.
  destruct a as [x| | |], b as [y| | |], c as [z| | |]; cbn; try done.
  rewrite !Qle_bool_iff. apply Qle_trans.
Qed.

Lemma jsle_not_nan (a b : jsnum) : jsle a b = true -> a <> NaN.
Proof. by destruct a. Qed.

(** A stable insertion sort sorts, for a comparator that is an order on
    the elements. *)
Lemma sort_insert_sorted {A : Type} (after : A -> A -> bool) (R : A -> A -> Prop)
    (P : A -> Prop) (x : A) (l : list A) :
  (forall a b, P a -> P b -> after a b = true -> R b a) ->
  (forall a b, P a -> P b -> after a b = false -> R a b) ->
  (forall a b c, R a b -> R b c -> R a c) ->
  P x -> Forall P l -> StronglySorted R l ->
  StronglySorted R (sort_insert after x l).
Proof.
  intros Hafter Hnot Htrans Hx. induction l as [|y l IH]; intros HP Hs; cbn.
  - by repeat constructor.
  - apply Forall_cons in HP as [Hy HP].
    apply StronglySorted_inv in Hs as [Hs Hall].
    destruct (after x y) eqn:E.
    + constructor; [by apply IH|].
      rewrite (sort_insert_perm after x l). constructor; [by apply Hafter | done].
    + constructor; [by constructor|].
      constructor; [by apply Hnot|].
      eapply Forall_impl; [exact Hall|]. intros z Hz. cbn in Hz.
      eapply Htrans; [|exact Hz]. by apply Hnot.
Qed.

Lemma sort_by_sorted {A : Type} (after : A -> A -> bool) (R : A -> A -> Prop)
    (P : A -> Prop) (l : list A) :
  (forall a b, P a -> P b -> after a b = true -> R b a) ->
  (forall a b, P a -> P b -> after a b = false -> R a b) ->
  (forall a b c, R a b -> R b c -> R a c) ->
  Forall P l -> StronglySorted R (sort_by after l).
Proof.
  intros Hafter Hnot Htrans. induction l as [|x l IH]; intros HP; cbn.
  - constructor.
  - apply Forall_cons in HP as [Hx HP].
    apply (sort_insert_sorted after R P); try done; [|by apply IH].
    by rewrite (sort_by_perm after l).
Qed.

Lemma StronglySorted_take {A : Type} (R : A -> A -> Prop) (n : nat) (l : list A) :
  StronglySorted R l -> StronglySorted R (take n l).
Proof.
  revert n. induction l as [|x l IH]; intros [|n] Hs; cbn; try constructor.
  - apply IH. by apply StronglySorted_inv in Hs as [? _].
  - apply Forall_take. by apply StronglySorted_inv in Hs as [_ ?].
Qed.

Lemma uniq_spec (seen l : list Z) :
  NoDup (GapBridge.uniq seen l)
  /\ (forall x, x ∈ GapBridge.uniq seen l <-> x ∈ l /\ x ∉ seen)
  /\ (length (GapBridge.uniq seen l) <= length l)%nat.
Proof.
  revert seen. induction l as [|x l IH]; intros seen; cbn.
  - split; [constructor|]. split; [|done]. intros x. rewrite elem_of_nil. tauto.
  - destruct (decide (x ∈ seen)) as [Hx|Hx].
    + destruct (IH seen) as (Hnd & Hin & Hlen). split; [done|]. split; [|lia].
      intros y. rewrite Hin, elem_of_cons. split; [tauto|].
      intros [[->|Hy] Hns]; tauto.
    + destruct (IH (x :: seen)) as (Hnd & Hin & Hlen).
      split; [|split; [|cbn [length]; lia]].
      * constructor; [|done]. rewrite Hin, elem_of_cons. tauto.
      * intros y. rewrite elem_of_cons, Hin, !elem_of_cons.
        destruct (decide (y = x)) as [->|Hne]; tauto.
Qed.

Section GapBridgeFacts.
Context {RT : Runtime}.

(** The candidate came from a flow-start of one of the nine cells around the
    flow-end, of another segment, within the bridge radius. *)
Definition bridges (cells : gmap string (list GapBridge.flow_start)) (objectId : Z)
    (endPt : LL) (c : GapBridge.bridge_cand) : Prop :=
  let endM := mercatorMetersFromLngLat (lng endPt) (lat endPt) in
  exists key arr fs,
    key ∈ GapBridge.nearbyFlowCellKeys (fst endM) (snd endM)
            GapBridge.NODE_GAP_BRIDGE_MAX_M
    /\ cells !! key = Some arr
    /\ fs ∈ arr
    /\ GapBridge.fs_objectId fs <> objectId
    /\ c = GapBridge.mkCand (GapBridge.fs_objectId fs) (GapBridge.gap_metres endM fs)
    /\ jsle (GapBridge.gap_metres endM fs) GapBridge.NODE_GAP_BRIDGE_MAX_M = true.

Lemma bridge_candidates_spec (cells : gmap string (list GapBridge.flow_start))
    (objectId : Z) (endPt : LL) :
  Forall (bridges cells objectId endPt)
    (GapBridge.bridge_candidates cells objectId endPt).
Proof.
  unfold GapBridge.bridge_candidates.
  set (endM := mercatorMetersFromLngLat (lng endPt) (lat endPt)).
  apply (foldl_invariant (Forall (bridges cells objectId endPt))); [constructor|].
  intros acc key Hkey Hacc. unfold GapBridge.scan_cell.
  destruct (cells !! key) as [arr|] eqn:Earr; [|done].
  apply (foldl_invariant (Forall (bridges cells objectId endPt))); [done|].
  intros acc' fs Hfs Hacc'. unfold GapBridge.consider.
  destruct (GapBridge.fs_objectId fs =? objectId)%Z eqn:Eid; [done|].
  destruct (jsle _ _) eqn:Ele; [|done].
  apply Forall_app. split; [done|]. apply Forall_singleton.
  exists key, arr, fs. repeat split; try done.
  by apply Z.eqb_neq.
Qed.

Lemma bridges_in_radius cells objectId endPt c :
  bridges cells objectId endPt c ->
  jsle (GapBridge.b_dM c) GapBridge.NODE_GAP_BRIDGE_MAX_M = true
  /\ GapBridge.b_id c <> objectId.
Proof. intros (key & arr & fs & _ & _ & _ & Hne & -> & Hle). by split. Qed.

Lemma preferred_elem (g : graph) (p : props) (cands : list GapBridge.bridge_cand)
    (c : GapBridge.bridge_cand) :
  c ∈ GapBridge.preferred g p cands -> c ∈ cands.
Proof.
  unfold GapBridge.preferred. destruct (truthy _); [|done].
  intros Hc. apply elem_of_or_else in Hc as [Hc|[_ Hc]]; [|done].
  apply list_elem_of_filter in Hc. tauto.
Qed.

Lemma preferred_same_name (g : graph) (p : props) (cands : list GapBridge.bridge_cand) :
  truthy (GapBridge.norm_name p) = true ->
  (exists c, c ∈ cands /\ GapBridge.shares_name g (GapBridge.norm_name p) c = true) ->
  forall c, c ∈ GapBridge.preferred g p cands ->
            GapBridge.shares_name g (GapBridge.norm_name p) c = true.
Proof.
  intros Hname (c0 & Hc0 & Hs0) c. unfold GapBridge.preferred. rewrite Hname.
  intros Hc. apply elem_of_or_else in Hc as [Hc|[Hnil _]].
  - apply list_elem_of_filter in Hc as [Hc _]. by apply Is_true_true.
  - assert (c0 ∈ filter (fun c => GapBridge.shares_name g (GapBridge.norm_name p) c) cands)
      as H0 by (apply list_elem_of_filter; split; [by apply Is_true_true | done]).
    rewrite Hnil in H0. by apply elem_of_nil in H0.
Qed.

Lemma selected_elem (g : graph) (p : props) (cands : list GapBridge.bridge_cand)
    (c : GapBridge.bridge_cand) :
  c ∈ GapBridge.selected g p cands -> c ∈ GapBridge.preferred g p cands.
Proof.
  unfold GapBridge.selected. intros Hc.
  apply (sort_by_elem GapBridge.farther). by apply (subseteq_take 3).
Qed.

Lemma selected_sorted (g : graph) (p : props) (cands : list GapBridge.bridge_cand) :
  Forall (fun c => jsle (GapBridge.b_dM c) GapBridge.NODE_GAP_BRIDGE_MAX_M = true) cands ->
  StronglySorted (fun a b => jsle (GapBridge.b_dM a) (GapBridge.b_dM b) = true)
    (GapBridge.selected g p cands).
Proof.
  intros Hrad. unfold GapBridge.selected. apply StronglySorted_take.
  apply (sort_by_sorted GapBridge.farther _
           (fun c => jsle (GapBridge.b_dM c) GapBridge.NODE_GAP_BRIDGE_MAX_M = true)).
  - intros a b _ _. unfold GapBridge.farther. apply jslt_jsle.
  - intros a b Ha Hb. unfold GapBridge.farther.
    apply jslt_false_jsle; by eapply jsle_not_nan.
  - intros a b c. apply jsle_trans.
  - apply Forall_forall. intros c Hc. apply preferred_elem in Hc.
    by apply (proj1 (Forall_forall _ _) Hrad).
Qed.

(** C6: the second pass bridges a gap only for a segment whose node match
    gives no successor and that has a flow-end.  The bridged list is then the
    list of the ids of the selected candidates, each once: at most three, all
    of them flow-starts of other segments within the bridge radius of the
    flow-end, in ascending order of distance, and all of the segment's own name
    when it has one and a candidate within the radius shares it.  The flag
    [_next_via_gap_bridge] is set exactly when some candidate is within the
    radius; otherwise the list is the node match's. *)
Theorem gap_bridge_connections
    (nodeIndex : gmap string GapBridge.node) (g : graph)
    (cells : gmap string (list GapBridge.flow_start)) (ft : option feature)
    (next : list Z) :
  (GapBridge.connect nodeIndex g cells ft = Some (next, true) ->
   exists objectId downKey endPt,
     OBJECTID (props_of ft) = Some objectId
     /\ _downNodeKey (props_of ft) = Some downKey
     /\ _flowEndLL (props_of ft) = Some endPt
     /\ GapBridge.primary_next nodeIndex objectId downKey = []
     /\ GapBridge.bridge_candidates cells objectId endPt <> []
     /\ let sel := GapBridge.selected g (props_of ft)
                     (GapBridge.bridge_candidates cells objectId endPt) in
        next = GapBridge.uniq [] (GapBridge.b_id <$> sel)
        /\ NoDup next
        /\ (length next <= 3)%nat
        /\ (forall id, id ∈ next ->
              exists c, c ∈ sel /\ GapBridge.b_id c = id /\ id <> objectId
                        /\ bridges cells objectId endPt c
                        /\ jsle (GapBridge.b_dM c) GapBridge.NODE_GAP_BRIDGE_MAX_M = true)
        /\ StronglySorted
             (fun a b => jsle (GapBridge.b_dM a) (GapBridge.b_dM b) = true) sel
        /\ (truthy (GapBridge.norm_name (props_of ft)) = true ->
            (exists c, c ∈ GapBridge.bridge_candidates cells objectId endPt
                       /\ GapBridge.shares_name g (GapBridge.norm_name (props_of ft)) c
                          = true) ->
            forall c, c ∈ sel ->
              GapBridge.shares_name g (GapBridge.norm_name (props_of ft)) c = true))
  /\ (GapBridge.connect nodeIndex g cells ft = Some (next, false) ->
      exists objectId downKey,
        OBJECTID (props_of ft) = Some objectId
        /\ _downNodeKey (props_of ft) = Some downKey
        /\ next = GapBridge.primary_next nodeIndex objectId downKey
        /\ (next = [] ->
            forall endPt, _flowEndLL (props_of ft) = Some endPt ->
              GapBridge.bridge_candidates cells objectId endPt = [])).
Proof.
  unfold GapBridge.connect.
  destruct (OBJECTID (props_of ft)) as [objectId|]; [|by split].
  destruct (_downNodeKey (props_of ft)) as [downKey|]; [|by split].
  destruct (String.eqb downKey ""); [by split|].
  destruct (GapBridge.primary_next nodeIndex objectId downKey) as [|n0 ns] eqn:Eprim.
  2: { split; [done|]. intros [= <-]. exists objectId, downKey. by repeat split. }
  destruct (_flowEndLL (props_of ft)) as [endPt|].
  2: { split; [done|]. intros [= <-]. exists objectId, downKey. by repeat split. }
  pose proof (bridge_candidates_spec cells objectId endPt) as Hspec.
  destruct (GapBridge.bridge_candidates cells objectId endPt) as [|c0 cs] eqn:Ecands.
  { split; [done|]. intros [= <-]. exists objectId, downKey. repeat split; try done.
    by intros _ endPt' [= <-]. }
  split; [|done]. intros [= <-].
  exists objectId, downKey, endPt. rewrite Ecands.
  change (map GapBridge.b_id (GapBridge.selected g (props_of ft) (c0 :: cs)))
    with (GapBridge.b_id <$> GapBridge.selected g (props_of ft) (c0 :: cs)).
  do 5 (split; [done|]).
  set (sel := GapBridge.selected g (props_of ft) (c0 :: cs)).
  destruct (uniq_spec [] (GapBridge.b_id <$> sel)) as (Hnd & Hin & Hlen).
  assert (forall c, c ∈ sel -> c ∈ c0 :: cs) as Hsel
    by (intros c Hc; unfold sel in Hc; by apply selected_elem, preferred_elem in Hc).
  split; [done|]. split; [done|]. split; [|split; [|split]].
  - etrans; [exact Hlen|]. rewrite length_fmap. unfold sel, GapBridge.selected.
    rewrite length_take. lia.
  - intros id Hid. apply Hin in Hid as [Hid _].
    apply list_elem_of_fmap in Hid as (c & -> & Hc).
    pose proof (proj1 (Forall_forall _ _) Hspec c (Hsel c Hc)) as Hb.
    destruct (bridges_in_radius _ _ _ _ Hb) as [Hle Hne].
    exists c. by repeat split.
  - apply selected_sorted. eapply Forall_impl; [exact Hspec|].
    intros c Hb. by apply (bridges_in_radius _ _ _ _ Hb).
  - intros Hname Hex c Hc. apply selected_elem in Hc.
    by apply (preferred_same_name g (props_of ft) (c0 :: cs) Hname Hex).
Qed.

End GapBridgeFacts.

(** C6, witness: five flow-starts lie 1 to 5 m behind the end of segment 1
    (MAIN), four of them of segments called MAIN; the bridge links segment 1 to
    the three nearest of these, nearest first. *)
Lemma gap_bridge_connections_witness :
  GapBridge.connect (RT := planar) Fixtures.gap_nodes Fixtures.gap_graph
    Fixtures.gap_cells (Fixtures.gap_graph !! 1%Z) = Some ([5; 2; 6]%Z, true)
  /\ NoDup [5; 2; 6]%Z.
Proof.
  assert (GapBridge.connect (RT := planar) Fixtures.gap_nodes Fixtures.gap_graph
            Fixtures.gap_cells (Fixtures.gap_graph !! 1%Z) = Some ([5; 2; 6]%Z, true))
    as H by (vm_compute; reflexivity).
  split; [exact H|].
  destruct (proj1 (gap_bridge_connections (RT := planar) Fixtures.gap_nodes
                     Fixtures.gap_graph Fixtures.gap_cells (Fixtures.gap_graph !! 1%Z)
                     [5; 2; 6]%Z) H)
    as (objectId & downKey & endPt & _ & _ & _ & _ & _ & _ & Hnd & _).
  exact Hnd.
Defined.

(** ** Termination and the step cap *)

Section DirOnlyTermination.
Context {RT : Runtime}.

(** An iteration that goes on has taken a segment of the graph that was not
    visited before, and the walk never throws. *)
Lemma hop_cases (g : graph) (startPoint : option LL) (s : DirOnly.tracer) :
  match DirOnly.hop g startPoint s with
  | DirOnly.Next s' =>
      exists cur, (cur ∉ DirOnly.visited s) /\ (cur ∈ dom g)
                  /\ DirOnly.visited s' = {[cur]} ∪ DirOnly.visited s
  | DirOnly.Break _ => True
  | DirOnly.Raise => False
  end.
Proof.
  unfold DirOnly.hop.
  destruct (DirOnly.currentId s) as [cur|]; [|done].
  destruct (decide _) as [|Hcur]; [done|].
  destruct (g !! cur) as [ft|] eqn:Eft; [|done].
  destruct (length _ <? 2)%nat eqn:Elen; [done|].
  destruct (match DirOnly.first s with true => _ | false => _ end) as [[pl cs] fst'].
  pose proof (chooseNextPipeDirOnly_returns
                (Some (next_ids (default no_props (properties ft)))) g
                (DirOnly.orderedCoordsForPipe (Some ft)) (DirOnly.prevId s)
                ({[cur]} ∪ DirOnly.visited s)) as Hret.
  destruct (DirOnly.chooseNextPipeDirOnly _ _ _ _ _).
  - exists cur. split; [done|]. split; [|done]. apply elem_of_dom. by eexists.
  - apply Hret; [|done]. intros Hnil. rewrite Hnil in Elen. discriminate.
Qed.

Lemma hops_bounded (g : graph) (startPoint : option LL) (maxHops : nat)
    (s : DirOnly.tracer) :
  exists t k,
    DirOnly.hops g startPoint maxHops s = Returns (t, k)
    /\ (k <= maxHops)%nat
    /\ (k <= S (size (dom g ∖ DirOnly.visited s)))%nat.
Proof.
  revert s. induction maxHops as [|n IH]; intros s; cbn [DirOnly.hops].
  - exists s, 0%nat. repeat split; lia.
  - pose proof (hop_cases g startPoint s) as Hhop.
    destruct (DirOnly.hop g startPoint s) as [s'|s'|]; [| |done].
    + destruct Hhop as (cur & Hnew & Hdom & Hvis).
      destruct (IH s') as (t & k & -> & Hk & Hsize).
      exists t, (S k). split; [done|]. split; [lia|].
      assert (size (dom g ∖ DirOnly.visited s') < size (dom g ∖ DirOnly.visited s))%nat;
        [|lia].
      apply subset_size. rewrite Hvis. set_solver.
    + exists s', 1%nat. repeat split; lia.
Qed.

End DirOnlyTermination.

(** *** The backtracking search ends on every graph

    The stack of the search is a path without repetition in the finite set
    [U] of the ids the graph mentions, and every frame has at most [D]
    candidates: the cost of the stack below bounds the iterations left. *)

Section DfsTermination.
Context (g : graph) (choices : Z -> feature -> oid -> list Z) (cap : nat).
Context (U : gset Z) (D : nat).
Hypothesis choices_bounded :
  forall id ft prev, g !! id = Some ft ->
    (length (choices id ft prev) <= D)%nat
    /\ forall x, x ∈ choices id ft prev -> x ∈ U.

(** The iterations a frame with [h] levels of room above it can cause. *)
Fixpoint subtree_cost (h : nat) : nat :=
  match h with
  | O => 0
  | S h' => D * S (subtree_cost h') + 1
  end.

(** The candidates a frame has not tried yet. *)
Definition remaining (f : Dfs.frame) : nat :=
  match Dfs.f_ordered f with
  | None => D
  | Some l => length l - Dfs.f_idx f
  end.

Fixpoint stack_cost (fs : list Dfs.frame) : nat :=
  match fs with
  | [] => 0
  | f :: below =>
      remaining f * S (subtree_cost (size U - length below - 1)) + 1
      + stack_cost below
  end.

Definition frame_ok (f : Dfs.frame) : Prop :=
  forall l, Dfs.f_ordered f = Some l ->
    (length l <= D)%nat /\ forall x, x ∈ l -> x ∈ U.

Definition dfs_inv (s : Dfs.dfs) : Prop :=
  Dfs.path s = Dfs.f_id <$> Dfs.frames s
  /\ NoDup (Dfs.path s)
  /\ (forall x, x ∈ Dfs.path s -> x ∈ U)
  /\ (forall x, x ∈ Dfs.inPath s <-> x ∈ Dfs.path s)
  /\ Forall frame_ok (Dfs.frames s)
  /\ (length (Dfs.path s) <= Nat.max cap 1)%nat.

Lemma nodup_length_size (l : list Z) :
  NoDup l -> (forall x, x ∈ l -> x ∈ U) -> (length l <= size U)%nat.
Proof.
  intros Hnd Hin. rewrite <- (size_list_to_set (C := gset Z) l Hnd).
  apply subseteq_size. intros x Hx. apply Hin. by apply elem_of_list_to_set in Hx.
Qed.

Lemma backtrack_inv (s : Dfs.dfs) (top : Dfs.frame) (below : list Dfs.frame) :
  dfs_inv s -> Dfs.frames s = top :: below ->
  dfs_inv (Dfs.backtrack s)
  /\ (stack_cost (Dfs.frames (Dfs.backtrack s)) < stack_cost (Dfs.frames s))%nat.
Proof.
  intros (Hpath & Hnd & HU & Hin & Hok & Hlen) Efr.
  unfold Dfs.backtrack. rewrite Efr in *. cbn [tail Dfs.frames].
  rewrite Hpath in *. cbn [fmap list_fmap head tail] in *.
  apply NoDup_cons in Hnd as [Hnew Hnd]. apply Forall_cons in Hok as [_ Hok].
  split; [|cbn [stack_cost]; lia].
  unfold dfs_inv. cbn [Dfs.frames Dfs.path Dfs.inPath].
  split; [done|]. split; [done|]. split.
  { intros x Hx. apply HU. apply elem_of_cons. by right. }
  split.
  { intros x. rewrite elem_of_difference, Hin, elem_of_cons, elem_of_singleton.
    split; [tauto|]. intros Hx. split; [by right|]. by intros ->. }
  split; [done|]. cbn [length] in Hlen. lia.
Qed.

Lemma step_continue (s s' : Dfs.dfs) :
  dfs_inv s -> Dfs.step g choices cap s = Dfs.Continue s' ->
  dfs_inv s' /\ (stack_cost (Dfs.frames s') < stack_cost (Dfs.frames s))%nat.
Proof using All.
  intros Hinv. unfold Dfs.step.
  destruct (Dfs.frames s) as [|top below] eqn:Efr; [discriminate|].
  destruct (cap <=? length (Dfs.path s))%nat eqn:Ecap; [discriminate|].
  apply Nat.leb_gt in Ecap.
  destruct (g !! Dfs.f_id top) as [ft|] eqn:Eft.
  2: { intros [= <-]. rewrite <- Efr. by apply (backtrack_inv s top below). }
  destruct (decide _); [discriminate|].
  set (top1 := match Dfs.f_ordered top with Some _ => top | None => _ end).
  assert (exists l1, Dfs.f_ordered top1 = Some l1
                     /\ (length l1 <= D)%nat
                     /\ (forall x, x ∈ l1 -> x ∈ U)
                     /\ Dfs.f_id top1 = Dfs.f_id top
                     /\ (length l1 - Dfs.f_idx top1 <= remaining top)%nat)
    as (l1 & El1 & Hlen1 & HU1 & Hid1 & Hrem1).
  { destruct Hinv as (_ & _ & _ & _ & Hok & _). rewrite Efr in Hok.
    apply Forall_cons in Hok as [Hok _]. unfold top1, remaining.
    destruct (Dfs.f_ordered top) as [l|] eqn:El.
    - exists l. destruct (Hok l El) as [? ?]. by repeat split.
    - destruct (choices_bounded (Dfs.f_id top) ft (Dfs.f_prevId top) Eft) as [? ?].
      eexists. split; [reflexivity|]. cbn. repeat split; try done. lia. }
  rewrite El1. cbn [default from_option id].
  destruct (l1 !! Dfs.f_idx top1) as [nextId|] eqn:Enext.
  2: { intros [= <-]. rewrite <- Efr. by apply (backtrack_inv s top below). }
  pose proof (lookup_lt_Some _ _ _ Enext) as Hidx.
  pose proof (list_elem_of_lookup_2 _ _ _ Enext) as Hnext.
  destruct Hinv as (Hpath & Hnd & HU & Hin & Hok & Hlen).
  rewrite Efr in Hpath, Hok. apply Forall_cons in Hok as [Hok_top Hok].
  set (top2 := Dfs.mkFrame (Dfs.f_id top1) (Dfs.f_prevId top1) (S (Dfs.f_idx top1))
                 (Some l1)).
  assert (frame_ok top2) as Hok2.
  { intros l Hl. cbn in Hl. injection Hl as <-. by split. }
  assert (remaining top2 < remaining top)%nat as Hrem2.
  { unfold remaining at 1. cbn. lia. }
  destruct (decide (nextId ∈ Dfs.inPath s)) as [Hseen|Hfresh]; intros [= <-];
    cbn [Dfs.frames Dfs.path Dfs.inPath].
  - split.
    + unfold dfs_inv. cbn [Dfs.frames Dfs.path Dfs.inPath].
      split; [by rewrite Hpath; cbn; rewrite Hid1|].
      do 3 (split; [done|]). split; [by constructor | done].
    + cbn [stack_cost]. nia.
  - assert (dfs_inv (Dfs.mkDfs (Dfs.mkFrame nextId (Some (Dfs.f_id top)) 0 None
                                  :: top2 :: below)
                       (nextId :: Dfs.path s) ({[nextId]} ∪ Dfs.inPath s) (Dfs.found s)))
      as Hinv'.
    { unfold dfs_inv. cbn [Dfs.frames Dfs.path Dfs.inPath].
      split; [by rewrite Hpath; cbn; rewrite Hid1|].
      split; [apply NoDup_cons; split; [by rewrite <- Hin | done]|].
      split.
      { intros x Hx. apply elem_of_cons in Hx as [->|Hx]; [by apply HU1 | by apply HU]. }
      split.
      { intros x. rewrite elem_of_union, elem_of_singleton, elem_of_cons, Hin. tauto. }
      split; [|cbn [length]; lia].
      constructor; [by intros l Hl | by constructor]. }
    split; [exact Hinv'|].
    destruct Hinv' as (_ & Hnd' & HU' & _).
    pose proof (nodup_length_size _ Hnd' HU') as Hsize.
    cbn [Dfs.path length] in Hsize. rewrite Hpath in Hsize.
    cbn [fmap list_fmap length] in Hsize. rewrite length_fmap in Hsize.
    cbn [stack_cost length remaining Dfs.f_ordered].
    replace (size U - length below - 1)%nat
      with (S (size U - S (length below) - 1))%nat by lia.
    cbn [subtree_cost].
    set (X := subtree_cost (size U - S (length below) - 1)) in *. nia.
Qed.

Lemma step_end (s s' : Dfs.dfs) :
  Dfs.step g choices cap s = Dfs.Stop s' \/ Dfs.step g choices cap s = Dfs.Found s' ->
  Dfs.path s' = Dfs.path s.
Proof.
  unfold Dfs.step.
  destruct (Dfs.frames s) as [|top below]; [by intros [[= <-]|?]|].
  destruct (cap <=? _)%nat; [by intros [[= <-]|?]|].
  destruct (g !! Dfs.f_id top); [|by intros [?|?]].
  destruct (decide _); [by intros [?|[= <-]]|].
  destruct (default [] _ !! _); [|by intros [?|?]].
  destruct (decide _); by intros [?|?].
Qed.

(** With more fuel than the cost of its stack the loop ends, on a path no
    longer than the cap (one segment at least). *)
Lemma loop_terminates (fuel : nat) (s : Dfs.dfs) :
  dfs_inv s -> (stack_cost (Dfs.frames s) < fuel)%nat ->
  exists t k, Dfs.loop g choices cap fuel s = Some (t, k)
              /\ (k <= S (stack_cost (Dfs.frames s)))%nat
              /\ (length (Dfs.path t) <= Nat.max cap 1)%nat.
Proof using All.
  revert s. induction fuel as [|n IH]; intros s Hinv Hfuel; [lia|].
  cbn [Dfs.loop].
  destruct (Dfs.step g choices cap s) as [s'|s'|s'] eqn:Estep.
  - destruct (step_continue s s' Hinv Estep) as [Hinv' Hcost].
    destruct (IH s' Hinv') as (t & k & -> & Hk & Hlen); [lia|].
    exists t, (S k). repeat split; [lia | done].
  - exists s', 1%nat. split; [done|]. split; [lia|].
    rewrite (step_end s s') by (by right). apply Hinv.
  - exists s', 0%nat. split; [done|]. split; [lia|].
    rewrite (step_end s s') by (by left). apply Hinv.
Qed.

End DfsTermination.

(** The ids the successor lists of a graph mention. *)
Definition successors (g : graph) : list Z :=
  map_to_list g ≫= (fun kv => next_ids (props_of (Some (snd kv)))).

(** The ids a search from [start] can meet. *)
Definition universe (g : graph) (start : Z) : gset Z :=
  {[start]} ∪ list_to_set (successors g).

(** Iterations after which the search from [start] has ended. *)
Definition dfs_fuel (g : graph) (start : Z) : nat :=
  S (stack_cost (universe g start) (length (successors g))
       [Dfs.mkFrame start None 0 None]).

Lemma bind_sublist {A B : Type} (f : A -> list B) (l : list A) (y : A) :
  y ∈ l -> f y `sublist_of` (l ≫= f).
Proof.
  induction l as [|x l IH]; intros Hy; [by apply elem_of_nil in Hy|].
  cbn. apply elem_of_cons in Hy as [->|Hy].
  - by apply sublist_inserts_r.
  - apply sublist_inserts_l. by apply IH.
Qed.

Lemma next_ids_successors (g : graph) (id : Z) (ft : feature) :
  g !! id = Some ft -> next_ids (props_of (Some ft)) `sublist_of` successors g.
Proof.
  intros Hft. unfold successors.
  apply (bind_sublist (fun kv : Z * feature => next_ids (props_of (Some (snd kv))))
           (map_to_list g) (id, ft)).
  by apply elem_of_map_to_list.
Qed.

Lemma seed_inv (g : graph) (cap : nat) (start : Z) :
  dfs_inv cap (universe g start) (length (successors g)) (Dfs.seed start).
Proof.
  unfold dfs_inv, Dfs.seed. cbn [Dfs.frames Dfs.path Dfs.inPath].
  split; [done|]. split; [apply NoDup_singleton|]. split.
  { intros x Hx. apply list_elem_of_singleton in Hx as ->. unfold universe. set_solver. }
  split.
  { intros x. by rewrite elem_of_singleton, list_elem_of_singleton. }
  split; [|cbn; lia]. apply Forall_singleton. by intros l Hl.
Qed.

(** A candidate order that is a rearrangement of part of the successor list
    stays within the universe. *)
Lemma choices_in_universe (g : graph) (start id : Z) (ft : feature) (l : list Z) :
  g !! id = Some ft ->
  l ⊆+ next_ids (props_of (Some ft)) ->
  (length l <= length (successors g))%nat
  /\ forall x, x ∈ l -> x ∈ universe g start.
Proof.
  intros Hft Hl. pose proof (next_ids_successors g id ft Hft) as Hsub. split.
  - etrans; [by apply submseteq_length|]. by apply sublist_length.
  - intros x Hx. unfold universe. apply elem_of_union. right.
    apply elem_of_list_to_set. eapply sublist_subseteq; [exact Hsub|].
    eapply elem_of_submseteq; [exact Hx | exact Hl].
Qed.

Section SearchTermination.
Context {RT : Runtime}.

Lemma coord_graph_order_perm (cands : list Z) (g : graph) (ft : option feature) :
  CoordGraph.pickCandidateOrder cands g ft ≡ₚ cands.
Proof.
  unfold CoordGraph.pickCandidateOrder.
  rewrite (sort_by_perm Dfs.order_after). rewrite map_map. cbn. by rewrite map_id.
Qed.

Lemma geom_order_order_perm (cands : list Z) (g : graph) (ft : option feature) :
  GeomOrder.pickCandidateOrder cands g ft ≡ₚ cands.
Proof.
  unfold GeomOrder.pickCandidateOrder.
  rewrite (sort_by_perm Dfs.order_after). rewrite map_map. cbn. by rewrite map_id.
Qed.

Lemma coord_graph_choices_bounded (g : graph) (start id : Z) (ft : feature) (prev : oid) :
  g !! id = Some ft ->
  (length (CoordGraph.choices g id ft prev) <= length (successors g))%nat
  /\ forall x, x ∈ CoordGraph.choices g id ft prev -> x ∈ universe g start.
Proof.
  intros Hft. apply (choices_in_universe g start id ft); [done|].
  unfold CoordGraph.choices, CoordGraph.getCandidates.
  rewrite coord_graph_order_perm. apply sublist_submseteq, sublist_filter.
Qed.

Lemma geom_order_choices_bounded (g : graph) (start id : Z) (ft : feature) (prev : oid) :
  g !! id = Some ft ->
  (length (GeomOrder.choices g id ft prev) <= length (successors g))%nat
  /\ forall x, x ∈ GeomOrder.choices g id ft prev -> x ∈ universe g start.
Proof.
  intros Hft. apply (choices_in_universe g start id ft); [done|].
  unfold GeomOrder.choices, GeomOrder.getChoices. rewrite Hft.
  rewrite geom_order_order_perm.
  destruct prev; [apply sublist_submseteq, sublist_filter | done].
Qed.

Lemma coord_graph_search_ends (g : graph) (start : Z) (cap fuel : nat) :
  (dfs_fuel g start <= fuel)%nat ->
  exists s k, CoordGraph.search fuel start g cap = Some (s, k)
              /\ (k <= dfs_fuel g start)%nat
              /\ (length (Dfs.path s) <= Nat.max cap 1)%nat.
Proof.
  intros Hfuel. unfold CoordGraph.search.
  destruct (loop_terminates g (CoordGraph.choices g) cap (universe g start)
              (length (successors g)) (coord_graph_choices_bounded g start)
              (dfs_fuel g start) (Dfs.seed start) (seed_inv g cap start))
    as (s & k & Hloop & Hk & Hlen).
  { unfold dfs_fuel, Dfs.seed. cbn [Dfs.frames]. lia. }
  exists s, k. split; [|split; [|done]].
  - by apply (loop_more_fuel g _ cap (dfs_fuel g start) fuel).
  - unfold dfs_fuel. unfold Dfs.seed in Hk. cbn [Dfs.frames] in Hk. lia.
Qed.

Lemma geom_order_search_ends (g : graph) (start : Z) (cap fuel : nat) :
  (dfs_fuel g start <= fuel)%nat ->
  exists s k, GeomOrder.search fuel start g cap = Some (s, k)
              /\ (k <= dfs_fuel g start)%nat
              /\ (length (Dfs.path s) <= Nat.max cap 1)%nat.
Proof.
  intros Hfuel. unfold GeomOrder.search.
  destruct (loop_terminates g (GeomOrder.choices g) cap (universe g start)
              (length (successors g)) (geom_order_choices_bounded g start)
              (dfs_fuel g start) (Dfs.seed start) (seed_inv g cap start))
    as (s & k & Hloop & Hk & Hlen).
  { unfold dfs_fuel, Dfs.seed. cbn [Dfs.frames]. lia. }
  exists s, k. split; [|split; [|done]].
  - by apply (loop_more_fuel g _ cap (dfs_fuel g start) fuel).
  - unfold dfs_fuel. unfold Dfs.seed in Hk. cbn [Dfs.frames] in Hk. lia.
Qed.

(** C1 (amended): on every graph and from every entry the DIR-only walk
    returns after at most [maxHops] iterations of its loop (and at most one
    more than the graph has segments), without throwing.  The backtracking
    searches end on every graph too, within [dfs_fuel] iterations; their cap
    [maxSteps] bounds the length of the path (the number of segments on the
    stack), which never exceeds it (one segment at least), and it does not
    bound the number of iterations. *)
Theorem traversal_terminates
    (g : graph) (start : oid) (startPoint : option LL) (maxHops : nat)
    (flatten : option feature -> list LL) (startId : Z) (maxSteps fuel : nat) :
  (exists t k,
     DirOnly.trace start startPoint g maxHops = Returns (t, k)
     /\ DirOnly.buildPipePlanFromObjectId start startPoint g maxHops
        = Returns (DirOnly.plan t)
     /\ (k <= maxHops)%nat
     /\ (k <= S (size (dom g)))%nat)
  /\ ((dfs_fuel g startId <= fuel)%nat ->
      (exists s k,
         CoordGraph.search fuel startId g maxSteps = Some (s, k)
         /\ (k <= dfs_fuel g startId)%nat
         /\ (length (Dfs.path s) <= Nat.max maxSteps 1)%nat)
      /\ (exists pl,
            CoordGraph.buildPipePlanFromObjectId flatten fuel (Some startId) startPoint g
              maxSteps = Some pl)
      /\ (exists s k,
            GeomOrder.search fuel startId g maxSteps = Some (s, k)
            /\ (k <= dfs_fuel g startId)%nat
            /\ (length (Dfs.path s) <= Nat.max maxSteps 1)%nat)
      /\ (exists pl,
            GeomOrder.buildPipePlanFromObjectId fuel (Some startId) startPoint g maxSteps
            = Some pl)).
Proof.
  split.
  - destruct (hops_bounded g startPoint maxHops (DirOnly.start_state start))
      as (t & k & Htrace & Hk & Hsize).
    exists t, k. unfold DirOnly.buildPipePlanFromObjectId, DirOnly.trace.
    rewrite Htrace. repeat split; [done|].
    etrans; [exact Hsize|]. apply le_n_S, subseteq_size.
    cbn. set_solver.
  - intros Hfuel.
    destruct (coord_graph_search_ends g startId maxSteps fuel Hfuel)
      as (s & k & Hs & Hk & Hlen).
    destruct (geom_order_search_ends g startId maxSteps fuel Hfuel)
      as (s' & k' & Hs' & Hk' & Hlen').
    split; [by exists s, k|]. split.
    { unfold CoordGraph.buildPipePlanFromObjectId.
      destruct (g !! startId); [|by eexists]. rewrite Hs. by eexists. }
    split; [by exists s', k'|].
    unfold GeomOrder.buildPipePlanFromObjectId. rewrite Hs'. by eexists.
Qed.

End SearchTermination.

(** C1, witness: the search of the tee from segment 1 ends within its fuel. *)
Lemma traversal_terminates_witness :
  (dfs_fuel Fixtures.tee 1 <= 100)%nat
  /\ exists s k,
       CoordGraph.search (RT := planar) 100 1%Z Fixtures.tee 3 = Some (s, k)
       /\ (k <= dfs_fuel Fixtures.tee 1)%nat
       /\ (length (Dfs.path s) <= Nat.max 3 1)%nat.
Proof.
  assert (dfs_fuel Fixtures.tee 1 <= 100)%nat as Hfuel by (vm_compute; lia).
  split; [exact Hfuel|].
  exact (proj1 (proj2 (traversal_terminates (RT := planar) Fixtures.tee None None 0
                         DirOnly.flattenFeatureCoords 1%Z 3 100) Hfuel)).
Defined.

(** C1, counterexample: with the cap 3 the search of the tee from segment 1
    runs its loop five times: two segments are entered and left again before
    the stack is empty. *)
Lemma search_iterations_exceed_cap :
  snd <$> CoordGraph.search (RT := planar) 100 1%Z Fixtures.tee 3 = Some 5%nat
  /\ (3 < 5)%nat.
Proof.
  split; [vm_compute; reflexivity | lia].
Qed.

(** * Further properties of the client's core *)

(** ** Comparisons and the running minimum *)

Lemma jslt_trans (a b c : jsnum) :
  jslt a b = true -> jslt b c = true -> jslt a c = true.
Proof.
  destruct a as [x| | |], b as [y| | |], c as [z| | |]; cbn; try done.
  destruct (Qlt_le_dec x y) as [H1|H1]; [|done].
  destruct (Qlt_le_dec y z) as [H2|H2]; [|done].
  destruct (Qlt_le_dec x z) as [H3|H3]; [done|].
  intros _ _. exfalso. apply (Qlt_irrefl x).
  eapply Qlt_le_trans; [|exact H3]. by eapply Qlt_trans.
Qed.

Lemma jslt_asym (a b : jsnum) : jslt a b = true -> jslt b a = false.
Proof.
  intros H. destruct (jslt b a) eqn:E; [|done].
  pose proof (jslt_trans a b a H E) as Haa. by rewrite jslt_irrefl in Haa.
Qed.

(** The loop [for (x of l) { d = key(x); if (d < best) { best = d; arg = x } }]
    ends on the first element of the least key below the start value. *)
Lemma argmin_fold {A : Type} (key : A -> option jsnum)
    (f : option A * jsnum -> A -> option A * jsnum) :
  (forall acc x,
     f acc x = match key x with
               | Some d => if jslt d (snd acc) then (Some x, d) else acc
               | None => acc
               end) ->
  forall (l : list A) (acc : option A * jsnum),
    (foldl f acc l = acc
     /\ forall x d, x ∈ l -> key x = Some d -> jslt d (snd acc) = false)
    \/ (exists b db,
          foldl f acc l = (Some b, db) /\ b ∈ l /\ key b = Some db
          /\ jslt db (snd acc) = true
          /\ forall x d, x ∈ l -> key x = Some d -> jslt d db = false).
Proof.
  intros Hf. induction l as [|x l IH]; intros acc; cbn [foldl].
  { left. split; [done|]. intros x d Hx. by apply elem_of_nil in Hx. }
  assert (f acc x = acc /\ (forall d, key x = Some d -> jslt d (snd acc) = false)
          \/ exists d, key x = Some d /\ jslt d (snd acc) = true /\ f acc x = (Some x, d))
    as [[E Hx]|(d & Hk & Hlt & E)].
  { rewrite Hf. destruct (key x) as [d|]; [|by left].
    destruct (jslt d (snd acc)) eqn:Hlt.
    - right. by exists d.
    - left. split; [done|]. by intros ? [= <-]. }
  - rewrite E. destruct (IH acc) as [[E' Hl]|(b & db & E' & Hb & Hkb & Hlt & Hl)].
    + left. split; [done|]. intros y d Hy Hky.
      apply elem_of_cons in Hy as [->|Hy]; [by apply Hx | by eapply Hl].
    + right. exists b, db. split; [done|]. split; [apply elem_of_cons; by right|].
      split; [done|]. split; [done|]. intros y d Hy Hky.
      apply elem_of_cons in Hy as [->|Hy]; [|by eapply Hl].
      destruct (jslt d db) eqn:Hd; [|done].
      rewrite <- (Hx d Hky). symmetry. by eapply jslt_trans.
  - rewrite E. destruct (IH (Some x, d)) as [[E' Hl]|(b & db & E' & Hb & Hkb & Hlt' & Hl)].
    + right. exists x, d. split; [done|]. split; [apply elem_of_cons; by left|].
      split; [done|]. split; [done|]. intros y dy Hy Hky.
      apply elem_of_cons in Hy as [->|Hy].
      * assert (dy = d) as -> by congruence. apply jslt_irrefl.
      * by eapply Hl.
    + right. exists b, db. cbn [snd] in Hlt'.
      split; [done|]. split; [apply elem_of_cons; by right|].
      split; [done|]. split; [by eapply jslt_trans|]. intros y dy Hy Hky.
      apply elem_of_cons in Hy as [->|Hy]; [|by eapply Hl].
      assert (dy = d) as -> by congruence. by apply jslt_asym.
Qed.

(** The head of a list sorted by [x - y] is its least element. *)
Lemma head_sort_least (l : list Z) (m : Z) :
  head (sort_by (fun x y => (0 <? x - y)%Z) l) = Some m ->
  forall x, x ∈ l -> (m <= x)%Z.
Proof.
  intros Hm x Hx.
  assert (StronglySorted Z.le (sort_by (fun x y => (0 <? x - y)%Z) l)) as Hs.
  { apply (sort_by_sorted _ Z.le (fun _ => True)).
    - intros a b _ _ H. apply Z.ltb_lt in H. lia.
    - intros a b _ _ H. apply Z.ltb_ge in H. lia.
    - intros a b c. apply Z.le_trans.
    - by apply Forall_forall. }
  apply (sort_by_elem (fun x y => (0 <? x - y)%Z)) in Hx.
  destruct (sort_by _ l) as [|y s]; [done|]. injection Hm as ->.
  apply StronglySorted_inv in Hs as [_ Hall].
  apply elem_of_cons in Hx as [->|Hx]; [lia|].
  by apply (proj1 (Forall_forall _ _) Hall).
Qed.

(** ** The successor choice at a fork *)

Section ForkChoice.
Context {RT : Runtime}.

(** The difference between the bearing the current segment ends with and the
    bearing candidate [x] starts with; [None] for a candidate without
    geometry. *)
Definition turn (g : graph) (currBrng : jsnum) (x : Z) : option jsnum :=
  match DirOnly.orderedCoordsForPipe (g !! x) with
  | p0 :: p1 :: _ => Some (angleDiffDeg currBrng (bearingDeg p0 p1))
  | _ => None
  end.

Lemma bearing_step_turn (g : graph) (currBrng : jsnum) (acc : oid * jsnum) (x : Z) :
  DirOnly.bearing_step g currBrng acc x
  = match turn g currBrng x with
    | Some d => if jslt d (snd acc) then (Some x, d) else acc
    | None => acc
    end.
Proof.
  unfold DirOnly.bearing_step, turn.
  by destruct (DirOnly.orderedCoordsForPipe (g !! x)) as [|p0 [|p1 rest]].
Qed.

(** X1: With a candidate that is neither the previous segment nor visited,
    [chooseNextPipeDirOnly] and [chooseNextPipeWithLookahead] choose a
    candidate that is neither. *)
Theorem successor_prefers_unvisited
    (ids0 : list Z) (g : graph) (p : props) (curr : list LL) (cur prev : oid)
    (visited : gset Z) (c : Z) :
  c ∈ ids0 -> Some c <> prev -> c ∉ visited ->
  (forall r, DirOnly.chooseNextPipeDirOnly (Some ids0) g curr prev visited = Returns r ->
     exists id, r = Some id /\ id ∈ ids0 /\ Some id <> prev /\ id ∉ visited)
  /\ (exists id,
        Lookahead.chooseNextPipeWithLookahead (Some ids0) g p cur prev visited = Some id
        /\ id ∈ ids0 /\ Some id <> prev /\ id ∉ visited).
Proof.
  intros Hc Hprev Hvis. split.
  - assert (dir_only_ids (Some ids0) prev visited
            = filter (fun id => Some id <> prev /\ id ∉ visited) ids0) as Eids.
    { unfold dir_only_ids. change (default [] (Some ids0)) with ids0.
      destruct (filter _ ids0) as [|y ys] eqn:E; [|done].
      assert (c ∈ filter (fun id => Some id <> prev /\ id ∉ visited) ids0) as Hin
        by (apply list_elem_of_filter; tauto).
      rewrite E in Hin. by apply elem_of_nil in Hin. }
    intros [id|] Hr.
    + apply chooseNextPipeDirOnly_from_ids in Hr. rewrite Eids in Hr.
      apply list_elem_of_filter in Hr. exists id. tauto.
    + exfalso. revert Hr.
      unfold DirOnly.chooseNextPipeDirOnly. fold (dir_only_ids (Some ids0) prev visited).
      destruct (dir_only_ids (Some ids0) prev visited) as [|x [|y ids]] eqn:E.
      * assert (c ∈ filter (fun id => Some id <> prev /\ id ∉ visited) ids0) as Hin
          by (apply list_elem_of_filter; tauto).
        rewrite <- Eids in Hin. by apply elem_of_nil in Hin.
      * discriminate.
      * destruct (curr !! _); [|discriminate]. destruct (curr !! _); [|discriminate].
        destruct (fst _); [discriminate|].
        destruct (sort_by (fun x y => (0 <? x - y)%Z) (x :: y :: ids))
          as [|z zs] eqn:Es; [|discriminate].
        pose proof (sort_by_length (fun x y => (0 <? x - y)%Z) (x :: y :: ids)) as Hl.
        rewrite Es in Hl. discriminate.
  - assert (ids0 <> []) as Hne by (intros ->; by apply elem_of_nil in Hc).
    destruct (chooseNextPipeWithLookahead_ids ids0 g p cur prev visited Hne)
      as (id & Hid & Hin).
    exists id. split; [done|]. revert Hin. unfold lookahead_ids.
    assert (c ∈ filter (fun id => Some id <> prev) ids0) as Hc1
      by (apply list_elem_of_filter; tauto).
    destruct (filter (fun id => Some id <> prev) ids0) as [|y ys] eqn:E1;
      [by apply elem_of_nil in Hc1|].
    cbn [length Nat.ltb Nat.leb].
    assert (c ∈ filter (fun id => id ∉ visited) (y :: ys)) as Hc2
      by (apply list_elem_of_filter; tauto).
    destruct (filter (fun id => id ∉ visited) (y :: ys)) as [|z zs] eqn:E2;
      [by apply elem_of_nil in Hc2|].
    cbn [length Nat.ltb Nat.leb]. rewrite <- E2. intros Hin.
    apply list_elem_of_filter in Hin as [Hv Hin]. rewrite <- E1 in Hin.
    apply list_elem_of_filter in Hin. tauto.
Qed.

(** X2: Among two or more remaining candidates [chooseNextPipeDirOnly] takes the
    one that turns least from the bearing the current segment ends with (none
    turns less, and it is the first of those); when no candidate has a
    geometry to take a bearing from, it takes the lowest id. *)
Theorem chooseNextPipeDirOnly_least_turn
    (nextIds : option (list Z)) (g : graph) (curr : list LL) (prev : oid)
    (visited : gset Z) (a b : LL) (r : oid) :
  (2 <= length (dir_only_ids nextIds prev visited))%nat ->
  curr !! (length curr - 2)%nat = Some a ->
  curr !! (length curr - 1)%nat = Some b ->
  DirOnly.chooseNextPipeDirOnly nextIds g curr prev visited = Returns r ->
  exists id,
    r = Some id /\ id ∈ dir_only_ids nextIds prev visited
    /\ ((exists d,
           turn g (bearingDeg a b) id = Some d /\ jslt d PInf = true
           /\ forall x dx, x ∈ dir_only_ids nextIds prev visited ->
                turn g (bearingDeg a b) x = Some dx -> jslt dx d = false)
        \/ ((forall x dx, x ∈ dir_only_ids nextIds prev visited ->
               turn g (bearingDeg a b) x = Some dx -> jslt dx PInf = false)
            /\ forall x, x ∈ dir_only_ids nextIds prev visited -> (id <= x)%Z)).
Proof.
  intros Hlen Ha Hb.
  unfold DirOnly.chooseNextPipeDirOnly. fold (dir_only_ids nextIds prev visited).
  destruct (dir_only_ids nextIds prev visited) as [|x [|y ids]] eqn:E;
    [cbn in Hlen; lia..|].
  rewrite Ha, Hb.
  destruct (argmin_fold (turn g (bearingDeg a b))
              (DirOnly.bearing_step g (bearingDeg a b))
              (bearing_step_turn g (bearingDeg a b)) (x :: y :: ids) (None, PInf))
    as [[E' Hl]|(m & dm & E' & Hm & Hkm & Hlt & Hl)]; rewrite E'; cbn [fst snd] in *.
  - intros Hr. injection Hr as <-.
    destruct (head (sort_by (fun x y => (0 <? x - y)%Z) (x :: y :: ids)))
      as [m|] eqn:Eh.
    + exists m. split; [done|].
      split; [by apply (head_sort_by_elem (fun x y => (0 <? x - y)%Z))|].
      right. split; [done|]. by apply head_sort_least.
    + exfalso.
      destruct (sort_by (fun x y => (0 <? x - y)%Z) (x :: y :: ids))
        as [|z zs] eqn:Es; [|done].
      pose proof (sort_by_length (fun x y => (0 <? x - y)%Z) (x :: y :: ids)) as Hlen'.
      rewrite Es in Hlen'. discriminate.
  - intros [= <-]. exists m. split; [done|]. split; [done|]. left. by exists dm.
Qed.

End ForkChoice.

(** Witness: at the tee, with segment 2 visited, the resolver goes on to
    segment 3. *)
Lemma successor_prefers_unvisited_witness :
  exists id,
    Lookahead.chooseNextPipeWithLookahead (RT := planar) (Some [2; 3]%Z) Fixtures.tee
      (props_of (Fixtures.tee !! 1%Z)) (Some 1%Z) None {[2%Z]} = Some id
    /\ id ∈ [2; 3]%Z /\ Some id <> None /\ id ∉ ({[2%Z]} : gset Z).
Proof.
  refine (proj2 (successor_prefers_unvisited (RT := planar) [2; 3]%Z Fixtures.tee
                   (props_of (Fixtures.tee !! 1%Z)) [] (Some 1%Z) None {[2%Z]} 3%Z
                   _ _ _)).
  - rewrite !elem_of_cons. tauto.
  - done.
  - rewrite elem_of_singleton. lia.
Defined.

(** Witness: at the tee the walk arrives heading north-east; segment 2 goes
    straight on and is chosen. *)
Lemma chooseNextPipeDirOnly_least_turn_witness :
  exists id,
    Some 2%Z = Some id
    /\ id ∈ dir_only_ids (Some [2; 3]%Z) None ∅.
Proof.
  destruct (chooseNextPipeDirOnly_least_turn (RT := planar) (Some [2; 3]%Z)
              Fixtures.tee [Fixtures.at_ 0 0; Fixtures.at_ 1 1] None ∅
              (Fixtures.at_ 0 0) (Fixtures.at_ 1 1) (Some 2%Z))
    as (id & E & Hin & _).
  - vm_compute. lia.
  - reflexivity.
  - reflexivity.
  - vm_compute. reflexivity.
  - exists id. by split.
Defined.

(** ** The lowest downstream invert level *)

Section LowestLevel.
Context {RT : Runtime}.

(** [toNum(p.DOWNSTREAM_IL)] of candidate [x]. *)
Definition level (g : graph) (x : Z) : option Q :=
  toNum (DOWNSTREAM_IL (props_of (g !! x))).

(** The initial [Infinity] of the loop. *)
Definition level_bound (o : option Q) : jsnum :=
  match o with
  | Some q => Fin q
  | None => PInf
  end.

Lemma lowest_step_fold (g : graph) (l : list Z) (acc : oid * option Q) :
  let f := fun (a : oid * jsnum) (x : Z) =>
             match Fin <$> level g x with
             | Some d => if jslt d (snd a) then (Some x, d) else a
             | None => a
             end in
  (fst (foldl (Lookahead.lowest_step g) acc l),
   level_bound (snd (foldl (Lookahead.lowest_step g) acc l)))
  = foldl f (fst acc, level_bound (snd acc)) l.
Proof.
  intros f. revert acc. induction l as [|x l IH]; intros acc; [done|].
  cbn [foldl]. rewrite IH. f_equal.
  unfold Lookahead.lowest_step, f, level. destruct acc as [b [bd|]]; cbn [fst snd].
  - destruct (toNum _) as [d|]; cbn; [|done].
    by destruct (Qlt_le_dec d bd).
  - by destruct (toNum _) as [d|].
Qed.

(** X3: When a candidate (after the same-name preference) has a numeric
    downstream invert level, [chooseNextPipeLowestDownIL] returns a candidate
    with a numeric level, and no candidate has a lower one. *)
Theorem chooseNextPipeLowestDownIL_lowest
    (nextIds : list Z) (g : graph) (p : props) (c : Z) (d : Q) :
  c ∈ Lookahead.name_candidates nextIds g p ->
  level g c = Some d ->
  exists best dbest,
    Lookahead.chooseNextPipeLowestDownIL (Some nextIds) g p = Some best
    /\ best ∈ Lookahead.name_candidates nextIds g p
    /\ level g best = Some dbest
    /\ forall x dx, x ∈ Lookahead.name_candidates nextIds g p ->
         level g x = Some dx -> (dbest <= dx)%Q.
Proof.
  intros Hc Hd.
  assert (nextIds <> []) as Hne.
  { intros ->. apply name_candidates_elem in Hc. by apply elem_of_nil in Hc. }
  unfold Lookahead.chooseNextPipeLowestDownIL.
  destruct nextIds as [|n0 ns]; [done|].
  set (cands := Lookahead.name_candidates (n0 :: ns) g p) in *.
  pose proof (lowest_step_fold g cands (None, None)) as Hfold. cbn [fst snd level_bound] in Hfold.
  destruct (argmin_fold (fun x => Fin <$> level g x) _ (fun acc x => eq_refl) cands
              (None, PInf)) as [[E Hl]|(b & db & E & Hb & Hkb & _ & Hl)].
  - exfalso. specialize (Hl c (Fin d) Hc). rewrite Hd in Hl. by specialize (Hl eq_refl).
  - rewrite E in Hfold. apply (f_equal fst) in Hfold. cbn [fst] in Hfold.
    rewrite Hfold.
    destruct (level g b) as [q|] eqn:Eq; [|done]. cbn in Hkb. injection Hkb as <-.
    exists b, q. split; [done|]. split; [done|]. split; [done|].
    intros x dx Hx Hdx. specialize (Hl x (Fin dx) Hx). rewrite Hdx in Hl.
    specialize (Hl eq_refl). cbn in Hl. by destruct (Qlt_le_dec dx q).
Qed.

End LowestLevel.

(** Witness: at the fork the same-named candidate 2 has the level 3. *)
Lemma chooseNextPipeLowestDownIL_lowest_witness :
  exists best dbest,
    Lookahead.chooseNextPipeLowestDownIL (RT := planar) (Some [1; 2]%Z) Fixtures.fork
      (props_of (Fixtures.fork !! 10%Z)) = Some best
    /\ level (RT := planar) Fixtures.fork best = Some dbest.
Proof.
  destruct (chooseNextPipeLowestDownIL_lowest (RT := planar) [1; 2]%Z Fixtures.fork
              (props_of (Fixtures.fork !! 10%Z)) 2%Z 3%Q)
    as (best & dbest & E & _ & Hl & _).
  - assert (Lookahead.name_candidates (RT := planar) [1; 2]%Z Fixtures.fork
              (props_of (Fixtures.fork !! 10%Z)) = [2%Z]) as ->
      by (vm_compute; reflexivity).
    apply elem_of_cons. by left.
  - reflexivity.
  - exists best, dbest. split; [exact E | exact Hl].
Defined.

(** ** The vertex nearest to the snap point *)

Section Nearest.
Context {RT : Runtime}.

Definition near_step (sp : LL) (a : option (nat * LL) * jsnum) (e : nat * LL)
  : option (nat * LL) * jsnum :=
  match Some (metersBetween sp (snd e)) with
  | Some d => if jslt d (snd a) then (Some e, d) else a
  | None => a
  end.

Definition idx_of (o : option (nat * LL)) : nat := default 0%nat (fst <$> o).

Lemma nearest_step_fold (sp : LL) (l : list LL) (o : option (nat * LL))
    (best : jsnum) (i : nat) :
  foldl (Dfs.nearest_step sp) (idx_of o, best, i) l
  = (idx_of (fst (foldl (near_step sp) (o, best) (imap (fun j x => ((i + j)%nat, x)) l))),
     snd (foldl (near_step sp) (o, best) (imap (fun j x => ((i + j)%nat, x)) l)),
     (i + length l)%nat).
Proof.
  revert o best i. induction l as [|x l IH]; intros o best i.
  { cbn. by rewrite Nat.add_0_r. }
  cbn [foldl imap length].
  assert (imap ((fun j y => ((i + j)%nat, y)) ∘ S) l
          = imap (fun j y => ((S i + j)%nat, y)) l) as ->.
  { apply imap_ext. intros j y _. cbn. f_equal. lia. }
  rewrite Nat.add_0_r.
  assert (Dfs.nearest_step sp (idx_of o, best, i) x
          = (idx_of (fst (near_step sp (o, best) (i, x))),
             snd (near_step sp (o, best) (i, x)), S i)) as ->.
  { unfold Dfs.nearest_step, near_step. cbn [fst snd].
    by destruct (jslt (metersBetween sp x) best). }
  destruct (near_step sp (o, best) (i, x)) as [o' best'] eqn:E. cbn [fst snd].
  rewrite IH. f_equal. lia.
Qed.

Lemma jslt_unbounded (x y : jsnum) :
  jslt x PInf = false -> jslt y PInf = false -> jslt x y = false.
Proof. by destruct x, y. Qed.

(** X4: The index the plan starts from on the first segment is an index of the
    segment's vertices, and no vertex is strictly nearer to the snap point than
    the one at this index.  The three variants compute it alike. *)
Theorem nearestIdx_nearest (sp : LL) (ord : list LL) :
  DirOnly.nearestIdx sp ord = Dfs.nearestIdx sp ord
  /\ (ord <> [] -> (Dfs.nearestIdx sp ord < length ord)%nat)
  /\ (forall i pt b,
        ord !! i = Some pt -> ord !! Dfs.nearestIdx sp ord = Some b ->
        jslt (metersBetween sp pt) (metersBetween sp b) = false).
Proof.
  split; [reflexivity|].
  unfold Dfs.nearestIdx.
  pose proof (nearest_step_fold sp ord None PInf 0) as Hfold.
  change (idx_of None) with 0%nat in Hfold. rewrite Hfold. cbn [fst].
  destruct (argmin_fold (fun e => Some (metersBetween sp (snd e))) (near_step sp)
              (fun acc x => eq_refl) (imap (fun j x => ((0 + j)%nat, x)) ord) (None, PInf))
    as [[E Hl]|((j & b') & db & E & Hb & Hkb & _ & Hl)]; rewrite E; cbn [fst snd idx_of] in *.
  - split.
    + intros Hne. destruct ord; [done|]. cbn. lia.
    + intros i pt b Hi Hb. apply jslt_unbounded.
      * apply (Hl (i, pt)); [|done]. apply elem_of_lookup_imap. by exists i, pt.
      * apply (Hl (0%nat, b)); [|done]. apply elem_of_lookup_imap. by exists 0%nat, b.
  - apply elem_of_lookup_imap in Hb as (j' & y & Hjy & Hy).
    injection Hjy as -> ->. change (idx_of (Some (j', y))) with j'.
    injection Hkb as <-. split.
    + intros _. by eapply lookup_lt_Some.
    + intros i pt b Hi Hb'. rewrite Hy in Hb'. injection Hb' as <-.
      apply (Hl (i, pt)); [|done]. apply elem_of_lookup_imap. by exists i, pt.
Qed.

End Nearest.

(** ** Multi-part lines *)

Section Stitch.
Context {RT : Runtime}.

(** No point is closer than a centimetre to the point before it. *)
Definition spaced (out : list LL) : Prop :=
  forall i a b, out !! i = Some a -> out !! S i = Some b ->
    jslt (metersBetween a b) (Fin (1 # 100)) = false.

Lemma spaced_snoc (out : list LL) (ll : LL) :
  spaced out ->
  (forall l, last out = Some l -> jslt (metersBetween l ll) (Fin (1 # 100)) = false) ->
  spaced (out ++ [ll]).
Proof.
  intros Hs Hlast i a b Ha Hb.
  destruct (decide (S i < length out)%nat) as [Hlt|Hge].
  - rewrite lookup_app_l in Ha by lia. rewrite lookup_app_l in Hb by lia.
    by eapply Hs.
  - assert (S i = length out) as Hi.
    { apply lookup_lt_Some in Hb. rewrite length_app in Hb. cbn in Hb. lia. }
    rewrite lookup_app_l in Ha by lia.
    rewrite lookup_app_r in Hb by lia.
    rewrite Hi, Nat.sub_diag in Hb. injection Hb as <-.
    apply Hlast. rewrite last_lookup. rewrite <- Hi. exact Ha.
Qed.

Lemma flatten_step_spec (out : list LL) (c : position) :
  spaced out ->
  exists extra,
    GeomOrder.flatten_step out c = out ++ extra
    /\ extra `sublist_of` [toLL c]
    /\ spaced (out ++ extra).
Proof.
  intros Hs. unfold GeomOrder.flatten_step.
  destruct (last out) as [l|] eqn:El.
  - destruct (jslt (metersBetween l (toLL c)) (Fin (1 # 100))) eqn:Hd.
    + exists []. rewrite app_nil_r. split; [done|]. split; [|done].
      apply sublist_nil_l.
    + exists [toLL c]. split; [done|]. split; [done|].
      apply spaced_snoc; [done|]. intros l' Hl'. congruence.
  - exists [toLL c]. split; [done|]. split; [done|].
    apply spaced_snoc; [done|]. intros l' Hl'. congruence.
Qed.

Lemma flatten_steps_spec (part : list position) (out : list LL) :
  spaced out ->
  exists extra,
    foldl GeomOrder.flatten_step out part = out ++ extra
    /\ extra `sublist_of` (toLL <$> part)
    /\ spaced (out ++ extra).
Proof.
  revert out. induction part as [|c part IH]; intros out Hs; cbn [foldl].
  { exists []. rewrite app_nil_r. split; [done|]. split; [done|]. done. }
  destruct (flatten_step_spec out c Hs) as (e1 & -> & Hsub1 & Hs1).
  destruct (IH (out ++ e1) Hs1) as (e2 & -> & Hsub2 & Hs2).
  exists (e1 ++ e2). rewrite <- app_assoc in *. split; [done|]. split; [|done].
  change (toLL <$> c :: part) with ([toLL c] ++ (toLL <$> part)).
  by apply sublist_app.
Qed.

Lemma flatten_parts_spec (parts : list (list position)) (out : list LL) :
  spaced out ->
  exists extra,
    foldl GeomOrder.flatten_part out parts = out ++ extra
    /\ extra `sublist_of`
         (toLL <$> concat (filter (fun part => (2 <= length part)%nat) parts))
    /\ spaced (out ++ extra).
Proof.
  revert out. induction parts as [|part parts IH]; intros out Hs; cbn [foldl].
  { exists []. rewrite app_nil_r. split; [done|]. split; [done|]. done. }
  unfold GeomOrder.flatten_part at 2.
  destruct (length part <? 2)%nat eqn:Elen.
  - apply Nat.ltb_lt in Elen.
    destruct (IH out Hs) as (e & -> & Hsub & Hs').
    exists e. split; [done|]. split; [|done].
    rewrite filter_cons_False by lia. done.
  - apply Nat.ltb_ge in Elen.
    destruct (flatten_steps_spec part out Hs) as (e1 & -> & Hsub1 & Hs1).
    destruct (IH (out ++ e1) Hs1) as (e2 & -> & Hsub2 & Hs2).
    exists (e1 ++ e2). rewrite <- app_assoc in *. split; [done|]. split; [|done].
    rewrite filter_cons_True by lia. cbn [concat]. rewrite fmap_app.
    by apply sublist_app.
Qed.

(** X5: The coordinates of a multi-part line, as the geometry-order variant
    flattens it: points of the parts of two points or more, in the order of
    the data, and no point closer than a centimetre to the one before it. *)
Theorem flattenFeatureCoords_stitched (parts : list (list position)) (ps : option props) :
  GeomOrder.flattenFeatureCoords (Some (mkFeature (Some (MultiLineString parts)) ps))
    `sublist_of` (toLL <$> concat (filter (fun part => (2 <= length part)%nat) parts))
  /\ spaced
       (GeomOrder.flattenFeatureCoords
          (Some (mkFeature (Some (MultiLineString parts)) ps))).
Proof.
  cbn [GeomOrder.flattenFeatureCoords geometry].
  destruct (flatten_parts_spec parts []) as (e & E & Hsub & Hs).
  { intros i a b Ha. by rewrite lookup_nil in Ha. }
  rewrite E. cbn [app] in *. by split.
Qed.

End Stitch.

(** ** Normalised sewer names *)

(** A word character begins no white space, and ends none. *)
Lemma word_not_space (c : ascii) :
  is_word c = true ->
  is_space c = false
  /\ (forall d, is_space2 c d = false /\ is_space2 d c = false)
  /\ (forall d e, is_space3 c d e = false /\ is_space3 e d c = false).
Proof.
  intros Hw. unfold is_space2, is_space3. unfold is_word, is_space in *.
  set (n := nat_of_ascii c) in *.
  assert ((48 <= n <= 57) \/ (65 <= n <= 90) \/ (97 <= n <= 122) \/ n = 95)%nat as Hn.
  { repeat (apply orb_true_iff in Hw as [Hw|Hw]);
      rewrite ?andb_true_iff, ?Nat.leb_le, ?Nat.eqb_eq in Hw; lia. }
  assert (forall k, (123 <= k)%nat -> (n =? k)%nat = false) as Hk
    by (intros k Hk; apply Nat.eqb_neq; lia).
  assert ((128 <=? n)%nat = false) as H128 by (apply Nat.leb_gt; lia).
  split; [|split].
  - apply orb_false_iff. split; [apply Nat.eqb_neq; lia|].
    apply andb_false_iff. rewrite !Nat.leb_gt. lia.
  - intros d. rewrite !Hk by lia. by rewrite andb_false_r.
  - intros d e. cbv zeta. rewrite !Hk by lia. rewrite H128. cbn.
    by rewrite !andb_false_r.
Qed.

Lemma space_width_word (c : ascii) (l : list ascii) :
  is_word c = true -> space_width (c :: l) = 0%nat.
Proof.
  intros (Hs & H2 & H3)%word_not_space. unfold space_width. rewrite Hs.
  destruct l as [|d [|e l]]; [done|..]; rewrite (proj1 (H2 d)); [done|].
  by rewrite (proj1 (H3 d e)).
Qed.

Lemma space_width_end_word (c : ascii) (r : list ascii) :
  is_word c = true -> space_width_end (c :: r) = 0%nat.
Proof.
  intros (Hs & H2 & H3)%word_not_space. unfold space_width_end.
  destruct r as [|d [|e r]]; cbn [take]; rewrite ?take_0; cbn [rev app space_width];
    rewrite ?Hs;
    cbn [Nat.eqb].
  - reflexivity.
  - destruct (is_space d); [reflexivity|]. by rewrite (proj2 (H2 d)).
  - destruct (is_space d); cbn [Nat.eqb]; [|rewrite (proj2 (H2 d)); cbn [Nat.eqb]];
      (destruct (is_space e); [reflexivity|]);
      (destruct (is_space2 e d); [reflexivity|]);
      by rewrite (proj2 (H3 d e)).
Qed.

(** A blank is no byte of a longer white-space character. *)
Lemma blank_not_space (c d : ascii) :
  is_space2 c " " = false /\ is_space3 c " " d = false /\ is_space3 c d " " = false.
Proof.
  unfold is_space2, is_space3. cbv zeta.
  change (nat_of_ascii " ") with 32%nat. cbn [Nat.eqb Nat.leb].
  by rewrite !andb_false_r.
Qed.

Lemma drop_spaces_suffix (width : list ascii -> nat) (skip : nat) (l : list ascii) :
  drop_spaces width skip l `suffix_of` l.
Proof.
  revert skip. induction l as [|x l IH]; intros skip; cbn; [done|].
  destruct skip as [|k]; [destruct (width (x :: l)) as [|k]|];
    [done | by apply suffix_cons_r..].
Qed.

(** What is left of a string of word characters and blanks begins with a
    word character. *)
Lemma drop_spaces_head (width : list ascii -> nat) (l : list ascii) (c : ascii) :
  (forall x t, is_word x = true -> width (x :: t) = 0%nat) ->
  (forall t, width (" "%char :: t) = 1%nat) ->
  Forall (fun x => x = " "%char \/ is_word x = true) l ->
  head (drop_spaces width 0 l) = Some c -> is_word c = true.
Proof.
  intros Hword Hblank. induction l as [|x l IH]; intros Hall; cbn; [done|].
  apply Forall_cons in Hall as [[->|Hx] Hall].
  - rewrite Hblank. by apply IH.
  - rewrite (Hword x l Hx). cbn. congruence.
Qed.

Lemma space_width_blank (l : list ascii) : space_width (" "%char :: l) = 1%nat.
Proof. done. Qed.

Lemma space_width_end_blank (l : list ascii) : space_width_end (" "%char :: l) = 1%nat.
Proof. done. Qed.

(** The bytes of [s.trim()]. *)
Lemma trim_chars (s : string) :
  list_ascii_of_string (trim s)
  = rev (drop_spaces space_width_end 0
           (rev (drop_spaces space_width 0 (list_ascii_of_string s)))).
Proof. unfold trim. apply list_ascii_of_string_of_list_ascii. Qed.

Lemma trimmed_ends (l : list ascii) (c : ascii) :
  let t := rev (drop_spaces space_width_end 0 (rev (drop_spaces space_width 0 l))) in
  Forall (fun x => x = " "%char \/ is_word x = true) l ->
  (forall x, x ∈ t -> x ∈ l)
  /\ (head t = Some c -> is_word c = true)
  /\ (last t = Some c -> is_word c = true).
Proof.
  intros t Hall. subst t.
  pose proof (drop_spaces_head space_width l c space_width_word space_width_blank Hall)
    as Hhead.
  pose proof (drop_spaces_suffix space_width 0 l) as Hm.
  remember (drop_spaces space_width 0 l) as m eqn:Em. clear Em.
  assert (Forall (fun x => x = " "%char \/ is_word x = true) (rev m)) as Hallm.
  { destruct Hm as [k ->]. apply Forall_app in Hall as [_ Hall].
    apply Forall_forall. intros x Hx%list_elem_of_In%in_rev%list_elem_of_In.
    by apply (proj1 (Forall_forall _ _) Hall). }
  pose proof (drop_spaces_head space_width_end (rev m) c space_width_end_word
                space_width_end_blank Hallm) as Hlast.
  pose proof (drop_spaces_suffix space_width_end 0 (rev m)) as Hr.
  remember (drop_spaces space_width_end 0 (rev m)) as r eqn:Er. clear Er.
  assert (rev r `prefix_of` m) as [k ->].
  { destruct Hr as [k Hk]. exists (rev k).
    by rewrite <- rev_app_distr, <- Hk, rev_involutive. }
  split; [|split].
  - intros x Hx. destruct Hm as [k' ->].
    apply elem_of_app. right. apply elem_of_app. by left.
  - intros Hc. apply Hhead. by destruct (rev r).
  - intros Hc. apply Hlast. destruct r as [|x r']; [done|].
    cbn [rev] in Hc. rewrite last_snoc in Hc. done.
Qed.

(** A string in which the only white space is the blank. *)
Fixpoint plain (l : list ascii) : Prop :=
  match l with
  | [] => True
  | c :: l' => (space_width l = 0%nat \/ c = " "%char) /\ plain l'
  end.

Lemma collapse_spaces_elem (b : bool) (k : nat) (l : list ascii) (c : ascii) :
  c ∈ collapse_spaces b k l -> c = " "%char \/ c ∈ l.
Proof.
  revert b k. induction l as [|x l IH]; intros b k; cbn [collapse_spaces];
    [by intros H%elem_of_nil|].
  assert (forall b k, c ∈ collapse_spaces b k l -> c = " "%char \/ c ∈ x :: l) as IH'.
  { intros b' k' H. destruct (IH _ _ H) as [->|Hc]; [by left|].
    right. apply elem_of_cons. by right. }
  destruct k as [|k]; [|by apply IH'].
  destruct (space_width (x :: l)) as [|w].
  - intros [->|H]%elem_of_cons; [|by eapply IH'].
    right. apply elem_of_cons. by left.
  - destruct b; [by apply IH'|].
    intros [->|H]%elem_of_cons; [by left | by eapply IH'].
Qed.

(** The first bytes of a collapsed string. *)
Lemma collapse_spaces_head (l : list ascii) :
  match l with
  | [] => collapse_spaces false 0 l = []
  | x :: l' =>
      (exists t, collapse_spaces false 0 l = " "%char :: t)
      \/ (space_width l = 0%nat
          /\ collapse_spaces false 0 l = x :: collapse_spaces false 0 l')
  end.
Proof.
  destruct l as [|x l']; [done|]. cbn [collapse_spaces].
  destruct (space_width (x :: l')) as [|w]; [by right | left; by eexists].
Qed.

Lemma space_width_collapse (x : ascii) (l : list ascii) :
  space_width (x :: l) = 0%nat ->
  space_width (x :: collapse_spaces false 0 l) = 0%nat.
Proof.
  intros H. unfold space_width in *.
  destruct (is_space x); [done|].
  pose proof (collapse_spaces_head l) as H1.
  destruct l as [|y l1]; [by rewrite H1|].
  destruct H1 as [[t ->]|[_ ->]].
  { rewrite (proj1 (blank_not_space x x)).
    destruct t as [|z t]; [done|]. by rewrite (proj1 (proj2 (blank_not_space x z))). }
  destruct (is_space2 x y); [done|].
  pose proof (collapse_spaces_head l1) as H2.
  destruct l1 as [|z l2]; [by rewrite H2|].
  destruct H2 as [[t ->]|[_ ->]]; [|done].
  by rewrite (proj2 (proj2 (blank_not_space x y))).
Qed.

Lemma collapse_spaces_plain (b : bool) (k : nat) (l : list ascii) :
  plain (collapse_spaces b k l).
Proof.
  revert b k. induction l as [|x l IH]; intros b k; cbn [collapse_spaces]; [done|].
  destruct k as [|k]; [|by apply IH].
  destruct (space_width (x :: l)) as [|w] eqn:E.
  - cbn [plain]. split; [|by apply IH]. left. by apply space_width_collapse.
  - destruct b; [by apply IH|]. cbn [plain]. split; [by right | by apply IH].
Qed.

Lemma strip_punct_plain (l : list ascii) (c : ascii) :
  plain l -> c ∈ strip_punct 0 l -> c = " "%char \/ (is_word c = true /\ c ∈ l).
Proof.
  induction l as [|x l IH]; cbn [strip_punct plain]; [by intros _ H%elem_of_nil|].
  intros [Hx Hl].
  assert (c ∈ strip_punct 0 l -> c = " "%char \/ (is_word c = true /\ c ∈ x :: l)) as IH'.
  { intros H. destruct (IH Hl H) as [->|[Hw Hc]]; [by left|].
    right. split; [done|]. apply elem_of_cons. by right. }
  destruct Hx as [->| ->].
  - destruct (is_word x) eqn:Ew; [|done].
    intros [->|H]%elem_of_cons; [|by apply IH'].
    right. split; [done|]. apply elem_of_cons. by left.
  - rewrite space_width_blank.
    intros [->|H]%elem_of_cons; [by left | by apply IH'].
Qed.

Section Names.
Context {RT : Runtime}.

(** X6: A normalised name is made of blanks and of word characters (letters,
    digits and the underscore) of the input in upper case, and neither begins
    nor ends with a blank; no other white space and no other character is
    left in it. *)
Theorem normaliseSewerName_shape (v : jsval) :
  let upper := list_ascii_of_string (toUpperCase (js_string (js_or v (JStr "")))) in
  let name := list_ascii_of_string (normaliseSewerName v) in
  Forall (fun c => c = " "%char \/ (is_word c = true /\ c ∈ upper)) name
  /\ (forall c, head name = Some c -> is_word c = true)
  /\ (forall c, last name = Some c -> is_word c = true).
Proof.
  intros upper name. subst name. unfold normaliseSewerName. rewrite trim_chars.
  rewrite list_ascii_of_string_of_list_ascii. fold upper.
  set (l := strip_punct 0 (collapse_spaces false 0 upper)).
  assert (forall c, c ∈ l -> c = " "%char \/ (is_word c = true /\ c ∈ upper)) as Hl.
  { intros c Hc. apply strip_punct_plain in Hc; [|apply collapse_spaces_plain].
    destruct Hc as [->|[Hw Hc]]; [by left|].
    apply collapse_spaces_elem in Hc as [->|Hc]; [by left | by right]. }
  assert (Forall (fun x => x = " "%char \/ is_word x = true) l) as Hall.
  { apply Forall_forall. intros c Hc. destruct (Hl c Hc) as [->|[Hw _]]; tauto. }
  split; [|split].
  - apply Forall_forall. intros c Hc. apply Hl.
    by apply (proj1 (trimmed_ends l c Hall)).
  - intros c. apply (trimmed_ends l c Hall).
  - intros c. apply (trimmed_ends l c Hall).
Qed.

End Names.

(** Two names with letters and white space outside ASCII: the sharp s
    (U+00DF, the bytes 195 and 159) has the upper case SS, and a no-break
    space and a line separator (U+2028, the bytes 226, 128 and 168) between
    two words are a run of white space. *)
Example normalised_names_outside_ascii :
  normaliseSewerName (RT := planar)
    (JStr ("stra" +:+ String "195" (String "159" "e")))
  = "STRASSE"%string
  /\ normaliseSewerName (RT := planar)
       (JStr (" High" +:+ String "194" (String "160" "")
              +:+ String "226" (String "128" (String "168" "")) +:+ " St. (N) "))
     = "HIGH ST N"%string.
Proof. split; vm_compute; reflexivity. Qed.

(** ** The animation tick *)

Section TickFacts.
Context {RT : Runtime}.

(** The index a point has reached on its street route or pipe plan. *)
Definition street_idx (pt : Motion.point) : nat :=
  default 0%nat (Motion.st_idx <$> Motion.street pt).

Definition pipe_idx (pt : Motion.point) : nat :=
  default 0%nat (Motion.idx <$> Motion.pipe pt).

Ltac tick_done :=
  cbn in *; repeat split; intros;
  try first [done | lia | by left | by right | congruence | tauto
            | intuition congruence | (exfalso; simplify_eq; lia)].

(** X7: A tick keeps the plan and the contact of a point, never moves its
    indices back, and changes its mode in one way only, from pipe to arrived.
    Points that arrived or failed are left as they are; entering the pipe is
    scheduled for points on the street only; and a point in pipe mode whose
    plan has no second point arrives where it is. *)
Theorem tick_frame (g : option graph) (fast : bool) (pt : Motion.point) :
  let pt' := fst (Motion.tick g fast pt) in
  Motion.pipePlan pt' = Motion.pipePlan pt
  /\ Motion.contact pt' = Motion.contact pt
  /\ (Motion.mode pt' = Motion.mode pt
      \/ (Motion.mode pt = Motion.Pipe /\ Motion.mode pt' = Motion.Arrived))
  /\ (street_idx pt <= street_idx pt')%nat
  /\ (pipe_idx pt <= pipe_idx pt')%nat
  /\ (Motion.mode pt = Motion.Error \/ Motion.mode pt = Motion.Arrived ->
      Motion.tick g fast pt = (pt, false))
  /\ (snd (Motion.tick g fast pt) = true -> Motion.mode pt = Motion.Street)
  /\ (forall plan,
        Motion.mode pt = Motion.Pipe -> Motion.pipePlan pt = Some plan ->
        (length plan <= 1)%nat ->
        Motion.mode pt' = Motion.Arrived
        /\ Motion.p_lat pt' = Motion.p_lat pt /\ Motion.p_lng pt' = Motion.p_lng pt).
Proof.
  unfold Motion.tick, street_idx, pipe_idx.
  destruct pt as [m la ln st ct ps pl]. cbn [Motion.mode Motion.street Motion.pipe
    Motion.pipePlan Motion.contact Motion.p_lat Motion.p_lng].
  destruct m.
  - (* street *)
    destruct st as [[[r|] si ss sv]|]; [|tick_done..].
    cbn [Motion.route Motion.st_idx].
    set (i := if (si =? 0)%nat then 1%nat else si).
    assert (si <= i)%nat as Hi.
    { unfold i. destruct (si =? 0)%nat eqn:E; [apply Nat.eqb_eq in E|]; lia. }
    clearbody i.
    destruct (r !! i) as [target|]; [|tick_done].
    destruct (Motion.advance _ target _) as [[la' ln'] reached].
    destruct reached; tick_done.
  - (* pipe *)
    destruct pl as [plan|]; [|tick_done].
    set (i := match ps with
              | Some ps0 => if (Motion.idx ps0 =? 0)%nat then 1%nat else Motion.idx ps0
              | None => 1%nat
              end).
    assert (default 0%nat (Motion.idx <$> ps) <= i /\ 1 <= i)%nat as [Hi Hi1].
    { unfold i. destruct ps as [ps0|]; cbn; [|lia].
      destruct (Motion.idx ps0 =? 0)%nat eqn:E;
        [apply Nat.eqb_eq in E | apply Nat.eqb_neq in E]; lia. }
    clearbody i.
    destruct (plan !! i) as [target|] eqn:Et; [|tick_done].
    assert (1 < length plan)%nat as Hlen by (apply lookup_lt_Some in Et; lia).
    destruct (Motion.advance _ target _) as [[la' ln'] reached].
    destruct reached.
    + destruct (length plan <=? S i)%nat; destruct ps as [ps0|]; tick_done.
    + destruct ps as [ps0|]; tick_done.
  - tick_done.
  - tick_done.
Qed.

End TickFacts.

(** ** Where the points of a plan come from *)

Section Provenance.
Context {RT : Runtime}.

Lemma foldl_push_elem (f : list LL * gset string -> LL -> list LL * gset string)
    (pts : list LL) (acc : list LL * gset string) (pt : LL) :
  (forall acc pt, f acc pt = acc \/ f acc pt = Dfs.pushPoint acc pt) ->
  pt ∈ fst (foldl f acc pts) -> pt ∈ fst acc \/ pt ∈ pts.
Proof.
  intros Hf. revert acc. induction pts as [|x pts IH]; intros acc; cbn [foldl].
  { by left. }
  intros Hpt. destruct (IH _ Hpt) as [Hacc|Hin].
  - destruct (Hf acc x) as [E|E]; rewrite E in Hacc; [by left|].
    unfold Dfs.pushPoint in Hacc. destruct (decide _); [by left|].
    cbn [fst] in Hacc. apply elem_of_app in Hacc as [?|Hx]; [by left|].
    apply list_elem_of_singleton in Hx as ->. right. apply elem_of_cons. by left.
  - right. apply elem_of_cons. by right.
Qed.

(** The point is the snap point, or a coordinate of one of the segments
    [ids] of the graph. *)
Definition drawn_from (flatten : option feature -> list LL) (g : graph)
    (startPoint : option LL) (ids : Z -> Prop) (pt : LL) : Prop :=
  (exists sp, startPoint = Some sp /\ pt = mkLL (lat sp) (lng sp))
  \/ exists id ft, ids id /\ g !! id = Some ft /\ pt ∈ flatten (Some ft).

Lemma drawn_from_mono flatten g sp (ids ids' : Z -> Prop) pt :
  (forall id, ids id -> ids' id) ->
  drawn_from flatten g sp ids pt -> drawn_from flatten g sp ids' pt.
Proof.
  intros Hsub [H|(id & ft & Hid & Hft & Hpt)]; [by left|].
  right. exists id, ft. split; [by apply Hsub | done].
Qed.

Lemma dir_only_ordered_elem (ft : option feature) (pt : LL) :
  pt ∈ DirOnly.orderedCoordsForPipe ft -> pt ∈ DirOnly.flattenFeatureCoords ft.
Proof.
  unfold DirOnly.orderedCoordsForPipe. destruct (length _ <? 2)%nat.
  { by intros H%elem_of_nil. }
  destruct (String.eqb _ _); [|done].
  intros H. by apply list_elem_of_In, in_rev, list_elem_of_In in H.
Qed.

Lemma geom_order_ordered_elem (ft : option feature) (pt : LL) :
  pt ∈ GeomOrder.orderedCoordsForPipe ft -> pt ∈ GeomOrder.flattenFeatureCoords ft.
Proof.
  unfold GeomOrder.orderedCoordsForPipe. destruct (String.eqb _ _); [|done].
  intros H. by apply list_elem_of_In, in_rev, list_elem_of_In in H.
Qed.

(** The plan of the walk holds the snap point and coordinates of visited
    segments, and the visited segments are segments of the graph. *)
Definition walk_drawn (g : graph) (startPoint : option LL) (s : DirOnly.tracer) : Prop :=
  (forall pt, pt ∈ DirOnly.plan s ->
     drawn_from DirOnly.flattenFeatureCoords g startPoint
       (fun id => id ∈ DirOnly.visited s) pt)
  /\ (forall id, id ∈ DirOnly.visited s -> is_Some (g !! id)).

Lemma hop_walk_drawn (g : graph) (startPoint : option LL) (s : DirOnly.tracer) :
  walk_drawn g startPoint s ->
  match DirOnly.hop g startPoint s with
  | DirOnly.Next s' | DirOnly.Break s' => walk_drawn g startPoint s'
  | DirOnly.Raise => True
  end.
Proof.
  intros [Hplan Hvis]. unfold DirOnly.hop.
  destruct (DirOnly.currentId s) as [cur|]; [|by split].
  destruct (decide _); [by split|].
  destruct (g !! cur) as [ft|] eqn:Eft; [|by split].
  assert (forall id, id ∈ {[cur]} ∪ DirOnly.visited s -> is_Some (g !! id)) as Hvis'.
  { intros id Hid. apply elem_of_union in Hid as [Hid|Hid]; [|by apply Hvis].
    apply elem_of_singleton in Hid as ->. by rewrite Eft. }
  assert (forall pt, pt ∈ DirOnly.plan s ->
            drawn_from DirOnly.flattenFeatureCoords g startPoint
              (fun id => id ∈ {[cur]} ∪ DirOnly.visited s) pt) as Hold.
  { intros pt Hpt. eapply drawn_from_mono; [|by apply Hplan].
    intros id Hid. apply elem_of_union. by right. }
  assert (forall pt, pt ∈ DirOnly.orderedCoordsForPipe (Some ft) ->
            drawn_from DirOnly.flattenFeatureCoords g startPoint
              (fun id => id ∈ {[cur]} ∪ DirOnly.visited s) pt) as Hnew.
  { intros pt Hpt. right. exists cur, ft. split; [set_solver|]. split; [done|].
    by apply dir_only_ordered_elem. }
  destruct (length _ <? 2)%nat; [by split|].
  set (ord := DirOnly.orderedCoordsForPipe (Some ft)) in *.
  assert (forall (pl : list LL) (cs : gset string),
            (forall pt, pt ∈ pl -> pt ∈ DirOnly.plan s \/ pt ∈ ord
                                   \/ exists sp, startPoint = Some sp
                                                 /\ pt = mkLL (lat sp) (lng sp)) ->
            forall fst' nextId,
              walk_drawn g startPoint
                (DirOnly.mkTracer pl ({[cur]} ∪ DirOnly.visited s) cs nextId (Some cur) fst'))
    as Hdone.
  { intros pl cs Hpl fst' nextId. split; [|done]. cbn [DirOnly.plan DirOnly.visited].
    intros pt Hpt. destruct (Hpl pt Hpt) as [H|[H|H]]; [by apply Hold | by apply Hnew|].
    by left. }
  destruct (DirOnly.first s), startPoint as [sp|].
  - destruct (foldl DirOnly.emit_cell _ _) as [pl cs] eqn:Ef.
    destruct (DirOnly.chooseNextPipeDirOnly _ _ _ _ _); [|done].
    apply Hdone. intros pt Hpt.
    assert (pt ∈ fst (foldl DirOnly.emit_cell
                        (DirOnly.plan s ++ [mkLL (lat sp) (lng sp)], DirOnly.visitedCells s)
                        (drop (DirOnly.nearestIdx sp ord) ord))) as Hin
      by (by rewrite Ef).
    apply foldl_push_elem in Hin; [|intros; right; by rewrite emit_cell_pushPoint].
    cbn [fst] in Hin. destruct Hin as [Hin|Hin].
    + apply elem_of_app in Hin as [?|Hin]; [by left|].
      apply list_elem_of_singleton in Hin as ->. right. right. by exists sp.
    + right. left. eapply subseteq_drop. exact Hin.
  - destruct (foldl (DirOnly.emit_join _) _ _) as [pl cs] eqn:Ef.
    destruct (DirOnly.chooseNextPipeDirOnly _ _ _ _ _); [|done].
    apply Hdone. intros pt Hpt.
    assert (pt ∈ fst (foldl (DirOnly.emit_join (last (DirOnly.plan s)))
                        (DirOnly.plan s, DirOnly.visitedCells s) ord)) as Hin
      by (by rewrite Ef).
    apply foldl_push_elem in Hin; [|apply emit_join_cases]. tauto.
  - destruct (foldl (DirOnly.emit_join _) _ _) as [pl cs] eqn:Ef.
    destruct (DirOnly.chooseNextPipeDirOnly _ _ _ _ _); [|done].
    apply Hdone. intros pt Hpt.
    assert (pt ∈ fst (foldl (DirOnly.emit_join (last (DirOnly.plan s)))
                        (DirOnly.plan s, DirOnly.visitedCells s) ord)) as Hin
      by (by rewrite Ef).
    apply foldl_push_elem in Hin; [|apply emit_join_cases]. tauto.
  - destruct (foldl (DirOnly.emit_join _) _ _) as [pl cs] eqn:Ef.
    destruct (DirOnly.chooseNextPipeDirOnly _ _ _ _ _); [|done].
    apply Hdone. intros pt Hpt.
    assert (pt ∈ fst (foldl (DirOnly.emit_join (last (DirOnly.plan s)))
                        (DirOnly.plan s, DirOnly.visitedCells s) ord)) as Hin
      by (by rewrite Ef).
    apply foldl_push_elem in Hin; [|apply emit_join_cases]. tauto.
Qed.

Lemma hops_walk_drawn (g : graph) (startPoint : option LL) (maxHops : nat)
    (s t : DirOnly.tracer) (k : nat) :
  walk_drawn g startPoint s ->
  DirOnly.hops g startPoint maxHops s = Returns (t, k) ->
  walk_drawn g startPoint t.
Proof.
  revert s k. induction maxHops as [|n IH]; intros s k Hinv; cbn [DirOnly.hops].
  - by intros [= <- _].
  - pose proof (hop_walk_drawn g startPoint s Hinv) as Hstep.
    destruct (DirOnly.hop g startPoint s) as [s'|s'|]; [| |discriminate].
    + destruct (DirOnly.hops g startPoint n s') as [[t' k']|] eqn:E; [|discriminate].
      intros [= <- _]. by apply (IH s' k').
    + by intros [= <- _].
Qed.

Lemma coord_graph_emit_path_elem (flatten : option feature -> list LL) (g : graph)
    (startPoint : option LL) (ids : list Z) (acc : list LL * gset string) (i : nat)
    (pt : LL) :
  pt ∈ fst (CoordGraph.emit_path flatten g startPoint acc i ids) ->
  pt ∈ fst acc \/ drawn_from flatten g startPoint (fun id => id ∈ ids) pt.
Proof.
  revert acc i. induction ids as [|id ids IH]; intros acc i; cbn [CoordGraph.emit_path].
  { by left. }
  intros Hpt. destruct (IH _ _ Hpt) as [Hacc|Hd].
  2: { right. eapply drawn_from_mono; [|exact Hd]. intros x Hx.
       apply elem_of_cons. by right. }
  revert Hacc. unfold CoordGraph.emit_pipe.
  destruct (g !! id) as [ft|] eqn:Eft; [|by left].
  unfold CoordGraph.orderedCoordsForPipe.
  destruct (length _ <? 2)%nat; [by left|].
  assert (forall pt, pt ∈ flatten (Some ft) ->
            drawn_from flatten g startPoint (fun x => x ∈ id :: ids) pt) as Hnew.
  { intros q Hq. right. exists id, ft. split; [apply elem_of_cons; by left | done]. }
  destruct i, startPoint as [sp|]; intros Hin;
    (apply foldl_push_elem in Hin; [|apply (push_far_cases flatten)]);
    destruct Hin as [Hin|Hin]; try (by left); try (right; by apply Hnew).
  - unfold Dfs.pushPoint in Hin. destruct (decide _); [by left|]. cbn [fst] in Hin.
    apply elem_of_app in Hin as [?|Hin]; [by left|].
    apply list_elem_of_singleton in Hin as ->. right. left. by exists sp.
  - right. apply Hnew. eapply subseteq_drop. exact Hin.
Qed.

Lemma geom_order_emit_path_elem (g : graph) (startPoint : option LL) (ids : list Z)
    (acc : list LL * gset string) (i : nat) (pt : LL) :
  pt ∈ fst (GeomOrder.emit_path g startPoint acc i ids) ->
  pt ∈ fst acc
  \/ drawn_from GeomOrder.flattenFeatureCoords g startPoint (fun id => id ∈ ids) pt.
Proof.
  revert acc i. induction ids as [|id ids IH]; intros acc i; cbn [GeomOrder.emit_path].
  { by left. }
  intros Hpt. destruct (IH _ _ Hpt) as [Hacc|Hd].
  2: { right. eapply drawn_from_mono; [|exact Hd]. intros x Hx.
       apply elem_of_cons. by right. }
  revert Hacc. unfold GeomOrder.emit_pipe.
  destruct (g !! id) as [ft|] eqn:Eft; [|by left].
  destruct (length _ <? 2)%nat; [by left|].
  assert (forall pt, pt ∈ GeomOrder.orderedCoordsForPipe (Some ft) ->
            drawn_from GeomOrder.flattenFeatureCoords g startPoint
              (fun x => x ∈ id :: ids) pt) as Hnew.
  { intros q Hq. right. exists id, ft. split; [apply elem_of_cons; by left|].
    split; [done|]. by apply geom_order_ordered_elem. }
  destruct i, startPoint as [sp|]; intros Hin;
    (apply foldl_push_elem in Hin; [|by right]);
    destruct Hin as [Hin|Hin]; try (by left); try (right; by apply Hnew).
  - unfold Dfs.pushPoint in Hin. destruct (decide _); [by left|]. cbn [fst] in Hin.
    apply elem_of_app in Hin as [?|Hin]; [by left|].
    apply list_elem_of_singleton in Hin as ->. right. left. by exists sp.
  - right. apply Hnew. eapply subseteq_drop. exact Hin.
Qed.

(** X8: No variant invents a coordinate: a point of a plan is the snap point or
    a coordinate of a segment of the graph, one the walk visited or one of the
    path the plan is drawn for. *)
Theorem plan_points_drawn_from_graph (g : graph) (startPoint : option LL) :
  (forall start maxHops t k,
     DirOnly.trace start startPoint g maxHops = Returns (t, k) ->
     (forall pt, pt ∈ DirOnly.plan t ->
        drawn_from DirOnly.flattenFeatureCoords g startPoint
          (fun id => id ∈ DirOnly.visited t) pt)
     /\ (forall id, id ∈ DirOnly.visited t -> is_Some (g !! id)))
  /\ (forall flatten ids pt,
        pt ∈ CoordGraph.plan_of_path flatten g startPoint ids ->
        drawn_from flatten g startPoint (fun id => id ∈ ids) pt)
  /\ (forall ids pt,
        pt ∈ GeomOrder.plan_of_path g startPoint ids ->
        drawn_from GeomOrder.flattenFeatureCoords g startPoint (fun id => id ∈ ids) pt).
Proof.
  split; [|split].
  - intros start maxHops t k Ht.
    apply (hops_walk_drawn g startPoint maxHops (DirOnly.start_state start) t k);
      [|exact Ht].
    split; cbn; [intros pt Hpt; by apply elem_of_nil in Hpt|].
    intros id Hid. by apply elem_of_empty in Hid.
  - intros flatten ids pt Hpt.
    apply coord_graph_emit_path_elem in Hpt as [Hpt|Hpt]; [|done].
    by apply elem_of_nil in Hpt.
  - intros ids pt Hpt.
    apply geom_order_emit_path_elem in Hpt as [Hpt|Hpt]; [|done].
    by apply elem_of_nil in Hpt.
Qed.

End Provenance.

(** ** The path of the backtracking search *)

(** Segment [b] is listed as a successor of segment [a]. *)
Definition follows (g : graph) (a b : Z) : Prop :=
  b ∈ next_ids (props_of (g !! a)).

(** Every segment of the path (its last segment first) follows the one
    entered before it. *)
Fixpoint linked (g : graph) (path : list Z) : Prop :=
  match path with
  | b :: rest =>
      match rest with
      | a :: _ => follows g a b /\ linked g rest
      | [] => True
      end
  | [] => True
  end.

Section SearchPath.
Context (g : graph) (choices : Z -> feature -> oid -> list Z) (cap : nat) (start : Z).
Hypothesis choices_sound :
  forall id ft prev x, g !! id = Some ft -> x ∈ choices id ft prev -> follows g id x.

Definition frame_sound (f : Dfs.frame) : Prop :=
  forall l x, Dfs.f_ordered f = Some l -> x ∈ l -> follows g (Dfs.f_id f) x.

Definition chain_inv (s : Dfs.dfs) : Prop :=
  Dfs.path s = Dfs.f_id <$> Dfs.frames s
  /\ NoDup (Dfs.path s)
  /\ (forall x, x ∈ Dfs.inPath s <-> x ∈ Dfs.path s)
  /\ linked g (Dfs.path s)
  /\ (Dfs.path s <> [] -> last (Dfs.path s) = Some start)
  /\ Forall frame_sound (Dfs.frames s)
  /\ Dfs.found s = false.

(** How the search can end. *)
Definition search_end (t : Dfs.dfs) : Prop :=
  (Dfs.found t = true
   /\ exists top, head (Dfs.path t) = Some top /\ top ∈ Dfs.TARGET_PIPE_IDS
                  /\ is_Some (g !! top))
  \/ (Dfs.found t = false /\ (Dfs.path t = [] \/ (cap <= length (Dfs.path t))%nat)).

Definition chain (t : Dfs.dfs) : Prop :=
  NoDup (Dfs.path t) /\ linked g (Dfs.path t)
  /\ (Dfs.path t <> [] -> last (Dfs.path t) = Some start).

Lemma linked_tail (p : list Z) : linked g p -> linked g (tail p).
Proof. destruct p as [|b [|a rest]]; cbn; tauto. Qed.

Lemma backtrack_chain (s : Dfs.dfs) : chain_inv s -> chain_inv (Dfs.backtrack s).
Proof.
  intros (Hpath & Hnd & Hin & Hlink & Hlast & Hok & Hfound).
  unfold Dfs.backtrack, chain_inv. cbn [Dfs.frames Dfs.path Dfs.inPath Dfs.found].
  destruct (Dfs.frames s) as [|top below] eqn:Efr.
  { rewrite Hpath in *. cbn in *.
    split; [done|]. split; [constructor|]. split; [exact Hin|]. by repeat split. }
  rewrite Hpath in *. cbn [fmap list_fmap head tail] in *.
  apply NoDup_cons in Hnd as [Hnew Hnd]. apply Forall_cons in Hok as [_ Hok].
  split; [done|]. split; [done|]. split.
  { intros x. rewrite elem_of_difference, Hin, elem_of_cons, elem_of_singleton.
    split; [tauto|]. intros Hx. split; [by right|]. by intros ->. }
  split; [exact (linked_tail _ Hlink)|]. split; [|by split].
  intros Hne. destruct (Dfs.f_id <$> below) as [|a rest] eqn:E; [done|].
  by apply Hlast.
Qed.

Lemma step_chain (s s' : Dfs.dfs) :
  chain_inv s -> Dfs.step g choices cap s = Dfs.Continue s' -> chain_inv s'.
Proof using All.
  intros Hinv. unfold Dfs.step.
  destruct (Dfs.frames s) as [|top below] eqn:Efr; [discriminate|].
  destruct (cap <=? length (Dfs.path s))%nat; [discriminate|].
  destruct (g !! Dfs.f_id top) as [ft|] eqn:Eft.
  2: { intros [= <-]. by apply backtrack_chain. }
  destruct (decide _); [discriminate|].
  set (top1 := match Dfs.f_ordered top with Some _ => top | None => _ end).
  assert (exists l1, Dfs.f_ordered top1 = Some l1
                     /\ (forall x, x ∈ l1 -> follows g (Dfs.f_id top) x)
                     /\ Dfs.f_id top1 = Dfs.f_id top)
    as (l1 & El1 & Hl1 & Hid1).
  { destruct Hinv as (_ & _ & _ & _ & _ & Hok & _). rewrite Efr in Hok.
    apply Forall_cons in Hok as [Hok _]. unfold top1.
    destruct (Dfs.f_ordered top) as [l|] eqn:El.
    - exists l. split; [done|]. split; [|done]. intros x Hx. by apply (Hok l).
    - eexists. split; [reflexivity|]. split; [|done]. intros x Hx.
      by apply (choices_sound _ ft (Dfs.f_prevId top)). }
  rewrite El1. cbn [default from_option id].
  destruct (l1 !! Dfs.f_idx top1) as [nextId|] eqn:Enext.
  2: { intros [= <-]. by apply backtrack_chain. }
  pose proof (list_elem_of_lookup_2 _ _ _ Enext) as Hnext.
  destruct Hinv as (Hpath & Hnd & Hin & Hlink & Hlast & Hok & Hfound).
  rewrite Efr in Hpath, Hok. apply Forall_cons in Hok as [Hok_top Hok].
  assert (frame_sound (Dfs.mkFrame (Dfs.f_id top1) (Dfs.f_prevId top1)
                         (S (Dfs.f_idx top1)) (Some l1))) as Hok2.
  { intros l x Hl Hx. cbn in Hl. injection Hl as <-. cbn. rewrite Hid1. by apply Hl1. }
  destruct (decide (nextId ∈ Dfs.inPath s)) as [Hseen|Hfresh]; intros [= <-];
    unfold chain_inv; cbn [Dfs.frames Dfs.path Dfs.inPath Dfs.found].
  - split; [by rewrite Hpath; cbn; rewrite Hid1|].
    do 4 (split; [done|]). split; [by constructor | done].
  - split; [by rewrite Hpath; cbn; rewrite Hid1|].
    split; [apply NoDup_cons; split; [by rewrite <- Hin | done]|].
    split.
    { intros x. rewrite elem_of_union, elem_of_singleton, elem_of_cons, Hin. tauto. }
    split.
    { rewrite Hpath. cbn. rewrite Hpath in Hlink. split; [by apply Hl1 | done]. }
    split.
    { intros _. rewrite Hpath in *. cbn [fmap list_fmap] in *.
      rewrite last_cons. rewrite Hlast by done. done. }
    split; [|done]. constructor; [by intros l x Hl | by constructor].
Qed.

Lemma loop_chain (fuel : nat) (s t : Dfs.dfs) (k : nat) :
  chain_inv s -> Dfs.loop g choices cap fuel s = Some (t, k) ->
  chain t /\ search_end t.
Proof using All.
  revert s k. induction fuel as [|n IH]; intros s k Hinv; [done|].
  cbn [Dfs.loop].
  destruct (Dfs.step g choices cap s) as [s'|s'|s'] eqn:Estep.
  - destruct (Dfs.loop g choices cap n s') as [[t' k']|] eqn:El; [|discriminate].
    intros [= <- _]. apply (IH s' k'); [|done]. by apply (step_chain s).
  - intros [= <- _]. revert Estep. unfold Dfs.step.
    destruct Hinv as (Hpath & Hnd & Hin & Hlink & Hlast & Hok & Hfound).
    destruct (Dfs.frames s) as [|top below] eqn:Efr; [discriminate|].
    destruct (cap <=? _)%nat; [discriminate|].
    destruct (g !! Dfs.f_id top) as [ft|] eqn:Eft; [|discriminate].
    destruct (decide _) as [Htarget|].
    2: { destruct (default [] _ !! _); [|discriminate].
         destruct (decide _); discriminate. }
    intros [= <-]. split; [by split|]. left. cbn [Dfs.found Dfs.path].
    split; [done|]. exists (Dfs.f_id top). rewrite Hpath. cbn.
    split; [done|]. split; [done|]. by rewrite Eft.
  - intros [= <- _]. revert Estep. unfold Dfs.step.
    destruct Hinv as (Hpath & Hnd & Hin & Hlink & Hlast & Hok & Hfound).
    destruct (Dfs.frames s) as [|top below] eqn:Efr.
    { intros [= <-]. split; [by split|]. right. split; [done|]. left.
      by rewrite Hpath. }
    destruct (cap <=? length (Dfs.path s))%nat eqn:Ecap.
    { intros [= <-]. split; [by split|]. right. split; [done|]. right.
      by apply Nat.leb_le. }
    destruct (g !! Dfs.f_id top) as [ft|] eqn:Eft; [|discriminate].
    destruct (decide _); [discriminate|].
    destruct (default [] _ !! _); [|discriminate].
    destruct (decide _); discriminate.
Qed.

Lemma seed_chain : chain_inv (Dfs.seed start).
Proof.
  unfold chain_inv, Dfs.seed. cbn [Dfs.frames Dfs.path Dfs.inPath Dfs.found].
  split; [done|]. split; [apply NoDup_singleton|]. split.
  { intros x. by rewrite elem_of_singleton, list_elem_of_singleton. }
  split; [done|]. split; [done|]. split; [|done].
  apply Forall_singleton. by intros l x Hl.
Qed.

End SearchPath.

Section SearchPathFacts.
Context {RT : Runtime}.

Lemma coord_graph_choices_sound (g : graph) (id : Z) (ft : feature) (prev : oid) (x : Z) :
  g !! id = Some ft -> x ∈ CoordGraph.choices g id ft prev -> follows g id x.
Proof.
  intros Hft Hx. unfold follows. rewrite Hft.
  unfold CoordGraph.choices in Hx. rewrite coord_graph_order_perm in Hx.
  unfold CoordGraph.getCandidates in Hx. by apply list_elem_of_filter in Hx as [_ ?].
Qed.

Lemma geom_order_choices_sound (g : graph) (id : Z) (ft : feature) (prev : oid) (x : Z) :
  g !! id = Some ft -> x ∈ GeomOrder.choices g id ft prev -> follows g id x.
Proof.
  intros Hft Hx. unfold follows. rewrite Hft.
  unfold GeomOrder.choices, GeomOrder.getChoices in Hx. rewrite Hft in Hx.
  rewrite geom_order_order_perm in Hx.
  destruct prev; [by apply list_elem_of_filter in Hx as [_ ?] | done].
Qed.

(** X9: The backtracking searches end, and on a path that is a chain: it starts
    at the start segment, every segment is listed as a successor of the one
    before it, and no segment occurs twice.  The search ends on a target
    segment of the graph, with the flag [found] set, or at the cap, or else
    with the empty path: once every branch is exhausted below the cap, nothing
    of the way is left and the plan is empty. *)
Theorem search_path_is_chain
    (g : graph) (start : Z) (startPoint : option LL) (cap fuel : nat)
    (flatten : option feature -> list LL) :
  (dfs_fuel g start <= fuel)%nat ->
  (exists s k,
     CoordGraph.search fuel start g cap = Some (s, k)
     /\ chain g start s /\ search_end g cap s
     /\ (Dfs.found s = false -> (length (Dfs.path s) < cap)%nat ->
         CoordGraph.buildPipePlanFromObjectId flatten fuel (Some start) startPoint g cap
         = Some []))
  /\ (exists s k,
        GeomOrder.search fuel start g cap = Some (s, k)
        /\ chain g start s /\ search_end g cap s
        /\ (Dfs.found s = false -> (length (Dfs.path s) < cap)%nat ->
            GeomOrder.buildPipePlanFromObjectId fuel (Some start) startPoint g cap
            = Some [])).
Proof.
  intros Hfuel. split.
  - destruct (coord_graph_search_ends g start cap fuel Hfuel) as (s & k & Hs & _).
    exists s, k. split; [done|].
    destruct (loop_chain g (CoordGraph.choices g) cap start
                (coord_graph_choices_sound g) fuel (Dfs.seed start) s k
                (seed_chain g start) Hs) as [Hchain Hend].
    split; [done|]. split; [done|]. intros Hfound Hlen.
    unfold CoordGraph.buildPipePlanFromObjectId. destruct (g !! start); [|done].
    rewrite Hs. destruct Hend as [[Hf _]|[_ [Hp|Hp]]]; [congruence| |lia].
    by rewrite Hp.
  - destruct (geom_order_search_ends g start cap fuel Hfuel) as (s & k & Hs & _).
    exists s, k. split; [done|].
    destruct (loop_chain g (GeomOrder.choices g) cap start
                (geom_order_choices_sound g) fuel (Dfs.seed start) s k
                (seed_chain g start) Hs) as [Hchain Hend].
    split; [done|]. split; [done|]. intros Hfound Hlen.
    unfold GeomOrder.buildPipePlanFromObjectId.
    rewrite Hs. destruct Hend as [[Hf _]|[_ [Hp|Hp]]]; [congruence| |lia].
    by rewrite Hp.
Qed.

End SearchPathFacts.

(** Witness: no target is reachable on the tee; the search from segment 1
    ends with every branch exhausted, and the plan is empty. *)
Lemma search_path_is_chain_witness :
  (dfs_fuel Fixtures.tee 1 <= 100)%nat
  /\ exists s k,
       GeomOrder.search (RT := planar) 100 1%Z Fixtures.tee 10 = Some (s, k)
       /\ chain Fixtures.tee 1 s /\ search_end Fixtures.tee 10 s.
Proof.
  assert (dfs_fuel Fixtures.tee 1 <= 100)%nat as Hfuel by (vm_compute; lia).
  split; [exact Hfuel|].
  destruct (proj2 (search_path_is_chain (RT := planar) Fixtures.tee 1%Z None 10 100
                     DirOnly.flattenFeatureCoords Hfuel))
    as (s & k & Hs & Hchain & Hend & _).
  exists s, k. split; [exact Hs|]. split; [exact Hchain | exact Hend].
Defined.

(** ** Clamping *)

Section ClampFacts.
Context {RT : Runtime}.

Lemma clamp_cases (n a b : jsnum) :
  jsle a b = true ->
  (n = NaN /\ clamp n a b = NaN)
  \/ (n <> NaN /\ jsle a (clamp n a b) = true /\ jsle (clamp n a b) b = true
      /\ (jsle a n = true -> jsle n b = true -> jseq (clamp n a b) n = true)
      /\ (jslt n a = true -> jseq (clamp n a b) a = true)
      /\ (jslt b n = true -> jseq (clamp n a b) b = true)).
Proof.
  unfold clamp.
  destruct n as [x| | |], a as [y| | |], b as [z| | |]; cbn; try done;
    try (by left); intros Hab; right; (split; [done|]);
    repeat match goal with
           | |- context [Qlt_le_dec ?u ?v] => destruct (Qlt_le_dec u v); cbn
           | H : Qle_bool _ _ = true |- _ => apply Qle_bool_iff in H
           end;
    rewrite ?Qle_bool_iff, ?Qeq_bool_iff;
    repeat split; intros; try done; try lra.
Qed.

(** X10: [clamp(n, a, b)] for bounds [a <= b]: a number within the bounds, [n]
    itself when it is within them and the nearer bound when it is not; NaN is
    not clamped. *)
Theorem clamp_range (n a b : jsnum) :
  jsle a b = true ->
  (n = NaN -> clamp n a b = NaN)
  /\ (n <> NaN -> jsle a (clamp n a b) = true /\ jsle (clamp n a b) b = true)
  /\ (jsle a n = true -> jsle n b = true -> jseq (clamp n a b) n = true)
  /\ (jslt n a = true -> jseq (clamp n a b) a = true)
  /\ (jslt b n = true -> jseq (clamp n a b) b = true).
Proof.
  intros Hab.
  destruct (clamp_cases n a b Hab) as [[-> Hc]|(Hn & Ha & Hb & Hin & Hlo & Hhi)].
  - split; [done|]. split; [done|]. split; [intros H; by destruct a|].
    split; [done|]. intros H. by destruct b.
  - split; [done|]. split; [done|]. by split.
Qed.

End ClampFacts.

(** Witness: the speed band. *)
Lemma clamp_range_witness :
  jseq (clamp (Fin 7) Motion.PIPE_SPEED_MIN_MPS Motion.PIPE_SPEED_MAX_MPS)
    Motion.PIPE_SPEED_MAX_MPS = true.
Proof.
  refine (proj2 (proj2 (proj2 (proj2
            (clamp_range (Fin 7) Motion.PIPE_SPEED_MIN_MPS Motion.PIPE_SPEED_MAX_MPS _)))) _);
    reflexivity.
Defined.

(** ** The nearest pipe contact *)

Section SnapFacts.
Context {RT : Runtime}.

(** The distance from [start] to a segment, as [closestPointOnSegment]
    computes it. *)
Definition seg_dist (start : LL) (s : Snap.segment) : jsnum :=
  Snap.cl_dist (Snap.closestPointOnSegment (Snap.sg_a s) (Snap.sg_b s) start).

(** The contact the loop records for a segment. *)
Definition contact_of (start : LL) (s : Snap.segment) : Snap.contact :=
  let res := Snap.closestPointOnSegment (Snap.sg_a s) (Snap.sg_b s) start in
  Snap.mkContact (Snap.cl_dist res) (Snap.cl_point res) (Snap.sg_feature s)
    (Snap.sg_part s) (Snap.sg_index s) (Snap.sg_a s) (Snap.sg_b s).

Lemma consider_fold (start : LL) (l : list Snap.segment) :
  (l = [] /\ foldl (Snap.consider start) None l = None)
  \/ exists s,
       s ∈ l /\ foldl (Snap.consider start) None l = Some (contact_of start s)
       /\ forall s', s' ∈ l -> jslt (seg_dist start s') (seg_dist start s) = false.
Proof.
  induction l as [|x l IH] using rev_ind; [by left|].
  right. rewrite foldl_snoc.
  destruct IH as [[-> ->]|(s & Hs & -> & Hmin)].
  - exists x. split; [apply elem_of_cons; by left|]. split; [done|].
    intros s' Hs'. apply elem_of_cons in Hs' as [->|Hs']; [apply jslt_irrefl|].
    by apply elem_of_nil in Hs'.
  - unfold Snap.consider. cbn [Snap.ct_dist contact_of].
    fold (seg_dist start x). fold (seg_dist start s).
    destruct (jslt (seg_dist start x) (seg_dist start s)) eqn:Hlt.
    + exists x. split; [apply elem_of_app; right; apply elem_of_cons; by left|].
      split; [done|]. intros s' Hs'.
      apply elem_of_app in Hs' as [Hs'|Hs'].
      * destruct (jslt (seg_dist start s') (seg_dist start x)) eqn:E; [|done].
        rewrite <- (Hmin s' Hs'). symmetry. by eapply jslt_trans.
      * apply list_elem_of_singleton in Hs' as ->. apply jslt_irrefl.
    + exists s. split; [apply elem_of_app; by left|]. split; [done|].
      intros s' Hs'. apply elem_of_app in Hs' as [Hs'|Hs']; [by apply Hmin|].
      by apply list_elem_of_singleton in Hs' as ->.
Qed.

(** A segment the loops visit: two consecutive coordinates of a line of a
    feature of the collection. *)
Lemma segments_of_spec (features : list (option feature)) (s : Snap.segment) :
  s ∈ features ≫= Snap.segments_of
  <-> exists f li coords i pa pb,
        Some f ∈ features
        /\ Snap.parts_of (geometry f) !! li = Some coords
        /\ coords !! i = Some pa /\ coords !! S i = Some pb
        /\ s = Snap.mkSegment f li i (toLL pa) (toLL pb).
Proof.
  rewrite list_elem_of_bind. split.
  - intros ([f|] & Hs & Hf); [|by apply elem_of_nil in Hs].
    cbn [Snap.segments_of] in Hs. apply list_elem_of_join in Hs as (l & Hs & Hl).
    apply elem_of_lookup_imap in Hl as (li & coords & -> & Hli).
    unfold Snap.line_segments in Hs.
    apply elem_of_lookup_imap in Hs as (i & [pa pb] & -> & Hi).
    apply lookup_zip_Some in Hi as [Ha Hb]. rewrite lookup_tail in Hb.
    by exists f, li, coords, i, pa, pb.
  - intros (f & li & coords & i & pa & pb & Hf & Hli & Ha & Hb & ->).
    exists (Some f). split; [|done]. cbn [Snap.segments_of].
    apply list_elem_of_join. exists (Snap.line_segments f li coords). split.
    + unfold Snap.line_segments.
      apply (elem_of_lookup_imap_2
               (fun i ab => Snap.mkSegment f li i (toLL (fst ab)) (toLL (snd ab)))
               _ (pa, pb) i).
      apply lookup_zip_Some. by rewrite lookup_tail.
    + by apply elem_of_lookup_imap_2.
Qed.

Lemma closest_parameter (a b p : LL) :
  jslt (Snap.cl_t (Snap.closestPointOnSegment a b p)) (Fin 0) = false
  /\ jslt (Fin 1) (Snap.cl_t (Snap.closestPointOnSegment a b p)) = false.
Proof.
  unfold Snap.closestPointOnSegment. cbn [Snap.cl_t].
  destruct (jsgt _ (Fin 0)); [|by split].
  match goal with
  | |- context [clamp ?x _ _] =>
      destruct (clamp_cases x (Fin 0) (Fin 1) eq_refl)
        as [[_ ->]|(_ & Hlo & Hhi & _)]; [by split|];
      destruct (clamp x (Fin 0) (Fin 1)) as [q| | |]; try done
  end.
  cbn in *. apply Qle_bool_iff in Hlo, Hhi.
  split; [destruct (Qlt_le_dec q 0) | destruct (Qlt_le_dec 1 q)]; first [done | lra].
Qed.

(** X11: [findNearestPipeContact] returns null only when no feature has a line
    of two coordinates.  Otherwise the contact it returns lies on two
    consecutive coordinates of a line of a feature of the collection, at the
    point and the distance [closestPointOnSegment] gives for them, and no such
    pair of any feature is strictly nearer.  The parameter [t] of a closest
    point is never below 0 or above 1. *)
Theorem findNearestPipeContact_nearest (features : list (option feature)) (start : LL) :
  (Snap.findNearestPipeContact features start = None
   <-> forall f li coords, Some f ∈ features ->
         Snap.parts_of (geometry f) !! li = Some coords -> (length coords < 2)%nat)
  /\ (forall c, Snap.findNearestPipeContact features start = Some c ->
        (exists coords pa pb,
           Some (Snap.ct_feature c) ∈ features
           /\ Snap.parts_of (geometry (Snap.ct_feature c)) !! Snap.ct_partIndex c
              = Some coords
           /\ coords !! Snap.ct_segIndex c = Some pa
           /\ coords !! S (Snap.ct_segIndex c) = Some pb
           /\ Snap.ct_segA c = toLL pa /\ Snap.ct_segB c = toLL pb
           /\ Snap.ct_dist c
              = Snap.cl_dist (Snap.closestPointOnSegment (toLL pa) (toLL pb) start)
           /\ Snap.ct_point c
              = Snap.cl_point (Snap.closestPointOnSegment (toLL pa) (toLL pb) start))
        /\ forall f li coords i pa pb,
             Some f ∈ features ->
             Snap.parts_of (geometry f) !! li = Some coords ->
             coords !! i = Some pa -> coords !! S i = Some pb ->
             jslt (Snap.cl_dist (Snap.closestPointOnSegment (toLL pa) (toLL pb) start))
               (Snap.ct_dist c) = false)
  /\ (forall a b p,
        jslt (Snap.cl_t (Snap.closestPointOnSegment a b p)) (Fin 0) = false
        /\ jslt (Fin 1) (Snap.cl_t (Snap.closestPointOnSegment a b p)) = false).
Proof.
  unfold Snap.findNearestPipeContact.
  destruct (consider_fold start (features ≫= Snap.segments_of))
    as [[Hnil ->]|(s & Hs & -> & Hmin)]; (split; [|split]).
  - split; [|done]. intros _ f li coords Hf Hli.
    destruct (decide (length coords < 2)%nat) as [|Hlen]; [done|]. exfalso.
    destruct coords as [|pa [|pb rest]]; [cbn in Hlen; lia..|].
    assert (Snap.mkSegment f li 0 (toLL pa) (toLL pb) ∈ features ≫= Snap.segments_of)
      as Hin by (apply segments_of_spec; by exists f, li, (pa :: pb :: rest), 0%nat, pa, pb).
    rewrite Hnil in Hin. by apply elem_of_nil in Hin.
  - done.
  - apply closest_parameter.
  - split; [done|]. intros Hall. exfalso.
    apply segments_of_spec in Hs as (f & li & coords & i & pa & pb & Hf & Hli & Ha & Hb & _).
    specialize (Hall f li coords Hf Hli). apply lookup_lt_Some in Hb. lia.
  - intros c [= <-]. split.
    + apply segments_of_spec in Hs as (f & li & coords & i & pa & pb & Hf & Hli & Ha & Hb & ->).
      by exists coords, pa, pb.
    + intros f li coords i pa pb Hf Hli Ha Hb.
      apply (Hmin (Snap.mkSegment f li i (toLL pa) (toLL pb))).
      apply segments_of_spec. by exists f, li, coords, i, pa, pb.
  - apply closest_parameter.
Qed.

End SnapFacts.

(** ** The endpoints of a feature *)

Section EndpointFacts.
Context {RT : Runtime}.

(** [c] is the first or the last coordinate of a line of the geometry that
    has two coordinates or more. *)
Definition line_end (g : option geometry_t) (c : position) : Prop :=
  exists part, part ∈ Snap.parts_of g /\ (2 <= length part)%nat
               /\ (head part = Some c \/ last part = Some c).

Lemma pairs_elem {A : Type} (l : list A) (x y : A) :
  (x, y) ∈ Endpoints.pairs l -> x ∈ l /\ y ∈ l.
Proof.
  induction l as [|z l IH]; cbn; [by intros H%elem_of_nil|].
  intros H. apply elem_of_app in H as [H|H].
  - apply list_elem_of_fmap in H as (w & [= -> ->] & Hw).
    split; [apply elem_of_cons; by left | apply elem_of_cons; by right].
  - destruct (IH H) as [? ?]. split; apply elem_of_cons; by right.
Qed.

Lemma part_ends_elem (lines : list (list position)) (c : position) :
  c ∈ lines ≫= Endpoints.part_ends -> line_end (Some (MultiLineString lines)) c.
Proof.
  intros H. apply list_elem_of_bind in H as (part & Hc & Hpart).
  unfold Endpoints.part_ends in Hc.
  destruct (length part <? 2)%nat eqn:Elen; [by apply elem_of_nil in Hc|].
  apply Nat.ltb_ge in Elen.
  destruct (head part) as [a|] eqn:Ea; [|by apply elem_of_nil in Hc].
  destruct (last part) as [b|] eqn:Eb; [|by apply elem_of_nil in Hc].
  exists part. split; [done|]. split; [done|].
  apply elem_of_cons in Hc as [->|Hc]; [by left|].
  apply list_elem_of_singleton in Hc as ->. by right.
Qed.

Lemma farthest_elem (deg1 : list position) (a b : position) :
  Endpoints.farthest deg1 = Some (a, b) -> a ∈ deg1 /\ b ∈ deg1.
Proof.
  unfold Endpoints.farthest. destruct deg1 as [|a0 [|b0 rest]]; [done..|].
  set (l := a0 :: b0 :: rest).
  assert (a0 ∈ l /\ b0 ∈ l) as Hinit.
  { split; [apply elem_of_cons; by left|].
    apply elem_of_cons; right; apply elem_of_cons; by left. }
  intros H. apply (inj Some) in H.
  assert (fst (fst (foldl Endpoints.farther_pair (a0, b0, Endpoints.dist2 a0 b0)
                      (Endpoints.pairs l))) ∈ l
          /\ snd (fst (foldl Endpoints.farther_pair (a0, b0, Endpoints.dist2 a0 b0)
                         (Endpoints.pairs l))) ∈ l) as Hres.
  { apply (foldl_invariant (fun acc => fst (fst acc) ∈ l /\ snd (fst acc) ∈ l)); [done|].
    intros acc [x y] Hxy Hacc. unfold Endpoints.farther_pair. cbn [fst snd].
    destruct (jsgt _ _); [|done]. cbn [fst snd]. by apply pairs_elem. }
  rewrite H in Hres. exact Hres.
Qed.

Lemma longer_part_elem (lines : list (list position)) (part : list position) :
  fst (foldl Endpoints.longer_part (None, Fin (-1)) lines) = Some part ->
  part ∈ lines /\ (2 <= length part)%nat.
Proof.
  intros H.
  assert (forall p, fst (foldl Endpoints.longer_part (None, Fin (-1)) lines) = Some p ->
            p ∈ lines /\ (2 <= length p)%nat) as Hres; [|by apply Hres].
  apply (foldl_invariant
           (fun acc => forall p, fst acc = Some p -> p ∈ lines /\ (2 <= length p)%nat));
    [done|].
  intros acc x Hx Hacc p. unfold Endpoints.longer_part.
  destruct (length x <? 2)%nat eqn:Elen; [by apply Hacc|].
  apply Nat.ltb_ge in Elen.
  destruct (head x), (last x); try (by apply Hacc).
  destruct (jsgt _ _); [|by apply Hacc]. cbn [fst]. by intros [= <-].
Qed.

Lemma head_last_is_Some {A : Type} (l : list A) :
  (2 <= length l)%nat -> is_Some (head l) /\ is_Some (last l).
Proof.
  destruct l as [|x l]; cbn; [lia|]. intros _. split; [done|].
  rewrite last_cons. by destruct (last l).
Qed.

Lemma head_rev {A : Type} (l : list A) : head (rev l) = last l.
Proof.
  induction l as [|x l _] using rev_ind; [done|].
  by rewrite rev_unit, last_snoc.
Qed.

Lemma last_rev {A : Type} (l : list A) : last (rev l) = head l.
Proof. destruct l as [|x l]; [done|]. cbn [rev]. by rewrite last_snoc. Qed.

(** X12: [featureEndpointsLngLat] gives both endpoints or none.  When it gives
    them, each is the first or the last coordinate of a line of the geometry
    that has at least two coordinates: of a [LineString], its first and its
    last coordinate.  A geometry whose lines are all shorter has no
    endpoints. *)
Theorem featureEndpointsLngLat_ends (ft : option feature) :
  let ep := Endpoints.featureEndpointsLngLat ft in
  (Endpoints.ep_start ep = None <-> Endpoints.ep_end ep = None)
  /\ (forall a, Endpoints.ep_start ep = Some a -> line_end (ft ≫= geometry) a)
  /\ (forall b, Endpoints.ep_end ep = Some b -> line_end (ft ≫= geometry) b)
  /\ (forall coords, ft ≫= geometry = Some (LineString coords) ->
        (2 <= length coords)%nat ->
        ep = Endpoints.mkEndpoints (head coords) (last coords))
  /\ ((forall part, part ∈ Snap.parts_of (ft ≫= geometry) -> (length part < 2)%nat) ->
      ep = Endpoints.no_endpoints).
Proof.
  unfold Endpoints.featureEndpointsLngLat.
  destruct (ft ≫= geometry) as [[coords|lines|]|]; cbn zeta;
    try (repeat split; by intros).
  - (* LineString *)
    destruct (2 <=? length coords)%nat eqn:Elen.
    + apply Nat.leb_le in Elen.
      destruct (head_last_is_Some coords Elen) as [[a Ea] [b Eb]].
      rewrite Ea, Eb. cbn.
      assert (coords ∈ Snap.parts_of (Some (LineString coords))) as Hin
        by (apply elem_of_cons; by left).
      split; [done|]. split; [intros ? [= <-]; exists coords; tauto|].
      split; [intros ? [= <-]; exists coords; tauto|].
      split; [intros ? [= <-] _; by rewrite Ea, Eb|].
      intros Hall. specialize (Hall coords Hin). lia.
    + apply Nat.leb_gt in Elen. repeat split; try by intros.
      intros c [= <-]. lia.
  - (* MultiLineString *)
    destruct (length lines =? 0)%nat; [repeat split; by intros|].
    destruct (length (lines ≫= Endpoints.part_ends) <? 2)%nat eqn:Eends;
      [repeat split; by intros|].
    apply Nat.ltb_ge in Eends.
    assert ((forall part, part ∈ Snap.parts_of (Some (MultiLineString lines)) ->
                (length part < 2)%nat) -> False) as Hsome.
    { intros Hall. destruct (lines ≫= Endpoints.part_ends) as [|c cs] eqn:E;
        [cbn in Eends; lia|].
      assert (c ∈ lines ≫= Endpoints.part_ends) as Hc
        by (rewrite E; apply elem_of_cons; by left).
      apply part_ends_elem in Hc as (part & Hpart & Hlen & _).
      specialize (Hall part Hpart). lia. }
    destruct (2 <=? length (Endpoints.degree1 (lines ≫= Endpoints.part_ends)))%nat.
    + destruct (Endpoints.farthest _) as [[a b]|] eqn:Ef.
      * apply farthest_elem in Ef as [Ha Hb].
        unfold Endpoints.degree1 in Ha, Hb.
        apply list_elem_of_filter in Ha as [_ Ha], Hb as [_ Hb].
        cbn. split; [done|].
        split; [intros ? [= <-]; by apply part_ends_elem|].
        split; [intros ? [= <-]; by apply part_ends_elem|].
        split; [done|]. intros Hall. by destruct Hsome.
      * cbn. repeat split; first [by intros | intros Hall; by destruct Hsome].
    + destruct (fst (foldl Endpoints.longer_part _ lines)) as [part|] eqn:Ep.
      * apply longer_part_elem in Ep as [Hpart Hlen].
        destruct (head_last_is_Some part Hlen) as [[a Ea] [b Eb]].
        rewrite Ea, Eb. cbn. split; [done|].
        split; [intros ? [= <-]; exists part; tauto|].
        split; [intros ? [= <-]; exists part; tauto|].
        split; [done|]. intros Hall. by destruct Hsome.
      * cbn. repeat split; first [by intros | intros Hall; by destruct Hsome].
Qed.

(** X13: The first pass derives the flow endpoints of a feature with an id from
    its direction, and [orderedCoordsForPipe] orders its coordinates by the
    same direction.  For a [LineString] whose direction was inferred from the
    invert levels or defaulted, the ordered coordinates run from the flow-start
    to the flow-end; so they do for a direction [u_to_d] given by the data.
    For a direction [d_to_u] given by the data the flow endpoints follow the
    geometry, and the ordered coordinates run from the flow-end to the
    flow-start. *)
Theorem flow_endpoints_and_travel_order
    (coords : list position) (ps : option props) (id : Z) :
  (2 <= length coords)%nat ->
  OBJECTID (default no_props ps) = Some id ->
  let ft := mkFeature (Some (LineString coords)) ps in
  let p := default no_props ps in
  let ord := DirOnly.orderedCoordsForPipe (Some (Loader.annotate_direction ft)) in
  exists up down,
    Endpoints.flow_endpoints p (Some ft) = Some (up, down)
    /\ (snd (Loader.direction_decision p) <> "DIR"%string ->
        head ord = Some up /\ last ord = Some down)
    /\ (Loader.direction_decision p = ("u_to_d"%string, "DIR"%string) ->
        head ord = Some up /\ last ord = Some down)
    /\ (Loader.direction_decision p = ("d_to_u"%string, "DIR"%string) ->
        head ord = Some down /\ last ord = Some up).
Proof.
  intros Hlen Hid. cbn zeta.
  set (ft := mkFeature (Some (LineString coords)) ps).
  set (p := default no_props ps) in *.
  assert (DirOnly.orderedCoordsForPipe (Some (Loader.annotate_direction ft))
          = if String.eqb (fst (Loader.direction_decision p)) "d_to_u"
            then rev (toLL <$> coords) else toLL <$> coords) as Hord.
  { rewrite orderedCoordsForPipe_annotated.
    cbn [DirOnly.flattenFeatureCoords geometry ft properties]. fold p.
    change (map toLL coords) with (toLL <$> coords). rewrite length_fmap.
    destruct (length coords <? 2)%nat eqn:E; [apply Nat.ltb_lt in E; lia | done]. }
  destruct (head_last_is_Some coords Hlen) as [[a Ea] [b Eb]].
  assert (head (toLL <$> coords) = Some (toLL a)) as Hhead
    by (destruct coords; [done | by injection Ea as ->]).
  assert (last (toLL <$> coords) = Some (toLL b)) as Hlast
    by (by rewrite fmap_last, Eb).
  assert (head (rev (toLL <$> coords)) = Some (toLL b)) as Hrhead.
  { rewrite head_rev. exact Hlast. }
  assert (last (rev (toLL <$> coords)) = Some (toLL a)) as Hrlast.
  { rewrite last_rev. exact Hhead. }
  assert (fst (Loader.direction_decision p) = "u_to_d"%string
          \/ fst (Loader.direction_decision p) = "d_to_u"%string) as Hdir.
  { unfold Loader.direction_decision.
    destruct (Loader.parseDirFromProps p) as [s|] eqn:Es.
    - cbn. by apply (parseDirFromProps_values p).
    - destruct (toNum (UPSTREAM_IL p)), (toNum (DOWNSTREAM_IL p)); cbn; try by left.
      destruct (Qle_bool _ _); [by left | by right]. }
  unfold Endpoints.flow_endpoints.
  destruct (Loader.direction_decision p) as [d src] eqn:Ed. cbn [fst snd] in *.
  unfold Endpoints.featureEndpointsLngLat. cbn [mbind option_bind ft geometry].
  destruct (2 <=? length coords)%nat eqn:E; [|apply Nat.leb_gt in E; lia].
  cbn [Endpoints.ep_start Endpoints.ep_end]. rewrite Hid, Ea, Eb.
  change (mkLL (snd a) (fst a)) with (toLL a).
  change (mkLL (snd b) (fst b)) with (toLL b).
  eexists _, _. split; [reflexivity|]. rewrite Hord.
  destruct Hdir as [-> | ->]; cbn [String.eqb Ascii.eqb Bool.eqb].
  - destruct (String.eqb src "DIR") eqn:Esrc.
    + apply String.eqb_eq in Esrc as ->.
      split; [intros H; by destruct H|]. split; [intros _; by split|]. by intros [= ?].
    + split; [intros _; by split|].
      split; [intros [= ->]; by rewrite String.eqb_refl in Esrc|]. by intros [= ?].
  - destruct (String.eqb src "DIR") eqn:Esrc.
    + apply String.eqb_eq in Esrc as ->.
      split; [intros H; by destruct H|]. split; [by intros [= ?]|]. intros _. by split.
    + split; [intros _; by split|]. split; [by intros [= ?]|].
      intros [= ->]. by rewrite String.eqb_refl in Esrc.
Qed.

End EndpointFacts.

(** Witness: a pipe drawn from (0, 0) to (1, 1) whose data says [d_to_u]:
    its flow-end is (1, 1), where its ordered coordinates start. *)
Lemma flow_endpoints_and_travel_order_witness :
  exists up down,
    Endpoints.flow_endpoints (RT := planar) Samples.upstream_props
      (Some (mkFeature (Some (LineString Samples.upstream_line))
               (Some Samples.upstream_props))) = Some (up, down)
    /\ head (DirOnly.orderedCoordsForPipe (RT := planar)
               (Some (Loader.annotate_direction (RT := planar)
                        (mkFeature (Some (LineString Samples.upstream_line))
                           (Some Samples.upstream_props))))) = Some down.
Proof.
  destruct (flow_endpoints_and_travel_order (RT := planar) Samples.upstream_line
              (Some Samples.upstream_props) 1%Z)
    as (up & down & E & _ & _ & H).
  - vm_compute. lia.
  - reflexivity.
  - exists up, down. split; [exact E|]. apply H. vm_compute. reflexivity.
Defined.

(** ** The half-full velocity *)

Section HydraulicsFacts.
Context {RT : Runtime}.
Context (fpow : jsnum -> jsnum -> jsnum).

Lemma positive_finite (x : jsnum) :
  negb (Hydraulics.is_finite x) || jsle x (Fin 0) = false ->
  exists q, x = Fin q /\ (0 < q)%Q.
Proof.
  destruct x as [q| | |]; cbn; try done. intros H. exists q. split; [done|].
  destruct (Qlt_le_dec 0 q) as [|Hle]; [done|].
  apply Qle_bool_iff in Hle. congruence.
Qed.

(** X14: The velocity [computeHalfFullVelocityMps] returns is a finite number,
    never NaN or an infinity, and the roughness is one of the six values of
    the table.  The velocity is 0 when no slope or no hydraulic radius can be
    derived from the attributes; a velocity other than 0 is the value of
    Manning's formula for a finite positive slope and a finite positive
    radius. *)
Theorem half_full_velocity_finite (MATERIAL GRADE : jsval) (p : props) :
  let r := Hydraulics.computeHalfFullVelocityMps fpow MATERIAL GRADE p in
  (exists q, Hydraulics.hv_v r = Fin q)
  /\ Hydraulics.hv_n r
     ∈ [Fin (9 # 1000); Fin (11 # 1000); Fin (13 # 1000); Fin (12 # 1000);
        Fin (1 # 100); Fin (15 # 1000)]
  /\ (Hydraulics.slope GRADE p = None ->
      Hydraulics.hv_v r = Fin 0 /\ Hydraulics.hv_S r = Fin 0)
  /\ (Hydraulics.hydraulic_radius p = None -> Hydraulics.hv_v r = Fin 0)
  /\ (Hydraulics.hv_v r <> Fin 0 ->
      exists s R,
        Hydraulics.slope GRADE p = Some (Fin s) /\ (0 < s)%Q
        /\ Hydraulics.hydraulic_radius p = Some (Fin R) /\ (0 < R)%Q
        /\ Hydraulics.hv_S r = Fin s
        /\ Hydraulics.hv_v r
           = fmul (fmul (fdiv (Fin 1) (Hydraulics.hv_n r))
                     (fpow (Fin R) (fdiv (Fin 2) (Fin 3))))
               (fsqrt (Fin s))).
Proof.
  cbn zeta. split; [|split; [|split; [|split]]].
  - unfold Hydraulics.computeHalfFullVelocityMps.
    destruct (Hydraulics.slope GRADE p) as [s|]; [|by eexists].
    destruct (negb _ || jsle s _); [by eexists|].
    destruct (Hydraulics.hydraulic_radius p) as [R|]; [|by eexists].
    destruct (negb _ || jsle R _); [by eexists|]. cbn [Hydraulics.hv_v].
    destruct (fmul _ _) as [q| | |]; by eexists.
  - assert (Hydraulics.hv_n (Hydraulics.computeHalfFullVelocityMps fpow MATERIAL GRADE p)
            = Hydraulics.manningNFromMaterial MATERIAL) as ->.
    { unfold Hydraulics.computeHalfFullVelocityMps.
      destruct (Hydraulics.slope GRADE p) as [s|]; [|done].
      destruct (negb _ || jsle s _); [done|].
      destruct (Hydraulics.hydraulic_radius p) as [R|]; [|done].
      by destruct (negb _ || jsle R _). }
    unfold Hydraulics.manningNFromMaterial.
    repeat match goal with
           | |- context [if ?c then _ else _] => destruct c
           end; rewrite !elem_of_cons; tauto.
  - unfold Hydraulics.computeHalfFullVelocityMps. by intros ->.
  - unfold Hydraulics.computeHalfFullVelocityMps. intros ->.
    destruct (Hydraulics.slope GRADE p) as [s|]; [|done].
    by destruct (negb _ || jsle s _).
  - unfold Hydraulics.computeHalfFullVelocityMps.
    destruct (Hydraulics.slope GRADE p) as [s|]; [|done].
    destruct (negb _ || jsle s _) eqn:Es; [done|].
    destruct (Hydraulics.hydraulic_radius p) as [R|]; [|done].
    destruct (negb _ || jsle R _) eqn:ER; [done|]. cbn [Hydraulics.hv_v Hydraulics.hv_n
      Hydraulics.hv_S].
    apply positive_finite in Es as (qs & -> & Hs), ER as (qR & -> & HR).
    intros Hv. exists qs, qR. repeat split; try done.
    destruct (Hydraulics.is_finite _); [done|]. by destruct Hv.
Qed.

End HydraulicsFacts.

(** ** Union-find *)

Section UnionFind.

Definition rank (r : list nat) (x : nat) : nat := default 0%nat (r !! x).

(** The arrays have one length, the parents are indices of the arrays, and
    the rank grows from a node to its parent. *)
Definition uf_wf (u : UF.uf) : Prop :=
  length (UF.uf_r u) = length (UF.uf_p u)
  /\ forall x px, UF.uf_p u !! x = Some px ->
       (px < length (UF.uf_p u))%nat
       /\ (px <> x -> (rank (UF.uf_r u) x < rank (UF.uf_r u) px)%nat).

(** The representative [find] returns for [x]. *)
Definition repr (u : UF.uf) (x : nat) : option nat := snd <$> UF.find u x.

(** [rt] is the root above [x]. *)
Inductive root_of (p : list nat) : nat -> nat -> Prop :=
| root_here x : p !! x = Some x -> root_of p x x
| root_up x px rt : p !! x = Some px -> px <> x -> root_of p px rt -> root_of p x rt.

Lemma root_of_fun (p : list nat) (x r1 r2 : nat) :
  root_of p x r1 -> root_of p x r2 -> r1 = r2.
Proof.
  intros H1. revert r2. induction H1 as [x Hx|x px rt Hx Hne H1 IH]; intros r2 H2.
  - inversion H2 as [y Hy|y py rt' Hy Hne' H']; subst; [done|]. congruence.
  - inversion H2 as [y Hy|y py rt' Hy Hne' H']; subst; [congruence|].
    apply IH. congruence.
Qed.

Lemma root_of_root (p : list nat) (x rt : nat) : root_of p x rt -> p !! rt = Some rt.
Proof. induction 1; done. Qed.

Lemma root_of_lt (p : list nat) (x rt : nat) :
  root_of p x rt -> (x < length p)%nat /\ (rt < length p)%nat.
Proof.
  induction 1 as [x Hx|x px rt Hx Hne H1 [_ IH]].
  - split; by eapply lookup_lt_Some.
  - split; [by eapply lookup_lt_Some | done].
Qed.

Lemma rank_le_max (r : list nat) (x : nat) : (rank r x <= max_list r)%nat.
Proof.
  unfold rank. destruct (r !! x) as [v|] eqn:E; cbn; [|lia].
  apply max_list_elem_of_le. by eapply list_elem_of_lookup_2.
Qed.

Lemma root_exists (p r : list nat) (x : nat) :
  uf_wf (UF.mkUF p r) -> (x < length p)%nat -> exists rt, root_of p x rt.
Proof.
  intros [_ Hwf]. cbn in Hwf.
  assert (forall k x, (x < length p)%nat -> (max_list r - rank r x < k)%nat ->
            exists rt, root_of p x rt) as Haux.
  { induction k as [|k IH]; intros y Hy Hk; [lia|].
    destruct (lookup_lt_is_Some_2 p y Hy) as [py Epy].
    destruct (decide (py = y)) as [->|Hne]; [exists y; by constructor|].
    destruct (Hwf y py Epy) as [Hlt Hrank]. specialize (Hrank Hne).
    pose proof (rank_le_max r py).
    destruct (IH py Hlt) as [rt Hrt]; [lia|].
    exists rt. by eapply root_up. }
  intros Hx. apply (Haux (S (max_list r - rank r x))); [done | lia].
Qed.

Lemma halve_wf (p r : list nat) (x px ppx : nat) :
  uf_wf (UF.mkUF p r) -> p !! x = Some px -> px <> x -> p !! px = Some ppx ->
  uf_wf (UF.mkUF (<[x := ppx]> p) r)
  /\ ppx <> x /\ (rank r x < rank r ppx)%nat.
Proof.
  intros [Hlen Hwf] Hx Hne Hpx. cbn in *.
  destruct (Hwf x px Hx) as [Hlt Hr]. specialize (Hr Hne).
  destruct (Hwf px ppx Hpx) as [Hlt' Hr'].
  assert (rank r x < rank r ppx)%nat as Hrank.
  { destruct (decide (ppx = px)) as [->|Hne']; [done|]. specialize (Hr' Hne'). lia. }
  split; [|split; [intros ->; lia | done]].
  split; cbn; [by rewrite length_insert|].
  intros y py Hy. rewrite length_insert.
  apply list_lookup_insert_Some in Hy as [(<- & <- & _)|[Hxy Hy]]; [by split|].
  by apply Hwf.
Qed.

Lemma halve_root (p r : list nat) (x px ppx : nat) :
  uf_wf (UF.mkUF p r) -> p !! x = Some px -> px <> x -> p !! px = Some ppx ->
  forall y ry, root_of p y ry -> root_of (<[x := ppx]> p) y ry.
Proof.
  intros Hwf Hx Hne Hpx y ry Hy.
  destruct (halve_wf p r x px ppx Hwf Hx Hne Hpx) as (_ & Hppx & _).
  induction Hy as [y Hy|y py rt Hy Hney Hrt IH].
  - apply root_here. rewrite list_lookup_insert_ne; [done|]. intros <-. congruence.
  - destruct (decide (y = x)) as [->|Hxy].
    + assert (py = px) as -> by congruence.
      apply (root_up _ x ppx); [|done|].
      { apply list_lookup_insert_eq. by eapply lookup_lt_Some. }
      assert (<[x := ppx]> p !! px = Some ppx) as Hpx'
        by (by rewrite list_lookup_insert_ne).
      destruct (decide (ppx = px)) as [->|Hne']; [done|].
      inversion IH as [z Hz|z pz rt' Hz Hnez Hrt']; subst; congruence.
    + apply (root_up _ y py); [|done..]. by rewrite list_lookup_insert_ne.
Qed.

Lemma find_loop_spec (r : list nat) (fuel : nat) (p : list nat) (x : nat) :
  uf_wf (UF.mkUF p r) -> (x < length p)%nat -> (max_list r - rank r x < fuel)%nat ->
  exists p' rt,
    UF.find_loop fuel p x = Some (p', rt)
    /\ uf_wf (UF.mkUF p' r) /\ length p' = length p
    /\ root_of p x rt
    /\ forall y ry, root_of p y ry -> root_of p' y ry.
Proof.
  revert p x. induction fuel as [|fuel IH]; intros p x Hwf Hx Hfuel; [lia|].
  cbn [UF.find_loop].
  destruct (lookup_lt_is_Some_2 p x Hx) as [px Epx]. rewrite Epx.
  destruct (px =? x)%nat eqn:E.
  { apply Nat.eqb_eq in E as ->. exists p, x.
    split; [done|]. split; [done|]. split; [done|]. split; [by constructor | done]. }
  apply Nat.eqb_neq in E.
  destruct (proj2 Hwf x px Epx) as [Hlt _]. cbn in Hlt.
  destruct (lookup_lt_is_Some_2 p px Hlt) as [ppx Eppx]. rewrite Eppx.
  destruct (halve_wf p r x px ppx Hwf Epx E Eppx) as (Hwf1 & Hne1 & Hrank).
  pose proof (rank_le_max r ppx).
  destruct (IH (<[x := ppx]> p) ppx Hwf1) as (p' & rt & -> & Hwf' & Hlen & Hroot & Hpres).
  { rewrite length_insert. by apply (proj2 Hwf px ppx Eppx). }
  { lia. }
  exists p', rt. split; [done|]. split; [done|].
  split; [by rewrite Hlen, length_insert|].
  assert (forall y ry, root_of p y ry -> root_of p' y ry) as Hall.
  { intros y ry Hy. apply Hpres. by eapply halve_root. }
  split; [|done].
  destruct (root_exists p r x Hwf Hx) as [rt0 Hrt0].
  assert (root_of (<[x := ppx]> p) x rt) as Hx1.
  { apply (root_up _ x ppx); [|done..]. by apply list_lookup_insert_eq. }
  pose proof (halve_root p r x px ppx Hwf Epx E Eppx x rt0 Hrt0) as Hx0.
  by rewrite (root_of_fun _ _ _ _ Hx1 Hx0).
Qed.

Lemma roots_back (p p' r : list nat) :
  uf_wf (UF.mkUF p r) -> length p' = length p ->
  (forall y ry, root_of p y ry -> root_of p' y ry) ->
  forall y ry, root_of p' y ry -> root_of p y ry.
Proof.
  intros Hwf Hlen Hpres y ry Hy.
  destruct (root_of_lt _ _ _ Hy) as [Hlt _]. rewrite Hlen in Hlt.
  destruct (root_exists p r y Hwf Hlt) as [ry0 H0].
  by rewrite (root_of_fun _ _ _ _ Hy (Hpres _ _ H0)).
Qed.

Lemma find_spec (u : UF.uf) (x : nat) :
  uf_wf u -> (x < length (UF.uf_p u))%nat ->
  exists u' rt,
    UF.find u x = Some (u', rt)
    /\ uf_wf u' /\ UF.uf_r u' = UF.uf_r u
    /\ length (UF.uf_p u') = length (UF.uf_p u)
    /\ root_of (UF.uf_p u) x rt
    /\ forall y ry, root_of (UF.uf_p u) y ry <-> root_of (UF.uf_p u') y ry.
Proof.
  destruct u as [p r]. cbn [UF.uf_p UF.uf_r]. intros Hwf Hx. unfold UF.find.
  cbn [UF.uf_p UF.uf_r].
  destruct (find_loop_spec r (S (max_list r)) p x Hwf Hx)
    as (p' & rt & -> & Hwf' & Hlen & Hroot & Hpres); [lia|].
  exists (UF.mkUF p' r), rt. cbn [UF.uf_p UF.uf_r].
  split; [done|]. split; [done|]. split; [done|]. split; [done|]. split; [done|].
  intros y ry. split; [apply Hpres | by apply (roots_back p p' r)].
Qed.

Lemma repr_root (u : UF.uf) (x rt : nat) :
  uf_wf u -> (x < length (UF.uf_p u))%nat ->
  repr u x = Some rt <-> root_of (UF.uf_p u) x rt.
Proof.
  intros Hwf Hx. unfold repr.
  destruct (find_spec u x Hwf Hx) as (u' & rt' & -> & _ & _ & _ & Hroot & _). cbn.
  split; [by intros [= <-]|]. intros H. f_equal. by eapply root_of_fun.
Qed.

(** A new object is well formed, and every index is its own
    representative. *)
Lemma create_wf (n : nat) : uf_wf (UF.create n).
Proof.
  split; cbn; [by rewrite length_replicate, length_seq|].
  intros x px Hx. apply lookup_seq in Hx as [-> Hx]. rewrite length_seq.
  split; [done|]. cbn. lia.
Qed.

(** X15: [find] returns the root above its argument: an index that is its own
    parent, and that [find] returns for itself.  The call may shorten paths,
    but it leaves the ranks and the representative of every index as they
    were. *)
Theorem uf_find_root (u : UF.uf) (x : nat) :
  uf_wf u -> (x < length (UF.uf_p u))%nat ->
  exists u' rt,
    UF.find u x = Some (u', rt)
    /\ uf_wf u'
    /\ length (UF.uf_p u') = length (UF.uf_p u)
    /\ UF.uf_r u' = UF.uf_r u
    /\ (rt < length (UF.uf_p u))%nat
    /\ UF.uf_p u' !! rt = Some rt
    /\ repr u' rt = Some rt
    /\ repr u' x = Some rt
    /\ forall y, (y < length (UF.uf_p u))%nat -> repr u' y = repr u y.
Proof.
  intros Hwf Hx.
  destruct (find_spec u x Hwf Hx) as (u' & rt & E & Hwf' & Hr & Hlen & Hroot & Hpres).
  exists u', rt. split; [done|]. split; [done|]. split; [done|]. split; [done|].
  pose proof (proj1 (Hpres x rt) Hroot) as Hroot'.
  pose proof (root_of_root _ _ _ Hroot') as Hfix.
  assert (rt < length (UF.uf_p u))%nat as Hrt
    by (rewrite <- Hlen; by eapply lookup_lt_Some).
  split; [done|]. split; [done|].
  split; [apply repr_root; [done | by rewrite Hlen | by constructor]|].
  split; [apply repr_root; [done | by rewrite Hlen | done]|].
  intros y Hy.
  destruct (root_exists (UF.uf_p u) (UF.uf_r u) y) as [ry Hry];
    [by destruct u | done |].
  rewrite (proj2 (repr_root u y ry Hwf Hy) Hry).
  apply repr_root; [done | by rewrite Hlen | by apply Hpres].
Qed.

Lemma rank_insert (r : list nat) (i v y : nat) :
  (i < length r)%nat ->
  rank (<[i := v]> r) y = if decide (y = i) then v else rank r y.
Proof.
  intros Hi. unfold rank. destruct (decide (y = i)) as [->|Hne].
  - by rewrite list_lookup_insert_eq.
  - by rewrite list_lookup_insert_ne.
Qed.

Lemma link_wf (p r : list nat) (ra rb : nat) :
  uf_wf (UF.mkUF p r) -> p !! ra = Some ra -> p !! rb = Some rb -> ra <> rb ->
  (rank r rb <= rank r ra)%nat ->
  uf_wf (UF.mkUF (<[rb := ra]> p)
           (if (rank r ra =? rank r rb)%nat then <[ra := S (rank r ra)]> r else r)).
Proof.
  intros [Hlen Hwf] Hra Hrb Hne Hrank. cbn in *.
  pose proof (lookup_lt_Some _ _ _ Hra) as Hlta.
  set (r' := if (rank r ra =? rank r rb)%nat then <[ra := S (rank r ra)]> r else r).
  assert (forall y, (rank r y <= rank r' y)%nat) as Hmono.
  { intros y. unfold r'. destruct (rank r ra =? rank r rb)%nat; [|done].
    rewrite rank_insert by lia. destruct (decide (y = ra)) as [->|]; lia. }
  assert (rank r rb < rank r' ra)%nat as Hlink.
  { unfold r'. destruct (rank r ra =? rank r rb)%nat eqn:E.
    - apply Nat.eqb_eq in E. rewrite rank_insert by lia.
      rewrite decide_True by done. lia.
    - apply Nat.eqb_neq in E. lia. }
  assert (forall y, y <> ra -> rank r' y = rank r y) as Hsame.
  { intros y Hy. unfold r'. destruct (rank r ra =? rank r rb)%nat; [|done].
    rewrite rank_insert by lia. by rewrite decide_False. }
  split; cbn.
  - rewrite length_insert. unfold r'.
    destruct (rank r ra =? rank r rb)%nat; [by rewrite length_insert | done].
  - intros x px Hx. rewrite length_insert.
    apply list_lookup_insert_Some in Hx as [(<- & <- & _)|[Hxy Hx]].
    + split; [done|]. intros _. rewrite (Hsame rb) by done. done.
    + destruct (Hwf x px Hx) as [Hlt Hr]. split; [done|]. intros Hpx.
      specialize (Hr Hpx).
      assert (x <> ra) as Hxa by (intros ->; congruence).
      rewrite (Hsame x Hxa). specialize (Hmono px). lia.
Qed.

Lemma link_root (p : list nat) (ra rb : nat) :
  p !! ra = Some ra -> p !! rb = Some rb -> ra <> rb ->
  forall y ry, root_of p y ry ->
    root_of (<[rb := ra]> p) y (if decide (ry = rb) then ra else ry).
Proof.
  intros Hra Hrb Hne y ry Hy.
  induction Hy as [y Hy|y py rt Hy Hney Hrt IH].
  - destruct (decide (y = rb)) as [->|Hyb].
    + apply (root_up _ rb ra); [|done|].
      * apply list_lookup_insert_eq. by eapply lookup_lt_Some.
      * apply root_here. by rewrite list_lookup_insert_ne.
    + apply root_here. by rewrite list_lookup_insert_ne.
  - apply (root_up _ y py); [|done..].
    rewrite list_lookup_insert_ne; [done|]. intros <-. congruence.
Qed.

Lemma merge_classes (ra rb rx ry : nat) :
  ra <> rb ->
  (if decide (rx = rb) then ra else rx) = (if decide (ry = rb) then ra else ry)
  <-> rx = ry \/ (rx = ra /\ ry = rb) \/ (rx = rb /\ ry = ra).
Proof. intros Hne. repeat case_decide; lia. Qed.

(** What [union(a, b)] does to the roots: the root of [b]'s class, or of
    [a]'s, is hung below the other, and every other root stays a root. *)
Lemma union_roots (u : UF.uf) (a b : nat) :
  uf_wf u -> (a < length (UF.uf_p u))%nat -> (b < length (UF.uf_p u))%nat ->
  exists u' ra rb (keep : nat -> nat),
    UF.union u a b = Some u'
    /\ uf_wf u'
    /\ length (UF.uf_p u') = length (UF.uf_p u)
    /\ root_of (UF.uf_p u) a ra
    /\ root_of (UF.uf_p u) b rb
    /\ (forall y ry, root_of (UF.uf_p u) y ry -> root_of (UF.uf_p u') y (keep ry))
    /\ (forall rx ry,
          keep rx = keep ry <-> rx = ry \/ (rx = ra /\ ry = rb) \/ (rx = rb /\ ry = ra)).
Proof.
  intros Hwf Ha Hb. unfold UF.union.
  destruct (find_spec u a Hwf Ha) as (u1 & ra & -> & Hwf1 & Hr1 & Hlen1 & Hroota & Hpres1).
  destruct (find_spec u1 b Hwf1) as (u2 & rb & -> & Hwf2 & Hr2 & Hlen2 & Hrootb & Hpres2);
    [by rewrite Hlen1|].
  assert (forall y ry, root_of (UF.uf_p u) y ry <-> root_of (UF.uf_p u2) y ry) as Hpres.
  { intros y ry. by rewrite Hpres1, Hpres2. }
  assert (length (UF.uf_p u2) = length (UF.uf_p u)) as Hlen by congruence.
  apply Hpres1 in Hrootb. clear Hpres1 Hpres2 Hwf1 Hr1 Hlen1 Hlen2.
  destruct (ra =? rb)%nat eqn:Eab.
  { apply Nat.eqb_eq in Eab as <-. exists u2, ra, ra, (fun r => r).
    split; [done|]. split; [done|]. split; [done|]. split; [done|]. split; [done|].
    split; [intros y ry; apply Hpres|]. intros rx ry. split; [by left|].
    intros [H|[[H1 H2]|[H1 H2]]]; congruence. }
  apply Nat.eqb_neq in Eab.
  pose proof (root_of_root _ _ _ (proj1 (Hpres _ _) Hroota)) as Hfa.
  pose proof (root_of_root _ _ _ (proj1 (Hpres _ _) Hrootb)) as Hfb.
  destruct Hwf2 as [Hlenr Hwf2'].
  assert (uf_wf (UF.mkUF (UF.uf_p u2) (UF.uf_r u2))) as Hwf2 by (by split).
  destruct (lookup_lt_is_Some_2 (UF.uf_r u2) ra) as [rka Erka];
    [rewrite Hlenr; by eapply lookup_lt_Some|].
  destruct (lookup_lt_is_Some_2 (UF.uf_r u2) rb) as [rkb Erkb];
    [rewrite Hlenr; by eapply lookup_lt_Some|].
  rewrite Erka, Erkb.
  assert (rank (UF.uf_r u2) ra = rka) as Hrka by (unfold rank; by rewrite Erka).
  assert (rank (UF.uf_r u2) rb = rkb) as Hrkb by (unfold rank; by rewrite Erkb).
  assert (forall ra' rb' rka' rkb',
            UF.uf_p u2 !! ra' = Some ra' -> UF.uf_p u2 !! rb' = Some rb' -> ra' <> rb' ->
            rank (UF.uf_r u2) ra' = rka' -> rank (UF.uf_r u2) rb' = rkb' ->
            (rkb' <= rka')%nat ->
            ((ra' = ra /\ rb' = rb) \/ (ra' = rb /\ rb' = ra)) ->
            let u' := UF.mkUF (<[rb' := ra']> (UF.uf_p u2))
                        (if (rka' =? rkb')%nat then <[ra' := S rka']> (UF.uf_r u2)
                         else UF.uf_r u2) in
            let keep := fun r => if decide (r = rb') then ra' else r in
            uf_wf u'
            /\ length (UF.uf_p u') = length (UF.uf_p u)
            /\ (forall y ry, root_of (UF.uf_p u) y ry -> root_of (UF.uf_p u') y (keep ry))
            /\ (forall rx ry,
                  keep rx = keep ry
                  <-> rx = ry \/ (rx = ra /\ ry = rb) \/ (rx = rb /\ ry = ra))) as Hlink.
  { intros ra' rb' rka' rkb' Hfa' Hfb' Hne' <- <- Hle Hwhich u' keep.
    split; [by apply link_wf|].
    split; [unfold u'; cbn; by rewrite length_insert|].
    split.
    { intros y ry Hry. unfold u', keep. cbn. apply link_root; try done. by apply Hpres. }
    intros rx ry. unfold keep. rewrite (merge_classes ra' rb' rx ry Hne').
    destruct Hwhich as [[-> ->]|[-> ->]]; tauto. }
  destruct (rka <? rkb)%nat eqn:Elt.
  - apply Nat.ltb_lt in Elt.
    destruct (Hlink rb ra rkb rka) as (Hwf' & Hlen' & Hkeep & Hcls);
      try done; [lia | by right|].
    eexists _, ra, rb, _. split; [reflexivity|].
    exact (conj Hwf' (conj Hlen' (conj Hroota (conj Hrootb (conj Hkeep Hcls))))).
  - apply Nat.ltb_ge in Elt.
    destruct (Hlink ra rb rka rkb) as (Hwf' & Hlen' & Hkeep & Hcls);
      try done; [by left|].
    eexists _, ra, rb, _. split; [reflexivity|].
    exact (conj Hwf' (conj Hlen' (conj Hroota (conj Hrootb (conj Hkeep Hcls))))).
Qed.

(** X16: [union(a, b)] merges the classes of [a] and [b] and no others: after
    the call two indices have the same representative exactly when they had
    before, or when one was in the class of [a] and the other in the class of
    [b].  The object stays well formed. *)
Theorem uf_union_merges (u : UF.uf) (a b : nat) :
  uf_wf u -> (a < length (UF.uf_p u))%nat -> (b < length (UF.uf_p u))%nat ->
  exists u',
    UF.union u a b = Some u'
    /\ uf_wf u'
    /\ length (UF.uf_p u') = length (UF.uf_p u)
    /\ repr u' a = repr u' b
    /\ forall x y, (x < length (UF.uf_p u))%nat -> (y < length (UF.uf_p u))%nat ->
         (repr u' x = repr u' y
          <-> repr u x = repr u y
              \/ (repr u x = repr u a /\ repr u y = repr u b)
              \/ (repr u x = repr u b /\ repr u y = repr u a)).
Proof.
  intros Hwf Ha Hb.
  destruct (union_roots u a b Hwf Ha Hb)
    as (u' & ra & rb & keep & E & Hwf' & Hlen & Hroota & Hrootb & Hkeep & Hcls).
  exists u'. split; [done|]. split; [done|]. split; [done|].
  assert (forall y ry, (y < length (UF.uf_p u))%nat ->
            root_of (UF.uf_p u) y ry ->
            repr u y = Some ry /\ repr u' y = Some (keep ry)) as Hrepr.
  { intros y ry Hy Hry. split; [by apply repr_root|].
    apply repr_root; [done | by rewrite Hlen | by apply Hkeep]. }
  destruct (Hrepr a ra Ha Hroota) as [Ea Ea'].
  destruct (Hrepr b rb Hb Hrootb) as [Eb Eb'].
  split.
  { rewrite Ea', Eb'. f_equal. apply Hcls. right. by left. }
  intros x y Hx Hy.
  destruct (root_exists (UF.uf_p u) (UF.uf_r u) x) as [rx Hrx]; [by destruct u | done|].
  destruct (root_exists (UF.uf_p u) (UF.uf_r u) y) as [ry Hry]; [by destruct u | done|].
  destruct (Hrepr x rx Hx Hrx) as [Ex Ex'].
  destruct (Hrepr y ry Hy Hry) as [Ey Ey'].
  rewrite Ex, Ey, Ex', Ey', Ea, Eb.
  split.
  - intros H. apply (inj Some) in H. apply Hcls in H.
    destruct H as [->|[[-> ->]|[-> ->]]]; tauto.
  - intros H. f_equal. apply Hcls.
    destruct H as [H|[[H1 H2]|[H1 H2]]]; simplify_eq; tauto.
Qed.

End UnionFind.

(** Witnesses: three fresh indices; the classes of 0 and 1 are merged. *)
Lemma uf_find_root_witness :
  exists u' rt, UF.find (UF.create 3) 1 = Some (u', rt) /\ repr u' 1 = Some rt.
Proof.
  destruct (uf_find_root (UF.create 3) 1 (create_wf 3))
    as (u' & rt & E & _ & _ & _ & _ & _ & _ & Hx & _).
  - cbn. lia.
  - exists u', rt. split; [exact E | exact Hx].
Defined.

Lemma uf_union_merges_witness :
  exists u', UF.union (UF.create 3) 0 1 = Some u' /\ repr u' 0 = repr u' 1.
Proof.
  destruct (uf_union_merges (UF.create 3) 0 1 (create_wf 3))
    as (u' & E & _ & _ & Hab & _).
  - cbn. lia.
  - cbn. lia.
  - exists u'. split; [exact E | exact Hab].
Defined.

(** ** Connectivity by endpoint key *)

Section KeyLoaderFacts.
Context {RT : Runtime}.
Context (fpow : jsnum -> jsnum -> jsnum).
Context (toFixed6 : jsnum -> string).

(** Feature [r] of the file has the id [id] and a geometry whose endpoints
    in file order have the keys [startKey] and [endKey]. *)
Definition registered (r : KeyLoader.raw) (id : Z) (startKey endKey : string) : Prop :=
  exists g s e,
    geometry (KeyLoader.raw_feature r) = Some g
    /\ OBJECTID (default no_props (properties (KeyLoader.raw_feature r))) = Some id
    /\ KeyLoader.geom_ends g = Some (s, e)
    /\ startKey = KeyLoader.coordKey toFixed6 (fst s) (snd s)
    /\ endKey = KeyLoader.coordKey toFixed6 (fst e) (snd e).

Lemma coordKey_nonempty (lng lat : jsnum) :
  String.eqb (KeyLoader.coordKey toFixed6 lng lat) "" = false.
Proof. unfold KeyLoader.coordKey. by destruct (toFixed6 lng). Qed.

Lemma pass1_feature_spec (r : KeyLoader.raw) (id : Z) (sk ek : string) :
  (OBJECTID (props_of (Some (KeyLoader.k_feature (KeyLoader.pass1_feature fpow toFixed6 r))))
   = Some id
   /\ KeyLoader.k_keys (KeyLoader.pass1_feature fpow toFixed6 r) = Some (sk, ek))
  <-> registered r id sk ek.
Proof.
  unfold KeyLoader.pass1_feature, registered.
  destruct (geometry (KeyLoader.raw_feature r)) as [g|] eqn:Eg.
  2: { cbn. split; [by intros [_ ?] | by intros (g & s & e & ? & _)]. }
  destruct (OBJECTID (default no_props (properties (KeyLoader.raw_feature r))))
    as [oid|] eqn:Eid.
  2: { cbn. split; [by intros [_ ?] | by intros (g' & s & e & _ & ? & _)]. }
  destruct (KeyLoader.geom_ends g) as [[s e]|] eqn:Ee.
  2: { cbn. split; [by intros [_ ?]|].
       intros (g' & s & e & [= <-] & _ & He & _). congruence. }
  cbn. rewrite Eid. split.
  - intros [[= ->] [= <- <-]]. by exists g, s, e.
  - intros (g' & s' & e' & [= <-] & [= ->] & He & -> & ->).
    rewrite Ee in He. injection He as <- <-. done.
Qed.

Lemma pass1_feature_geometry (r : KeyLoader.raw) :
  geometry (KeyLoader.k_feature (KeyLoader.pass1_feature fpow toFixed6 r))
  = geometry (KeyLoader.raw_feature r).
Proof.
  unfold KeyLoader.pass1_feature.
  destruct (geometry (KeyLoader.raw_feature r)) as [g|] eqn:Eg; [|by cbn].
  repeat case_match; done.
Qed.

Lemma pass1_features (l : list KeyLoader.raw) (acc : gmap string (list Z) * list KeyLoader.keyed) :
  snd (foldl (KeyLoader.pass1_step fpow toFixed6) acc l)
  = snd acc ++ (KeyLoader.pass1_feature fpow toFixed6 <$> l).
Proof.
  revert acc. induction l as [|r l IH]; intros acc; cbn [foldl fmap list_fmap].
  - by rewrite app_nil_r.
  - rewrite IH. cbn [KeyLoader.pass1_step snd]. by rewrite <- app_assoc.
Qed.

Lemma pass1_index (l : list KeyLoader.raw) (acc : gmap string (list Z) * list KeyLoader.keyed)
    (key : string) (x : Z) :
  x ∈ default [] (fst (foldl (KeyLoader.pass1_step fpow toFixed6) acc l) !! key)
  <-> x ∈ default [] (fst acc !! key)
      \/ exists r ek, r ∈ l /\ registered r x key ek.
Proof.
  revert acc. induction l as [|r l IH]; intros acc; cbn [foldl].
  { split; [by left|]. intros [?|(r & ek & Hr & _)]; [done|]. by apply elem_of_nil in Hr. }
  rewrite IH. clear IH. cbn [KeyLoader.pass1_step fst].
  set (k := KeyLoader.pass1_feature fpow toFixed6 r).
  assert (x ∈ default []
            (match OBJECTID (props_of (Some (KeyLoader.k_feature k))), KeyLoader.k_keys k with
             | Some objectId, Some (startKey, _) =>
                 <[startKey := default [] (fst acc !! startKey) ++ [objectId]]> (fst acc)
             | _, _ => fst acc
             end !! key)
          <-> x ∈ default [] (fst acc !! key) \/ exists ek, registered r x key ek) as Hstep.
  { destruct (OBJECTID (props_of (Some (KeyLoader.k_feature k)))) as [oid|] eqn:Eid.
    2: { split; [by left|]. intros [?|[ek Hreg]]; [done|].
         apply pass1_feature_spec in Hreg as [Hid _]. fold k in Hid. congruence. }
    destruct (KeyLoader.k_keys k) as [[sk ek0]|] eqn:Ek.
    2: { split; [by left|]. intros [?|[ek Hreg]]; [done|].
         apply pass1_feature_spec in Hreg as [_ Hk]. fold k in Hk. congruence. }
    assert (registered r oid sk ek0) as Hreg0 by (by apply pass1_feature_spec).
    destruct (decide (sk = key)) as [->|Hne].
    - rewrite lookup_insert_eq.
      change (x ∈ default [] (fst acc !! key) ++ [oid]
              <-> x ∈ default [] (fst acc !! key) \/ exists ek, registered r x key ek).
      rewrite elem_of_app, list_elem_of_singleton.
      split.
      + intros [?| ->]; [by left|]. right. by exists ek0.
      + intros [?|[ek Hreg]]; [by left|]. right.
        apply pass1_feature_spec in Hreg as [Hid _]. fold k in Hid. congruence.
    - rewrite lookup_insert_ne by done. split; [by left|].
      intros [?|[ek Hreg]]; [done|].
      apply pass1_feature_spec in Hreg as [_ Hk]. fold k in Hk. congruence. }
  rewrite Hstep. split.
  - intros [[?|[ek Hreg]]|(r' & ek & Hr' & Hreg)].
    + by left.
    + right. exists r, ek. split; [apply elem_of_cons; by left | done].
    + right. exists r', ek. split; [apply elem_of_cons; by right | done].
  - intros [?|(r' & ek & Hr' & Hreg)]; [by left; left|].
    apply elem_of_cons in Hr' as [->|Hr'].
    + left. right. by exists ek.
    + right. by exists r', ek.
Qed.

Lemma register_fold (ks : list KeyLoader.keyed) (m : graph) (id : Z) :
  (forall ft, foldl KeyLoader.register m ks !! id = Some ft ->
     m !! id = Some ft
     \/ exists k, k ∈ ks /\ OBJECTID (props_of (Some (KeyLoader.k_feature k))) = Some id
                  /\ is_Some (KeyLoader.k_keys k) /\ KeyLoader.k_feature k = ft)
  /\ (is_Some (m !! id)
      \/ (exists k, k ∈ ks /\ OBJECTID (props_of (Some (KeyLoader.k_feature k))) = Some id
                    /\ is_Some (KeyLoader.k_keys k)) ->
      is_Some (foldl KeyLoader.register m ks !! id)).
Proof.
  revert m. induction ks as [|k ks IH]; intros m; cbn [foldl].
  { split; [by left|]. intros [?|(k & Hk & _)]; [done|]. by apply elem_of_nil in Hk. }
  destruct (IH (KeyLoader.register m k)) as [IH1 IH2]. split.
  - intros ft Hft. destruct (IH1 ft Hft) as [Hm|(k' & Hk' & Hid & Hkeys & Hf)].
    + unfold KeyLoader.register in Hm.
      destruct (OBJECTID (props_of (Some (KeyLoader.k_feature k)))) as [oid|] eqn:Eid;
        [|by left].
      destruct (KeyLoader.k_keys k) as [keys|] eqn:Ek; [|by left].
      destruct (decide (oid = id)) as [->|Hne].
      * rewrite lookup_insert_eq in Hm. injection Hm as <-. right. exists k.
        split; [apply elem_of_cons; by left|]. by rewrite Ek.
      * rewrite lookup_insert_ne in Hm by done. by left.
    + right. exists k'. split; [apply elem_of_cons; by right | done].
  - intros H. apply IH2.
    assert (is_Some (m !! id) -> is_Some (KeyLoader.register m k !! id)) as Hkeep.
    { intros Hm. unfold KeyLoader.register.
      destruct (OBJECTID (props_of (Some (KeyLoader.k_feature k)))) as [oid|]; [|done].
      destruct (KeyLoader.k_keys k); [|done].
      destruct (decide (oid = id)) as [->|Hne];
        [by rewrite lookup_insert_eq | by rewrite lookup_insert_ne]. }
    destruct H as [Hm|(k' & Hk' & Hid & Hkeys)]; [left; by apply Hkeep|].
    apply elem_of_cons in Hk' as [->|Hk'].
    + left. unfold KeyLoader.register. rewrite Hid. destruct Hkeys as [keys ->].
      by rewrite lookup_insert_eq.
    + right. by exists k'.
Qed.

Lemma pass2_step_keeps (si : gmap string (list Z)) (k : KeyLoader.keyed) :
  OBJECTID (props_of (Some (KeyLoader.k_feature (KeyLoader.pass2_step si k))))
  = OBJECTID (props_of (Some (KeyLoader.k_feature k)))
  /\ KeyLoader.k_keys (KeyLoader.pass2_step si k) = KeyLoader.k_keys k
  /\ geometry (KeyLoader.k_feature (KeyLoader.pass2_step si k))
     = geometry (KeyLoader.k_feature k).
Proof.
  unfold KeyLoader.pass2_step.
  remember (OBJECTID (props_of (Some (KeyLoader.k_feature k)))) as o eqn:E.
  destruct o as [oid|]; [|done].
  destruct (KeyLoader.k_keys k) as [[sk ek]|] eqn:Ek; [|done].
  destruct (String.eqb ek ""); [done|]. by cbn.
Qed.

(** X17: The graph the loader builds is closed under its successor lists.  A
    segment of the map comes from a feature of the file with its id and with
    endpoints; its successors are the ids, other than its own, of the features
    of the file whose start key is its end key; and each of them is a segment
    of the map. *)
Theorem key_loader_graph_closed (features : list KeyLoader.raw) (id : Z) (ft : feature) :
  KeyLoader.load fpow toFixed6 features !! id = Some ft ->
  exists r sk ek,
    r ∈ features /\ registered r id sk ek
    /\ geometry ft = geometry (KeyLoader.raw_feature r)
    /\ (forall x, x ∈ next_ids (props_of (Some ft))
                  <-> x <> id
                      /\ exists r' ek', r' ∈ features /\ registered r' x ek ek')
    /\ (forall x, x ∈ next_ids (props_of (Some ft)) ->
          is_Some (KeyLoader.load fpow toFixed6 features !! x)).
Proof.
  unfold KeyLoader.load, KeyLoader.pass1.
  pose proof (pass1_features features (∅, [])) as Hfts. cbn [snd app] in Hfts.
  pose proof (fun key x => pass1_index features (∅, []) key x) as Hidx.
  destruct (foldl (KeyLoader.pass1_step fpow toFixed6) (∅, []) features) as [si fts].
  cbn [fst snd] in *. subst fts.
  assert (forall key x, x ∈ default [] (si !! key)
            <-> exists r ek, r ∈ features /\ registered r x key ek) as Hsi.
  { intros key x. rewrite Hidx. rewrite lookup_empty. cbn.
    split; [intros [H|H]; [by apply elem_of_nil in H | done] | by right]. }
  clear Hidx.
  set (ks := KeyLoader.pass2_step si <$> (KeyLoader.pass1_feature fpow toFixed6 <$> features)).
  assert (forall x, (exists r sk ek, r ∈ features /\ registered r x sk ek) ->
            is_Some (foldl KeyLoader.register ∅ ks !! x)) as Hdom.
  { intros x (r & sk & ek & Hr & Hreg).
    apply (proj2 (register_fold ks ∅ x)). right.
    exists (KeyLoader.pass2_step si (KeyLoader.pass1_feature fpow toFixed6 r)).
    split; [unfold ks; by do 2 apply list_elem_of_fmap_2|].
    destruct (pass2_step_keeps si (KeyLoader.pass1_feature fpow toFixed6 r))
      as (-> & -> & _).
    apply pass1_feature_spec in Hreg as [-> ->]. by split. }
  intros Hft.
  apply (proj1 (register_fold ks ∅ id)) in Hft as [Hft|(k & Hk & Hid & Hkeys & <-)];
    [by rewrite lookup_empty in Hft|].
  unfold ks in Hk. apply list_elem_of_fmap in Hk as (k1 & -> & Hk1).
  apply list_elem_of_fmap in Hk1 as (r & -> & Hr).
  destruct (pass2_step_keeps si (KeyLoader.pass1_feature fpow toFixed6 r))
    as (Eid & Ekeys & Egeom).
  rewrite Eid in Hid. rewrite Ekeys in Hkeys. destruct Hkeys as [[sk ek] Hkeys].
  assert (registered r id sk ek) as Hreg by (by apply pass1_feature_spec).
  exists r, sk, ek. split; [done|]. split; [done|]. split.
  { rewrite Egeom. apply pass1_feature_geometry. }
  assert (forall x, x ∈ next_ids (props_of (Some (KeyLoader.k_feature
                      (KeyLoader.pass2_step si (KeyLoader.pass1_feature fpow toFixed6 r)))))
            <-> x <> id /\ x ∈ default [] (si !! ek)) as Hnext.
  { intros x. unfold KeyLoader.pass2_step. rewrite Hid, Hkeys.
    assert (String.eqb ek "" = false) as ->.
    { destruct Hreg as (g & s & e & _ & _ & _ & _ & ->). apply coordKey_nonempty. }
    cbn. rewrite list_elem_of_filter. tauto. }
  split.
  - intros x. rewrite Hnext, Hsi. done.
  - intros x Hx. apply Hnext in Hx as [_ Hx]. apply Hsi in Hx as (r' & ek' & Hr' & Hreg').
    apply Hdom. by exists r', ek, ek'.
Qed.

End KeyLoaderFacts.

(** Witness: of two pipes in a row the first is in the map the loader
    builds. *)
Lemma key_loader_graph_closed_witness :
  exists ft r,
    KeyLoader.load (RT := planar) (fun _ _ => NaN) q_print Samples.two_pipes !! 1%Z
    = Some ft
    /\ r ∈ Samples.two_pipes
    /\ geometry ft = geometry (KeyLoader.raw_feature r).
Proof.
  assert (is_Some (KeyLoader.load (RT := planar) (fun _ _ => NaN) q_print
                     Samples.two_pipes !! 1%Z)) as [ft E]
    by (vm_compute; eexists; reflexivity).
  destruct (key_loader_graph_closed (RT := planar) (fun _ _ => NaN) q_print
              Samples.two_pipes 1%Z ft E) as (r & sk & ek & Hr & _ & Hg & _).
  exists ft, r. split; [exact E|]. split; [exact Hr | exact Hg].
Defined.

(** ** The bounding box *)

Section BBoxFacts.

(** The coordinates of the lines of the features, in file order. *)
Definition all_coordinates (features : list (option feature)) : list position :=
  features ≫= fun ft => mjoin (Snap.parts_of (ft ≫= geometry)).

(** The coordinate lies between the bounds, in each of its components that
    is not NaN. *)
Definition encloses (b : BBox.box) (c : position) : Prop :=
  (snd c <> NaN ->
   jsle (BBox.minLat b) (snd c) = true /\ jsle (snd c) (BBox.maxLat b) = true)
  /\ (fst c <> NaN ->
      jsle (BBox.minLng b) (fst c) = true /\ jsle (fst c) (BBox.maxLng b) = true).

(** A bound is its start value or a component of a coordinate seen. *)
Definition attained (f : position -> jsnum) (init m : jsnum) (seen : list position)
  : Prop :=
  m = init \/ exists c, c ∈ seen /\ f c = m.

Definition box_inv (b : BBox.box) (seen : list position) : Prop :=
  (BBox.minLat b <> NaN /\ BBox.minLng b <> NaN
   /\ BBox.maxLat b <> NaN /\ BBox.maxLng b <> NaN)
  /\ (forall c, c ∈ seen -> encloses b c)
  /\ (attained snd PInf (BBox.minLat b) seen /\ attained fst PInf (BBox.minLng b) seen
      /\ attained snd NInf (BBox.maxLat b) seen /\ attained fst NInf (BBox.maxLng b) seen).

Lemma jsle_refl (x : jsnum) : x <> NaN -> jsle x x = true.
Proof. destruct x; cbn; try done. intros _. apply Qle_bool_iff, Qle_refl. Qed.

Lemma lower_step (m x : jsnum) :
  m <> NaN ->
  (if jslt x m then x else m) <> NaN
  /\ (x <> NaN -> jsle (if jslt x m then x else m) x = true)
  /\ (forall y, jsle m y = true -> jsle (if jslt x m then x else m) y = true).
Proof.
  intros Hm. destruct (jslt x m) eqn:E.
  - split; [by destruct x|]. split; [apply jsle_refl|].
    intros y H. eapply jsle_trans; [|exact H]. by apply jslt_jsle.
  - split; [done|]. split; [|done]. intros Hx. by apply jslt_false_jsle.
Qed.

Lemma upper_step (m x : jsnum) :
  m <> NaN ->
  (if jsgt x m then x else m) <> NaN
  /\ (x <> NaN -> jsle x (if jsgt x m then x else m) = true)
  /\ (forall y, jsle y m = true -> jsle y (if jsgt x m then x else m) = true).
Proof.
  intros Hm. unfold jsgt. destruct (jslt m x) eqn:E.
  - split; [by destruct x, m|]. split; [apply jsle_refl|].
    intros y H. eapply jsle_trans; [exact H|]. by apply jslt_jsle.
  - split; [done|]. split; [|done]. intros Hx. by apply jslt_false_jsle.
Qed.

Lemma attained_step (f : position -> jsnum) (init m : jsnum) (seen : list position)
    (c : position) (take : bool) :
  attained f init m seen ->
  attained f init (if take then f c else m) (seen ++ [c]).
Proof.
  intros H. destruct take.
  - right. exists c. split; [|done]. apply elem_of_app. right.
    apply elem_of_cons. by left.
  - destruct H as [->|(c' & Hc' & <-)]; [by left|]. right. exists c'.
    split; [|done]. apply elem_of_app. by left.
Qed.

Lemma scanCoords_inv (b : BBox.box) (seen : list position) (c : position) :
  box_inv b seen -> box_inv (BBox.scanCoords b c) (seen ++ [c]).
Proof.
  intros ((H1 & H2 & H3 & H4) & Hseen & (A1 & A2 & A3 & A4)).
  unfold BBox.scanCoords, box_inv, encloses.
  cbn [BBox.minLat BBox.minLng BBox.maxLat BBox.maxLng].
  destruct (lower_step (BBox.minLat b) (snd c) H1) as (L1 & L1' & L1'').
  destruct (lower_step (BBox.minLng b) (fst c) H2) as (L2 & L2' & L2'').
  destruct (upper_step (BBox.maxLat b) (snd c) H3) as (U3 & U3' & U3'').
  destruct (upper_step (BBox.maxLng b) (fst c) H4) as (U4 & U4' & U4'').
  split; [done|]. split.
  - intros c' Hc'. apply elem_of_app in Hc' as [Hc'|Hc'].
    + destruct (Hseen c' Hc') as [Hlat Hlng]. split; intros Hn.
      * destruct (Hlat Hn). split; [by apply L1'' | by apply U3''].
      * destruct (Hlng Hn). split; [by apply L2'' | by apply U4''].
    + apply list_elem_of_singleton in Hc' as ->. split; intros Hn.
      * split; [by apply L1' | by apply U3'].
      * split; [by apply L2' | by apply U4'].
  - split; [by apply (attained_step snd)|]. split; [by apply (attained_step fst)|].
    split; [by apply (attained_step snd) | by apply (attained_step fst)].
Qed.

Lemma scan_line_inv (coords : list position) (b : BBox.box) (seen : list position) :
  box_inv b seen -> box_inv (foldl BBox.scanCoords b coords) (seen ++ coords).
Proof.
  revert b seen. induction coords as [|c coords IH]; intros b seen Hinv; cbn [foldl].
  - by rewrite app_nil_r.
  - rewrite (cons_middle c), app_assoc. apply IH. by apply scanCoords_inv.
Qed.

Lemma scan_lines_inv (lines : list (list position)) (b : BBox.box) (seen : list position) :
  box_inv b seen ->
  box_inv (foldl (foldl BBox.scanCoords) b lines) (seen ++ mjoin lines).
Proof.
  revert b seen. induction lines as [|l lines IH]; intros b seen Hinv; cbn [foldl].
  - cbn. by rewrite app_nil_r.
  - change (mjoin (l :: lines)) with (l ++ mjoin lines). rewrite app_assoc.
    apply IH. by apply scan_line_inv.
Qed.

Lemma scan_features_inv (features : list (option feature)) (b : BBox.box)
    (seen : list position) :
  box_inv b seen ->
  box_inv (foldl BBox.scan_feature b features) (seen ++ all_coordinates features).
Proof.
  revert b seen. induction features as [|ft features IH]; intros b seen Hinv; cbn [foldl].
  - cbn. by rewrite app_nil_r.
  - change (all_coordinates (ft :: features))
      with (mjoin (Snap.parts_of (ft ≫= geometry)) ++ all_coordinates features).
    rewrite app_assoc. apply IH. unfold BBox.scan_feature.
    destruct (ft ≫= geometry) as [[coords|lines|]|]; cbn [Snap.parts_of].
    + change (mjoin [coords]) with (coords ++ []). rewrite app_nil_r.
      by apply scan_line_inv.
    + by apply scan_lines_inv.
    + cbn. by rewrite app_nil_r.
    + cbn. by rewrite app_nil_r.
Qed.

(** X18: When the loader has a bounding box, its four numbers are finite, every
    coordinate of every line of every feature lies within it (a component that
    is NaN is passed over), and each of the four is a component of one of these
    coordinates.  Without any coordinate there is no box. *)
Theorem bbox_encloses (features : list (option feature)) :
  (forall b, BBox.bbox features = Some b ->
     (exists s w n e, b = BBox.mkBox (Fin s) (Fin w) (Fin n) (Fin e))
     /\ (forall c, c ∈ all_coordinates features -> encloses b c)
     /\ (exists c1 c2 c3 c4,
           c1 ∈ all_coordinates features /\ snd c1 = BBox.minLat b
           /\ c2 ∈ all_coordinates features /\ fst c2 = BBox.minLng b
           /\ c3 ∈ all_coordinates features /\ snd c3 = BBox.maxLat b
           /\ c4 ∈ all_coordinates features /\ fst c4 = BBox.maxLng b))
  /\ (all_coordinates features = [] -> BBox.bbox features = None).
Proof.
  assert (box_inv BBox.start []) as H0.
  { split; [by repeat split|].
    split; [intros c Hc; by apply elem_of_nil in Hc|]. repeat split; by left. }
  pose proof (scan_features_inv features BBox.start [] H0) as Hinv. cbn [app] in Hinv.
  destruct Hinv as (_ & Hseen & (A1 & A2 & A3 & A4)).
  unfold BBox.bbox.
  destruct (foldl BBox.scan_feature BBox.start features) as [s w n e].
  cbn [BBox.minLat BBox.minLng BBox.maxLat BBox.maxLng] in *.
  split.
  - intros b. destruct s as [s| | |], w as [w| | |], n as [n| | |], e as [e| | |];
      cbn; try done.
    intros [= <-]. split; [by exists s, w, n, e|]. split; [done|].
    destruct A1 as [?|(c1 & ? & ?)]; [done|]. destruct A2 as [?|(c2 & ? & ?)]; [done|].
    destruct A3 as [?|(c3 & ? & ?)]; [done|]. destruct A4 as [?|(c4 & ? & ?)]; [done|].
    by exists c1, c2, c3, c4.
  - intros Hnil. rewrite Hnil in A1.
    destruct A1 as [->|(c & Hc & _)]; [done|]. by apply elem_of_nil in Hc.
Qed.

End BBoxFacts.

(** ** The order in which the search tries the successors *)

Section CandidateOrder.
Context {RT : Runtime}.

Lemma sorted_same_name_first (score : Z -> Dfs.scored) (candidates : list Z) :
  (forall x, Dfs.s_id (score x) = x) ->
  StronglySorted
    (fun x y => Dfs.s_sameName (score y) = true -> Dfs.s_sameName (score x) = true)
    (map Dfs.s_id (sort_by Dfs.order_after (map score candidates))).
Proof.
  intros Hid.
  set (P := fun e : Dfs.scored => e = score (Dfs.s_id e)).
  set (R := fun a b : Dfs.scored =>
              P a /\ P b /\ (Dfs.s_sameName b = true -> Dfs.s_sameName a = true)).
  assert (Forall P (map score candidates)) as HP.
  { apply Forall_forall. intros e He. apply list_elem_of_In, in_map_iff in He as (x & <- & _).
    unfold P. by rewrite Hid. }
  assert (StronglySorted R (sort_by Dfs.order_after (map score candidates))) as Hs.
  { apply (sort_by_sorted Dfs.order_after R P); [| | |done].
    - intros a b Pa Pb Hafter. split; [done|]. split; [done|].
      unfold Dfs.order_after in Hafter.
      destruct (Dfs.s_sameName a), (Dfs.s_sameName b); cbn in *; done.
    - intros a b Pa Pb Hafter. split; [done|]. split; [done|].
      unfold Dfs.order_after in Hafter.
      destruct (Dfs.s_sameName a), (Dfs.s_sameName b); cbn in *; done.
    - intros a b c (Pa & Pb & Hab) (_ & Pc & Hbc). split; [done|]. split; [done|]. tauto. }
  change (map Dfs.s_id (sort_by Dfs.order_after (map score candidates)))
    with (Dfs.s_id <$> sort_by Dfs.order_after (map score candidates)).
  eapply StronglySorted_fmap; [|exact Hs].
  intros a b (Pa & Pb & Hab). cbn. by rewrite <- Pa, <- Pb.
Qed.

(** X19: [pickCandidateOrder] rearranges the candidates, none lost and none
    added, so that the candidates that have the name of the current segment
    come before all the others: the search tries them first. *)
Theorem pickCandidateOrder_same_name_first
    (candidates : list Z) (g : graph) (ft : option feature) :
  (CoordGraph.pickCandidateOrder candidates g ft ≡ₚ candidates
   /\ StronglySorted
        (fun x y =>
           Dfs.s_sameName (CoordGraph.score g (CoordGraph.raw_name (props_of ft)) y) = true ->
           Dfs.s_sameName (CoordGraph.score g (CoordGraph.raw_name (props_of ft)) x) = true)
        (CoordGraph.pickCandidateOrder candidates g ft))
  /\ (GeomOrder.pickCandidateOrder candidates g ft ≡ₚ candidates
      /\ StronglySorted
           (fun x y =>
              Dfs.s_sameName (GeomOrder.score g (Lookahead.name_of (props_of ft)) y) = true ->
              Dfs.s_sameName (GeomOrder.score g (Lookahead.name_of (props_of ft)) x) = true)
           (GeomOrder.pickCandidateOrder candidates g ft)).
Proof.
  split.
  - split; [exact (coord_graph_order_perm candidates g ft)|].
    exact (sorted_same_name_first
             (CoordGraph.score g (CoordGraph.raw_name (props_of ft))) candidates
             (fun x => eq_refl)).
  - split; [exact (geom_order_order_perm candidates g ft)|].
    exact (sorted_same_name_first
             (GeomOrder.score g (Lookahead.name_of (props_of ft))) candidates
             (fun x => eq_refl)).
Qed.

End CandidateOrder.

(** ** Connectivity by merged endpoints *)



Section ClusterFacts.
Context {RT : Runtime}.
Context (fpow : jsnum -> jsnum -> jsnum).
Context (parseInt : string -> jsnum).

(** Feature [r] of the file has the id [id] and the flow-start [up] and the
    flow-end [down]. *)
Definition flow_ends (r : KeyLoader.raw) (id : Z) (up down : LL) : Prop :=
  OBJECTID (props_of (Some (KeyLoader.raw_feature r))) = Some id
  /\ Endpoints.flow_endpoints (props_of (Some (KeyLoader.raw_feature r)))
       (Some (KeyLoader.raw_feature r)) = Some (up, down).

(** [a] is a flow endpoint of a pipe of the file. *)
Definition flow_end_point (features : list KeyLoader.raw) (a : LL) : Prop :=
  exists r id up down,
    r ∈ features /\ flow_ends r id up down /\ (a = up \/ a = down).

(** The Mercator coordinates of a point. *)
Definition mercator (a : LL) : jsnum * jsnum := mercatorMetersFromLngLat (lng a) (lat a).

(** [a] and [b] are flow endpoints of the file no more than the merge radius
    apart. *)
Definition hop (features : list KeyLoader.raw) (a b : LL) : Prop :=
  flow_end_point features a /\ flow_end_point features b
  /\ jsle (Cluster.dist_m (mercator a) (mercator b)) Cluster.MERGE_RADIUS_M = true.


(** *** The first pass *)






(** *** The endpoints and the grid *)









(** *** Merging *)







(** *** The nodes *)








(** *** The map of the segments *)




(** *** The scan *)







End ClusterFacts.

(** A file of one pipe: without its array of coordinates the scan throws and
    the loader ends there; with it the loader builds the map. *)
Example cluster_loader_scan :
  Cluster.load (RT := planar) (fun _ _ => NaN) (fun _ => NaN)
    [Cluster.mkFile (Some (Cluster.FileLineString None))
       (Some Samples.upstream_props) JUndef JUndef] = None
  /\ is_Some
       (Cluster.load (RT := planar) (fun _ _ => NaN) (fun _ => NaN)
          [Cluster.mkFile (Some (Cluster.FileLineString (Some Samples.upstream_line)))
             (Some Samples.upstream_props) JUndef JUndef]).
Proof. split; [vm_compute; reflexivity | vm_compute; by eexists]. Qed.

(** ** The lookahead score *)

(** The loop [for (x of l) { s = key(x); if (s < best) { best = s; arg = x } }]
    over integer keys, entered with the first element as the best: it ends
    on the first element of the least key. *)
Lemma least_fold (key : Z -> Z) (f : oid * option Z -> Z -> oid * option Z) :
  (forall acc x,
     f acc x = match snd acc with
               | None => (Some x, Some (key x))
               | Some s => if (key x <? s)%Z then (Some x, Some (key x)) else acc
               end) ->
  forall (l : list Z) (a : Z),
    exists pre b post,
      a :: l = pre ++ b :: post
      /\ foldl f (Some a, Some (key a)) l = (Some b, Some (key b))
      /\ (forall x, x ∈ pre -> (key b < key x)%Z)
      /\ (forall x, x ∈ post -> (key b <= key x)%Z).
Proof.
  intros Hf l a. induction l as [|y l IH] using rev_ind.
  { exists [], a, []. split; [done|]. split; [done|].
    split; intros x Hx; by apply elem_of_nil in Hx. }
  destruct IH as (pre & b & post & El & E & Hpre & Hpost).
  rewrite foldl_snoc, E, Hf. cbn [snd].
  destruct (key y <? key b)%Z eqn:Hlt.
  - apply Z.ltb_lt in Hlt. exists (pre ++ b :: post), y, [].
    split; [by rewrite app_comm_cons, El|]. split; [done|]. split.
    + intros x [Hx|[->|Hx]%elem_of_cons]%elem_of_app.
      * specialize (Hpre x Hx). lia.
      * done.
      * specialize (Hpost x Hx). lia.
    + intros x Hx. by apply elem_of_nil in Hx.
  - apply Z.ltb_ge in Hlt. exists pre, b, (post ++ [y]).
    split; [by rewrite app_comm_cons, El, <- app_assoc|]. split; [done|].
    split; [done|].
    intros x [Hx| ->%list_elem_of_singleton]%elem_of_app; [by apply Hpost | done].
Qed.

Section LookaheadScore.
Context {RT : Runtime}.

(** The loop of [lookaheadScore] takes no more hops than it is allowed, and
    adds to the total no more than 2 for a hop and 200 when it breaks. *)
Lemma lookahead_loop_bounds (g : graph) (visited : gset Z) (fuel : nat)
    (id prev : oid) (loc : gset Z) (total : Z) (hops : nat) :
  let r := Lookahead.lookahead_loop g visited fuel id prev loc total hops in
  (hops <= snd r <= hops + fuel)%nat
  /\ (total <= fst r)%Z
  /\ (fst r + 20 * (Z.of_nat (hops + fuel) - Z.of_nat (snd r))
      <= total + 20 * Z.of_nat fuel + 200)%Z.
Proof.
  revert id prev loc total hops.
  induction fuel as [|fuel IH]; intros id prev loc total hops; cbn zeta.
  { cbn. lia. }
  destruct id as [i|]; cbn [Lookahead.lookahead_loop]; [|cbn; lia].
  destruct (decide (i ∈ visited)); [cbn; lia|].
  destruct (decide (i ∈ loc)); [cbn; lia|].
  destruct (g !! i) as [ft|]; [|cbn; lia].
  match goal with
  | |- context [Lookahead.lookahead_loop g visited fuel ?id' ?prev' ?loc' ?total' ?hops'] =>
      specialize (IH id' prev' loc' total' hops');
      assert (total <= total' <= total + 2)%Z as Htot
        by (destruct (toNum _); lia);
      destruct (Lookahead.lookahead_loop g visited fuel id' prev' loc' total' hops')
        as [t h]
  end.
  cbn in *. lia.
Qed.

(** X21: With two candidates or more [chooseBestByLookahead] returns the
    first candidate of the least lookahead score: the candidates before it
    score more, and those after it do not score less.  A score is a number
    from 0 to 400. *)
Theorem chooseBestByLookahead_least_score
    (ids : list Z) (g : graph) (p : props) (cur prev : oid) (visited : gset Z) :
  (2 <= length ids)%nat ->
  let score := fun x => Lookahead.lookaheadScore x g p cur prev visited 10 in
  (exists pre best post,
     ids = pre ++ best :: post
     /\ Lookahead.chooseBestByLookahead ids g p cur prev visited = Some best
     /\ (forall x, x ∈ pre -> (score best < score x)%Z)
     /\ (forall x, x ∈ post -> (score best <= score x)%Z))
  /\ forall x, (0 <= score x <= 400)%Z.
Proof.
  intros Hlen score. split.
  - destruct ids as [|a [|b l]]; [cbn in Hlen; lia..|].
    destruct (least_fold score (Lookahead.score_step g p cur prev visited))
      with (l := b :: l) (a := a) as (pre & best & post & El & E & Hpre & Hpost).
    { intros acc x. unfold Lookahead.score_step. by destruct (snd acc). }
    exists pre, best, post. split; [done|]. split; [|done].
    unfold Lookahead.chooseBestByLookahead.
    change (foldl ?f (None, None) (a :: b :: l))
      with (foldl f (f (None, None) a) (b :: l)).
    change (Lookahead.score_step g p cur prev visited (None, None) a)
      with (Some a, Some (score a)).
    by rewrite E.
  - intros x. unfold score, Lookahead.lookaheadScore.
    pose proof (lookahead_loop_bounds g visited 10 (Some x) cur
                  (Lookahead.set_of cur ∪ Lookahead.set_of prev) 0 0) as Hb.
    cbn zeta in Hb. destruct (Lookahead.lookahead_loop _ _ _ _ _ _ _ _) as [t h].
    cbn in Hb. lia.
Qed.

End LookaheadScore.

(** Witness: the fork, after segment 10. *)
Lemma chooseBestByLookahead_least_score_witness :
  exists best,
    Lookahead.chooseBestByLookahead (RT := planar) [1; 2]%Z Fixtures.fork
      (props_of (Fixtures.fork !! 10%Z)) (Some 10%Z) None ∅ = Some best.
Proof.
  destruct (chooseBestByLookahead_least_score (RT := planar) [1; 2]%Z Fixtures.fork
              (props_of (Fixtures.fork !! 10%Z)) (Some 10%Z) None ∅)
    as [(pre & best & post & _ & E & _) _].
  - cbn. lia.
  - exists best. exact E.
Defined.

(** ** Where a plan of the DIR-only walk begins *)

Section PlanStart.
Context {RT : Runtime}.

Lemma nearest_step_index (sp : LL) (l : list LL) (idx : nat) (best : jsnum) (i : nat) :
  let r := fst (fst (foldl (DirOnly.nearest_step sp) (idx, best, i) l)) in
  r = idx \/ (i <= r < i + length l)%nat.
Proof.
  revert idx best i. induction l as [|x l IH]; intros idx best i; cbn zeta; [by left|].
  cbn [foldl length].
  destruct (jslt (metersBetween sp x) best) eqn:E.
  - assert (DirOnly.nearest_step sp (idx, best, i) x = (i, metersBetween sp x, S i))
      as -> by (unfold DirOnly.nearest_step; by rewrite E).
    specialize (IH i (metersBetween sp x) (S i)). cbn zeta in IH. lia.
  - assert (DirOnly.nearest_step sp (idx, best, i) x = (idx, best, S i))
      as -> by (unfold DirOnly.nearest_step; by rewrite E).
    specialize (IH idx best (S i)). cbn zeta in IH. lia.
Qed.

Lemma nearestIdx_lt (sp : LL) (ord : list LL) :
  ord <> [] -> (DirOnly.nearestIdx sp ord < length ord)%nat.
Proof.
  intros Hne. unfold DirOnly.nearestIdx.
  pose proof (nearest_step_index sp ord 0 PInf 0) as H. cbn zeta in H.
  destruct ord; [done|]. cbn [length] in *. lia.
Qed.

Lemma emit_cell_prefix (acc : list LL * gset string) (pt : LL) :
  fst acc `prefix_of` fst (DirOnly.emit_cell acc pt).
Proof.
  unfold DirOnly.emit_cell. destruct (decide _); [done|]. by apply prefix_app_r.
Qed.

Lemma emit_join_prefix (lastPt : option LL) (acc : list LL * gset string) (pt : LL) :
  fst acc `prefix_of` fst (DirOnly.emit_join lastPt acc pt).
Proof.
  unfold DirOnly.emit_join. destruct lastPt as [l|]; [|apply emit_cell_prefix].
  destruct (jslt _ _); [done | apply emit_cell_prefix].
Qed.

Lemma foldl_emit_prefix (f : list LL * gset string -> LL -> list LL * gset string)
    (pts : list LL) (acc : list LL * gset string) :
  (forall acc pt, fst acc `prefix_of` fst (f acc pt)) ->
  fst acc `prefix_of` fst (foldl f acc pts).
Proof.
  intros Hf. revert acc. induction pts as [|pt pts IH]; intros acc; [done|].
  cbn [foldl]. etrans; [apply Hf | apply IH].
Qed.

(** A hop only adds points at the end of the plan. *)
Lemma hop_plan_grows (g : graph) (startPoint : option LL) (s : DirOnly.tracer) :
  match DirOnly.hop g startPoint s with
  | DirOnly.Next s' | DirOnly.Break s' => DirOnly.plan s `prefix_of` DirOnly.plan s'
  | DirOnly.Raise => True
  end.
Proof.
  unfold DirOnly.hop.
  destruct (DirOnly.currentId s) as [cur|]; [|done].
  destruct (decide _); [done|].
  destruct (g !! cur) as [ft|]; [|done].
  destruct (length _ <? 2)%nat; [done|].
  assert (DirOnly.plan s `prefix_of`
            fst (fst (match DirOnly.first s, startPoint with
                      | true, Some sp =>
                          let plan0 := DirOnly.plan s ++ [mkLL (lat sp) (lng sp)] in
                          let '(pl, cs) :=
                            foldl DirOnly.emit_cell (plan0, DirOnly.visitedCells s)
                              (drop (DirOnly.nearestIdx sp
                                       (DirOnly.orderedCoordsForPipe (Some ft)))
                                 (DirOnly.orderedCoordsForPipe (Some ft))) in
                          (pl, cs, false)
                      | _, _ =>
                          let '(pl, cs) :=
                            foldl (DirOnly.emit_join (last (DirOnly.plan s)))
                              (DirOnly.plan s, DirOnly.visitedCells s)
                              (DirOnly.orderedCoordsForPipe (Some ft)) in
                          (pl, cs, DirOnly.first s)
                      end))) as Hpre.
  { assert (forall pts,
              DirOnly.plan s `prefix_of`
                fst (foldl (DirOnly.emit_join (last (DirOnly.plan s)))
                       (DirOnly.plan s, DirOnly.visitedCells s) pts)) as Hjoin.
    { intros pts.
      apply (foldl_emit_prefix (DirOnly.emit_join (last (DirOnly.plan s))) pts
               (DirOnly.plan s, DirOnly.visitedCells s)).
      apply emit_join_prefix. }
    destruct (DirOnly.first s), startPoint as [sp|]; cbn zeta.
    - pose proof (foldl_emit_prefix DirOnly.emit_cell
                    (drop (DirOnly.nearestIdx sp (DirOnly.orderedCoordsForPipe (Some ft)))
                       (DirOnly.orderedCoordsForPipe (Some ft)))
                    (DirOnly.plan s ++ [mkLL (lat sp) (lng sp)], DirOnly.visitedCells s)
                    emit_cell_prefix) as H.
      destruct (foldl DirOnly.emit_cell _ _) as [pl cs]. cbn [fst] in *.
      etrans; [|exact H]. by apply prefix_app_r.
    - specialize (Hjoin (DirOnly.orderedCoordsForPipe (Some ft))).
      by destruct (foldl _ _ _) as [pl cs].
    - specialize (Hjoin (DirOnly.orderedCoordsForPipe (Some ft))).
      by destruct (foldl _ _ _) as [pl cs].
    - specialize (Hjoin (DirOnly.orderedCoordsForPipe (Some ft))).
      by destruct (foldl _ _ _) as [pl cs]. }
  destruct (match DirOnly.first s with true => _ | false => _ end) as [[pl cs] fst'].
  cbn [fst] in Hpre. by destruct (DirOnly.chooseNextPipeDirOnly _ _ _ _ _).
Qed.

Lemma hops_plan_grows (g : graph) (startPoint : option LL) (maxHops : nat)
    (s t : DirOnly.tracer) (k : nat) :
  DirOnly.hops g startPoint maxHops s = Returns (t, k) ->
  DirOnly.plan s `prefix_of` DirOnly.plan t.
Proof.
  revert s k. induction maxHops as [|n IH]; intros s k; cbn [DirOnly.hops].
  - by intros [= <- _].
  - pose proof (hop_plan_grows g startPoint s) as Hstep.
    destruct (DirOnly.hop g startPoint s) as [s'|s'|]; [| |discriminate].
    + destruct (DirOnly.hops g startPoint n s') as [[t' k']|] eqn:E; [|discriminate].
      intros [= <- _]. etrans; [exact Hstep | by eapply IH].
    + by intros [= <- _].
Qed.

(** X22: A plan of the DIR-only walk from a snap point is empty exactly when
    the hop cap is 0, the start segment is not in the graph or it has no two
    coordinates to follow.  Otherwise it begins with the snap point, and goes
    on with the vertex of the start segment nearest to it, whichever side of
    the snap point that vertex lies on. *)
Theorem dir_only_plan_begins_at_snap
    (start : Z) (sp : LL) (g : graph) (maxHops : nat) (pl : list LL) :
  DirOnly.buildPipePlanFromObjectId (Some start) (Some sp) g maxHops = Returns pl ->
  let ord := DirOnly.orderedCoordsForPipe (g !! start) in
  (pl = [] <-> maxHops = 0%nat \/ g !! start = None \/ ord = [])
  /\ ((0 < maxHops)%nat -> is_Some (g !! start) -> ord <> [] ->
      exists v rest,
        ord !! DirOnly.nearestIdx sp ord = Some v /\ pl = sp :: v :: rest).
Proof.
  intros Hpl ord.
  unfold DirOnly.buildPipePlanFromObjectId, DirOnly.trace in Hpl.
  destruct maxHops as [|maxHops].
  { cbn in Hpl. injection Hpl as <-. split; [|lia]. split; [by left | done]. }
  cbn [DirOnly.hops] in Hpl.
  assert (ord = [] \/ (2 <= length ord)%nat) as Hord.
  { unfold ord, DirOnly.orderedCoordsForPipe.
    destruct (length _ <? 2)%nat eqn:E; [by left|]. right.
    apply Nat.ltb_ge in E. destruct (String.eqb _ _); [by rewrite length_rev | done]. }
  unfold DirOnly.hop in Hpl. cbn [DirOnly.start_state DirOnly.currentId DirOnly.visited
    DirOnly.plan DirOnly.visitedCells DirOnly.prevId DirOnly.first] in Hpl.
  destruct (decide (start ∈ (∅ : gset Z))) as [Hin|_]; [by apply elem_of_empty in Hin|].
  destruct (g !! start) as [ft|] eqn:Eft.
  2:{ injection Hpl as <-. split; [|by intros _ [? ?]].
      split; [intros _; right; by left | done]. }
  fold ord in Hpl.
  destruct Hord as [Hnil|Hlen].
  { rewrite Hnil in Hpl. cbn in Hpl. injection Hpl as <-.
    split; [|done]. split; [intros _; right; by right | done]. }
  assert ((length ord <? 2)%nat = false) as Elen by (by apply Nat.ltb_ge).
  rewrite Elen in Hpl.
  assert (ord <> []) as Hne by (intros E; rewrite E in Hlen; cbn in Hlen; lia).
  destruct (lookup_lt_is_Some_2 ord (DirOnly.nearestIdx sp ord)) as [v Ev];
    [by apply nearestIdx_lt|].
  rewrite (drop_S _ _ _ Ev) in Hpl. cbn [foldl app] in Hpl.
  assert (DirOnly.emit_cell ([mkLL (lat sp) (lng sp)], ∅) v
          = ([mkLL (lat sp) (lng sp); v], {[gridKey v (Fin 5)]} ∪ ∅)) as Hfirst.
  { unfold DirOnly.emit_cell. cbn [fst snd].
    destruct (decide _) as [Hin|_]; [by apply elem_of_empty in Hin | done]. }
  rewrite Hfirst in Hpl.
  pose proof (foldl_emit_prefix DirOnly.emit_cell
                (drop (S (DirOnly.nearestIdx sp ord)) ord)
                ([mkLL (lat sp) (lng sp); v], {[gridKey v (Fin 5)]} ∪ ∅)
                emit_cell_prefix) as Hgrow.
  destruct (foldl DirOnly.emit_cell _ _) as [pl1 cs1]. cbn [fst] in Hgrow.
  assert (exists rest, pl = sp :: v :: rest) as [rest ->].
  { destruct (DirOnly.chooseNextPipeDirOnly _ _ _ _ _) as [nextId|]; [|discriminate].
    destruct (DirOnly.hops g (Some sp) maxHops _) as [[t k]|] eqn:E; [|discriminate].
    injection Hpl as <-. apply hops_plan_grows in E. cbn [DirOnly.plan] in E.
    destruct (transitivity Hgrow E) as [rest ->]. exists rest. by destruct sp. }
  split; [|by exists v, rest]. split; [done|]. by intros [?|[?|?]].
Qed.

End PlanStart.

(** Witness: the ring from segment 1, snap point on its second vertex. *)
Lemma dir_only_plan_begins_at_snap_witness :
  exists v rest,
    DirOnly.orderedCoordsForPipe (RT := planar) (Fixtures.ring !! 1%Z)
      !! DirOnly.nearestIdx (RT := planar) (Fixtures.at_ 1 1)
           (DirOnly.orderedCoordsForPipe (RT := planar) (Fixtures.ring !! 1%Z)) = Some v
    /\ [Fixtures.at_ 1 1; Fixtures.at_ 1 1; Fixtures.at_ 2 2; Fixtures.at_ 0 0]
       = Fixtures.at_ 1 1 :: v :: rest.
Proof.
  refine (proj2 (dir_only_plan_begins_at_snap (RT := planar) 1%Z (Fixtures.at_ 1 1)
                   Fixtures.ring 2000
                   [Fixtures.at_ 1 1; Fixtures.at_ 1 1; Fixtures.at_ 2 2;
                    Fixtures.at_ 0 0] _) _ _ _).
  - vm_compute. reflexivity.
  - apply Nat.lt_0_succ.
  - vm_compute. by eexists.
  - vm_compute. discriminate.
Defined.

(** ** The speed of a point in the pipe *)

Section SpeedFacts.
Context {RT : Runtime}.

(** Clamping into the band a second time changes nothing. *)
Lemma clamp_band_idem (v : jsnum) :
  clamp (clamp v Motion.PIPE_SPEED_MIN_MPS Motion.PIPE_SPEED_MAX_MPS)
    Motion.PIPE_SPEED_MIN_MPS Motion.PIPE_SPEED_MAX_MPS
  = clamp v Motion.PIPE_SPEED_MIN_MPS Motion.PIPE_SPEED_MAX_MPS.
Proof.
  unfold clamp, Motion.PIPE_SPEED_MIN_MPS, Motion.PIPE_SPEED_MAX_MPS.
  destruct v as [q| | |]; [|by vm_compute..].
  assert (forall x, js_min (Fin 3) (Fin x) = if Qlt_le_dec x 3 then Fin x else Fin 3)
    as Hmin by (intros x; unfold js_min, jslt; by destruct (Qlt_le_dec x 3)).
  assert (forall x, js_max (Fin (2 # 10)) (Fin x)
                    = if Qlt_le_dec (2 # 10) x then Fin x else Fin (2 # 10))
    as Hmax by (intros x; unfold js_max, jslt; by destruct (Qlt_le_dec (2 # 10) x)).
  rewrite (Hmin q). destruct (Qlt_le_dec q 3) as [H3|H3]; [|by vm_compute].
  rewrite (Hmax q). destruct (Qlt_le_dec (2 # 10) q) as [H2|H2]; [|by vm_compute].
  rewrite Hmin. destruct (Qlt_le_dec q 3); [|lra].
  rewrite Hmax. by destruct (Qlt_le_dec (2 # 10) q); [|lra].
Qed.

Lemma or_else_truthy (x d : jsnum) :
  num_truthy d = true -> num_truthy (Motion.or_else x d) = true.
Proof.
  intros Hd. unfold Motion.or_else. by destruct (num_truthy x) eqn:E.
Qed.

(** The segment a point in the pipe reads its speed from. *)
Definition segment_of (pt : Motion.point) : oid := Motion.pipe pt ≫= Motion.objectId.

(** The speed of the next tick, once a tick has stored its speed. *)
Lemma tick_speed_stored (g : option graph) (pt pt' : Motion.point) (i : option nat) :
  Motion.pipe pt'
  = Some (Motion.with_speed (Motion.pipe pt) i (Motion.tick_speed g pt)) ->
  segment_of pt' = segment_of pt
  /\ Motion.tick_speed g pt' = Motion.tick_speed g pt.
Proof.
  intros Hpipe. unfold segment_of. rewrite Hpipe. cbn [mbind option_bind].
  split; [by destruct (Motion.pipe pt)|].
  unfold Motion.tick_speed at 1. rewrite Hpipe.
  assert (Motion.objectId (Motion.with_speed (Motion.pipe pt) i (Motion.tick_speed g pt))
          = match Motion.pipe pt with Some ps => Motion.objectId ps | None => None end)
    as -> by (by destruct (Motion.pipe pt)).
  assert (Motion.speedMps (Motion.with_speed (Motion.pipe pt) i (Motion.tick_speed g pt))
          = Motion.tick_speed g pt) as -> by (by destruct (Motion.pipe pt)).
  unfold Motion.tick_speed.
  set (speed := Motion.or_else
                  match Motion.pipe pt with
                  | Some ps => Motion.speedMps ps
                  | None => NaN
                  end (Fin (6 # 10))).
  assert (num_truthy speed = true) as Hspeed by (by apply or_else_truthy).
  assert (speed <> NaN) as Hnan by (intros E; by rewrite E in Hspeed).
  destruct g as [gr|], (match Motion.pipe pt with
                        | Some ps => Motion.objectId ps
                        | None => None
                        end) as [id|];
    try (unfold Motion.or_else; by rewrite Hspeed).
  cbn zeta.
  set (o := toNum (_v_half_mps (props_of (gr !! id)))).
  set (s := clamp (num_or o speed) Motion.PIPE_SPEED_MIN_MPS Motion.PIPE_SPEED_MAX_MPS).
  assert (Motion.or_else s (Fin (6 # 10)) = s) as ->.
  { unfold Motion.or_else. rewrite in_band_truthy; [done|].
    apply clamp_in_band. by apply num_or_not_nan. }
  subst s. unfold num_or. destruct o as [q|]; [destruct (Qeq_bool q 0)|]; try done;
    apply clamp_band_idem.
Qed.

(** X23: A tick leaves the segment a point reads its speed from as it is,
    and the speed it moves the point with is the speed of the next tick: a
    point travels the whole plan at one speed.  That speed is the one
    [enterPipeMode] stored, the clamped half-full velocity of the segment the
    point entered on; the segments the plan goes on through do not change
    it. *)
Theorem pipe_speed_never_changes (g : option graph) (fast : bool) (pt : Motion.point) :
  let pt' := fst (Motion.tick g fast pt) in
  (segment_of pt' = segment_of pt
   /\ Motion.tick_speed g pt' = Motion.tick_speed g pt)
  /\ forall entered,
       Motion.enterPipeMode g pt = Returns entered ->
       Motion.mode entered = Motion.Pipe ->
       exists ps,
         Motion.pipe entered = Some ps
         /\ Motion.objectId ps = (Motion.contact pt ≫= Motion.pipeObjectId)
         /\ Motion.tick_speed g entered = Motion.speedMps ps.
Proof.
  cbn zeta. split.
  - unfold Motion.tick.
    destruct (Motion.mode pt) eqn:Emode; [|
      |by split |by split].
    + destruct (Motion.street pt) as [st|]; [|by split].
      destruct (Motion.route st) as [r|]; [|by split].
      destruct (r !! _) as [target|]; [|by split].
      destruct (Motion.advance _ _ _) as [[la ln] reached].
      by destruct reached.
    + destruct (Motion.pipePlan pt) as [plan|]; [|by split].
      destruct (plan !! _) as [target|]; [|by split].
      destruct (Motion.advance _ _ _) as [[la ln] reached].
      destruct reached; cbn [fst]; by eapply tick_speed_stored.
  - intros entered Henter Hmode. unfold Motion.enterPipeMode in Henter.
    destruct g as [gr|].
    2:{ destruct (match Motion.contact pt with Some c => Motion.pipeObjectId c | None => None end),
          (match Motion.contact pt with Some c => Motion.c_point c | None => None end);
          injection Henter as <-; discriminate. }
    destruct (Motion.contact pt) as [c|]; [|injection Henter as <-; discriminate].
    destruct (Motion.pipeObjectId c) as [id|] eqn:Eid;
      [|injection Henter as <-; discriminate].
    destruct (Motion.c_point c) as [cp|]; [|injection Henter as <-; discriminate].
    destruct (DirOnly.buildPipePlanFromObjectId _ _ _ _) as [plan|]; [|discriminate].
    assert (forall x y : Motion.point, Returns x = Returns y -> x = y) as Hinj
      by (intros x y H; congruence).
    apply Hinj in Henter. subst entered. eexists. split; [reflexivity|].
    split; [done|]. unfold Motion.tick_speed.
    cbn [Motion.pipe Motion.speedMps Motion.objectId].
    set (o := toNum (_v_half_mps (props_of (gr !! id)))).
    set (s := clamp (num_or o (Fin 0)) Motion.PIPE_SPEED_MIN_MPS Motion.PIPE_SPEED_MAX_MPS).
    assert (Motion.or_else s (Fin (6 # 10)) = s) as ->.
    { unfold Motion.or_else. rewrite in_band_truthy; [done|].
      apply clamp_in_band. by apply num_or_not_nan. }
    subst s. unfold num_or. destruct o as [q|]; [destruct (Qeq_bool q 0)|];
      try done; apply clamp_band_idem.
Qed.

End SpeedFacts.

(** Witness: the point that enters the ring on segment 1 moves at the
    lower bound of the band. *)
Lemma pipe_speed_never_changes_witness :
  exists ps,
    Motion.pipe Fixtures.entered = Some ps
    /\ Motion.objectId ps = Some 1%Z
    /\ Motion.tick_speed (RT := planar) (Some Fixtures.ring) Fixtures.entered
       = Motion.speedMps ps.
Proof.
  refine (proj2 (pipe_speed_never_changes (RT := planar) (Some Fixtures.ring) false
                   Fixtures.arriving) Fixtures.entered _ _).
  - vm_compute. reflexivity.
  - vm_compute. reflexivity.
Defined.

(** ** The longest part of a multi-part line *)

Section LongestPart.
Context {RT : Runtime}.

Lemma longest_part_spec (parts : list (list position)) :
  (DirOnly.longest_part parts = ([], (-1)%Z)
   /\ forall part, part ∈ parts -> (length part < 2)%nat)
  \/ exists pre best post,
       parts = pre ++ best :: post
       /\ DirOnly.longest_part parts = (best, Z.of_nat (length best))
       /\ (2 <= length best)%nat
       /\ (forall x, x ∈ pre -> (length x < length best)%nat)
       /\ (forall x, x ∈ post -> (length x <= length best)%nat).
Proof.
  unfold DirOnly.longest_part.
  induction parts as [|part parts IH] using rev_ind.
  { left. split; [done|]. by intros part H%elem_of_nil. }
  rewrite foldl_snoc.
  destruct IH as [[-> Hshort]|(pre & best & post & -> & -> & Hlen & Hpre & Hpost)].
  - destruct (length part <? 2)%nat eqn:E.
    + left. split; [done|]. apply Nat.ltb_lt in E.
      intros x [Hx| ->%list_elem_of_singleton]%elem_of_app; [by apply Hshort | done].
    + apply Nat.ltb_ge in E. right. exists parts, part, [].
      split; [done|]. split.
      { destruct (_ <? _)%Z eqn:E'; [done|]. apply Z.ltb_ge in E'. lia. }
      split; [done|]. split.
      * intros x Hx. specialize (Hshort x Hx). lia.
      * by intros x H%elem_of_nil.
  - right. destruct (length part <? 2)%nat eqn:E.
    + apply Nat.ltb_lt in E. exists pre, best, (post ++ [part]).
      split; [by rewrite <- app_assoc|]. split; [done|]. split; [done|].
      split; [done|].
      intros x [Hx| ->%list_elem_of_singleton]%elem_of_app; [by apply Hpost | lia].
    + destruct (_ <? _)%Z eqn:E'.
      * apply Z.ltb_lt in E'. exists (pre ++ best :: post), part, [].
        split; [done|]. split; [done|]. apply Nat.ltb_ge in E. split; [done|].
        split.
        -- intros x [Hx|[->|Hx]%elem_of_cons]%elem_of_app.
           ++ specialize (Hpre x Hx). lia.
           ++ lia.
           ++ specialize (Hpost x Hx). lia.
        -- by intros x H%elem_of_nil.
      * apply Z.ltb_ge in E'. exists pre, best, (post ++ [part]).
        split; [by rewrite <- app_assoc|]. split; [done|]. split; [done|].
        split; [done|].
        intros x [Hx| ->%list_elem_of_singleton]%elem_of_app; [by apply Hpost | lia].
Qed.

(** X24: Of a multi-part line the DIR-only variant keeps one part only, the
    first of the parts with the most coordinates, and drops the others; a
    line whose parts all have fewer than two coordinates has no
    coordinates. *)
Theorem flattenFeatureCoords_longest_part
    (parts : list (list position)) (ps : option props) :
  let coords :=
    DirOnly.flattenFeatureCoords (Some (mkFeature (Some (MultiLineString parts)) ps)) in
  ((forall part, part ∈ parts -> (length part < 2)%nat) -> coords = [])
  /\ (forall part, part ∈ parts -> (2 <= length part)%nat ->
      exists pre best post,
        parts = pre ++ best :: post
        /\ coords = map toLL best
        /\ (2 <= length best)%nat
        /\ (forall x, x ∈ pre -> (length x < length best)%nat)
        /\ (forall x, x ∈ post -> (length x <= length best)%nat)).
Proof.
  cbn zeta. unfold DirOnly.flattenFeatureCoords. cbn [geometry].
  destruct (longest_part_spec parts)
    as [[-> Hshort]|(pre & best & post & El & -> & Hlen & Hpre & Hpost)].
  - split; [done|]. intros part Hpart Hlen. specialize (Hshort part Hpart). lia.
  - assert ((0 <? Z.of_nat (length best))%Z = true) as -> by (apply Z.ltb_lt; lia).
    split.
    + intros Hshort. assert (length best < 2)%nat; [|lia].
      apply Hshort. rewrite El. apply elem_of_app. right. apply elem_of_cons. by left.
    + intros _ _ _. by exists pre, best, post.
Qed.

End LongestPart.

(** ** The successor without invert levels *)

Section Fallbacks.
Context {RT : Runtime}.

(** [toNum(p.PIPE_LENGTH)] of candidate [x]. *)
Definition pipe_length (g : graph) (x : Z) : option Q :=
  toNum (PIPE_LENGTH (props_of (g !! x))).

Lemma lowest_step_none (g : graph) (l : list Z) :
  (forall x, x ∈ l -> level g x = None) ->
  foldl (Lookahead.lowest_step g) (None, None) l = (None, None).
Proof.
  intros Hl. induction l as [|x l IH] using rev_ind; [done|].
  rewrite foldl_snoc, IH.
  - unfold Lookahead.lowest_step. fold (level g x).
    rewrite Hl; [done|]. apply elem_of_app. right. by apply list_elem_of_singleton.
  - intros y Hy. apply Hl. apply elem_of_app. by left.
Qed.

Lemma longest_step_fold (g : graph) (l : list Z) :
  (foldl (Lookahead.longest_step g) (None, None) l = (None, None)
   /\ forall x, x ∈ l -> pipe_length g x = None)
  \/ exists pre b post lb,
       l = pre ++ b :: post
       /\ foldl (Lookahead.longest_step g) (None, None) l = (Some b, Some lb)
       /\ pipe_length g b = Some lb
       /\ (forall x lx, x ∈ pre -> pipe_length g x = Some lx -> (lx < lb)%Q)
       /\ (forall x lx, x ∈ post -> pipe_length g x = Some lx -> (lx <= lb)%Q).
Proof.
  induction l as [|y l IH] using rev_ind.
  { left. split; [done|]. by intros x H%elem_of_nil. }
  rewrite foldl_snoc.
  destruct IH as [[-> Hnone]|(pre & b & post & lb & -> & -> & Hb & Hpre & Hpost)];
    unfold Lookahead.longest_step; fold (pipe_length g y); cbn [snd];
    destruct (pipe_length g y) as [ly|] eqn:Ey.
  - right. exists l, y, [], ly. split; [done|]. split; [done|]. split; [done|].
    split.
    + intros x lx Hx Ex. by rewrite Hnone in Ex.
    + by intros x lx H%elem_of_nil.
  - left. split; [done|].
    intros x [Hx| ->%list_elem_of_singleton]%elem_of_app; [by apply Hnone | done].
  - right. destruct (Qlt_le_dec lb ly) as [Hlt|Hle].
    + exists (pre ++ b :: post), y, [], ly.
      split; [done|]. split; [done|]. split; [done|]. split.
      * intros x lx [Hx|[->|Hx]%elem_of_cons]%elem_of_app Ex.
        -- specialize (Hpre x lx Hx Ex). lra.
        -- assert (lx = lb) as -> by congruence. done.
        -- specialize (Hpost x lx Hx Ex). lra.
      * by intros x lx H%elem_of_nil.
    + exists pre, b, (post ++ [y]), lb.
      split; [by rewrite <- app_assoc|]. split; [done|]. split; [done|].
      split; [done|].
      intros x lx [Hx| ->%list_elem_of_singleton]%elem_of_app Ex;
        [by eapply Hpost | congruence].
  - right. exists pre, b, (post ++ [y]), lb.
    split; [by rewrite <- app_assoc|]. split; [done|]. split; [done|].
    split; [done|].
    intros x lx [Hx| ->%list_elem_of_singleton]%elem_of_app Ex;
      [by eapply Hpost | congruence].
Qed.

(** X25: When no candidate (after the same-name preference) has a numeric
    downstream invert level, [chooseNextPipeLowestDownIL] falls back in this
    order: the segment candidate of the current segment, when it is one of the
    candidates; else the first of the candidates with the greatest numeric
    length; else, when no candidate has a numeric length, the first
    candidate. *)
Theorem chooseNextPipeLowestDownIL_fallbacks
    (nextIds : list Z) (g : graph) (p : props) :
  nextIds <> [] ->
  (forall x, x ∈ Lookahead.name_candidates nextIds g p -> level g x = None) ->
  let cands := Lookahead.name_candidates nextIds g p in
  let segCand := _segment_candidate_objectid p in
  let choice := Lookahead.chooseNextPipeLowestDownIL (Some nextIds) g p in
  (Lookahead.seg_candidate_usable segCand cands = true -> choice = segCand)
  /\ (Lookahead.seg_candidate_usable segCand cands = false ->
      (forall b lb, b ∈ cands -> pipe_length g b = Some lb ->
         exists pre best post lbest,
           cands = pre ++ best :: post /\ choice = Some best
           /\ pipe_length g best = Some lbest
           /\ (forall x lx, x ∈ pre -> pipe_length g x = Some lx -> (lx < lbest)%Q)
           /\ (forall x lx, x ∈ post -> pipe_length g x = Some lx -> (lx <= lbest)%Q))
      /\ ((forall x, x ∈ cands -> pipe_length g x = None) -> choice = head cands)).
Proof.
  intros Hne Hlevels cands segCand choice.
  assert (choice
          = if Lookahead.seg_candidate_usable segCand cands then segCand
            else match fst (foldl (Lookahead.longest_step g) (None, None) cands) with
                 | Some bestLenId => Some bestLenId
                 | None => head cands
                 end) as Hchoice.
  { unfold choice, Lookahead.chooseNextPipeLowestDownIL.
    destruct nextIds as [|n0 ns]; [done|].
    fold cands. by rewrite (lowest_step_none g cands Hlevels). }
  split; [intros E; by rewrite Hchoice, E|].
  intros E. rewrite Hchoice, E.
  destruct (longest_step_fold g cands)
    as [[-> Hnone]|(pre & b & post & lb & El & -> & Hb & Hpre & Hpost)]; cbn [fst].
  - split; [|done]. intros b lb Hb Elb. by rewrite Hnone in Elb.
  - split.
    + intros _ _ _ _. by exists pre, b, post, lb.
    + intros Hnone. rewrite Hnone in Hb; [done|].
      rewrite El. apply elem_of_app. right. apply elem_of_cons. by left.
Qed.

End Fallbacks.

(** Witness: the ring, whose segments have neither invert levels nor
    lengths; the first candidate is chosen. *)
Lemma chooseNextPipeLowestDownIL_fallbacks_witness :
  Lookahead.chooseNextPipeLowestDownIL (RT := planar) (Some [2; 3]%Z) Fixtures.ring
    (props_of (Fixtures.ring !! 1%Z)) = Some 2%Z.
Proof.
  assert (Lookahead.name_candidates (RT := planar) [2; 3]%Z Fixtures.ring
            (props_of (Fixtures.ring !! 1%Z)) = [2; 3]%Z) as Hc
    by (vm_compute; reflexivity).
  destruct (chooseNextPipeLowestDownIL_fallbacks (RT := planar) [2; 3]%Z Fixtures.ring
              (props_of (Fixtures.ring !! 1%Z))) as [_ H].
  - done.
  - rewrite Hc. intros x Hx.
    apply elem_of_cons in Hx as [->|Hx]; [vm_compute; reflexivity|].
    apply list_elem_of_singleton in Hx as ->. vm_compute. reflexivity.
  - destruct H as [_ H]; [vm_compute; reflexivity|].
    rewrite H; [by rewrite Hc|].
    rewrite Hc. intros x Hx.
    apply elem_of_cons in Hx as [->|Hx]; [vm_compute; reflexivity|].
    apply list_elem_of_singleton in Hx as ->. vm_compute. reflexivity.
Defined.
